(** * The array functions of [dbms/src/Functions/FunctionsArray.cpp]

    A shallow embedding of the vectorised array functions ([arrayElement],
    [arrayEnumerate], [arrayUniq], [arrayEnumerateUniq], [emptyArrayToSingle],
    [range], [arrayReverse]) and of the helpers that deduce the element
    type of an array, together with the properties of their
    natural-language specification and further properties of the code.

    Conventions of the embedding:
    - a [size_t] / [UInt64] value is a [Z] and every operation that can
      leave the range is wrapped explicitly ([size_t], [wrap]);
    - a [PODArray] is a [list Z]; cells that the code allocates without
      writing them hold whatever [garbage] the memory contains;
    - an access outside a buffer has no meaning in C++ and is given none
      here: [get] reads 0 and [store] writes nothing there, and the
      statements are about inputs on which every access is inside;
    - a C++ exception is the [Throw] branch of [Result];
    - functions keep the names they have in the source and live in a module
      named after their class or namespace. *)

From Stdlib Require Import ZArith Lia.
From stdpp Require Import base numbers list gmap.

Open Scope Z_scope.

(** ** Machine integers *)

Definition wrap (bits z : Z) : Z := z mod 2 ^ bits.

(** Arithmetic in (or conversion to) [size_t], which is 64 bits wide. *)
Definition size_t (z : Z) : Z := wrap 64 z.

(** Two's complement reading of the low [bits] bits. *)
Definition swrap (bits z : Z) : Z := wrap bits (z + 2 ^ (bits - 1)) - 2 ^ (bits - 1).

Inductive NumType :=
  | UInt8 | UInt16 | UInt32 | UInt64
  | Int8 | Int16 | Int32 | Int64
  | Float32 | Float64.

#[global] Instance NumType_eq_dec : EqDecision NumType.
Proof. solve_decision. Defined.

Definition bits (T : NumType) : Z :=
  match T with
  | UInt8 | Int8 => 8
  | UInt16 | Int16 => 16
  | UInt32 | Int32 | Float32 => 32
  | UInt64 | Int64 | Float64 => 64
  end.

Definition is_unsigned (T : NumType) : bool :=
  match T with UInt8 | UInt16 | UInt32 | UInt64 => true | _ => false end.

Definition is_float (T : NumType) : bool :=
  match T with Float32 | Float64 => true | _ => false end.

Definition is_signed (T : NumType) : bool :=
  match T with Int8 | Int16 | Int32 | Int64 => true | _ => false end.

(** The values a variable of integral type [T] can hold. *)
Definition in_range (T : NumType) (z : Z) : Prop :=
  if is_unsigned T then 0 <= z < 2 ^ bits T
  else - 2 ^ (bits T - 1) <= z < 2 ^ (bits T - 1).

(** Conversion of a [size_t] to the numeric type [T] (unsigned [T] only). *)
Definition to_unsigned (T : NumType) (z : Z) : Z := wrap (bits T) z.

(** ** Exceptions *)

Inductive ErrorCode :=
  | LOGICAL_ERROR
  | ILLEGAL_COLUMN
  | ILLEGAL_TYPE_OF_ARGUMENT
  | ZERO_ARRAY_OR_TUPLE_INDEX
  | SIZES_OF_ARRAYS_DOESNT_MATCH
  | ARGUMENT_OUT_OF_BOUND.

Inductive Result (A : Type) :=
  | Ok (a : A)
  | Throw (e : ErrorCode).
Arguments Ok {A} a.
Arguments Throw {A} e.

#[global] Instance Result_ret : MRet Result := fun A a => Ok a.
#[global] Instance Result_bind : MBind Result := fun A B f m =>
  match m with Ok a => f a | Throw e => Throw e end.

(** ** Buffers *)

(** What freshly allocated memory holds, cell by cell. The functions never
    depend on it when they write every cell they allocate. *)
Class Memory := garbage : nat -> Z.

Definition size (l : list Z) : Z := Z.of_nat (length l).

(** [l[j]] *)
Definition get (l : list Z) (j : Z) : Z := l !!! Z.to_nat j.

(** [l[j] = v] *)
Definition store (l : list Z) (j v : Z) : list Z := <[Z.to_nat j := v]> l.

(** [l.push_back(v)] *)
Definition push_back (l : list Z) (v : Z) : list Z := l ++ [v].

(** [PODArray::resize(n)]: cells beyond the old size are not initialised. *)
Definition resize_uninit `{Memory} (n : Z) (l : list Z) : list Z :=
  take (Z.to_nat n) l ++ (garbage <$> seq (length l) (Z.to_nat n - length l)).

(** A [PODArray] (or a column over one) constructed with [n] elements. *)
Definition alloc `{Memory} (n : Z) : list Z := resize_uninit n [].

(** [memcpy(&dst[dpos], &src[spos], n)] over cells. *)
Definition memcpy (dst : list Z) (dpos : Z) (src : list Z) (spos n : Z) : list Z :=
  take (Z.to_nat dpos) dst
    ++ take (Z.to_nat n) (drop (Z.to_nat spos) src)
    ++ drop (Z.to_nat dpos + Z.to_nat n) dst.

(** ** Loops *)

(** [for (size_t i = a; i < a + n; ++i) s = body(i, s);] *)
Fixpoint for_loop {S : Type} (n : nat) (i : Z) (body : Z -> S -> S) (s : S) : S :=
  match n with
  | O => s
  | Datatypes.S n' => for_loop n' (i + 1) body (body i s)
  end.

(** [for (size_t i = a; i < b; ++i) s = body(i, s);] *)
Definition for_range {S : Type} (a b : Z) (body : Z -> S -> S) (s : S) : S :=
  for_loop (Z.to_nat (b - a)) a body s.

(** The same loop when the body can throw. *)
Fixpoint for_loopM {S : Type} (n : nat) (i : Z) (body : Z -> S -> Result S) (s : S)
  : Result S :=
  match n with
  | O => Ok s
  | Datatypes.S n' => s' ← body i s; for_loopM n' (i + 1) body s'
  end.

Definition for_rangeM {S : Type} (a b : Z) (body : Z -> S -> Result S) (s : S)
  : Result S :=
  for_loopM (Z.to_nat (b - a)) a body s.

(** ** Values and columns *)

(** [Field]: a dynamically typed value. *)
#[warnings="-register-all"]
Inductive Field :=
  | Null
  | FUInt64 (v : Z)
  | FInt64 (v : Z)
  | FFloat64 (v : Z)
  | FString (s : list Z)
  | FArray (a : list Field)
  | FTuple (t : list Field).

(** [Array] is [std::vector<Field>]. *)
Abbreviation Array := (list Field).

#[global] Instance Field_inhabited : Inhabited Field := populate Null.

(** Equality of [Field]s is decidable. *)
Definition Field_eq_dec : forall x y : Field, {x = y} + {x <> y}.
Proof.
  fix IH 1. intros x y.
  decide equality; try apply Z.eq_dec; try apply (@list_eq_dec Z Z.eq_dec);
    apply (@list_eq_dec Field IH).
Defined.

#[global] Instance Field_eq_decision : EqDecision Field := Field_eq_dec.

Definition isNull (f : Field) : bool :=
  match f with Null => true | _ => false end.

(** [IDataType], as far as the functions look at it. *)
#[warnings="-register-all"]
Inductive DataType :=
  | DataTypeNumber (T : NumType)
  | DataTypeString
  | DataTypeFixedString (n : Z)
  | DataTypeArray (nested : DataType)
  | DataTypeNullable (nested : DataType)
  | DataTypeTuple (elems : list DataType)
  | DataTypeNull.

(** Calls of the [IColumn] interface that fill a column whose representation
    the caller does not know. What they store is decided outside this file,
    so a column filled this way is kept as the list of the calls made. *)
Inductive FieldOp :=
  | Insert (x : Field)            (* [insert(x)] *)
  | InsertDefaultField.           (* [insertDefault()] *)

Inductive CloneOp :=
  | InsertFrom (n : Z)                  (* [insertFrom(src, n)] *)
  | InsertRangeFrom (start length : Z)  (* [insertRangeFrom(src, start, length)] *)
  | InsertDefault.                      (* [insertDefault()] *)

(** The column representations the functions distinguish.
    - [ColumnConst type value s] is a constant column of [s] rows, seen the
      way the functions read it: through [getValue] and [operator[]], which
      give the [Field] it holds.
    - [ColumnFromType type ops] is [type->createColumn()] after the calls
      [ops]; [ColumnCloneEmpty src ops] is [src.cloneEmpty()] after the
      calls [ops], each of which takes its elements from [src]. *)
#[warnings="-register-all"]
Inductive IColumn :=
  | ColumnVector (T : NumType) (data : list Z)
  | ColumnString (chars offsets : list Z)
  | ColumnFixedString (n : Z) (chars : list Z)
  | ColumnNullable (nested : IColumn) (null_map : list Z)
  | ColumnArray (data : IColumn) (offsets : list Z)
  | ColumnTuple (columns : list IColumn)
  | ColumnConst (type : DataType) (value : Field) (s : Z)
  | ColumnFromType (type : DataType) (ops : list FieldOp)
  | ColumnCloneEmpty (src : IColumn) (ops : list CloneOp).

(** [Field::operator==] and [Field::operator<] are declared outside this
    file; the functions are parameterised by them. *)
Class FieldInterface := {
  field_equal : Field -> Field -> bool;
  field_less : Field -> Field -> bool;
}.

(** [IDataType::getDefault], likewise. *)
Class DataTypeInterface := getDefault : DataType -> Field.

(** [checkAndGetColumnConst<ColumnArray>(column)->getValue<Array>()] *)
Definition checkAndGetColumnConst_Array (column : IColumn) : option (Array * Z) :=
  match column with
  | ColumnConst (DataTypeArray _) (FArray value) s => Some (value, s)
  | _ => None
  end.

(** [ColumnConst::getValue<T>()] for a numeric [T]. *)
Definition getValue_number (value : Field) : Z :=
  match value with
  | FUInt64 v | FInt64 v | FFloat64 v => v
  | _ => 0
  end.

(** [isNullable()] *)
Definition isNullable (column : IColumn) : bool :=
  match column with ColumnNullable _ _ => true | _ => false end.

(** The test that a null map is given and its cell [j] equals 1. *)
Definition null_at (null_map_data : option (list Z)) (j : Z) : bool :=
  match null_map_data with
  | Some null_map => get null_map j =? 1
  | None => false
  end.

(** [ColumnString]: the strings lie one after the other in [chars], each
    followed by a zero byte; [offsets[n]] is the position after the zero
    byte of string [n]. *)
Definition offsetAt (offsets : list Z) (n : Z) : Z :=
  if n =? 0 then 0 else get offsets (n - 1).

(** [ColumnString::getDataAt(n)]: string [n] without its zero byte. *)
Definition getDataAt (chars offsets : list Z) (n : Z) : list Z :=
  let start := offsetAt offsets n in
  take (Z.to_nat (get offsets n - start - 1)) (drop (Z.to_nat start) chars).

(** ** [range] *)

Module FunctionRange.

Definition max_elements : Z := 100000000.

(** The function object given to [std::accumulate]. *)
Definition add_checked (lhs rhs : Z) : Result Z :=
  let sum := size_t (lhs + rhs) in
  if sum <? lhs then Throw ARGUMENT_OUT_OF_BOUND else Ok sum.

Fixpoint accumulate (in_data : list Z) (init : Z) : Result Z :=
  match in_data with
  | [] => Ok init
  | rhs :: rest => sum ← add_checked init rhs; accumulate rest sum
  end.

(** The state of the filling loop: output cells, output offsets and the
    running [offset]. *)
Record Out := mkOut { out_data : list Z; out_offsets : list Z; offset : Z }.

(** One iteration of the loop over the rows, for a row of [elems] elements. *)
Definition fill_row (T : NumType) (elems row_idx : Z) (o : Out) : Out :=
  let data :=
    for_range 0 elems
      (fun elem_idx d => store d (size_t (offset o + elem_idx)) (to_unsigned T elem_idx))
      (out_data o) in
  let offset' := size_t (offset o + elems) in
  mkOut data (store (out_offsets o) row_idx offset') offset'.

Definition executeInternal `{Memory} (T : NumType) (arg : IColumn)
  : option (Result IColumn) :=
  match arg with
  | ColumnVector T' in_data =>
      if decide (T' = T) then Some (
        total_values ← accumulate in_data 0;
        if total_values >? max_elements then Throw ARGUMENT_OUT_OF_BOUND else
        let o := for_range 0 (size in_data)
                   (fun row_idx o => fill_row T (get in_data row_idx) row_idx o)
                   (mkOut (alloc total_values) (alloc (size in_data)) 0) in
        Ok (ColumnArray (ColumnVector T (out_data o)) (out_offsets o)))
      else None
  | ColumnConst (DataTypeNumber T') value s =>
      if decide (T' = T) then Some (
        let in_data := getValue_number value in
        if negb (in_data =? 0) && (s >? (2 ^ 64 - 1) `div` in_data)
        then Throw ARGUMENT_OUT_OF_BOUND else
        let total_values := size_t (s * in_data) in
        if total_values >? max_elements then Throw ARGUMENT_OUT_OF_BOUND else
        let o := for_range 0 s
                   (fun row_idx o => fill_row T in_data row_idx o)
                   (mkOut (alloc total_values) (alloc s) 0) in
        Ok (ColumnArray (ColumnVector T (out_data o)) (out_offsets o)))
      else None
  | _ => None
  end.

Definition executeImpl `{Memory} (col : IColumn) : Result IColumn :=
  match executeInternal UInt8 col with
  | Some r => r
  | None =>
  match executeInternal UInt16 col with
  | Some r => r
  | None =>
  match executeInternal UInt32 col with
  | Some r => r
  | None =>
  match executeInternal UInt64 col with
  | Some r => r
  | None => Throw ILLEGAL_COLUMN
  end end end end.

End FunctionRange.

(** ** [arrayUniq] *)

Module FunctionArrayUniq.

Section Rows.
Context {K : Type} `{Countable K}.

(** The key inserted for the element [j]: [values[j]] for a numeric column,
    [nested->getDataAt(j)] for a string column. *)
Variable key : Z -> K.

(** The scratch state of one row: the hash set and [found_null]. *)
Record Scan := mkScan { set : gset K; found_null : bool }.

(** The inner loop, over the elements [prev_off .. off - 1] of one row. *)
Definition scan_row (null_map_data : option (list Z)) (prev_off off : Z) : Scan :=
  for_range prev_off off
    (fun j s =>
       if null_at null_map_data j then mkScan (set s) true
       else mkScan ({[key j]} ∪ set s) (found_null s))
    (mkScan ∅ false).

(** The loop over the rows; it is the same text in [executeNumber] and
    [executeString]. The state is [res_values] and [prev_off]. *)
Definition count_rows (offsets : list Z) (null_map_data : option (list Z))
    (res_values : list Z) : list Z :=
  fst (for_range 0 (size offsets)
         (fun i st =>
            let off := get offsets i in
            let s := scan_row null_map_data (snd st) off in
            (store (fst st) i
               (wrap 32 (Z.of_nat (base.size (set s)) + (if found_null s then 1 else 0))),
             off))
         (res_values, 0)).

End Rows.

Definition executeNumber (T : NumType) (array : IColumn) (null_map : option (list Z))
    (res_values : list Z) : option (list Z) :=
  match array with
  | ColumnArray array_data offsets =>
      let inner_col :=
        match array_data with ColumnNullable nested _ => nested | _ => array_data end in
      match inner_col with
      | ColumnVector T' values =>
          if decide (T' = T)
          then Some (count_rows (get values) offsets null_map res_values)
          else None
      | _ => None
      end
  | _ => None
  end.

Definition executeString (array : IColumn) (null_map : option (list Z))
    (res_values : list Z) : option (list Z) :=
  match array with
  | ColumnArray array_data offsets =>
      let inner_col :=
        match array_data with ColumnNullable nested _ => nested | _ => array_data end in
      match inner_col with
      | ColumnString chars string_offsets =>
          Some (count_rows (getDataAt chars string_offsets) offsets null_map res_values)
      | _ => None
      end
  | _ => None
  end.

(** [std::set<Field>::insert]: the set keeps one element of every class of
    elements that compare equivalent, so it is kept as the list of those. *)
Definition set_insert `{FieldInterface} (x : Field) (set : list Field) : list Field :=
  if existsb (fun y => negb (field_less x y) && negb (field_less y x)) set
  then set else set ++ [x].

Definition executeConst `{FieldInterface} (column : IColumn) : option IColumn :=
  match checkAndGetColumnConst_Array column with
  | Some (values, s) =>
      let set :=
        for_range 0 (Z.of_nat (length values))
          (fun i set => set_insert (values !!! Z.to_nat i) set) [] in
      Some (ColumnConst (DataTypeNumber UInt32) (FUInt64 (Z.of_nat (length set))) s)
  | None => None
  end.

(** [executeImpl] for one argument. *)
Definition executeImpl `{FieldInterface} `{Memory} (column : IColumn) : Result IColumn :=
  match executeConst column with
  | Some res => Ok res
  | None =>
  match column with
  | ColumnArray array_data offsets =>
      let first_null_map :=
        match array_data with ColumnNullable _ null_map => Some null_map | _ => None end in
      let res_values := resize_uninit (size offsets) [] in
      let try T := executeNumber T column first_null_map res_values in
      match try UInt8 with Some res => Ok (ColumnVector UInt32 res) | None =>
      match try UInt16 with Some res => Ok (ColumnVector UInt32 res) | None =>
      match try UInt32 with Some res => Ok (ColumnVector UInt32 res) | None =>
      match try UInt64 with Some res => Ok (ColumnVector UInt32 res) | None =>
      match try Int8 with Some res => Ok (ColumnVector UInt32 res) | None =>
      match try Int16 with Some res => Ok (ColumnVector UInt32 res) | None =>
      match try Int32 with Some res => Ok (ColumnVector UInt32 res) | None =>
      match try Int64 with Some res => Ok (ColumnVector UInt32 res) | None =>
      match try Float32 with Some res => Ok (ColumnVector UInt32 res) | None =>
      match try Float64 with Some res => Ok (ColumnVector UInt32 res) | None =>
      match executeString column first_null_map res_values with
      | Some res => Ok (ColumnVector UInt32 res)
      | None => Throw ILLEGAL_COLUMN
      end end end end end end end end end end end
  | _ => Throw ILLEGAL_COLUMN
  end
  end.

End FunctionArrayUniq.

(** ** [arrayEnumerateUniq] *)

Module FunctionArrayEnumerateUniq.

Section Rows.
Context {K : Type} `{Countable K}.
Variable key : Z -> K.

(** The state of the inner loop: [res_values], the hash map [indices] and
    [null_count]. *)
Record Ranks := mkRanks { res : list Z; indices : gmap K Z; null_count : Z }.

(** [++indices[k]] on [UInt32] counters; a key that is not in the map yet
    starts from zero. *)
Definition increment (k : K) (indices : gmap K Z) : Z :=
  wrap 32 (default 0 (indices !! k) + 1).

Definition rank_row (null_map_data : option (list Z)) (prev_off off : Z)
    (res_values : list Z) : list Z :=
  res (for_range prev_off off
         (fun j r =>
            if null_at null_map_data j
            then let n := wrap 32 (null_count r + 1) in
                 mkRanks (store (res r) j n) (indices r) n
            else let c := increment (key j) (indices r) in
                 mkRanks (store (res r) j c) (<[key j := c]> (indices r)) (null_count r))
         (mkRanks res_values ∅ 0)).

Definition rank_rows (offsets : list Z) (null_map_data : option (list Z))
    (res_values : list Z) : list Z :=
  fst (for_range 0 (size offsets)
         (fun i st =>
            let off := get offsets i in
            (rank_row null_map_data (snd st) off (fst st), off))
         (res_values, 0)).

End Rows.

Definition executeNumber (T : NumType) (array : IColumn) (null_map : option (list Z))
    (res_values : list Z) : option (list Z) :=
  match array with
  | ColumnArray array_data offsets =>
      let inner_col :=
        match array_data with ColumnNullable nested _ => nested | _ => array_data end in
      match inner_col with
      | ColumnVector T' values =>
          if decide (T' = T)
          then Some (rank_rows (get values) offsets null_map res_values)
          else None
      | _ => None
      end
  | _ => None
  end.

Definition executeString (array : IColumn) (null_map : option (list Z))
    (res_values : list Z) : option (list Z) :=
  match array with
  | ColumnArray array_data offsets =>
      let inner_col :=
        match array_data with ColumnNullable nested _ => nested | _ => array_data end in
      match inner_col with
      | ColumnString chars string_offsets =>
          Some (rank_rows (getDataAt chars string_offsets) offsets null_map res_values)
      | _ => None
      end
  | _ => None
  end.

(** [++indices[k]] on a [std::map<Field, UInt32>], kept as the list of its
    entries. *)
Fixpoint map_increment `{FieldInterface} (k : Field) (indices : list (Field * Z))
  : Z * list (Field * Z) :=
  match indices with
  | [] => (1, [(k, 1)])
  | (k', c) :: rest =>
      if negb (field_less k k') && negb (field_less k' k)
      then (wrap 32 (c + 1), (k', wrap 32 (c + 1)) :: rest)
      else let (n, rest') := map_increment k rest in (n, (k', c) :: rest')
  end.

Definition executeConst `{FieldInterface} (result_type : DataType) (column : IColumn)
  : option IColumn :=
  match checkAndGetColumnConst_Array column with
  | Some (values, s) =>
      let out :=
        for_range 0 (Z.of_nat (length values))
          (fun i st =>
             let (n, indices) := map_increment (values !!! Z.to_nat i) (snd st) in
             (fst st ++ [FUInt64 n], indices))
          ([], []) in
      Some (ColumnConst result_type (FArray (fst out)) s)
  | None => None
  end.

(** [executeImpl] for one argument. *)
Definition executeImpl `{FieldInterface} `{Memory} (result_type : DataType)
    (column : IColumn) : Result IColumn :=
  match executeConst result_type column with
  | Some res => Ok res
  | None =>
  match column with
  | ColumnArray array_data offsets =>
      let first_null_map :=
        match array_data with ColumnNullable _ null_map => Some null_map | _ => None end in
      let res_values :=
        if decide (offsets = []) then []
        else resize_uninit (get offsets (size offsets - 1)) [] in
      let done res := Ok (ColumnArray (ColumnVector UInt32 res) offsets) in
      let try T := executeNumber T column first_null_map res_values in
      match try UInt8 with Some res => done res | None =>
      match try UInt16 with Some res => done res | None =>
      match try UInt32 with Some res => done res | None =>
      match try UInt64 with Some res => done res | None =>
      match try Int8 with Some res => done res | None =>
      match try Int16 with Some res => done res | None =>
      match try Int32 with Some res => done res | None =>
      match try Int64 with Some res => done res | None =>
      match try Float32 with Some res => done res | None =>
      match try Float64 with Some res => done res | None =>
      match executeString column first_null_map res_values with
      | Some res => done res
      | None => Throw ILLEGAL_COLUMN
      end end end end end end end end end end end
  | _ => Throw ILLEGAL_COLUMN
  end
  end.

End FunctionArrayEnumerateUniq.

(** ** [emptyArrayToSingle] *)

Module FunctionEmptyArrayToSingleImpl.

Definition executeConst `{DataTypeInterface} (argument_type result_type : DataType)
    (rows : Z) (column : IColumn) : option IColumn :=
  match checkAndGetColumnConst_Array column with
  | Some (value, _) =>
      if decide (value = [])
      then
        let nested_type :=
          match argument_type with DataTypeArray nested => nested | _ => DataTypeNull end in
        Some (ColumnConst result_type (FArray [getDefault nested_type]) rows)
      else Some column
  | None => None
  end.

(** [executeNumber], [executeFixedString] and [executeGeneric] are the same
    loop over the rows; they differ in how a non-empty row is copied to the
    result and in what an empty row is replaced by. *)
Section Rows.
Context {D : Type}.

(** [copy res_prev_offset src_prev_offset size_to_write res_data] and
    [push_default res_data]. *)
Variable copy : Z -> Z -> Z -> D -> D.
Variable push_default : D -> D.
Variable nullable : bool.

Record State := mkState {
  res_data : D;
  res_null_map : list Z;
  res_offsets : list Z;
  src_prev_offset : Z;
  res_prev_offset : Z;
}.

(** One iteration, for the row [i] that ends at [off], which is
    [src_offsets[i]]. *)
Definition row `{Memory} (src_null_map : list Z) (off i : Z) (st : State) : State :=
  let st' :=
    if negb (off =? src_prev_offset st)
    then
      let size_to_write := size_t (off - src_prev_offset st) in
      let res_prev_offset' := size_t (res_prev_offset st + size_to_write) in
      mkState
        (copy (res_prev_offset st) (src_prev_offset st) size_to_write (res_data st))
        (if nullable
         then memcpy (resize_uninit res_prev_offset' (res_null_map st))
                (res_prev_offset st) src_null_map (src_prev_offset st) size_to_write
         else res_null_map st)
        (store (res_offsets st) i res_prev_offset')
        (src_prev_offset st) res_prev_offset'
    else
      let res_prev_offset' := size_t (res_prev_offset st + 1) in
      mkState
        (push_default (res_data st))
        (if nullable then push_back (res_null_map st) 1 else res_null_map st)
        (store (res_offsets st) i res_prev_offset')
        (src_prev_offset st) res_prev_offset' in
  mkState (res_data st') (res_null_map st') (res_offsets st')
    off (res_prev_offset st').

Definition rows `{Memory} (src_offsets : list Z) (res_data : D) (res_offsets : list Z)
    (src_null_map res_null_map : list Z) : State :=
  for_range 0 (size src_offsets)
    (fun i st => row src_null_map (get src_offsets i) i st)
    (mkState res_data res_null_map (resize_uninit (size src_offsets) res_offsets) 0 0).

End Rows.

(** The result columns a function writes to: the data column, the offsets
    and the null map. *)
Definition Written : Type := IColumn * list Z * list Z.

Definition written {D} (column : D -> IColumn) (st : State (D:=D)) : Written :=
  (column (res_data st), res_offsets st, res_null_map st).

Definition executeNumber `{Memory} (T : NumType) (nullable : bool) (src_data : IColumn)
    (src_offsets : list Z) (res_data_col : IColumn) (res_offsets : list Z)
    (src_null_map res_null_map : list Z) : option Written :=
  match src_data, res_data_col with
  | ColumnVector T' src_data, ColumnVector _ res_data =>
      if decide (T' = T) then
        Some (written (ColumnVector T)
          (rows
             (fun res_prev_offset src_prev_offset size_to_write res_data =>
                memcpy (resize_uninit (size_t (res_prev_offset + size_to_write)) res_data)
                  res_prev_offset src_data src_prev_offset size_to_write)
             (fun res_data => push_back res_data 0)
             nullable src_offsets res_data res_offsets src_null_map res_null_map))
      else None
  | _, _ => None
  end.

Definition executeFixedString `{Memory} (nullable : bool) (src_data : IColumn)
    (src_offsets : list Z) (res_data_col : IColumn) (res_offsets : list Z)
    (src_null_map res_null_map : list Z) : option (Result Written) :=
  match src_data with
  | ColumnFixedString n src_data =>
      match res_data_col with
      | ColumnFixedString _ res_data =>
          Some (Ok (written (ColumnFixedString n)
            (rows
               (fun _ src_prev_offset size_to_write res_data =>
                  let prev_res_data_size := size res_data in
                  memcpy
                    (resize_uninit (size_t (prev_res_data_size + size_t (size_to_write * n)))
                       res_data)
                    prev_res_data_size src_data (size_t (src_prev_offset * n))
                    (size_t (size_to_write * n)))
               (fun res_data => res_data ++ replicate (Z.to_nat n) 0)
               nullable src_offsets res_data res_offsets src_null_map res_null_map)))
      | _ => Some (Throw LOGICAL_ERROR)
      end
  | _ => None
  end.

(** The state of [executeString]. *)
Record Strings := mkStrings {
  res_chars : list Z;
  res_string_offsets : list Z;
  strings_null_map : list Z;   (* [res_null_map] *)
  res_array_offsets : list Z;
  src_array_prev_offset : Z;
  res_array_prev_offset : Z;
  src_string_prev_offset : Z;
  res_string_prev_offset : Z;
}.

Definition string_row `{Memory} (nullable : bool) (src_data src_string_offsets : list Z)
    (src_array_offsets src_null_map : list Z) (i : Z) (st : Strings) : Strings :=
  let st' :=
    if negb (get src_array_offsets i =? src_array_prev_offset st)
    then
      let array_size := size_t (get src_array_offsets i - src_array_prev_offset st) in
      (* the loop over the strings of the row: the state is
         [res_string_prev_offset], [res_string_offsets],
         [from_string_prev_offset_local] and [bytes_to_copy] *)
      let '(res_string_prev_offset', res_string_offsets', _, bytes_to_copy) :=
        for_range 0 array_size
          (fun j '(res_string_prev_offset, res_string_offsets,
                   from_string_prev_offset_local, bytes_to_copy) =>
             let string_size :=
               size_t (get src_string_offsets (size_t (src_array_prev_offset st + j))
                       - from_string_prev_offset_local) in
             let res_string_prev_offset := size_t (res_string_prev_offset + string_size) in
             (res_string_prev_offset,
              push_back res_string_offsets res_string_prev_offset,
              size_t (from_string_prev_offset_local + string_size),
              size_t (bytes_to_copy + string_size)))
          (res_string_prev_offset st, res_string_offsets st,
           src_string_prev_offset st, 0) in
      let res_data_old_size := size (res_chars st) in
      let res_array_prev_offset' := size_t (res_array_prev_offset st + array_size) in
      mkStrings
        (memcpy (resize_uninit (size_t (res_data_old_size + bytes_to_copy)) (res_chars st))
           res_data_old_size src_data (src_string_prev_offset st) bytes_to_copy)
        res_string_offsets'
        (if nullable
         then memcpy (resize_uninit res_array_prev_offset' (strings_null_map st))
                (res_array_prev_offset st) src_null_map (src_array_prev_offset st)
                array_size
         else strings_null_map st)
        (store (res_array_offsets st) i res_array_prev_offset')
        (src_array_prev_offset st) res_array_prev_offset'
        (src_string_prev_offset st) res_string_prev_offset'
    else
      let res_string_prev_offset' := size_t (res_string_prev_offset st + 1) in
      let res_array_prev_offset' := size_t (res_array_prev_offset st + 1) in
      mkStrings
        (push_back (res_chars st) 0)
        (push_back (res_string_offsets st) res_string_prev_offset')
        (if nullable then push_back (strings_null_map st) 1 else strings_null_map st)
        (store (res_array_offsets st) i res_array_prev_offset')
        (src_array_prev_offset st) res_array_prev_offset'
        (src_string_prev_offset st) res_string_prev_offset' in
  let src_array_prev_offset' := get src_array_offsets i in
  mkStrings (res_chars st') (res_string_offsets st') (strings_null_map st')
    (res_array_offsets st') src_array_prev_offset' (res_array_prev_offset st')
    (if negb (src_array_prev_offset' =? 0)
     then get src_string_offsets (src_array_prev_offset' - 1)
     else src_string_prev_offset st')
    (res_string_prev_offset st').

Definition executeString `{Memory} (nullable : bool) (src_data : IColumn)
    (src_array_offsets : list Z) (res_data_col : IColumn) (array_offsets : list Z)
    (src_null_map null_map : list Z) : option (Result Written) :=
  match src_data with
  | ColumnString src_data src_string_offsets =>
      match res_data_col with
      | ColumnString res_data string_offsets =>
          let st :=
            for_range 0 (size src_array_offsets)
              (string_row nullable src_data src_string_offsets src_array_offsets
                 src_null_map)
              (mkStrings res_data string_offsets null_map
                 (resize_uninit (size src_array_offsets) array_offsets) 0 0 0 0) in
          Some (Ok (ColumnString (res_chars st) (res_string_offsets st),
                    res_array_offsets st, strings_null_map st))
      | _ => Some (Throw LOGICAL_ERROR)
      end
  | _ => None
  end.

(** The calls [res_data] has received since [cloneEmpty()]. *)
Definition calls (res_data : IColumn) : list CloneOp :=
  match res_data with ColumnCloneEmpty _ ops => ops | _ => [] end.

Definition executeGeneric `{Memory} (nullable : bool) (src_data : IColumn)
    (src_offsets : list Z) (res_data : IColumn) (res_offsets : list Z)
    (src_null_map res_null_map : list Z) : Written :=
  written (ColumnCloneEmpty src_data)
    (rows
       (fun _ src_prev_offset size_to_write res_data =>
          res_data ++ [InsertRangeFrom src_prev_offset size_to_write])
       (fun res_data => res_data ++ [InsertDefault])
       nullable src_offsets (calls res_data) res_offsets src_null_map res_null_map).

Definition executeDispatch `{Memory} (nullable : bool) (src_data : IColumn)
    (src_array_offsets : list Z) (res_data_col : IColumn) (res_array_offsets : list Z)
    (src_null_map res_null_map : list Z) : Result Written :=
  let number T :=
    executeNumber T nullable src_data src_array_offsets res_data_col res_array_offsets
      src_null_map res_null_map in
  match number UInt8 with Some w => Ok w | None =>
  match number UInt16 with Some w => Ok w | None =>
  match number UInt32 with Some w => Ok w | None =>
  match number UInt64 with Some w => Ok w | None =>
  match number Int8 with Some w => Ok w | None =>
  match number Int16 with Some w => Ok w | None =>
  match number Int32 with Some w => Ok w | None =>
  match number Int64 with Some w => Ok w | None =>
  match number Float32 with Some w => Ok w | None =>
  match number Float64 with Some w => Ok w | None =>
  match executeString nullable src_data src_array_offsets res_data_col res_array_offsets
          src_null_map res_null_map with
  | Some r => r
  | None =>
  match executeFixedString nullable src_data src_array_offsets res_data_col
          res_array_offsets src_null_map res_null_map with
  | Some r => r
  | None =>
      Ok (executeGeneric nullable src_data src_array_offsets res_data_col
            res_array_offsets src_null_map res_null_map)
  end end end end end end end end end end end end.

End FunctionEmptyArrayToSingleImpl.

Module FunctionEmptyArrayToSingle.

(** [IColumn::cloneEmpty()] for the representations a function writes to
    directly; any other column is filled through the interface. *)
Definition cloneEmpty (column : IColumn) : IColumn :=
  match column with
  | ColumnVector T _ => ColumnVector T []
  | ColumnString _ _ => ColumnString [] []
  | ColumnFixedString n _ => ColumnFixedString n []
  | _ => ColumnCloneEmpty column []
  end.

Definition executeImpl `{Memory} `{DataTypeInterface} (argument_type result_type : DataType)
    (rows : Z) (column : IColumn) : Result IColumn :=
  match FunctionEmptyArrayToSingleImpl.executeConst argument_type result_type rows column with
  | Some res => Ok res
  | None =>
  match column with
  | ColumnArray src_data src_offsets =>
      match src_data with
      | ColumnNullable inner_col src_null_map =>
          '(inner_res_col, res_offsets, res_null_map) ←
            FunctionEmptyArrayToSingleImpl.executeDispatch true inner_col src_offsets
              (cloneEmpty inner_col) [] src_null_map [];
          Ok (ColumnArray (ColumnNullable inner_res_col res_null_map) res_offsets)
      | _ =>
          '(res_data, res_offsets, _) ←
            FunctionEmptyArrayToSingleImpl.executeDispatch false src_data src_offsets
              (cloneEmpty src_data) [] [] [];
          Ok (ColumnArray res_data res_offsets)
      end
  | _ => Throw ILLEGAL_COLUMN
  end
  end.

End FunctionEmptyArrayToSingle.

(** ** [arrayElement] *)

Module ArrayImpl.

(** [NullMapBuilder]. The source of the null marks is the null map of a
    [ColumnNullable] or a constant array; without either the builder is
    inactive. [sink_size] is the member [size]. *)
Record NullMapBuilder := mkBuilder {
  src_nullable_col : option (list Z);
  src_array : option Array;
  sink_null_map : list Z;
  sink_size : Z;
  index : Z;
}.

Definition empty : NullMapBuilder := mkBuilder None None [] 0 0.

(** [operator bool] *)
Definition active (b : NullMapBuilder) : bool :=
  match src_nullable_col b, src_array b with
  | None, None => false
  | _, _ => true
  end.

Definition initSource_nullable (b : NullMapBuilder) (null_map : list Z) : NullMapBuilder :=
  mkBuilder (Some null_map) (src_array b) (sink_null_map b) (sink_size b) (index b).

Definition initSource_array (b : NullMapBuilder) (array : Array) : NullMapBuilder :=
  mkBuilder (src_nullable_col b) (Some array) (sink_null_map b) (sink_size b) (index b).

Definition initSink `{Memory} (b : NullMapBuilder) (s : Z) : NullMapBuilder :=
  mkBuilder (src_nullable_col b) (src_array b) (alloc s) s (index b).

(** [ColumnNullable::isNullAt]: the cell of the null map is not zero. *)
Definition isNullAt (null_map : list Z) (n : Z) : bool := negb (get null_map n =? 0).

(** [update(from)] *)
Definition update_from (b : NullMapBuilder) (from : Z) : Result NullMapBuilder :=
  if index b >=? sink_size b then Throw LOGICAL_ERROR else
  let is_null :=
    match src_nullable_col b with
    | Some null_map => isNullAt null_map from
    | None =>
        match src_array b with
        | Some array =>
            if from <? Z.of_nat (length array) then isNull (array !!! Z.to_nat from)
            else true
        | None => true
        end
    end in
  Ok (mkBuilder (src_nullable_col b) (src_array b)
        (store (sink_null_map b) (index b) (if is_null then 1 else 0))
        (sink_size b) (index b + 1)).

(** [update()] *)
Definition update (b : NullMapBuilder) : Result NullMapBuilder :=
  if index b >=? sink_size b then Throw LOGICAL_ERROR else
  Ok (mkBuilder (src_nullable_col b) (src_array b)
        (store (sink_null_map b) (index b) 0)
        (sink_size b) (index b + 1)).

Definition getNullMap (b : NullMapBuilder) : list Z := sink_null_map b.

(** [if (builder) builder.update(j);] and [if (builder) builder.update();] *)
Definition observe (b : NullMapBuilder) (j : Z) : Result NullMapBuilder :=
  if active b then update_from b j else Ok b.

Definition observe_miss (b : NullMapBuilder) : Result NullMapBuilder :=
  if active b then update b else Ok b.

End ArrayImpl.

Import ArrayImpl.

(** [-index] for an [index] of the type [TIndex], after the integral
    promotion: the narrow types are negated as [int], where nothing
    overflows; the others wrap around in their own width. *)
Definition negate (TIndex : NumType) (index : Z) : Z :=
  match TIndex with
  | UInt32 => wrap 32 (- index)
  | UInt64 => wrap 64 (- index)
  | Int32 => swrap 32 (- index)
  | Int64 => swrap 64 (- index)
  | _ => - index
  end.

(** The three cases of the loops over a per-row index. *)
Inductive Access :=
  | FromStart   (* [index > 0 && static_cast<size_t>(index) <= array_size] *)
  | FromEnd     (* [index < 0 && static_cast<size_t>(-index) <= array_size] *)
  | Miss.

Definition access (TIndex : NumType) (index array_size : Z) : Access :=
  if (index >? 0) && (size_t index <=? array_size) then FromStart
  else if (index <? 0) && (size_t (negate TIndex index) <=? array_size) then FromEnd
  else Miss.

Module ArrayElementNumImpl.

Record Loop := mkLoop { result : list Z; builder : NullMapBuilder; current_offset : Z }.

Definition vectorConst `{Memory} (negative : bool) (data offsets : list Z) (index : Z)
    (result : list Z) (builder : NullMapBuilder) : Result (list Z * NullMapBuilder) :=
  let size := size offsets in
  st ← for_rangeM 0 size
         (fun i st =>
            let array_size := size_t (get offsets i - current_offset st) in
            if index <? array_size then
              let j := if negb negative then size_t (current_offset st + index)
                       else size_t (get offsets i - index - 1) in
              b ← observe (ArrayElementNumImpl.builder st) j;
              Ok (mkLoop (store (ArrayElementNumImpl.result st) i (get data j)) b
                    (get offsets i))
            else
              b ← observe_miss (ArrayElementNumImpl.builder st);
              Ok (mkLoop (store (ArrayElementNumImpl.result st) i 0) b (get offsets i)))
         (mkLoop (resize_uninit size result) builder 0);
  Ok (ArrayElementNumImpl.result st, ArrayElementNumImpl.builder st).

Definition vector `{Memory} (TIndex : NumType) (data offsets indices : list Z)
    (result : list Z) (builder : NullMapBuilder) : Result (list Z * NullMapBuilder) :=
  let size := size offsets in
  st ← for_rangeM 0 size
         (fun i st =>
            let array_size := size_t (get offsets i - current_offset st) in
            let index := get indices i in
            match access TIndex index array_size with
            | FromStart =>
                let j := size_t (current_offset st + index - 1) in
                b ← observe (ArrayElementNumImpl.builder st) j;
                Ok (mkLoop (store (ArrayElementNumImpl.result st) i (get data j)) b
                      (get offsets i))
            | FromEnd =>
                let j := size_t (get offsets i + index) in
                b ← observe (ArrayElementNumImpl.builder st) j;
                Ok (mkLoop (store (ArrayElementNumImpl.result st) i (get data j)) b
                      (get offsets i))
            | Miss =>
                b ← observe_miss (ArrayElementNumImpl.builder st);
                Ok (mkLoop (store (ArrayElementNumImpl.result st) i 0) b (get offsets i))
            end)
         (mkLoop (resize_uninit size result) builder 0);
  Ok (ArrayElementNumImpl.result st, ArrayElementNumImpl.builder st).

End ArrayElementNumImpl.

Module ArrayElementStringImpl.

Record Loop := mkLoop {
  result_data : list Z;
  result_offsets : list Z;
  builder : NullMapBuilder;
  current_offset : Z;
  current_result_offset : Z;
}.

(** The branch that copies the string [current_offset + adjusted_index],
    after the builder has been told about [j]. *)
Definition take_string `{Memory} (data string_offsets : list Z) (i adjusted_index j : Z)
    (offset_i : Z) (st : Loop) : Result Loop :=
  b ← observe (builder st) j;
  let string_pos :=
    if (current_offset st =? 0) && (adjusted_index =? 0) then 0
    else get string_offsets (size_t (current_offset st + adjusted_index - 1)) in
  let string_size :=
    size_t (get string_offsets (size_t (current_offset st + adjusted_index)) - string_pos) in
  let current_result_offset' := size_t (current_result_offset st + string_size) in
  Ok (mkLoop
        (memcpy (resize_uninit current_result_offset' (result_data st))
           (current_result_offset st) data string_pos string_size)
        (store (result_offsets st) i current_result_offset')
        b offset_i current_result_offset').

(** The branch that inserts an empty string. *)
Definition empty_string `{Memory} (i offset_i : Z) (st : Loop) : Result Loop :=
  let current_result_offset' := size_t (current_result_offset st + 1) in
  b ← observe_miss (builder st);
  Ok (mkLoop
        (store (resize_uninit current_result_offset' (result_data st))
           (current_result_offset st) 0)
        (store (result_offsets st) i current_result_offset')
        b offset_i current_result_offset').

Definition vectorConst `{Memory} (negative : bool) (data offsets string_offsets : list Z)
    (index : Z) (result_data result_offsets : list Z) (builder : NullMapBuilder)
  : Result (list Z * list Z * NullMapBuilder) :=
  let size := size offsets in
  st ← for_rangeM 0 size
         (fun i st =>
            let array_size := size_t (get offsets i - current_offset st) in
            if index <? array_size then
              let adjusted_index :=
                if negb negative then index else size_t (array_size - index - 1) in
              let j :=
                if (current_offset st =? 0) && (adjusted_index =? 0) then 0
                else size_t (current_offset st + adjusted_index) in
              take_string data string_offsets i adjusted_index j (get offsets i) st
            else empty_string i (get offsets i) st)
         (mkLoop result_data (resize_uninit size result_offsets) builder 0 0);
  Ok (ArrayElementStringImpl.result_data st, ArrayElementStringImpl.result_offsets st,
      ArrayElementStringImpl.builder st).

Definition vector `{Memory} (TIndex : NumType) (data offsets string_offsets : list Z)
    (indices : list Z) (result_data result_offsets : list Z) (builder : NullMapBuilder)
  : Result (list Z * list Z * NullMapBuilder) :=
  let size := size offsets in
  st ← for_rangeM 0 size
         (fun i st =>
            let array_size := size_t (get offsets i - current_offset st) in
            let index := get indices i in
            let adjusted_index :=
              match access TIndex index array_size with
              | FromStart => size_t (index - 1)
              | FromEnd => size_t (array_size + index)
              | Miss => array_size
              end in
            if adjusted_index <? array_size then
              let j :=
                if (current_offset st =? 0) && (adjusted_index =? 0) then 0
                else size_t (current_offset st + adjusted_index - 1) in
              take_string data string_offsets i adjusted_index j (get offsets i) st
            else empty_string i (get offsets i) st)
         (mkLoop result_data (resize_uninit size result_offsets) builder 0 0);
  Ok (ArrayElementStringImpl.result_data st, ArrayElementStringImpl.result_offsets st,
      ArrayElementStringImpl.builder st).

End ArrayElementStringImpl.

Module ArrayElementGenericImpl.

Record Loop := mkLoop { result : list CloneOp; builder : NullMapBuilder; current_offset : Z }.

Definition vectorConst (negative : bool) (offsets : list Z) (index : Z)
    (result : list CloneOp) (builder : NullMapBuilder)
  : Result (list CloneOp * NullMapBuilder) :=
  st ← for_rangeM 0 (size offsets)
         (fun i st =>
            let array_size := size_t (get offsets i - current_offset st) in
            if index <? array_size then
              let j := if negb negative then size_t (current_offset st + index)
                       else size_t (get offsets i - index - 1) in
              b ← observe (ArrayElementGenericImpl.builder st) j;
              Ok (mkLoop (ArrayElementGenericImpl.result st ++ [InsertFrom j]) b
                    (get offsets i))
            else
              b ← observe_miss (ArrayElementGenericImpl.builder st);
              Ok (mkLoop (ArrayElementGenericImpl.result st ++ [InsertDefault]) b
                    (get offsets i)))
         (mkLoop result builder 0);
  Ok (ArrayElementGenericImpl.result st, ArrayElementGenericImpl.builder st).

Definition vector (TIndex : NumType) (offsets indices : list Z)
    (result : list CloneOp) (builder : NullMapBuilder)
  : Result (list CloneOp * NullMapBuilder) :=
  st ← for_rangeM 0 (size offsets)
         (fun i st =>
            let array_size := size_t (get offsets i - current_offset st) in
            let index := get indices i in
            match access TIndex index array_size with
            | FromStart =>
                let j := size_t (current_offset st + index - 1) in
                b ← observe (ArrayElementGenericImpl.builder st) j;
                Ok (mkLoop (ArrayElementGenericImpl.result st ++ [InsertFrom j]) b
                      (get offsets i))
            | FromEnd =>
                let j := size_t (get offsets i + index) in
                b ← observe (ArrayElementGenericImpl.builder st) j;
                Ok (mkLoop (ArrayElementGenericImpl.result st ++ [InsertFrom j]) b
                      (get offsets i))
            | Miss =>
                b ← observe_miss (ArrayElementGenericImpl.builder st);
                Ok (mkLoop (ArrayElementGenericImpl.result st ++ [InsertDefault]) b
                      (get offsets i))
            end)
         (mkLoop result builder 0);
  Ok (ArrayElementGenericImpl.result st, ArrayElementGenericImpl.builder st).

End ArrayElementGenericImpl.

Module FunctionArrayElement.

(** What a typed attempt gives: [None] when it returns [false], else the
    result column and the builder, or the exception. *)
Definition Attempt : Type := option (Result (IColumn * NullMapBuilder)).

(** The constant index as the functions for a constant index read it. *)
Definition constant_index {A} (index : Field) (from_start from_end : Z -> Result A)
  : Result A :=
  match index with
  | FUInt64 v => from_start (size_t (v - 1))    (* [safeGet<UInt64>(index) - 1] *)
  | FInt64 v => from_end (size_t (- v - 1))     (* [-safeGet<Int64>(index) - 1] *)
  | _ => Throw LOGICAL_ERROR
  end.

Definition executeNumberConst `{Memory} (DataType : NumType) (column : IColumn)
    (index : Field) (builder : NullMapBuilder) : Attempt :=
  match column with
  | ColumnArray (ColumnVector T data) offsets =>
      if decide (T = DataType) then Some (
        '(res, b) ← constant_index index
          (fun i => ArrayElementNumImpl.vectorConst false data offsets i [] builder)
          (fun i => ArrayElementNumImpl.vectorConst true data offsets i [] builder);
        Ok (ColumnVector T res, b))
      else None
  | _ => None
  end.

Definition executeNumber `{Memory} (IndexType DataType : NumType) (column : IColumn)
    (indices : list Z) (builder : NullMapBuilder) : Attempt :=
  match column with
  | ColumnArray (ColumnVector T data) offsets =>
      if decide (T = DataType) then Some (
        '(res, b) ← ArrayElementNumImpl.vector IndexType data offsets indices [] builder;
        Ok (ColumnVector T res, b))
      else None
  | _ => None
  end.

Definition executeStringConst `{Memory} (column : IColumn) (index : Field)
    (builder : NullMapBuilder) : Attempt :=
  match column with
  | ColumnArray (ColumnString chars string_offsets) offsets => Some (
      '(res_chars, res_offsets, b) ← constant_index index
        (fun i => ArrayElementStringImpl.vectorConst false chars offsets string_offsets i
                    [] [] builder)
        (fun i => ArrayElementStringImpl.vectorConst true chars offsets string_offsets i
                    [] [] builder);
      Ok (ColumnString res_chars res_offsets, b))
  | _ => None
  end.

Definition executeString `{Memory} (IndexType : NumType) (column : IColumn)
    (indices : list Z) (builder : NullMapBuilder) : Attempt :=
  match column with
  | ColumnArray (ColumnString chars string_offsets) offsets => Some (
      '(res_chars, res_offsets, b) ←
        ArrayElementStringImpl.vector IndexType chars offsets string_offsets indices
          [] [] builder;
      Ok (ColumnString res_chars res_offsets, b))
  | _ => None
  end.

Definition executeGenericConst (column : IColumn) (index : Field)
    (builder : NullMapBuilder) : Attempt :=
  match column with
  | ColumnArray col_nested offsets => Some (
      '(ops, b) ← constant_index index
        (fun i => ArrayElementGenericImpl.vectorConst false offsets i [] builder)
        (fun i => ArrayElementGenericImpl.vectorConst true offsets i [] builder);
      Ok (ColumnCloneEmpty col_nested ops, b))
  | _ => None
  end.

Definition executeGeneric (IndexType : NumType) (column : IColumn) (indices : list Z)
    (builder : NullMapBuilder) : Attempt :=
  match column with
  | ColumnArray col_nested offsets => Some (
      '(ops, b) ← ArrayElementGenericImpl.vector IndexType offsets indices [] builder;
      Ok (ColumnCloneEmpty col_nested ops, b))
  | _ => None
  end.

(** The type of the result slot of the block; the slot of a temporary block
    of [executeTuple] has none. Only the functions for a constant array read
    it. *)
Definition ResultType : Type := option DataType.

Definition getDefault_of `{DataTypeInterface} (type : ResultType) : Field :=
  match type with Some t => getDefault t | None => Null end.

Definition type_of (type : ResultType) : DataType :=
  match type with Some t => t | None => DataTypeNull end.

Definition executeConstConst `{DataTypeInterface} (result_type : ResultType) (rows : Z)
    (column : IColumn) (index : Field) (builder : NullMapBuilder) : Attempt :=
  match checkAndGetColumnConst_Array column with
  | Some (array, _) => Some (
      let array_size := Z.of_nat (length array) in
      real_index ←
        match index with
        | FUInt64 v => Ok (size_t (v - 1))
        | FInt64 v => Ok (size_t (array_size + v))
        | _ => Throw LOGICAL_ERROR
        end;
      let value := if real_index <? array_size then array !!! Z.to_nat real_index else Null in
      let value := if isNull value then getDefault_of result_type else value in
      b ← observe builder real_index;
      Ok (ColumnConst (type_of result_type) value rows, b))
  | None => None
  end.

Record ConstLoop := mkConstLoop { column_ops : list FieldOp; const_builder : NullMapBuilder }.

Definition executeConst (IndexType : NumType) (result_type : ResultType)
    (column : IColumn) (indices : list Z) (builder : NullMapBuilder) : Attempt :=
  match checkAndGetColumnConst_Array column with
  | Some (array, s) => Some (
      let array_size := Z.of_nat (length array) in
      st ← for_rangeM 0 s
             (fun i st =>
                let index := get indices i in
                match access IndexType index array_size with
                | FromStart =>
                    let j := size_t (index - 1) in
                    b ← observe (const_builder st) j;
                    Ok (mkConstLoop (column_ops st ++ [Insert (array !!! Z.to_nat j)]) b)
                | FromEnd =>
                    let j := size_t (array_size + index) in
                    b ← observe (const_builder st) j;
                    Ok (mkConstLoop (column_ops st ++ [Insert (array !!! Z.to_nat j)]) b)
                | Miss =>
                    b ← observe_miss (const_builder st);
                    Ok (mkConstLoop (column_ops st ++ [InsertDefaultField]) b)
                end)
             (mkConstLoop [] builder);
      Ok (ColumnFromType (type_of result_type) (column_ops st), const_builder st))
  | None => None
  end.

(** [a || b || ...] over attempts: the first that does not return [false]. *)
Fixpoint first_of (attempts : list Attempt) (otherwise : ErrorCode)
  : Result (IColumn * NullMapBuilder) :=
  match attempts with
  | [] => Throw otherwise
  | Some r :: _ => r
  | None :: rest => first_of rest otherwise
  end.

Definition number_types : list NumType :=
  [UInt8; UInt16; UInt32; UInt64; Int8; Int16; Int32; Int64; Float32; Float64].

Definition index_types : list NumType :=
  [UInt8; UInt16; UInt32; UInt64; Int8; Int16; Int32; Int64].

Definition executeArgument `{Memory} (IndexType : NumType) (result_type : ResultType)
    (column index_column : IColumn) (builder : NullMapBuilder) : Attempt :=
  match index_column with
  | ColumnVector T index_data =>
      if decide (T = IndexType) then Some (
        let builder :=
          if active builder then initSink builder (size index_data) else builder in
        first_of
          (((fun DataType => executeNumber IndexType DataType column index_data builder)
              <$> number_types)
           ++ [executeConst IndexType result_type column index_data builder;
               executeString IndexType column index_data builder;
               executeGeneric IndexType column index_data builder])
          ILLEGAL_COLUMN)
      else None
  | _ => None
  end.

Definition isConst (column : IColumn) : bool :=
  match column with ColumnConst _ _ _ => true | _ => false end.

(** [column[0]] for the index column. *)
Definition first_field (column : IColumn) : Field :=
  match column with
  | ColumnConst _ value _ => value
  | _ => Null
  end.

(** [mapM] with the function outside the recursion. *)
Definition for_each {A B} (f : A -> Result B) : list A -> Result (list B) :=
  fix go l :=
    match l with
    | [] => Ok []
    | x :: l' => y ← f x; ys ← go l'; Ok (y :: ys)
    end.

(** [executeTuple]: for an array of tuples, the function is computed for the
    array of every element of the tuples, with the same offsets and the same
    index. [section] is [executeImpl] on such an array, given its elements. *)
Definition executeTuple (section : IColumn -> Result IColumn) (data : IColumn)
  : option (Result IColumn) :=
  match data with
  | ColumnTuple columns => Some (res ← for_each section columns; Ok (ColumnTuple res))
  | _ => None
  end.

(** [perform] after [executeTuple] has returned [false]. *)
Definition perform_plain `{Memory} `{FieldInterface} `{DataTypeInterface}
    (result_type : ResultType) (rows : Z) (column index_column : IColumn)
    (builder : NullMapBuilder) : Result (IColumn * NullMapBuilder) :=
  if negb (isConst index_column) then
    first_of
      ((fun IndexType => executeArgument IndexType result_type column index_column builder)
         <$> index_types)
      ILLEGAL_COLUMN
  else
    let index := first_field index_column in
    let builder := if active builder then initSink builder rows else builder in
    if field_equal index (FUInt64 0) then Throw ZERO_ARRAY_OR_TUPLE_INDEX else
    first_of
      (((fun DataType => executeNumberConst DataType column index builder) <$> number_types)
       ++ [executeConstConst result_type rows column index builder;
           executeStringConst column index builder;
           executeGenericConst column index builder])
      ILLEGAL_COLUMN.

(** [perform] on the array column of the elements [data] with [offsets]. *)
Definition perform `{Memory} `{FieldInterface} `{DataTypeInterface}
    (section : IColumn -> Result IColumn)
    (result_type : ResultType) (rows : Z) (data : IColumn) (offsets : list Z)
    (index_column : IColumn) (builder : NullMapBuilder)
  : Result (IColumn * NullMapBuilder) :=
  match executeTuple section data with
  | Some res => col ← res; Ok (col, builder)
  | None => perform_plain result_type rows (ColumnArray data offsets) index_column builder
  end.

(** The nested type of the result type, which the null-overlaid branch
    takes. *)
Definition nested_type (type : ResultType) : ResultType :=
  match type with
  | Some (DataTypeNullable t) => Some t
  | _ => type
  end.

(** [rows()] of a block is the size of its first column. The first column
    of the temporary block of [executeTuple] is the index column, which is a
    vector of indices or a constant (for any other column [perform] throws
    without reading [rows()]). *)
Definition index_rows (index_column : IColumn) : Z :=
  match index_column with
  | ColumnVector _ index_data => size index_data
  | ColumnConst _ _ s => s
  | _ => 0
  end.

(** [executeImpl] on the array column of the elements [data] with
    [offsets], in a block of [rows] rows. For a null overlay, [perform] runs
    on [source_block], whose first column is the array column of the nested
    elements: its [rows()] is the number of rows of that column. *)
Fixpoint executeImpl_array `{Memory} `{FieldInterface} `{DataTypeInterface}
    (result_type : ResultType) (rows : Z) (offsets : list Z) (index_column : IColumn)
    (data : IColumn) {struct data} : Result IColumn :=
  let section := executeImpl_array None (index_rows index_column) offsets index_column in
  match data with
  | ColumnNullable nested_col null_map =>
      let builder := initSource_nullable empty null_map in
      '(col, builder) ←
        perform section (nested_type result_type) (size offsets) nested_col offsets
          index_column builder;
      Ok (ColumnNullable col (getNullMap builder))
  | _ =>
      '(col, _) ← perform section result_type rows data offsets index_column empty;
      Ok col
  end.

Definition executeImpl `{Memory} `{FieldInterface} `{DataTypeInterface}
    (result_type : DataType) (rows : Z) (column index_column : IColumn) : Result IColumn :=
  match column with
  | ColumnArray data offsets =>
      executeImpl_array (Some result_type) rows offsets index_column data
  | _ =>
      match checkAndGetColumnConst_Array column with
      | Some (arr, s) =>
          if existsb isNull arr then
            (* [source_block] is almost a copy of the block: its first column
               is the constant array, of [s] rows *)
            let builder := initSource_array empty arr in
            '(col, builder) ←
              perform_plain (nested_type (Some result_type)) s column index_column
                builder;
            Ok (ColumnNullable col (getNullMap builder))
          else
            '(col, _) ← perform_plain (Some result_type) rows column index_column empty;
            Ok col
      | None => Throw ILLEGAL_COLUMN
      end
  end.

End FunctionArrayElement.

(** ** [arrayReverse] *)

Module FunctionArrayReverse.

(** [while (src < src_end) { step }], where every step moves [src] forward:
    the distance between the two is fuel enough. A pointer into a buffer is
    the index of its cell. *)
Fixpoint while_before {S : Type} (fuel : nat) (src_end : Z) (step : Z -> S -> Z * S)
    (src : Z) (s : S) : S :=
  match fuel with
  | O => s
  | Datatypes.S fuel' =>
      if src <? src_end then
        let '(src', s') := step src s in while_before fuel' src_end step src' s'
      else s
  end.

(** The body of the loop over the rows that copies the cells of a row in
    the opposite order; the state is [res_data] and [src_prev_offset].
    [do_reverse] and the loops over the null maps of [executeFixedString]
    and [executeString] have this same body. *)
Definition reverse_row (src_data src_offsets : list Z) (i : Z) (st : list Z * Z)
  : list Z * Z :=
  let '(res_data, src_prev_offset) := st in
  let src := src_prev_offset in
  let src_end := get src_offsets i in
  if src =? src_end then st (* continue *)
  else
    let dst := size_t (get src_offsets i - 1) in
    let '(res_data, _) :=
      while_before (Z.to_nat (src_end - src)) src_end
        (fun src '(res_data, dst) =>
           (src + 1, (store res_data dst (get src_data src), dst - 1)))
        src (res_data, dst) in
    (res_data, get src_offsets i).

(** The lambda [do_reverse] of [executeNumber]. *)
Definition do_reverse (src_data src_offsets res_data : list Z) : list Z :=
  fst (for_range 0 (size src_offsets) (reverse_row src_data src_offsets) (res_data, 0)).

(** The functions below return the data of the result and, for a source
    with a null overlay, its null map; [None] stands for [return false]. *)
Definition Reversed : Type := option (IColumn * option (list Z)).

Definition executeNumber `{Memory} (T : NumType) (src_data : IColumn) (src_offsets : list Z)
    (nullable_col : option (list Z)) : Reversed :=
  match src_data with
  | ColumnVector T' src_data =>
      if decide (T' = T) then
        let res_data := resize_uninit (size src_data) [] in
        let res_data := do_reverse src_data src_offsets res_data in
        let res_null_map :=
          match nullable_col with
          | Some src_null_map =>
              (* Make a reverted null map. *)
              let res_null_map := resize_uninit (size src_data) [] in
              Some (do_reverse src_null_map src_offsets res_null_map)
          | None => None
          end in
        Some (ColumnVector T res_data, res_null_map)
      else None
  | _ => None
  end.

Definition executeFixedString `{Memory} (src_data : IColumn) (src_offsets : list Z)
    (nullable_col : option (list Z)) : Reversed :=
  match src_data with
  | ColumnFixedString n src_data =>
      let res_data := resize_uninit (size src_data) [] in
      let '(res_data, _) :=
        for_range 0 (size src_offsets)
          (fun i '(res_data, src_prev_offset) =>
             let src := size_t (src_prev_offset * n) in
             let src_end := size_t (get src_offsets i * n) in
             if src =? src_end then (res_data, src_prev_offset) (* continue *)
             else
               let dst := size_t (get src_offsets i * n - n) in
               let '(res_data, _) :=
                 while_before (Z.to_nat (src_end - src)) src_end
                   (fun src '(res_data, dst) =>
                      (src + n, (memcpy res_data dst src_data src n, dst - n)))
                   src (res_data, dst) in
               (res_data, get src_offsets i))
          (res_data, 0) in
      let res_null_map :=
        match nullable_col with
        | Some src_null_map =>
            (* Make a reverted null map. *)
            let res_null_map := resize_uninit (size src_null_map) [] in
            Some (fst (for_range 0 (size src_offsets)
                         (reverse_row src_null_map src_offsets) (res_null_map, 0)))
        | None => None
        end in
      Some (ColumnFixedString n res_data, res_null_map)
  | _ => None
  end.

(** [memcpySmallAllowReadWriteOverflow15] is taken for the [memcpy] of
    [string_size] bytes: the up to 15 bytes more it may write are written
    again by the strings that follow or fall into the padding of the
    buffer. *)
Definition executeString `{Memory} (src_data : IColumn) (src_array_offsets : list Z)
    (nullable_col : option (list Z)) : Reversed :=
  match src_data with
  | ColumnString src_data src_string_offsets =>
      let res_string_offsets := resize_uninit (size src_string_offsets) [] in
      let res_data := resize_uninit (size src_data) [] in
      let '(res_data, res_string_offsets, _, _) :=
        for_range 0 (size src_array_offsets)
          (fun i '(res_data, res_string_offsets, src_array_prev_offset,
                   res_string_prev_offset) =>
             let '(res_data, res_string_offsets, res_string_prev_offset) :=
               if negb (get src_array_offsets i =? src_array_prev_offset) then
                 let array_size := size_t (get src_array_offsets i - src_array_prev_offset) in
                 for_range 0 array_size
                   (fun j '(res_data, res_string_offsets, res_string_prev_offset) =>
                      let j_reversed := size_t (array_size - j - 1) in
                      let src_pos :=
                        if size_t (src_array_prev_offset + j_reversed) =? 0 then 0
                        else get src_string_offsets
                               (size_t (src_array_prev_offset + j_reversed - 1)) in
                      let string_size :=
                        size_t (get src_string_offsets
                                  (size_t (src_array_prev_offset + j_reversed))
                                - src_pos) in
                      let res_data :=
                        memcpy res_data res_string_prev_offset src_data src_pos string_size in
                      let res_string_prev_offset :=
                        size_t (res_string_prev_offset + string_size) in
                      (res_data,
                       store res_string_offsets (size_t (src_array_prev_offset + j))
                         res_string_prev_offset,
                       res_string_prev_offset))
                   (res_data, res_string_offsets, res_string_prev_offset)
               else (res_data, res_string_offsets, res_string_prev_offset) in
             (res_data, res_string_offsets, get src_array_offsets i, res_string_prev_offset))
          (res_data, res_string_offsets, 0, 0) in
      let res_null_map :=
        match nullable_col with
        | Some src_null_map =>
            (* Make a reverted null map. The bound of the loop is
               [size_t size = src_string_offsets.size();], the number of
               strings, whereas [i] goes over [src_array_offsets]. *)
            let res_null_map := resize_uninit (size src_string_offsets) [] in
            Some (fst (for_range 0 (size src_string_offsets)
                         (reverse_row src_null_map src_array_offsets) (res_null_map, 0)))
        | None => None
        end in
      Some (ColumnString res_data res_string_offsets, res_null_map)
  | _ => None
  end.

(** [executeConst] reverses the literal. *)
Definition executeConst (result_type : DataType) (rows : Z) (column : IColumn)
  : option IColumn :=
  match checkAndGetColumnConst_Array column with
  | Some (arr, _) =>
      let res : Array := replicate (length arr) Null in
      let res :=
        for_range 0 (Z.of_nat (length arr))
          (fun i (res : Array) =>
             <[Z.to_nat i := arr !!! Z.to_nat (size_t (Z.of_nat (length arr) - i - 1))]> res)
          res in
      Some (ColumnConst result_type (FArray res) rows)
  | None => None
  end.

(** The chain of [||] over the functions that return [bool]. *)
Fixpoint first_true (attempts : list Reversed) : Reversed :=
  match attempts with
  | [] => None
  | Some r :: _ => Some r
  | None :: rest => first_true rest
  end.

Definition number_types : list NumType :=
  [UInt8; UInt16; UInt32; UInt64; Int8; Int16; Int32; Int64; Float32; Float64].

Definition executeImpl `{Memory} (result_type : DataType) (rows : Z) (column : IColumn)
  : Result IColumn :=
  match executeConst result_type rows column with
  | Some res => Ok res
  | None =>
      match column with
      | ColumnArray src_data offsets =>
          let '(inner_col, nullable_col) :=
            match src_data with
            | ColumnNullable nested null_map => (nested, Some null_map)
            | _ => (src_data, None)
            end in
          match first_true
                  (((fun T => executeNumber T inner_col offsets nullable_col) <$> number_types)
                   ++ [executeString inner_col offsets nullable_col;
                       executeFixedString inner_col offsets nullable_col]) with
          | Some (inner_res_col, Some res_null_map) =>
              Ok (ColumnArray (ColumnNullable inner_res_col res_null_map) offsets)
          | Some (inner_res_col, None) => Ok (ColumnArray inner_res_col offsets)
          | None => Throw ILLEGAL_COLUMN
          end
      | _ => Throw ILLEGAL_COLUMN
      end
  end.

End FunctionArrayReverse.

(** ** [arrayEnumerate] *)

(** [IColumn::size], the number of values of a column, is implemented by the
    column classes outside this file. *)
Class ColumnInterface := column_size : IColumn -> Z.

Module FunctionArrayEnumerate.

Definition executeImpl `{Memory} `{ColumnInterface} (result_type : DataType)
    (column : IColumn) : Result IColumn :=
  match column with
  | ColumnArray data offsets =>
      let res_values := resize_uninit (column_size data) [] in
      let '(res_values, _) :=
        for_range 0 (size offsets)
          (fun i '(res_values, prev_off) =>
             let off := get offsets i in
             (for_range prev_off off
                (fun j res_values =>
                   store res_values j (wrap 32 (size_t (j - prev_off + 1))))
                res_values,
              off))
          (res_values, 0) in
      Ok (ColumnArray (ColumnVector UInt32 res_values) offsets)
  | _ =>
      match checkAndGetColumnConst_Array column with
      | Some (values, s) =>
          let res_values : Array := replicate (length values) Null in
          let res_values :=
            for_range 0 (Z.of_nat (length values))
              (fun i (res_values : Array) =>
                 <[Z.to_nat i := FUInt64 (size_t (i + 1))]> res_values)
              res_values in
          Ok (ColumnConst result_type (FArray res_values) s)
      | None => Throw ILLEGAL_COLUMN
      end
  end.

End FunctionArrayEnumerate.

(** ** The element type of an array built from values *)

(** [IDataType::behavesAsNumber], [isNull], [isNullable] and [getName], and
    [DataTypeTraits::removeNullable], are declared outside this file; the
    functions below are parameterised by them.  A type name, a
    [std::string], is the list of its bytes. *)
Module IDataType.
Class Methods := {
  behavesAsNumber : DataType -> bool;
  isNull : DataType -> bool;
  isNullable : DataType -> bool;
  getName : DataType -> list Z;
}.
End IDataType.

Module DataTypeTraits.
Class Functions := removeNullable : DataType -> DataType.
End DataTypeTraits.

(** [foundNumericType]: the loop returns at the first argument that
    behaves as a number or is not [Null]. *)
Fixpoint foundNumericType `{IDataType.Methods} (args : list DataType) : bool :=
  match args with
  | [] => false
  | arg :: rest =>
      if IDataType.behavesAsNumber arg then true
      else if negb (IDataType.isNull arg) then false
      else foundNumericType rest
  end.

(** The loop of [hasArrayIdenticalTypes] from some argument on, with the
    value [first_type_name] has there. *)
Fixpoint identical_from `{IDataType.Methods} `{DataTypeTraits.Functions}
    (first_type_name : list Z) (args : list DataType) : bool :=
  match args with
  | [] => true
  | arg :: rest =>
      if negb (IDataType.isNull arg) then
        let name := IDataType.getName (DataTypeTraits.removeNullable arg) in
        if decide (first_type_name = []) then identical_from name rest
        else if decide (name <> first_type_name) then false
        else identical_from first_type_name rest
      else identical_from first_type_name rest
  end.

Definition hasArrayIdenticalTypes `{IDataType.Methods} `{DataTypeTraits.Functions}
    (args : list DataType) : bool :=
  identical_from [] args.

(** How the loop of [getArrayElementType] ends: by the [break] at a
    nullable type, to which [ret] points then, or at the end of the
    arguments, with [found_null] and [ret] ([None] is [nullptr]). *)
Inductive Scan :=
  | Broke (type : DataType)
  | Finished (found_null : bool) (ret : option DataType).

Fixpoint scan_from `{IDataType.Methods} (found_null : bool) (ret : option DataType)
    (args : list DataType) : Scan :=
  match args with
  | [] => Finished found_null ret
  | type :: rest =>
      if IDataType.isNull type then scan_from true ret rest
      else if IDataType.isNullable type then Broke type
      else scan_from found_null (Some type) rest
  end.

Definition getArrayElementType `{IDataType.Methods} (args : list DataType)
  : Result DataType :=
  match scan_from false None args with
  | Broke type => Ok type
  | Finished true (Some type) => Ok (DataTypeNullable type)
  | Finished true None => Ok DataTypeNull
  | Finished false None => Throw LOGICAL_ERROR
  | Finished false (Some type) => Ok type
  end.

(** * Vocabulary of the statements *)

(** A loop over the indices of a list that reads the list at the index is
    a left-to-right traversal of the list. *)
Fixpoint foldi {A S : Type} (i : Z) (f : A -> Z -> S -> S) (l : list A) (s : S) : S :=
  match l with
  | [] => s
  | x :: r => foldi (i + 1) f r (f x i s)
  end.

(** The sum of the per-row upper bounds, without wrap-around. *)
Definition total (ns : list Z) : Z := foldr Z.add 0 ns.

(** The row [0, 1, ..., n - 1]. *)
Definition iota (n : Z) : list Z := seqZ 0 n.

(** The offsets of an array column whose rows have the lengths [ns], the
    first row starting at [start]. *)
Fixpoint offsets_from (start : Z) (ns : list Z) : list Z :=
  match ns with
  | [] => []
  | n :: rest => (start + n) :: offsets_from (start + n) rest
  end.

(** The per-row upper bounds an argument column of [range] stands for. *)
Definition upper_bounds (col : IColumn) : list Z :=
  match col with
  | ColumnVector _ in_data => in_data
  | ColumnConst (DataTypeNumber _) value s => replicate (Z.to_nat s) (getValue_number value)
  | _ => []
  end.

(** An argument column of [range] of the unsigned type [T]. *)
Definition range_argument (T : NumType) (col : IColumn) : Prop :=
  is_unsigned T = true /\
  match col with
  | ColumnVector T' in_data => T' = T /\ Forall (in_range T) in_data
  | ColumnConst (DataTypeNumber T') (FUInt64 v) s =>
      T' = T /\ in_range T v /\ 0 <= s < 2 ^ 64
  | _ => False
  end.

(** The rows of an array column: row [i] is the slice of [data] between
    the previous offset and [offsets[i]]. *)
Fixpoint rows_from (prev : Z) (offsets data : list Z) : list (list Z) :=
  match offsets with
  | [] => []
  | off :: rest =>
      take (Z.to_nat (off - prev)) (drop (Z.to_nat prev) data) :: rows_from off rest data
  end.

Definition array_rows (offsets data : list Z) : list (list Z) :=
  rows_from 0 offsets data.

(** Memory that happens to hold zeroes. *)
Definition zero_memory : Memory := fun _ => 0.

(** The invariant of an array column over [n] elements: the offsets do not
    decrease and the last one is [n] (for no rows at all, [n] is zero). *)
Fixpoint offsets_ok (prev : Z) (offsets : list Z) (n : Z) : Prop :=
  match offsets with
  | [] => prev = n
  | off :: rest => prev <= off /\ offsets_ok off rest n
  end.

Definition array_ok (offsets : list Z) (n : Z) : Prop :=
  n < 2 ^ 64 /\ offsets_ok 0 offsets n.

(** The bounds [(prev_off, off)] of the rows. *)
Fixpoint row_bounds (prev : Z) (offsets : list Z) : list (Z * Z) :=
  match offsets with
  | [] => []
  | off :: rest => (prev, off) :: row_bounds off rest
  end.

(** A row of a null-overlaid array: a cell of the null map that holds 1
    makes the element null. *)
Definition nullable_row (values null_map : list Z) : list (option Z) :=
  zip_with (fun v n => if n =? 1 then None else Some v) values null_map.

(** The rows of an array column of numbers as lists of optional values. *)
Definition logical_rows (offsets values : list Z) (null_map : option (list Z))
  : list (list (option Z)) :=
  match null_map with
  | Some null_map =>
      zip_with nullable_row (array_rows offsets values) (array_rows offsets null_map)
  | None => (fun row : list Z => Some <$> row) <$> array_rows offsets values
  end.

(** The elements [prev_off .. off - 1] the way the loops read them. *)
Definition elements {K} (key : Z -> K) (null_map_data : option (list Z))
    (prev_off off : Z) : list (option K) :=
  (fun j => if null_at null_map_data j then None else Some (key j))
    <$> seqZ prev_off (off - prev_off).

(** The number of distinct non-null values of a row, plus one if the row
    holds a null. *)
Definition distinct_count {V} `{EqDecision V} (row : list (option V)) : Z :=
  Z.of_nat (length (remove_dups (omap id row)))
  + (if bool_decide (None ∈ row) then 1 else 0).

(** A constant array as a row of optional values. *)
Definition field_row (values : Array) : list (option Field) :=
  (fun x => if isNull x then None else Some x) <$> values.

(** [field_less] orders the elements of [values] totally: two of them
    that compare equivalent are equal. *)
Definition totally_ordered `{FieldInterface} (values : Array) : Prop :=
  forall x y, x ∈ values -> y ∈ values ->
    (negb (field_less x y) && negb (field_less y x) = true <-> x = y).

(** The rows of an array column of strings, as lists of optional strings:
    the string [j] of the nested column, or nothing where the null map
    holds 1. *)
Definition string_rows (chars string_offsets : list Z) (null_map : option (list Z))
    (offsets : list Z) : list (list (option (list Z))) :=
  (fun '(p, o) => elements (getDataAt chars string_offsets) null_map p o)
    <$> row_bounds 0 offsets.

(** What [arrayUniq] shall return for its argument: one count per row of
    an array column of numbers or of strings, and the count of the literal
    for a constant array. *)
Definition uniq_spec (column : IColumn) : IColumn :=
  match column with
  | ColumnArray (ColumnNullable (ColumnVector _ values) null_map) offsets =>
      ColumnVector UInt32 (distinct_count <$> logical_rows offsets values (Some null_map))
  | ColumnArray (ColumnVector _ values) offsets =>
      ColumnVector UInt32 (distinct_count <$> logical_rows offsets values None)
  | ColumnArray (ColumnNullable (ColumnString chars string_offsets) null_map) offsets =>
      ColumnVector UInt32
        (distinct_count <$> string_rows chars string_offsets (Some null_map) offsets)
  | ColumnArray (ColumnString chars string_offsets) offsets =>
      ColumnVector UInt32 (distinct_count <$> string_rows chars string_offsets None offsets)
  | ColumnConst _ (FArray values) s =>
      ColumnConst (DataTypeNumber UInt32) (FUInt64 (distinct_count (field_row values))) s
  | _ => column
  end.

(** The arguments [arrayUniq] has an implementation for, when it is called
    with one argument: an array column of numbers of any of the ten types or
    of strings, null-overlaid or not, whose rows are shorter than [2 ^ 32]
    (the counts are [UInt32]), or a constant array. *)
Definition uniq_argument `{FieldInterface} (column : IColumn) : Prop :=
  match column with
  | ColumnArray (ColumnNullable (ColumnVector T values) null_map) offsets =>
      array_ok offsets (size values)
      /\ size null_map = size values
      /\ Forall (fun row => size row < 2 ^ 32) (array_rows offsets values)
  | ColumnArray (ColumnVector T values) offsets =>
      array_ok offsets (size values)
      /\ Forall (fun row => size row < 2 ^ 32) (array_rows offsets values)
  | ColumnArray (ColumnNullable (ColumnString chars string_offsets) _) offsets
  | ColumnArray (ColumnString chars string_offsets) offsets =>
      array_ok offsets (size string_offsets)
      /\ Forall (fun '(p, o) => o - p < 2 ^ 32) (row_bounds 0 offsets)
  | ColumnConst (DataTypeArray _) (FArray values) s => totally_ordered values
  | _ => False
  end.

(** Equality and an ordering of scalar fields to run examples with. Two
    fields are equal when they are of the same kind and hold the same value
    ([Field::operator==] compares the types of the fields before their
    values); the ordering is by kind, then by value. *)
Definition field_kind (x : Field) : Z :=
  match x with
  | Null => 0 | FUInt64 _ => 1 | FInt64 _ => 2 | FFloat64 _ => 3
  | FString _ => 4 | FArray _ => 5 | FTuple _ => 6
  end.

Definition scalar_less (x y : Field) : bool :=
  match x, y with
  | FUInt64 a, FUInt64 b | FInt64 a, FInt64 b | FFloat64 a, FFloat64 b => a <? b
  | _, _ => field_kind x <? field_kind y
  end.

Definition scalar_fields : FieldInterface :=
  {| field_equal := fun x y => bool_decide (x = y); field_less := scalar_less |}.

(** How often [x] occurs in [l]. *)
Definition occurrences {V} `{EqDecision V} (x : V) (l : list V) : Z :=
  Z.of_nat (length (filter (x =.) l)).

(** The ranks of the elements of [row] when the elements [seen] precede
    them: every element gets the number of times its value has occurred up
    to and including itself. For a row of optional values the nulls are
    counted like one more value. *)
Fixpoint ranks_after {V} `{EqDecision V} (seen row : list V) : list Z :=
  match row with
  | [] => []
  | x :: rest => (occurrences x seen + 1) :: ranks_after (seen ++ [x]) rest
  end.

Definition ranks {V} `{EqDecision V} (row : list V) : list Z := ranks_after [] row.

(** The arguments of [arrayEnumerateUniq] the statement is about. *)
Definition enumerate_argument (column : IColumn) : Prop :=
  match column with
  | ColumnArray (ColumnNullable (ColumnVector T values) null_map) offsets =>
      is_float T = false /\ array_ok offsets (size values)
      /\ size null_map = size values
      /\ Forall (fun row => size row < 2 ^ 32) (array_rows offsets values)
  | ColumnArray (ColumnVector T values) offsets =>
      is_float T = false /\ array_ok offsets (size values)
      /\ Forall (fun row => size row < 2 ^ 32) (array_rows offsets values)
  | _ => False
  end.

(** The rows of the argument, as rows of optional values. *)
Definition argument_rows (column : IColumn) : list (list (option Z)) :=
  match column with
  | ColumnArray (ColumnNullable (ColumnVector _ values) null_map) offsets =>
      logical_rows offsets values (Some null_map)
  | ColumnArray (ColumnVector _ values) offsets => logical_rows offsets values None
  | _ => []
  end.

(** The cells [p .. o - 1] of a buffer. *)
Definition slice (l : list Z) (p o : Z) : list Z :=
  take (Z.to_nat (o - p)) (drop (Z.to_nat p) l).

(** A row, or the one element [d] in place of an empty row. *)
Definition single_if_empty (d : Z) (row : list Z) : list Z :=
  if decide (row = []) then [d] else row.

(** The length of the result row for a source row with the given bounds. *)
Definition out_len (b : Z * Z) : Z := if snd b =? fst b then 1 else snd b - fst b.

(** The data column after the rows with the bounds [bounds], the result
    holding [rp] elements before them; [copy] and [push_default] are what
    the function does to the data for a row with elements and for an empty
    row. *)
Fixpoint data_after {D : Type} (copy : Z -> Z -> Z -> D -> D) (push_default : D -> D)
    (rp : Z) (bounds : list (Z * Z)) (d : D) : D :=
  match bounds with
  | [] => d
  | b :: rest =>
      if snd b =? fst b then data_after copy push_default (rp + 1) rest (push_default d)
      else data_after copy push_default (rp + (snd b - fst b)) rest
             (copy rp (fst b) (snd b - fst b) d)
  end.

(** The null map after the rows with the bounds [bounds]. *)
Definition null_map_after (nullable : bool) (src_null_map : list Z)
    (bounds : list (Z * Z)) (m : list Z) : list Z :=
  if nullable
  then m ++ concat ((fun b => if snd b =? fst b then [1]
                              else slice src_null_map (fst b) (snd b)) <$> bounds)
  else m.

(** The representations [emptyArrayToSingle] has a loop of its own for. *)
Definition specialised (column : IColumn) : bool :=
  match column with
  | ColumnVector _ _ | ColumnString _ _ | ColumnFixedString _ _ => true
  | _ => false
  end.

(** The rows of the result: empty rows are replaced by the one element [d]. *)
Definition single_rows (d : Z) (offsets data : list Z) : list (list Z) :=
  single_if_empty d <$> array_rows offsets data.

(** The interface calls that fill a column of another representation: one
    call per row. *)
Definition single_calls (offsets : list Z) : list CloneOp :=
  (fun b => if snd b =? fst b then InsertDefault
            else InsertRangeFrom (fst b) (snd b - fst b)) <$> row_bounds 0 offsets.

(** Default values to run examples with. *)
Definition scalar_defaults : DataTypeInterface := fun type =>
  match type with
  | DataTypeNumber T =>
      if is_unsigned T then FUInt64 0 else if is_float T then FFloat64 0 else FInt64 0
  | DataTypeString | DataTypeFixedString _ => FString []
  | DataTypeArray _ => FArray []
  | DataTypeTuple _ => FTuple []
  | DataTypeNullable _ | DataTypeNull => Null
  end.

Fixpoint foldiM {A S : Type} (i : Z) (f : A -> Z -> S -> Result S) (l : list A) (s : S)
  : Result S :=
  match l with
  | [] => Ok s
  | x :: r => s' ← f x i s; foldiM (i + 1) f r s'
  end.

(** What [update(from)] writes for the source index [from]. *)
Definition is_null_at (b : NullMapBuilder) (from : Z) : bool :=
  match src_nullable_col b with
  | Some null_map => isNullAt null_map from
  | None =>
      match src_array b with
      | Some array =>
          if from <? Z.of_nat (length array) then isNull (array !!! Z.to_nat from)
          else true
      | None => true
      end
  end.

(** The mark the builder writes for a row: the null mark of the source
    index it is given, or 0 when it is given none. *)
Definition mark (b : NullMapBuilder) (read : option Z) : Z :=
  match read with
  | Some j => if is_null_at b j then 1 else 0
  | None => 0
  end.

(** The builder after the rows whose source indices are [reads]. *)
Definition marked (b : NullMapBuilder) (reads : list (option Z)) : NullMapBuilder :=
  if active b
  then mkBuilder (src_nullable_col b) (src_array b)
         (take (Z.to_nat (index b)) (sink_null_map b) ++ (mark b <$> reads)
            ++ drop (Z.to_nat (index b) + length reads) (sink_null_map b))
         (sink_size b) (index b + Z.of_nat (length reads))
  else b.

(** The builder has room for [n] more marks. *)
Definition roomy (b : NullMapBuilder) (n : Z) : Prop :=
  active b = true ->
  0 <= index b /\ index b + n <= sink_size b /\ sink_size b = size (sink_null_map b).

(** One step of the builder, for a row that read [read]. *)
Definition tell (b : NullMapBuilder) (read : option Z) : Result NullMapBuilder :=
  match read with
  | Some j => observe b j
  | None => observe_miss b
  end.

(** The position in a row of [len] elements that the 1-based index [k]
    selects, counted from zero: from the start for a positive [k], from the
    end for a negative one, none otherwise. *)
Definition position (k len : Z) : option Z :=
  if decide (1 <= k <= len) then Some (k - 1)
  else if decide (- len <= k <= -1) then Some (len + k)
  else None.

(** [-index] does not overflow (an overflow is undefined in C++). *)
Definition negatable (TIndex : NumType) (index : Z) : Prop :=
  match TIndex with
  | Int32 => index <> - 2 ^ 31
  | Int64 => index <> - 2 ^ 63
  | _ => True
  end.

(** The source indices the rows read, given the decision [pick i
    current_offset off] of the loop for row [i]. *)
Fixpoint picks (pick : Z -> Z -> Z -> option Z) (i prev : Z) (offsets : list Z)
  : list (option Z) :=
  match offsets with
  | [] => []
  | off :: rest => pick i prev off :: picks pick (i + 1) off rest
  end.

(** The value stored for a row. *)
Definition value (data : list Z) (read : option Z) : Z :=
  match read with Some j => get data j | None => 0 end.

Definition pick_vector (TIndex : NumType) (indices : list Z) (i current_offset off : Z)
  : option Z :=
  match access TIndex (get indices i) (size_t (off - current_offset)) with
  | FromStart => Some (size_t (current_offset + get indices i - 1))
  | FromEnd => Some (size_t (off + get indices i))
  | Miss => None
  end.

Definition pick_const (negative : bool) (index : Z) (i current_offset off : Z) : option Z :=
  if index <? size_t (off - current_offset)
  then Some (if negb negative then size_t (current_offset + index)
             else size_t (off - index - 1))
  else None.

(** One step of the loops of [ArrayElementNumImpl], for the row [i] that
    ends at [off] and reads what [pick] says. *)
Definition num_step (pick : Z -> Z -> Z -> option Z) (data : list Z) (off i : Z)
    (st : ArrayElementNumImpl.Loop) : Result ArrayElementNumImpl.Loop :=
  let read := pick i (ArrayElementNumImpl.current_offset st) off in
  b ← tell (ArrayElementNumImpl.builder st) read;
  Ok (ArrayElementNumImpl.mkLoop
        (store (ArrayElementNumImpl.result st) i (value data read)) b off).

(** The source index that the row with the bounds [(p, o)] reads for the
    index [k]. *)
Definition source_index (k p o : Z) : option Z := Z.add p <$> position k (o - p).

(** The null mark of the result for a row, given the null map of the source
    and the source index the row reads: the mark of that element, and 0
    (not null) when the row reads no element. *)
Definition null_mark (null_map : list Z) (read : option Z) : Z :=
  match read with
  | Some j => if isNullAt null_map j then 1 else 0
  | None => 0
  end.

(** The index of a row, for an index column or a constant index. *)
Definition index_value (index_column : IColumn) (i : Z) : Z :=
  match index_column with
  | ColumnVector _ indices => get indices i
  | ColumnConst _ value _ => getValue_number value
  | _ => 0
  end.

(** The index arguments the statements are about: a column of integers with
    one index per row, or a constant that [perform] does not take for the
    index 0. *)
Definition index_argument `{FieldInterface} (index_column : IColumn) (rows : Z) : Prop :=
  match index_column with
  | ColumnVector TIndex indices =>
      is_float TIndex = false /\ Forall (in_range TIndex) indices /\ size indices = rows
  | ColumnConst _ (FUInt64 v) _ =>
      in_range UInt64 v /\ field_equal (FUInt64 v) (FUInt64 0) = false
  | ColumnConst _ (FInt64 v) _ =>
      in_range Int64 v /\ field_equal (FInt64 v) (FUInt64 0) = false
  | _ => False
  end.

(** The source index the code selects for a row with the bounds [(p, o)].
    A constant index that is held as a signed [Field] is taken for an index
    from the end whatever its sign. *)
Definition selected (index_column : IColumn) (i p o : Z) : option Z :=
  match index_column with
  | ColumnConst _ (FInt64 v) _ => if 0 <=? v then None else source_index v p o
  | _ => source_index (index_value index_column i) p o
  end.

(** The indices of an index column can be negated. *)
Definition negatable_indices (index_column : IColumn) : Prop :=
  match index_column with
  | ColumnVector TIndex indices => Forall (negatable TIndex) indices
  | _ => True
  end.

(** The sections of a tuple column the statement about the constant index 0
    covers: no tuple without elements (nothing is computed for it), and no
    null overlay under a tuple (the result slot of a section has no type for
    [executeImpl] to take the nested type of). *)
Fixpoint sections_ok (data : IColumn) : bool :=
  match data with
  | ColumnTuple columns =>
      match columns with [] => false | _ => forallb sections_ok columns end
  | ColumnNullable _ _ => false
  | _ => true
  end.

(** The array arguments: an array column, with or without a null overlay on
    its elements, or a constant array. *)
Definition array_argument (column : IColumn) : Prop :=
  match column with
  | ColumnArray (ColumnNullable nested _) _ => sections_ok nested = true
  | ColumnArray data _ => sections_ok data = true
  | _ => is_Some (checkAndGetColumnConst_Array column)
  end.

(** The rows of an array column, each in the opposite order, as the data of
    an array column with the same offsets. *)
Definition reversed_rows (offsets data : list Z) : list Z :=
  concat (reverse <$> array_rows offsets data).

(** The body of the loop over the rows of [do_reverse], for the row that
    ends at [off]. *)
Definition reverse_step (src_data : list Z) (off i : Z) (st : list Z * Z) : list Z * Z :=
  let '(res_data, src_prev_offset) := st in
  if src_prev_offset =? off then st
  else
    let '(res_data, _) :=
      FunctionArrayReverse.while_before (Z.to_nat (off - src_prev_offset)) off
        (fun src '(res_data, dst) =>
           (src + 1, (store res_data dst (get src_data src), dst - 1)))
        src_prev_offset (res_data, size_t (off - 1)) in
    (res_data, off).

(** The body of the loop over the rows of [arrayEnumerate], for the row
    that ends at [off]. *)
Definition enumerate_step (off i : Z) (st : list Z * Z) : list Z * Z :=
  let '(res_values, prev_off) := st in
  (for_range prev_off off
     (fun j res_values => store res_values j (wrap 32 (size_t (j - prev_off + 1))))
     res_values,
   off).

(** The sizes of the columns of numbers, for the examples. *)
Definition vector_sizes : ColumnInterface := fun column =>
  match column with
  | ColumnVector _ data => size data
  | _ => 0
  end.

(** The elements of an array column, under the null overlay if there is
    one. *)
Definition nested_elements (data : IColumn) : IColumn :=
  match data with
  | ColumnNullable nested _ => nested
  | _ => data
  end.

(** An index column with one index per row whose indices are not of one of
    the eight integer types. *)
Definition not_integral_index (index_column : IColumn) : Prop :=
  match index_column with
  | ColumnVector T _ => is_float T = true
  | ColumnConst _ _ _ => False
  | _ => True
  end.

(** The call [ArrayElementGenericImpl] makes on the result column for a
    row. *)
Definition call_of (read : option Z) : CloneOp :=
  match read with
  | Some j => InsertFrom j
  | None => InsertDefault
  end.

(** One step of the loops of [ArrayElementGenericImpl], for the row [i] that
    ends at [off] and reads what [pick] says. *)
Definition generic_step (pick : Z -> Z -> Z -> option Z) (off i : Z)
    (st : ArrayElementGenericImpl.Loop) : Result ArrayElementGenericImpl.Loop :=
  let read := pick i (ArrayElementGenericImpl.current_offset st) off in
  b ← tell (ArrayElementGenericImpl.builder st) read;
  Ok (ArrayElementGenericImpl.mkLoop
        (ArrayElementGenericImpl.result st ++ [call_of read]) b off).

(** What the rows read, for an index column or a constant index. *)
Definition index_reads (index_column : IColumn) (offsets : list Z) : list (option Z) :=
  match index_column with
  | ColumnVector TIndex indices => picks (pick_vector TIndex indices) 0 0 offsets
  | ColumnConst _ (FUInt64 v) _ => picks (pick_const false (size_t (v - 1))) 0 0 offsets
  | ColumnConst _ (FInt64 v) _ => picks (pick_const true (size_t (- v - 1))) 0 0 offsets
  | _ => []
  end.

(** The elements that [arrayElement] takes through the interface of
    [IColumn]: neither numbers nor strings, nor tuples, which it takes
    section by section. *)
Definition generic_elements (data : IColumn) : bool :=
  match data with
  | ColumnVector _ _ | ColumnString _ _ | ColumnTuple _ | ColumnNullable _ _ => false
  | _ => true
  end.

(** The counter a [std::map<Field, UInt32>], kept as the list of its
    entries, holds for a key; a key without an entry counts for 0. *)
Fixpoint count_in (indices : list (Field * Z)) (x : Field) : Z :=
  match indices with
  | [] => 0
  | (k, c) :: rest => if decide (k = x) then c else count_in rest x
  end.

(** The elements [arrayUniq] and [arrayEnumerateUniq] have an
    implementation for, when they are called with one argument. *)
Definition hashable_elements (data : IColumn) : bool :=
  match data with
  | ColumnVector _ _ | ColumnString _ _ => true
  | _ => false
  end.

(** The arguments [range] has an implementation for: a column or a constant
    of an unsigned integer type. *)
Definition range_column (col : IColumn) : bool :=
  match col with
  | ColumnVector T _ | ColumnConst (DataTypeNumber T) _ _ => is_unsigned T
  | _ => false
  end.

(** The bytes [emptyArrayToSingle] gives the rows of an array column of
    fixed strings of [n] bytes: a row without elements becomes one string
    of [n] zero bytes, another row keeps the bytes of its strings. *)
Definition single_fixed_rows (n : Z) (offsets chars : list Z) : list (list Z) :=
  (fun b => if snd b =? fst b then replicate (Z.to_nat n) 0
            else slice chars (fst b * n) (snd b * n)) <$> row_bounds 0 offsets.

(** The bytes and the sizes of the strings [emptyArrayToSingle] gives a row
    of an array column of strings, the row having the bounds [b]: a row
    without elements becomes the row of one empty string, which is its zero
    byte; another row keeps its strings. *)
Definition single_string_bytes (chars string_offsets : list Z) (b : Z * Z) : list Z :=
  if snd b =? fst b then [0]
  else slice chars (offsetAt string_offsets (fst b)) (offsetAt string_offsets (snd b)).

Definition single_string_sizes (string_offsets : list Z) (b : Z * Z) : list Z :=
  if snd b =? fst b then [1]
  else (fun j => get string_offsets j - offsetAt string_offsets j)
         <$> seqZ (fst b) (snd b - fst b).

(** The string column [emptyArrayToSingle] gives for an array column of
    strings with the offsets [offsets]. *)
Definition single_strings (chars string_offsets offsets : list Z) : IColumn :=
  ColumnString
    (concat (single_string_bytes chars string_offsets <$> row_bounds 0 offsets))
    (offsets_from 0
       (concat (single_string_sizes string_offsets <$> row_bounds 0 offsets))).

(** String [j] of a column of fixed strings of [n] bytes. *)
Definition fixed_string (n : Z) (chars : list Z) (j : Z) : list Z :=
  slice chars (j * n) (j * n + n).

(** The bytes of an array column of fixed strings of [n] bytes with the
    strings of every row in the opposite order. *)
Definition reversed_fixed_rows (n : Z) (offsets chars : list Z) : list Z :=
  concat ((fun b => concat (reverse (fixed_string n chars <$> seqZ (fst b) (snd b - fst b))))
            <$> row_bounds 0 offsets).

(** String [j] of a string column, with its zero byte. *)
Definition stored_string (chars string_offsets : list Z) (j : Z) : list Z :=
  slice chars (offsetAt string_offsets j) (get string_offsets j).

(** The string column of an array column of strings with the strings of
    every row in the opposite order. *)
Definition reversed_strings (chars string_offsets offsets : list Z) : IColumn :=
  ColumnString
    (concat ((fun b => concat (reverse (stored_string chars string_offsets
                                          <$> seqZ (fst b) (snd b - fst b))))
               <$> row_bounds 0 offsets))
    (offsets_from 0
       (concat ((fun b => reverse ((fun j => get string_offsets j - offsetAt string_offsets j)
                                     <$> seqZ (fst b) (snd b - fst b)))
                  <$> row_bounds 0 offsets))).

(** The string [arrayElement] gives a row that reads the source index
    [read]: that string with its zero byte, or the empty string. *)
Definition string_of (chars string_offsets : list Z) (read : option Z) : list Z :=
  match read with
  | Some j => stored_string chars string_offsets j
  | None => [0]
  end.

(** The string column of the strings the rows read. *)
Definition element_strings (chars string_offsets : list Z) (reads : list (option Z))
  : IColumn :=
  ColumnString (concat (string_of chars string_offsets <$> reads))
    (offsets_from 0 (size <$> (string_of chars string_offsets <$> reads))).

(** The source index [ArrayElementStringImpl::vector] hands the builder for
    a row that reads the string [j]: the one before, and 0 for 0. *)
Definition before (j : Z) : Z := if j =? 0 then 0 else j - 1.

(** The source index whose null mark a row gets, for an array column of
    strings: with an index per row, the one before the string it reads. *)
Definition told (index_column : IColumn) (read : option Z) : option Z :=
  match index_column with
  | ColumnVector _ _ => before <$> read
  | _ => read
  end.

(** What [arrayElement] does for a row with the index [k] on the constant
    array [arr]: the call on the result column, and the null mark of the
    row when the array holds NULLs. *)
Definition const_op (arr : Array) (k : Z) : FieldOp :=
  match position k (Z.of_nat (length arr)) with
  | Some j => Insert (arr !!! Z.to_nat j)
  | None => InsertDefaultField
  end.

Definition const_mark (arr : Array) (k : Z) : Z :=
  match position k (Z.of_nat (length arr)) with
  | Some j => if isNull (arr !!! Z.to_nat j) then 1 else 0
  | None => 0
  end.

(** The methods of [IDataType] as the types of this file answer them, to
    run examples with: the name of a type is one byte that tells its kind. *)
Definition kind_methods : IDataType.Methods :=
  {| IDataType.behavesAsNumber :=
       fun type => match type with DataTypeNumber _ => true | _ => false end;
     IDataType.isNull :=
       fun type => match type with DataTypeNull => true | _ => false end;
     IDataType.isNullable :=
       fun type => match type with DataTypeNullable _ => true | _ => false end;
     IDataType.getName :=
       fun type =>
         match type with
         | DataTypeNumber _ => [78]
         | DataTypeString => [83]
         | DataTypeFixedString _ => [70]
         | DataTypeArray _ => [65]
         | DataTypeNullable _ => [63]
         | DataTypeTuple _ => [84]
         | DataTypeNull => [48]
         end |}.

Definition strip_nullable : DataTypeTraits.Functions :=
  fun type => match type with DataTypeNullable nested => nested | _ => type end.

(** The name of a type up to nullability, as [hasArrayIdenticalTypes]
    compares it. *)
Definition observed_name `{IDataType.Methods} `{DataTypeTraits.Functions}
    (type : DataType) : list Z :=
  IDataType.getName (DataTypeTraits.removeNullable type).

(** The ranks [arrayEnumerateUniq] shall give the rows of its argument:
    every element gets the number of occurrences of its value in its row up
    to and including itself, the nulls of a row being counted apart. A
    constant array is one row, the literal. *)
Definition ranked_rows (column : IColumn) : list (list Z) :=
  match column with
  | ColumnArray (ColumnNullable (ColumnVector _ values) null_map) offsets =>
      ranks <$> logical_rows offsets values (Some null_map)
  | ColumnArray (ColumnVector _ values) offsets =>
      ranks <$> logical_rows offsets values None
  | ColumnArray (ColumnNullable (ColumnString chars string_offsets) null_map) offsets =>
      ranks <$> string_rows chars string_offsets (Some null_map) offsets
  | ColumnArray (ColumnString chars string_offsets) offsets =>
      ranks <$> string_rows chars string_offsets None offsets
  | ColumnConst _ (FArray values) _ => [ranks (field_row values)]
  | _ => []
  end.

(** What [arrayEnumerateUniq] shall return for its argument: the ranks with
    the offsets of the argument, or the constant array of the ranks. *)
Definition ranked_spec (result_type : DataType) (column : IColumn) : IColumn :=
  match column with
  | ColumnArray _ offsets =>
      ColumnArray (ColumnVector UInt32 (concat (ranked_rows column))) offsets
  | ColumnConst _ _ s =>
      ColumnConst result_type (FArray (FUInt64 <$> concat (ranked_rows column))) s
  | _ => column
  end.

(** The arguments [arrayEnumerateUniq] has an implementation for, when it is
    called with one argument: an array column of numbers of any of the ten
    types or of strings, null-overlaid or not, or a constant array; the rows
    are shorter than [2 ^ 32] (the counters are [UInt32]). *)
Definition ranked_argument `{FieldInterface} (column : IColumn) : Prop :=
  match column with
  | ColumnArray (ColumnNullable (ColumnVector T values) null_map) offsets =>
      array_ok offsets (size values)
      /\ size null_map = size values
      /\ Forall (fun row => size row < 2 ^ 32) (array_rows offsets values)
  | ColumnArray (ColumnVector T values) offsets =>
      array_ok offsets (size values)
      /\ Forall (fun row => size row < 2 ^ 32) (array_rows offsets values)
  | ColumnArray (ColumnNullable (ColumnString chars string_offsets) _) offsets
  | ColumnArray (ColumnString chars string_offsets) offsets =>
      array_ok offsets (size string_offsets)
      /\ Forall (fun '(p, o) => o - p < 2 ^ 32) (row_bounds 0 offsets)
  | ColumnConst (DataTypeArray _) (FArray values) s =>
      totally_ordered values /\ Z.of_nat (length values) < 2 ^ 32
  | _ => False
  end.

(** What [emptyArrayToSingle] does to an array, row by row: a row without
    elements becomes the row of one default element, which a null overlay
    marks as null (1); the other rows keep their elements and their null
    marks. The default element is the number 0, the string of [n] zero
    bytes, the empty string, or what [insertDefault] gives the column of
    another representation. A constant array without elements becomes the
    constant array of the one default value of its element type; another
    constant array is returned as it is. *)
Definition single_spec `{DataTypeInterface} (result_type : DataType) (rows : Z)
    (column : IColumn) : IColumn :=
  match column with
  | ColumnArray (ColumnNullable (ColumnVector T values) null_map) offsets =>
      ColumnArray
        (ColumnNullable (ColumnVector T (concat (single_rows 0 offsets values)))
           (concat (single_rows 1 offsets null_map)))
        (offsets_from 0 (size <$> single_rows 0 offsets values))
  | ColumnArray (ColumnVector T values) offsets =>
      ColumnArray (ColumnVector T (concat (single_rows 0 offsets values)))
        (offsets_from 0 (size <$> single_rows 0 offsets values))
  | ColumnArray (ColumnNullable (ColumnFixedString n chars) null_map) offsets =>
      ColumnArray
        (ColumnNullable (ColumnFixedString n (concat (single_fixed_rows n offsets chars)))
           (concat (single_rows 1 offsets null_map)))
        (offsets_from 0 (out_len <$> row_bounds 0 offsets))
  | ColumnArray (ColumnFixedString n chars) offsets =>
      ColumnArray (ColumnFixedString n (concat (single_fixed_rows n offsets chars)))
        (offsets_from 0 (out_len <$> row_bounds 0 offsets))
  | ColumnArray (ColumnNullable (ColumnString chars string_offsets) null_map) offsets =>
      ColumnArray
        (ColumnNullable (single_strings chars string_offsets offsets)
           (concat (single_rows 1 offsets null_map)))
        (offsets_from 0 (out_len <$> row_bounds 0 offsets))
  | ColumnArray (ColumnString chars string_offsets) offsets =>
      ColumnArray (single_strings chars string_offsets offsets)
        (offsets_from 0 (out_len <$> row_bounds 0 offsets))
  | ColumnArray (ColumnNullable inner_col null_map) offsets =>
      ColumnArray
        (ColumnNullable (ColumnCloneEmpty inner_col (single_calls offsets))
           (concat (single_rows 1 offsets null_map)))
        (offsets_from 0 (size <$> single_rows 1 offsets null_map))
  | ColumnArray src_data offsets =>
      ColumnArray (ColumnCloneEmpty src_data (single_calls offsets))
        (offsets_from 0 (out_len <$> row_bounds 0 offsets))
  | ColumnConst (DataTypeArray nested_type) (FArray []) _ =>
      ColumnConst result_type (FArray [getDefault nested_type]) rows
  | _ => column
  end.

(** The arguments of [emptyArrayToSingle]: a well-formed array column whose
    elements are numbers, fixed strings, strings or of a representation
    without a loop of its own, with or without a null overlay, small enough
    for the result to stay within [2 ^ 64] cells; or a constant array, of
    the type the block gives the argument. *)
Definition single_argument (argument_type : DataType) (column : IColumn) : Prop :=
  match column with
  | ColumnArray (ColumnNullable (ColumnVector T values) null_map) offsets =>
      array_ok offsets (size values) /\ size null_map = size values
      /\ size values + size offsets < 2 ^ 64
  | ColumnArray (ColumnVector T values) offsets =>
      array_ok offsets (size values) /\ size values + size offsets < 2 ^ 64
  | ColumnArray (ColumnNullable (ColumnFixedString n chars) null_map) offsets =>
      0 < n /\ array_ok offsets (size null_map) /\ size chars = size null_map * n
      /\ size chars + n * size offsets < 2 ^ 64
  | ColumnArray (ColumnFixedString n chars) offsets =>
      0 < n /\ (exists m, array_ok offsets m /\ size chars = m * n)
      /\ size chars + n * size offsets < 2 ^ 64
  | ColumnArray (ColumnNullable (ColumnString chars string_offsets) null_map) offsets =>
      array_ok offsets (size string_offsets) /\ array_ok string_offsets (size chars)
      /\ size null_map = size string_offsets
      /\ size string_offsets + size offsets < 2 ^ 64
      /\ size chars + size offsets < 2 ^ 64
  | ColumnArray (ColumnString chars string_offsets) offsets =>
      array_ok offsets (size string_offsets) /\ array_ok string_offsets (size chars)
      /\ size string_offsets + size offsets < 2 ^ 64
      /\ size chars + size offsets < 2 ^ 64
  | ColumnArray (ColumnNullable inner_col null_map) offsets =>
      specialised inner_col = false
      /\ array_ok offsets (size null_map) /\ size null_map + size offsets < 2 ^ 64
  | ColumnArray src_data offsets =>
      specialised src_data = false
      /\ (exists n, array_ok offsets n /\ n + size offsets < 2 ^ 64)
  | ColumnConst type (FArray _) _ =>
      (exists nested_type, type = DataTypeArray nested_type) /\ argument_type = type
  | _ => False
  end.

(** * Properties *)

(** ** Arithmetic and buffers *)

Lemma size_t_small z : 0 <= z < 2 ^ 64 -> size_t z = z.
Proof. intros Hz. unfold size_t, wrap. apply Z.mod_small. exact Hz. Qed.

Lemma to_unsigned_small T z : 0 <= z < 2 ^ bits T -> to_unsigned T z = z.
Proof. intros Hz. unfold to_unsigned, wrap. apply Z.mod_small. exact Hz. Qed.

Lemma bits_le_64 T : 0 < bits T <= 64.
Proof. destruct T; simpl; lia. Qed.

Lemma in_range_unsigned T z :
  is_unsigned T = true -> in_range T z -> 0 <= z < 2 ^ bits T /\ z < 2 ^ 64.
Proof.
  unfold in_range. intros -> Hz. split; [exact Hz|].
  pose proof (bits_le_64 T) as Hb.
  assert (2 ^ bits T <= 2 ^ 64) by (apply Z.pow_le_mono_r; lia). lia.
Qed.

Lemma length_resize_uninit `{Memory} n l : length (resize_uninit n l) = Z.to_nat n.
Proof.
  unfold resize_uninit.
  rewrite length_app, length_take, length_fmap, length_seq. lia.
Qed.

Lemma length_alloc `{Memory} n : length (alloc n) = Z.to_nat n.
Proof. apply length_resize_uninit. Qed.

Lemma length_store l j v : length (store l j v) = length l.
Proof. apply length_insert. Qed.

Lemma store_take_drop l j v :
  0 <= j < size l ->
  store l j v = take (Z.to_nat j) l ++ v :: drop (Datatypes.S (Z.to_nat j)) l.
Proof. unfold store, size. intros Hj. apply insert_take_drop. lia. Qed.

(** ** Loops *)

Lemma for_loop_ext {S} n i (f g : Z -> S -> S) s :
  (forall j s', i <= j < i + Z.of_nat n -> f j s' = g j s') ->
  for_loop n i f s = for_loop n i g s.
Proof.
  revert i s. induction n as [|n IH]; intros i s Hfg; simpl; [reflexivity|].
  rewrite Hfg by lia. apply IH. intros j s' Hj. apply Hfg. lia.
Qed.

(** A loop invariant carries over the whole loop. *)
Lemma for_loop_invariant {S} (P : Z -> S -> Prop) n i (body : Z -> S -> S) s :
  P i s ->
  (forall j s', i <= j < i + Z.of_nat n -> P j s' -> P (j + 1) (body j s')) ->
  P (i + Z.of_nat n) (for_loop n i body s).
Proof.
  revert i s. induction n as [|n IH]; intros i s Hs Hstep; simpl.
  - replace (i + Z.of_nat 0) with i by lia. exact Hs.
  - replace (i + Z.of_nat (Datatypes.S n)) with (i + 1 + Z.of_nat n) by lia.
    apply IH; [apply Hstep; [lia|exact Hs]|].
    intros j s' Hj. apply Hstep. lia.
Qed.

Lemma for_loop_foldi {A S} `{Inhabited A} (f : A -> Z -> S -> S) (pre suf : list A) s :
  for_loop (length suf) (Z.of_nat (length pre))
    (fun i s => f ((pre ++ suf) !!! Z.to_nat i) i s) s
  = foldi (Z.of_nat (length pre)) f suf s.
Proof.
  revert pre s. induction suf as [|x suf IH]; intros pre s; simpl; [reflexivity|].
  rewrite Nat2Z.id, list_lookup_total_middle by reflexivity.
  specialize (IH (pre ++ [x]) (f x (Z.of_nat (length pre)) s)).
  rewrite <- app_assoc in IH. simpl in IH.
  replace (Z.of_nat (length (pre ++ [x]))) with (Z.of_nat (length pre) + 1) in IH
    by (rewrite length_app; simpl; lia).
  exact IH.
Qed.

Lemma for_range_foldi_total {A S} `{Inhabited A} (f : A -> Z -> S -> S) (l : list A) s :
  for_range 0 (Z.of_nat (length l)) (fun i s => f (l !!! Z.to_nat i) i s) s
  = foldi 0 f l s.
Proof.
  unfold for_range. rewrite Z.sub_0_r, Nat2Z.id.
  apply (for_loop_foldi f [] l s).
Qed.

Lemma for_range_foldi {S} (f : Z -> Z -> S -> S) l s :
  for_range 0 (size l) (fun i s => f (get l i) i s) s = foldi 0 f l s.
Proof. apply (for_range_foldi_total f l s). Qed.

(** Writing [f j] to cell [off + j] for [j] in [[i, i + n)]. *)
Lemma size_store l j v : size (store l j v) = size l.
Proof. unfold size. rewrite length_store. reflexivity. Qed.

Lemma for_loop_fill n : forall i off (f : Z -> Z) d,
  0 <= off + i -> off + i + Z.of_nat n <= size d ->
  for_loop n i (fun j d => store d (off + j) (f j)) d
  = take (Z.to_nat (off + i)) d ++ (f <$> seqZ i (Z.of_nat n))
      ++ drop (Z.to_nat (off + i) + n) d.
Proof.
  induction n as [|n IH]; intros i off f d Hlo Hhi.
  - simpl. rewrite Nat.add_0_r, take_drop. reflexivity.
  - simpl for_loop. rewrite IH; [|lia|rewrite size_store; lia].
    rewrite (seqZ_cons i) by lia. simpl fmap.
    replace (Z.succ i) with (i + 1) by lia.
    replace (Z.pred (Z.of_nat (Datatypes.S n))) with (Z.of_nat n) by lia.
    replace (Z.to_nat (off + (i + 1))) with (Datatypes.S (Z.to_nat (off + i))) by lia.
    unfold size in Hhi. unfold store.
    rewrite take_insert_lt by lia.
    rewrite drop_insert_lt by lia.
    rewrite (take_S_r _ _ (d !!! Z.to_nat (off + i)))
      by (apply list_lookup_lookup_total_lt; lia).
    rewrite insert_app_r_alt by (rewrite length_take; lia).
    rewrite length_take.
    replace (Z.to_nat (off + i) - Z.to_nat (off + i) `min` length d)%nat with O by lia.
    replace (Datatypes.S (Z.to_nat (off + i)) + n)%nat
      with (Z.to_nat (off + i) + Datatypes.S n)%nat by lia.
    rewrite <- app_assoc. reflexivity.
Qed.

(** ** [range] *)

Lemma rows_from_concat rows : forall pre post,
  rows_from (size pre) (offsets_from (size pre) (size <$> rows))
    (pre ++ concat rows ++ post) = rows.
Proof.
  induction rows as [|r rows IH]; intros pre post; [reflexivity|].
  rewrite fmap_cons. simpl.
  replace (size pre + size r - size pre) with (size r) by lia.
  unfold size at 1 2. rewrite !Nat2Z.id, drop_app_length, <- app_assoc, take_app_length.
  f_equal.
  replace (size pre + size r) with (size (pre ++ r))
    by (unfold size; rewrite length_app; lia).
  rewrite (app_assoc pre r). apply IH.
Qed.

Lemma array_rows_concat rows :
  array_rows (offsets_from 0 (size <$> rows)) (concat rows) = rows.
Proof.
  pose proof (rows_from_concat rows [] []) as Hrows.
  simpl in Hrows. rewrite app_nil_r in Hrows. exact Hrows.
Qed.

Section RangeProofs.
Import FunctionRange.
Context `{Memory}.

Lemma total_nonneg ns : Forall (fun n => 0 <= n) ns -> 0 <= total ns.
Proof. induction 1; simpl; lia. Qed.

Lemma total_replicate n v : total (replicate n v) = Z.of_nat n * v.
Proof. induction n as [|n IH]; simpl replicate; simpl total; lia. Qed.

Lemma length_offsets_from start ns : length (offsets_from start ns) = length ns.
Proof. revert start. induction ns; intros; simpl; auto. Qed.

Lemma length_iota n : length (iota n) = Z.to_nat n.
Proof. apply length_seqZ. Qed.

Lemma length_concat_iota ns :
  Forall (fun n => 0 <= n) ns ->
  Z.of_nat (length (concat (iota <$> ns))) = total ns.
Proof.
  induction 1 as [|n ns Hn _ IH]; [reflexivity|].
  rewrite fmap_cons. simpl concat. simpl total.
  rewrite length_app, length_iota. lia.
Qed.

(** [std::accumulate] with the checked addition returns the exact sum or
    throws, and it throws exactly when the exact sum leaves [size_t]. *)
Lemma accumulate_exact in_data : forall init,
  0 <= init < 2 ^ 64 ->
  Forall (fun n => 0 <= n < 2 ^ 64) in_data ->
  accumulate in_data init
  = if decide (init + total in_data < 2 ^ 64) then Ok (init + total in_data)
    else Throw ARGUMENT_OUT_OF_BOUND.
Proof.
  induction in_data as [|n rest IH]; intros init Hinit Hall; simpl.
  - rewrite decide_True by lia. f_equal. lia.
  - inversion Hall as [|? ? Hn Hrest]; subst.
    assert (0 <= total rest)
      by (apply total_nonneg; eapply Forall_impl; [exact Hrest|simpl; lia]).
    unfold add_checked, size_t, wrap.
    destruct (decide (init + n < 2 ^ 64)) as [Hfit|Hover].
    + rewrite Z.mod_small by lia.
      destruct (Z.ltb_spec (init + n) init) as [?|_]; [lia|].
      simpl. rewrite IH by (auto; lia).
      repeat case_decide; try lia; [f_equal; lia|reflexivity].
    + assert (Hmod : (init + n) mod 2 ^ 64 = init + n - 2 ^ 64).
      { symmetry. apply (Z.mod_unique_pos _ _ 1); lia. }
      rewrite Hmod.
      destruct (Z.ltb_spec (init + n - 2 ^ 64) init) as [_|?]; [|lia].
      simpl. rewrite decide_False by lia. reflexivity.
Qed.

(** One row: the cells [[offset, offset + elems)] receive [0 .. elems - 1]. *)
Lemma fill_row_cells T elems row_idx done todo offs :
  0 <= elems < 2 ^ bits T ->
  elems <= size todo ->
  size (done ++ todo) < 2 ^ 64 ->
  fill_row T elems row_idx (mkOut (done ++ todo) offs (size done))
  = mkOut (done ++ iota elems ++ drop (Z.to_nat elems) todo)
          (store offs row_idx (size done + elems))
          (size done + elems).
Proof.
  intros Helems Htodo Hsize. unfold fill_row. simpl.
  assert (Hlen : size (done ++ todo) = size done + size todo)
    by (unfold size; rewrite length_app; lia).
  assert (0 <= size done) by (unfold size; lia).
  rewrite (size_t_small (size done + elems)) by lia. f_equal.
  unfold for_range.
  rewrite (for_loop_ext _ _ _ (fun j d => store d (size done + j) (id j))).
  - rewrite for_loop_fill by lia.
    rewrite Z.add_0_r, Z.sub_0_r, Z2Nat.id, list_fmap_id by lia.
    unfold size at 1 2. rewrite Nat2Z.id, take_app_length, drop_app_add.
    reflexivity.
  - intros j d Hj. rewrite size_t_small, to_unsigned_small by lia. reflexivity.
Qed.

(** The loop over the rows, as a traversal of the upper bounds. *)
Lemma fill_rows T ns : forall done todo done_offs todo_offs,
  Forall (fun n => 0 <= n < 2 ^ bits T) ns ->
  total ns <= size todo ->
  size (done ++ todo) < 2 ^ 64 ->
  size ns <= size todo_offs ->
  foldi (size done_offs) (fill_row T) ns
    (mkOut (done ++ todo) (done_offs ++ todo_offs) (size done))
  = mkOut (done ++ concat (iota <$> ns) ++ drop (Z.to_nat (total ns)) todo)
          (done_offs ++ offsets_from (size done) ns
             ++ drop (length ns) todo_offs)
          (size done + total ns).
Proof.
  induction ns as [|n ns IH]; intros done todo done_offs todo_offs Hns Htodo Hsize Hoffs.
  - simpl. rewrite Z.add_0_r. reflexivity.
  - inversion Hns as [|? ? Hn Hrest]; subst.
    assert (0 <= total ns)
      by (apply total_nonneg; eapply Forall_impl; [exact Hrest|simpl; lia]).
    simpl total in *. unfold size in Hoffs. simpl length in Hoffs.
    destruct todo_offs as [|slot todo_offs]; [simpl in Hoffs; lia|].
    simpl length in Hoffs.
    simpl foldi. rewrite fill_row_cells by lia.
    assert (Hdone : size (done ++ iota n) = size done + n)
      by (unfold size; rewrite length_app, length_iota; lia).
    assert (Hslot : store (done_offs ++ slot :: todo_offs) (size done_offs) (size done + n)
                    = (done_offs ++ [size done + n]) ++ todo_offs).
    { unfold store, size. rewrite Nat2Z.id, insert_app_r_alt by lia.
      rewrite Nat.sub_diag, <- app_assoc. reflexivity. }
    assert (Hrow : size done_offs + 1 = size (done_offs ++ [size done + n]))
      by (unfold size; rewrite length_app; simpl; lia).
    rewrite Hslot, Hrow, <- Hdone, (app_assoc done).
    rewrite IH.
    + rewrite Hdone, fmap_cons, drop_drop, <- !app_assoc. simpl.
      rewrite <- app_assoc.
      replace (Z.to_nat n + Z.to_nat (total ns))%nat
        with (Z.to_nat (n + total ns)) by lia.
      f_equal. lia.
    + exact Hrest.
    + unfold size in *. rewrite length_drop. lia.
    + unfold size in *.
      rewrite !length_app, length_iota, length_drop in *. lia.
    + unfold size. lia.
Qed.

(** The whole filling loop, from freshly allocated buffers. *)
Lemma fill_all T ns :
  Forall (fun n => 0 <= n < 2 ^ bits T) ns ->
  total ns < 2 ^ 64 ->
  foldi 0 (fill_row T) ns (mkOut (alloc (total ns)) (alloc (size ns)) 0)
  = mkOut (concat (iota <$> ns)) (offsets_from 0 ns) (total ns).
Proof.
  intros Hns Htotal.
  assert (0 <= total ns)
    by (apply total_nonneg; eapply Forall_impl; [exact Hns|simpl; lia]).
  pose proof (fill_rows T ns [] (alloc (total ns)) [] (alloc (size ns))) as Hfill.
  simpl in Hfill. change (size []) with 0 in Hfill.
  rewrite Hfill; [|exact Hns|unfold size; rewrite length_alloc; lia..].
  rewrite !drop_ge, !app_nil_r; [reflexivity|unfold size; rewrite length_alloc; lia..].
Qed.

Lemma executeInternal_other T T' col :
  range_argument T col -> T' <> T -> executeInternal T' col = None.
Proof.
  intros [_ Hcol] Hne.
  destruct col as [T0 d| | | | | |[T0| | | | | |] [|v| | | | |] s| |];
    try contradiction; simpl.
  - destruct Hcol as [-> _]. rewrite decide_False by congruence. reflexivity.
  - destruct Hcol as [-> _]. rewrite decide_False by congruence. reflexivity.
Qed.

Lemma upper_bounds_in_range T col :
  range_argument T col ->
  Forall (fun n => 0 <= n < 2 ^ bits T) (upper_bounds col) /\
  Forall (fun n => 0 <= n < 2 ^ 64) (upper_bounds col).
Proof.
  intros [HT Hcol].
  assert (Hall : Forall (in_range T) (upper_bounds col)).
  { destruct col as [T0 d| | | | | |[T0| | | | | |] [|v| | | | |] s| |];
      try contradiction; simpl.
    - apply Hcol.
    - destruct Hcol as (_ & Hv & _). apply Forall_replicate. exact Hv. }
  split; (eapply Forall_impl; [exact Hall|]); intros n Hn;
    apply (in_range_unsigned T n HT) in Hn; lia.
Qed.

(** The filling loop of the constant branch. *)
Lemma fill_const T s v :
  0 <= s -> 0 <= v < 2 ^ bits T -> s * v < 2 ^ 64 ->
  for_range 0 s (fun row_idx o => fill_row T v row_idx o)
    (mkOut (alloc (s * v)) (alloc s) 0)
  = mkOut (concat (iota <$> replicate (Z.to_nat s) v))
          (offsets_from 0 (replicate (Z.to_nat s) v)) (s * v).
Proof.
  intros Hs Hv Hfit.
  pose proof (fill_all T (replicate (Z.to_nat s) v)) as Hfill.
  rewrite total_replicate, Z2Nat.id in Hfill by lia.
  unfold size in Hfill. rewrite length_replicate, Z2Nat.id in Hfill by lia.
  rewrite <- Hfill by (try apply Forall_replicate; lia).
  rewrite <- (for_range_foldi (fill_row T)).
  unfold size. rewrite length_replicate, Z2Nat.id by lia.
  unfold for_range. apply for_loop_ext. intros j o Hj.
  unfold get. rewrite lookup_total_replicate_2 by lia. reflexivity.
Qed.

Lemma executeInternal_exact T col :
  range_argument T col ->
  executeInternal T col
  = Some (if decide (total (upper_bounds col) <= max_elements)
          then Ok (ColumnArray (ColumnVector T (concat (iota <$> upper_bounds col)))
                     (offsets_from 0 (upper_bounds col)))
          else Throw ARGUMENT_OUT_OF_BOUND).
Proof.
  intros Harg. destruct (upper_bounds_in_range T col Harg) as [HnsT Hns64].
  assert (Hnonneg : 0 <= total (upper_bounds col))
    by (apply total_nonneg; eapply Forall_impl; [exact Hns64|simpl; lia]).
  destruct Harg as [HT Hcol].
  destruct col as [T0 d| | | | | |[T0| | | | | |] [|v| | | | |] s| |];
    try contradiction; unfold executeInternal, upper_bounds in *.
  - destruct Hcol as [-> Hd]. rewrite decide_True by reflexivity. f_equal.
    rewrite accumulate_exact by (auto; lia). rewrite Z.add_0_l.
    unfold max_elements in *.
    destruct (decide (total d < 2 ^ 64)) as [Hfit|Hover]; simpl.
    + destruct (Z.gtb_spec (total d) 100000000); case_decide; try lia; [reflexivity|].
      rewrite (for_range_foldi (fill_row T)), fill_all by assumption. reflexivity.
    + rewrite decide_False by lia. reflexivity.
  - destruct Hcol as (-> & Hd & Hs). rewrite decide_True by reflexivity. f_equal.
    change (getValue_number (FUInt64 v)) with v in *.
    rewrite total_replicate, Z2Nat.id in * by lia.
    assert (Hv : 0 <= v < 2 ^ bits T /\ v < 2 ^ 64)
      by (apply (in_range_unsigned T v HT) in Hd; lia).
    unfold max_elements in *. cbv zeta.
    destruct (Z.eqb_spec v 0) as [->|Hv0]; simpl negb; simpl andb; cbv iota.
    + rewrite Z.mul_0_r in *. rewrite size_t_small by lia.
      destruct (Z.gtb_spec 0 100000000); [lia|].
      rewrite decide_True by lia.
      pose proof (fill_const T s 0) as Hfill. rewrite Z.mul_0_r in Hfill.
      rewrite Hfill by lia. reflexivity.
    + destruct (Z.gtb_spec s ((2 ^ 64 - 1) `div` v)) as [Hbig|Hsmall]; cbv iota.
      * assert (2 ^ 64 - 1 < v * s).
        { pose proof (Z.div_mod (2 ^ 64 - 1) v Hv0) as Hdm.
          pose proof (Z.mod_pos_bound (2 ^ 64 - 1) v ltac:(lia)) as Hmod.
          nia. }
        rewrite decide_False by lia. reflexivity.
      * assert (s * v <= 2 ^ 64 - 1).
        { etransitivity; [apply Z.mul_le_mono_nonneg_r; [lia|exact Hsmall]|].
          rewrite Z.mul_comm. apply Z.mul_div_le. lia. }
        rewrite size_t_small by lia.
        destruct (Z.gtb_spec (s * v) 100000000); case_decide; try lia; [reflexivity|].
        rewrite fill_const by lia. reflexivity.
Qed.

Lemma size_iota n : 0 <= n -> size (iota n) = n.
Proof. intros Hn. unfold size. rewrite length_iota. lia. Qed.

(** C8. [range] throws [ARGUMENT_OUT_OF_BOUND], and produces no column, when
    the exact sum of the per-row upper bounds does not fit [size_t] or
    exceeds 100,000,000; otherwise the result is the array column whose
    row for the bound [n] is exactly [0, 1, ..., n - 1]. *)
Theorem range_checked_then_exact T col :
  range_argument T col ->
  let ns := upper_bounds col in
  (2 ^ 64 <= total ns \/ 100000000 < total ns ->
   executeImpl col = Throw ARGUMENT_OUT_OF_BOUND) /\
  (total ns <= 100000000 ->
   exists data offsets,
     executeImpl col = Ok (ColumnArray (ColumnVector T data) offsets) /\
     data = concat (iota <$> ns) /\
     offsets = offsets_from 0 ns /\
     array_rows offsets data = iota <$> ns).
Proof.
  intros Harg ns.
  assert (Hrun : executeImpl col
                 = if decide (total ns <= max_elements)
                   then Ok (ColumnArray (ColumnVector T (concat (iota <$> ns)))
                              (offsets_from 0 ns))
                   else Throw ARGUMENT_OUT_OF_BOUND).
  { pose proof (executeInternal_exact T col Harg) as Hexact.
    pose proof (executeInternal_other T) as Hother.
    destruct (Harg) as [HT _]. unfold executeImpl.
    destruct T; try discriminate HT;
      rewrite ?(Hother _ col Harg) by discriminate; rewrite Hexact; reflexivity. }
  destruct (upper_bounds_in_range T col Harg) as [_ Hns64]. fold ns in Hns64.
  unfold max_elements in Hrun. split.
  - intros Hbig. rewrite Hrun, decide_False by lia. reflexivity.
  - intros Hfit. rewrite Hrun, decide_True by lia.
    eexists _, _. repeat split.
    assert (Hlens : ns = size <$> (iota <$> ns)).
    { rewrite <- list_fmap_compose. symmetry. etransitivity; [|apply list_fmap_id].
      apply Forall_fmap_ext. eapply Forall_impl; [exact Hns64|].
      intros n Hn. simpl in *. apply size_iota. lia. }
    rewrite Hlens at 1. apply array_rows_concat.
Qed.

End RangeProofs.

Lemma range_checked_then_exact_witness :
  range_argument UInt8 (ColumnVector UInt8 [5; 0; 3]) /\
  @FunctionRange.executeImpl zero_memory (ColumnVector UInt8 [5; 0; 3])
  = Ok (ColumnArray (ColumnVector UInt8 [0; 1; 2; 3; 4; 0; 1; 2]) [5; 5; 8]).
Proof.
  assert (Harg : range_argument UInt8 (ColumnVector UInt8 [5; 0; 3])).
  { split; [reflexivity|]. split; [reflexivity|].
    repeat constructor; unfold in_range; simpl; lia. }
  split; [exact Harg|].
  destruct (@range_checked_then_exact zero_memory UInt8 _ Harg) as [_ Hexact].
  destruct Hexact as (data & offsets & -> & -> & -> & _); [vm_compute; discriminate|].
  reflexivity.
Defined.

(** ** Rows of array columns *)

Lemma offsets_ok_bounds offsets : forall prev n,
  offsets_ok prev offsets n ->
  prev <= n /\ Forall (fun '(p, o) => prev <= p <= o /\ o <= n) (row_bounds prev offsets).
Proof.
  induction offsets as [|off rest IH]; intros prev n Hok; simpl in *.
  - split; [lia|constructor].
  - destruct Hok as [Hle Hrest]. destruct (IH _ _ Hrest) as [Hn Hall].
    split; [lia|]. constructor; [lia|].
    eapply Forall_impl; [exact Hall|]. intros [p o]. lia.
Qed.

Lemma rows_from_bounds offsets data : forall prev,
  rows_from prev offsets data
  = (fun '(p, o) => take (Z.to_nat (o - p)) (drop (Z.to_nat p) data))
      <$> row_bounds prev offsets.
Proof.
  induction offsets as [|off rest IH]; intros prev; simpl; [reflexivity|].
  rewrite IH. reflexivity.
Qed.

(** Reading the cells [a .. a + n - 1] one by one gives the slice. *)
Lemma get_seqZ (l : list Z) a n :
  0 <= a -> 0 <= n -> a + n <= size l ->
  get l <$> seqZ a n = take (Z.to_nat n) (drop (Z.to_nat a) l).
Proof.
  intros Ha Hn Hlen. unfold size in Hlen. apply list_eq. intros i.
  rewrite list_lookup_fmap, lookup_take, lookup_drop.
  destruct (decide (i < Z.to_nat n)%nat) as [Hi|Hi].
  - rewrite lookup_seqZ_lt by lia. simpl. unfold get.
    replace (Z.to_nat (a + Z.of_nat i)) with (Z.to_nat a + i)%nat by lia.
    symmetry. apply list_lookup_lookup_total_lt. lia.
  - rewrite lookup_seqZ_ge by lia. reflexivity.
Qed.

Lemma elements_row values null_map prev off :
  0 <= prev <= off -> off <= size values -> size null_map = size values ->
  elements (get values) (Some null_map) prev off
  = nullable_row (take (Z.to_nat (off - prev)) (drop (Z.to_nat prev) values))
                 (take (Z.to_nat (off - prev)) (drop (Z.to_nat prev) null_map)).
Proof.
  intros Hprev Hoff Hlen. unfold elements, nullable_row, null_at.
  rewrite <- !get_seqZ by lia.
  rewrite zip_with_fmap_l, zip_with_fmap_r, zip_with_diag. reflexivity.
Qed.

Lemma elements_row_plain values prev off :
  0 <= prev <= off -> off <= size values ->
  elements (get values) None prev off
  = Some <$> take (Z.to_nat (off - prev)) (drop (Z.to_nat prev) values).
Proof.
  intros Hprev Hoff. unfold elements, null_at.
  rewrite <- get_seqZ by lia. rewrite <- list_fmap_compose. reflexivity.
Qed.

(** The rows the loops read are the rows of the column. *)
Lemma elements_logical_rows offsets values null_map :
  array_ok offsets (size values) ->
  match null_map with Some m => size m = size values | None => True end ->
  (fun '(p, o) => elements (get values) null_map p o) <$> row_bounds 0 offsets
  = logical_rows offsets values null_map.
Proof.
  intros [_ Hok] Hlen. apply offsets_ok_bounds in Hok as [_ Hall].
  unfold logical_rows, array_rows.
  destruct null_map as [m|]; rewrite !rows_from_bounds.
  - rewrite zip_with_fmap_l, zip_with_fmap_r, zip_with_diag.
    apply Forall_fmap_ext. eapply Forall_impl; [exact Hall|].
    intros [p o] Hpo. apply elements_row; lia.
  - rewrite <- list_fmap_compose.
    apply Forall_fmap_ext. eapply Forall_impl; [exact Hall|].
    intros [p o] Hpo. simpl. apply elements_row_plain; lia.
Qed.

(** ** [arrayUniq] *)

Lemma last_cons_default {A} (l : list A) : forall a d,
  List.last (a :: l) d = List.last l a.
Proof.
  induction l as [|b l IH]; intros a d; [reflexivity|].
  change (List.last (a :: b :: l) d) with (List.last (b :: l) d).
  rewrite !IH. reflexivity.
Qed.

Lemma length_elements {K} (key : Z -> K) null_map p o :
  p <= o -> Z.of_nat (length (elements key null_map p o)) = o - p.
Proof. intros Hpo. unfold elements. rewrite length_fmap, length_seqZ. lia. Qed.

Section UniqProofs.
Import FunctionArrayUniq.
Context {K : Type} `{Countable K}.

Lemma size_list_to_set_remove_dups (l : list K) :
  base.size (list_to_set l : gset K) = length (remove_dups l).
Proof.
  rewrite <- (size_list_to_set (C := gset K) (remove_dups l))
    by apply NoDup_remove_dups.
  f_equal. apply set_eq. intros x.
  rewrite !elem_of_list_to_set, elem_of_remove_dups. reflexivity.
Qed.

Lemma None_in_cons_Some (v : K) (row : list (option K)) :
  bool_decide (None ∈ Some v :: row) = bool_decide (None ∈ row).
Proof.
  apply bool_decide_ext. rewrite elem_of_cons.
  split; [intros [Hc|Hin]; [discriminate|exact Hin]|intros Hin; right; exact Hin].
Qed.

Lemma distinct_count_bound (row : list (option K)) :
  0 <= distinct_count row <= Z.of_nat (length row).
Proof.
  unfold distinct_count.
  assert (Hsub : (length (remove_dups (omap id row)) <= length (omap id row))%nat).
  { apply submseteq_length, NoDup_submseteq; [apply NoDup_remove_dups|].
    intros x. rewrite elem_of_remove_dups. auto. }
  assert (Hcount : (length (omap id row)
                    + (if bool_decide (None ∈ row) then 1 else 0) <= length row)%nat).
  { clear Hsub. induction row as [|[v|] row IH]; simpl;
      try change (list_omap _ _ id row) with (omap id row).
    - lia.
    - rewrite None_in_cons_Some. lia.
    - destruct (bool_decide (None ∈ row)); lia. }
  destruct (bool_decide (None ∈ row)); lia.
Qed.

(** The inner loop collects the non-null keys and notes a null. *)
Lemma scan_loop (key : Z -> K) null_map_data n : forall i s,
  for_loop n i
    (fun j s =>
       if null_at null_map_data j then mkScan (set s) true
       else mkScan ({[key j]} ∪ set s) (found_null s)) s
  = let row := (fun j => if null_at null_map_data j then None else Some (key j))
                 <$> seqZ i (Z.of_nat n) in
    mkScan (list_to_set (omap id row) ∪ set s)
           (found_null s || bool_decide (None ∈ row)).
Proof.
  induction n as [|n IH]; intros i s.
  - simpl. rewrite orb_false_r, (left_id_L ∅ (∪)). destruct s; reflexivity.
  - simpl for_loop. rewrite IH. cbv zeta.
    rewrite (seqZ_cons i) by lia. rewrite fmap_cons.
    replace (Z.succ i) with (i + 1) by lia.
    replace (Z.pred (Z.of_nat (Datatypes.S n))) with (Z.of_nat n) by lia.
    set (row := (fun j => if null_at null_map_data j then None else Some (key j))
                  <$> seqZ (i + 1) (Z.of_nat n)).
    destruct (null_at null_map_data i); simpl;
      change (list_omap _ _ id row) with (omap id row).
    + rewrite orb_true_r. reflexivity.
    + rewrite None_in_cons_Some. f_equal.
      rewrite !(assoc_L (∪)). f_equal. apply (comm_L (∪)).
Qed.

Lemma scan_row_count (key : Z -> K) null_map_data prev_off off :
  let s := scan_row key null_map_data prev_off off in
  Z.of_nat (base.size (set s)) + (if found_null s then 1 else 0)
  = distinct_count (elements key null_map_data prev_off off).
Proof.
  unfold scan_row, for_range. rewrite scan_loop. cbv zeta. simpl set. simpl found_null.
  rewrite (right_id_L ∅ (∪)), size_list_to_set_remove_dups.
  unfold distinct_count, elements.
  destruct (decide (0 <= off - prev_off)).
  - rewrite Z2Nat.id by lia. reflexivity.
  - rewrite !seqZ_nil by lia. reflexivity.
Qed.

(** The loop over the rows stores one count per row. *)
Lemma count_rows_foldi (key : Z -> K) null_map_data offsets : forall done todo prev_off,
  (length offsets <= length todo)%nat ->
  foldi (size done)
    (fun off i st =>
       let s := scan_row key null_map_data (snd st) off in
       (store (fst st) i
          (wrap 32 (Z.of_nat (base.size (set s)) + (if found_null s then 1 else 0))),
        off))
    offsets (done ++ todo, prev_off)
  = (done
       ++ ((fun '(p, o) => wrap 32 (distinct_count (elements key null_map_data p o)))
             <$> row_bounds prev_off offsets)
       ++ drop (length offsets) todo,
     List.last offsets prev_off).
Proof.
  induction offsets as [|off rest IH]; intros done todo prev_off Hlen.
  - simpl. reflexivity.
  - destruct todo as [|slot todo]; [simpl in Hlen; lia|]. simpl in Hlen.
    simpl foldi. cbv zeta. simpl fst. simpl snd.
    rewrite scan_row_count.
    assert (Hstore : forall v, store (done ++ slot :: todo) (size done) v
                               = (done ++ [v]) ++ todo).
    { intros v. unfold store, size. rewrite Nat2Z.id, insert_app_r_alt by lia.
      rewrite Nat.sub_diag, <- app_assoc. reflexivity. }
    rewrite Hstore.
    replace (size done + 1) with (size (done ++ [wrap 32
               (distinct_count (elements key null_map_data prev_off off))]))
      by (unfold size; rewrite length_app; simpl; lia).
    rewrite IH by lia. rewrite <- app_assoc, last_cons_default. reflexivity.
Qed.

Lemma count_rows_exact (key : Z -> K) null_map_data offsets res_values :
  length res_values = length offsets ->
  count_rows key offsets null_map_data res_values
  = (fun '(p, o) => wrap 32 (distinct_count (elements key null_map_data p o)))
      <$> row_bounds 0 offsets.
Proof.
  intros Hlen. unfold count_rows.
  rewrite (for_range_foldi
             (fun off i st =>
                let s := scan_row key null_map_data (snd st) off in
                (store (fst st) i
                   (wrap 32 (Z.of_nat (base.size (set s))
                             + (if found_null s then 1 else 0))), off))).
  pose proof (count_rows_foldi key null_map_data offsets [] res_values 0) as Hrows.
  change (size []) with 0 in Hrows. simpl app in Hrows.
  rewrite Hrows by lia. simpl fst.
  rewrite drop_ge, app_nil_r by lia. reflexivity.
Qed.

End UniqProofs.

Section UniqConstProofs.
Import FunctionArrayUniq.
Context `{FieldInterface}.

Lemma set_insert_elem (all set : list Field) x :
  totally_ordered all -> x ∈ all -> (forall y, y ∈ set -> y ∈ all) -> NoDup set ->
  NoDup (set_insert x set) /\ forall y, y ∈ set_insert x set <-> y ∈ set \/ y = x.
Proof.
  intros Hord Hx Hsub Hnd. unfold set_insert.
  destruct (existsb _ set) eqn:Hex.
  - apply existsb_exists in Hex as (y & Hy & Heq).
    apply list_elem_of_In in Hy. apply Hord in Heq; auto. subst y.
    split; [exact Hnd|]. intros y. split; [auto|intros [?| ->]; auto].
  - assert (Hfresh : x ∉ set).
    { intros Hin. apply not_true_iff_false in Hex. apply Hex.
      apply existsb_exists. exists x. split; [apply list_elem_of_In; exact Hin|].
      apply Hord; auto. }
    split.
    + apply NoDup_app. repeat split; [exact Hnd| |apply NoDup_singleton].
      intros y Hy Hyx. apply list_elem_of_singleton in Hyx. subst y. auto.
    + intros y. rewrite elem_of_app, list_elem_of_singleton. reflexivity.
Qed.

Lemma set_inserts (all : list Field) : forall values i set,
  totally_ordered all ->
  (forall y, y ∈ values -> y ∈ all) -> (forall y, y ∈ set -> y ∈ all) -> NoDup set ->
  let set' := foldi i (fun x (_ : Z) set => set_insert x set) values set in
  NoDup set' /\ forall y, y ∈ set' <-> y ∈ set \/ y ∈ values.
Proof.
  induction values as [|x values IH]; intros i set Hord Hvals Hsub Hnd; simpl.
  - split; [exact Hnd|]. intros y. rewrite elem_of_nil. tauto.
  - assert (Hx : x ∈ all) by (apply Hvals; apply list_elem_of_here).
    destruct (set_insert_elem all set x Hord Hx Hsub Hnd) as [Hnd' Hin'].
    destruct (IH (i + 1) (set_insert x set) Hord) as [Hnd'' Hin'']; auto.
    + intros y Hy. apply Hvals. apply list_elem_of_further. exact Hy.
    + intros y Hy. apply Hin' in Hy as [Hy| ->]; auto.
    + split; [exact Hnd''|]. intros y. rewrite Hin'', Hin', elem_of_cons. tauto.
Qed.

Lemma elem_of_non_null (values : Array) y :
  y ∈ omap id (field_row values) <-> y ∈ values /\ y <> Null.
Proof.
  unfold field_row. rewrite list_elem_of_omap. split.
  - intros (o & Ho & Hy). apply list_elem_of_fmap in Ho as (x & -> & Hx).
    destruct x; simpl in Hy; try discriminate; inversion Hy; subst; split;
      try exact Hx; discriminate.
  - intros [Hy Hnn]. exists (Some y). split; [|reflexivity].
    apply list_elem_of_fmap. exists y. split; [|exact Hy].
    destruct y; try reflexivity. contradiction.
Qed.

Lemma None_in_field_row (values : Array) :
  None ∈ field_row values <-> Null ∈ values.
Proof.
  unfold field_row. rewrite list_elem_of_fmap. split.
  - intros (x & Hx & Hin). destruct x; try discriminate. exact Hin.
  - intros Hin. exists Null. split; [reflexivity|exact Hin].
Qed.

(** A duplicate-free list with the elements of [values] is as long as the
    count of the distinct non-null values, plus one for a null. *)
Lemma distinct_count_NoDup (values set : list Field) :
  NoDup set -> (forall y, y ∈ set <-> y ∈ values) ->
  Z.of_nat (length set) = distinct_count (field_row values).
Proof.
  intros Hnd Hin. unfold distinct_count.
  set (others := remove_dups (omap id (field_row values))).
  assert (Hothers : forall y, y ∈ others <-> y ∈ values /\ y <> Null).
  { intros y. unfold others. rewrite elem_of_remove_dups. apply elem_of_non_null. }
  assert (Hnd_others : NoDup others) by apply NoDup_remove_dups.
  destruct (bool_decide (None ∈ field_row values)) eqn:Hnull.
  - apply bool_decide_eq_true_1, None_in_field_row in Hnull.
    assert (Hperm : set ≡ₚ Null :: others).
    { apply NoDup_Permutation; [exact Hnd| |].
      - constructor; [|exact Hnd_others]. rewrite Hothers. tauto.
      - intros y. rewrite Hin, elem_of_cons, Hothers.
        destruct (decide (y = Null)) as [->|]; tauto. }
    rewrite Hperm. simpl. lia.
  - apply bool_decide_eq_false_1 in Hnull. rewrite None_in_field_row in Hnull.
    assert (Hperm : set ≡ₚ others).
    { apply NoDup_Permutation; [exact Hnd|exact Hnd_others|].
      intros y. rewrite Hin, Hothers. split; [|tauto].
      intros Hy. split; [exact Hy|]. intros ->. contradiction. }
    rewrite Hperm. lia.
Qed.

Lemma executeConst_exact type values s :
  totally_ordered values ->
  executeConst (ColumnConst (DataTypeArray type) (FArray values) s)
  = Some (ColumnConst (DataTypeNumber UInt32)
            (FUInt64 (distinct_count (field_row values))) s).
Proof.
  intros Hord. unfold executeConst. simpl.
  rewrite (for_range_foldi_total (fun x (_ : Z) set => set_insert x set)).
  destruct (set_inserts values values 0 [] Hord) as [Hnd Hin];
    [auto|intros y Hy; apply elem_of_nil in Hy; contradiction|constructor|].
  do 3 f_equal. apply distinct_count_NoDup; [exact Hnd|].
  intros y. rewrite Hin, elem_of_nil. tauto.
Qed.

End UniqConstProofs.

Section UniqTheorem.
Import FunctionArrayUniq.
Context `{FieldInterface} `{Memory}.

Lemma uniq_executeImpl_number T values offsets data null_map :
  (data = ColumnVector T values /\ null_map = None) \/
  (exists m, data = ColumnNullable (ColumnVector T values) m /\ null_map = Some m) ->
  executeImpl (ColumnArray data offsets)
  = Ok (ColumnVector UInt32
          (count_rows (get values) offsets null_map (resize_uninit (size offsets) []))).
Proof.
  intros [[-> ->]|(m & -> & ->)]; destruct T; reflexivity.
Qed.

Lemma wrap_distinct_count offsets values null_map :
  Forall (fun row => size row < 2 ^ 32) (array_rows offsets values) ->
  (fun row => wrap 32 (distinct_count row)) <$> logical_rows offsets values null_map
  = distinct_count <$> logical_rows offsets values null_map.
Proof.
  intros Hshort. apply Forall_fmap_ext.
  assert (Hlen : Forall (fun row : list (option Z) => Z.of_nat (length row) < 2 ^ 32)
                   (logical_rows offsets values null_map)).
  { unfold logical_rows. destruct null_map as [m|].
    - revert Hshort. generalize (array_rows offsets values) (array_rows offsets m).
      intros rows. induction rows as [|row rows IH]; intros nulls Hshort;
        destruct nulls as [|n nulls]; simpl; try constructor.
      + inversion Hshort; subst. unfold nullable_row, size in *.
        rewrite length_zip_with. lia.
      + apply IH. inversion Hshort; assumption.
    - apply Forall_fmap. eapply Forall_impl; [exact Hshort|].
      intros row Hrow. simpl. unfold size in Hrow. rewrite length_fmap. exact Hrow. }
  eapply Forall_impl; [exact Hlen|]. intros row Hrow. simpl in *.
  pose proof (distinct_count_bound row). unfold wrap. apply Z.mod_small. lia.
Qed.

Lemma count_rows_logical offsets values null_map res_values :
  length res_values = length offsets ->
  array_ok offsets (size values) ->
  match null_map with Some m => size m = size values | None => True end ->
  Forall (fun row => size row < 2 ^ 32) (array_rows offsets values) ->
  count_rows (get values) offsets null_map res_values
  = distinct_count <$> logical_rows offsets values null_map.
Proof.
  intros Hres Hok Hlen Hshort.
  rewrite count_rows_exact by exact Hres.
  rewrite <- (wrap_distinct_count _ _ _ Hshort).
  rewrite <- (elements_logical_rows offsets values null_map Hok Hlen).
  rewrite <- list_fmap_compose. apply list_fmap_ext. intros _ [p o] _. reflexivity.
Qed.

Lemma count_rows_strings chars string_offsets offsets n null_map :
  offsets_ok 0 offsets n ->
  Forall (fun '(p, o) => o - p < 2 ^ 32) (row_bounds 0 offsets) ->
  count_rows (getDataAt chars string_offsets) offsets null_map
    (resize_uninit (size offsets) [])
  = distinct_count <$> string_rows chars string_offsets null_map offsets.
Proof.
  intros Hok Hshort.
  pose proof (offsets_ok_bounds _ _ _ Hok) as [_ Hbounds].
  rewrite count_rows_exact by (rewrite length_resize_uninit; unfold size; lia).
  unfold string_rows. rewrite <- list_fmap_compose. apply Forall_fmap_ext_1.
  eapply Forall_impl; [apply Forall_and; split; [exact Hshort|exact Hbounds]|].
  intros [p o] [Hs Hb]. simpl.
  pose proof (distinct_count_bound (elements (getDataAt chars string_offsets) null_map p o)).
  pose proof (length_elements (getDataAt chars string_offsets) null_map p o ltac:(lia)).
  unfold wrap. apply Z.mod_small. lia.
Qed.

Lemma uniq_executeImpl_string chars string_offsets offsets data null_map :
  (data = ColumnString chars string_offsets /\ null_map = None) \/
  (exists m, data = ColumnNullable (ColumnString chars string_offsets) m
             /\ null_map = Some m) ->
  executeImpl (ColumnArray data offsets)
  = Ok (ColumnVector UInt32
          (count_rows (getDataAt chars string_offsets) offsets null_map
             (resize_uninit (size offsets) []))).
Proof. intros [[-> ->]|(m & -> & ->)]; reflexivity. Qed.


End UniqTheorem.


(** The same literal as a constant array. *)
Example arrayUniq_constant_literal :
  @FunctionArrayUniq.executeImpl scalar_fields zero_memory
    (ColumnConst (DataTypeArray (DataTypeNullable (DataTypeNumber UInt8)))
       (FArray [FUInt64 1; Null; FUInt64 1; Null; FUInt64 2]) 7)
  = Ok (ColumnConst (DataTypeNumber UInt32) (FUInt64 3) 7).
Proof. reflexivity. Qed.

(** ** [arrayEnumerateUniq] *)

Section EnumerateProofs.
Import FunctionArrayEnumerateUniq.
Context {K : Type} `{Countable K}.

Lemma occurrences_bound {V} `{EqDecision V} (x : V) l :
  0 <= occurrences x l <= Z.of_nat (length l).
Proof. unfold occurrences. pose proof (length_filter (x =.) l). lia. Qed.

Lemma occurrences_snoc {V} `{EqDecision V} (x y : V) l :
  occurrences x (l ++ [y]) = occurrences x l + (if decide (x = y) then 1 else 0).
Proof.
  unfold occurrences. rewrite filter_app, length_app.
  rewrite filter_cons, filter_nil. destruct (decide (x = y)); simpl; lia.
Qed.

Lemma length_ranks_after {V} `{EqDecision V} (row : list V) : forall seen,
  length (ranks_after seen row) = length row.
Proof. induction row as [|x row IH]; intros seen; simpl; [|rewrite IH]; reflexivity. Qed.

(** The inner loop writes the ranks of the elements it passes. *)
Lemma rank_loop (key : Z -> K) null_map_data n : forall i r seen pre todo,
  res r = pre ++ todo -> size pre = i -> (n <= length todo)%nat ->
  (forall k, default 0 (indices r !! k) = occurrences (Some k) seen) ->
  null_count r = occurrences None seen ->
  Z.of_nat (length seen) + Z.of_nat n < 2 ^ 32 ->
  res (for_loop n i
         (fun j r =>
            if null_at null_map_data j
            then let n := wrap 32 (null_count r + 1) in
                 mkRanks (store (res r) j n) (indices r) n
            else let c := increment (key j) (indices r) in
                 mkRanks (store (res r) j c) (<[key j := c]> (indices r)) (null_count r))
         r)
  = pre
      ++ ranks_after seen
           ((fun j => if null_at null_map_data j then None else Some (key j))
              <$> seqZ i (Z.of_nat n))
      ++ drop n todo.
Proof.
  induction n as [|n IH]; intros i r seen pre todo Hres Hpre Htodo Hidx Hnull Hlen.
  - simpl. rewrite drop_0. exact Hres.
  - destruct todo as [|slot todo]; [simpl in Htodo; lia|]. simpl in Htodo.
    simpl for_loop. rewrite (seqZ_cons i) by lia. rewrite fmap_cons.
    replace (Z.succ i) with (i + 1) by lia.
    replace (Z.pred (Z.of_nat (Datatypes.S n))) with (Z.of_nat n) by lia.
    assert (Hstore : forall v, store (res r) i v = (pre ++ [v]) ++ todo).
    { intros v. rewrite Hres. subst i. unfold store, size.
      rewrite Nat2Z.id, insert_app_r_alt by lia.
      rewrite Nat.sub_diag, <- app_assoc. reflexivity. }
    assert (Hsize : forall v, size (pre ++ [v]) = i + 1)
      by (intros v; unfold size in *; rewrite length_app; simpl; lia).
    destruct (null_at null_map_data i); cbv zeta.
    + pose proof (occurrences_bound (@None K) seen) as Hb.
      assert (Hn : wrap 32 (null_count r + 1) = occurrences None seen + 1)
        by (rewrite Hnull; unfold wrap; apply Z.mod_small; lia).
      rewrite (IH (i + 1) _ (seen ++ [None]) (pre ++ [wrap 32 (null_count r + 1)]) todo);
        simpl; rewrite ?Hstore, ?Hn, ?length_app; simpl; auto; try lia.
      * rewrite <- app_assoc. reflexivity.
      * intros k. rewrite Hidx, occurrences_snoc, decide_False by discriminate. lia.
      * rewrite occurrences_snoc, decide_True by reflexivity. reflexivity.
    + pose proof (occurrences_bound (Some (key i)) seen) as Hb.
      assert (Hc : increment (key i) (indices r) = occurrences (Some (key i)) seen + 1)
        by (unfold increment; rewrite Hidx; unfold wrap; apply Z.mod_small; lia).
      rewrite (IH (i + 1) _ (seen ++ [Some (key i)])
                 (pre ++ [increment (key i) (indices r)]) todo);
        simpl; rewrite ?Hstore, ?Hc, ?length_app; simpl; auto; try lia.
      * rewrite <- app_assoc. reflexivity.
      * intros k. rewrite occurrences_snoc.
        destruct (decide (k = key i)) as [->|Hne].
        -- rewrite lookup_insert_eq, decide_True by reflexivity. reflexivity.
        -- rewrite lookup_insert_ne, Hidx, decide_False by congruence. lia.
      * rewrite occurrences_snoc, decide_False by discriminate. lia.
Qed.

Lemma rank_row_exact (key : Z -> K) null_map_data prev_off off pre todo :
  size pre = prev_off -> prev_off <= off -> off - prev_off <= size todo ->
  off - prev_off < 2 ^ 32 ->
  rank_row key null_map_data prev_off off (pre ++ todo)
  = pre ++ ranks (elements key null_map_data prev_off off)
      ++ drop (Z.to_nat (off - prev_off)) todo.
Proof.
  intros Hpre Hle Htodo Hshort. unfold rank_row, for_range, ranks, elements.
  rewrite (rank_loop key null_map_data _ prev_off _ [] pre todo);
    simpl; auto; unfold size in *; try lia.
  rewrite Z2Nat.id by lia. reflexivity.
Qed.

(** The loop over the rows fills the result row after row. *)
Lemma rank_rows_foldi (key : Z -> K) null_map_data offsets : forall done todo n,
  offsets_ok (size done) offsets n -> size (done ++ todo) = n ->
  Forall (fun '(p, o) => o - p < 2 ^ 32) (row_bounds (size done) offsets) ->
  foldi 0
    (fun off (_ : Z) st => (rank_row key null_map_data (snd st) off (fst st), off))
    offsets (done ++ todo, size done)
  = (done ++ concat ((fun '(p, o) => ranks (elements key null_map_data p o))
                       <$> row_bounds (size done) offsets),
     n).
Proof.
  induction offsets as [|off rest IH]; intros done todo n Hok Hn Hshort.
  - simpl in *. f_equal; [|exact Hok].
    assert (todo = []) as ->; [|rewrite app_nil_r; reflexivity].
    apply nil_length_inv. unfold size in *. rewrite length_app in Hn. lia.
  - simpl in Hok. destruct Hok as [Hle Hok]. inversion Hshort as [|? ? Hrow Hrest]; subst.
    pose proof (offsets_ok_bounds _ _ _ Hok) as [Hoff _].
    unfold size in Hoff, Hle. rewrite length_app in Hoff.
    simpl foldi. simpl fst. simpl snd.
    rewrite rank_row_exact by (unfold size in *; lia).
    set (row := ranks (elements key null_map_data (size done) off)).
    assert (Hrowlen : size (done ++ row) = off).
    { unfold size, row, ranks, elements. rewrite length_app, length_ranks_after.
      rewrite length_fmap, length_seqZ. unfold size. lia. }
    rewrite (app_assoc done row).
    replace ((done ++ row) ++ drop (Z.to_nat (off - size done)) todo, off)
      with ((done ++ row) ++ drop (Z.to_nat (off - size done)) todo, size (done ++ row))
      by (rewrite Hrowlen; reflexivity).
    assert (Hfold : forall f (l : list Z) i j (s : list Z * Z),
               foldi (A:=Z) i (fun off (_ : Z) st => f off st) l s
               = foldi j (fun off (_ : Z) st => f off st) l s).
    { intros f l. induction l as [|x l IHl]; intros i j s; simpl; [reflexivity|].
      apply IHl. }
    rewrite (Hfold (fun off st => (rank_row key null_map_data (snd st) off (fst st), off))
               rest (0 + 1) 0).
    rewrite IH with (n := (size (done ++ todo))).
    + simpl. rewrite Hrowlen, <- app_assoc. reflexivity.
    + rewrite Hrowlen. exact Hok.
    + unfold size in *. rewrite !length_app, length_drop in *. lia.
    + rewrite Hrowlen. exact Hrest.
Qed.

End EnumerateProofs.

Lemma offsets_from_bounds offsets : forall prev,
  offsets_from prev ((fun '(p, o) => o - p) <$> row_bounds prev offsets) = offsets.
Proof.
  induction offsets as [|off rest IH]; intros prev; simpl; [reflexivity|].
  replace (prev + (off - prev)) with off by lia. rewrite IH. reflexivity.
Qed.

Lemma offsets_ok_last offsets : forall prev n,
  offsets_ok prev offsets n -> offsets <> [] ->
  get offsets (size offsets - 1) = n.
Proof.
  induction offsets as [|off rest IH]; intros prev n Hok Hne; [contradiction|].
  destruct Hok as [_ Hok]. destruct rest as [|off' rest].
  - simpl in Hok. subst. reflexivity.
  - rewrite <- (IH off n Hok) by discriminate.
    unfold get, size. simpl length.
    replace (Z.to_nat (Z.of_nat (Datatypes.S (Datatypes.S (length rest))) - 1))
      with (Datatypes.S (Z.to_nat (Z.of_nat (Datatypes.S (length rest)) - 1))) by lia.
    reflexivity.
Qed.

Section EnumerateTheorem.
Import FunctionArrayEnumerateUniq.
Context `{FieldInterface} `{Memory}.

Lemma enumerate_executeImpl_number result_type T values offsets data null_map :
  (data = ColumnVector T values /\ null_map = None) \/
  (exists m, data = ColumnNullable (ColumnVector T values) m /\ null_map = Some m) ->
  executeImpl result_type (ColumnArray data offsets)
  = Ok (ColumnArray
          (ColumnVector UInt32
             (rank_rows (get values) offsets null_map
                (if decide (offsets = []) then []
                 else resize_uninit (get offsets (size offsets - 1)) [])))
          offsets).
Proof.
  intros [[-> ->]|(m & -> & ->)]; destruct T; reflexivity.
Qed.

Lemma rank_rows_logical offsets values null_map :
  array_ok offsets (size values) ->
  match null_map with Some m => size m = size values | None => True end ->
  Forall (fun row => size row < 2 ^ 32) (array_rows offsets values) ->
  let res :=
    rank_rows (get values) offsets null_map
      (if decide (offsets = []) then []
       else resize_uninit (get offsets (size offsets - 1)) []) in
  res = concat (ranks <$> logical_rows offsets values null_map) /\
  array_rows offsets res = ranks <$> logical_rows offsets values null_map.
Proof.
  intros Hok Hlen Hshort res.
  pose proof Hok as [Hn Hoffs].
  pose proof (offsets_ok_bounds _ _ _ Hoffs) as [Hnonneg Hbounds].
  assert (Hshort' : Forall (fun '(p, o) => o - p < 2 ^ 32) (row_bounds 0 offsets)).
  { unfold array_rows in Hshort. rewrite rows_from_bounds in Hshort.
    apply Forall_fmap in Hshort.
    eapply Forall_impl; [apply Forall_and; split; [exact Hshort|exact Hbounds]|].
    intros [p o] [Hs Hb]. simpl in Hs. unfold size in *.
    rewrite length_take, length_drop in Hs. lia. }
  assert (Hres : res = concat ((fun '(p, o) => ranks (elements (get values) null_map p o))
                                 <$> row_bounds 0 offsets)).
  { unfold res, rank_rows.
    rewrite (for_range_foldi
               (fun off (_ : Z) st =>
                  (rank_row (get values) null_map (snd st) off (fst st), off))).
    pose proof (rank_rows_foldi (get values) null_map offsets []) as Hrows.
    change (size []) with 0 in Hrows. simpl app in Hrows.
    erewrite Hrows; [reflexivity|exact Hoffs| |exact Hshort'].
    case_decide as Hnil.
    - subst offsets. simpl in Hoffs. rewrite <- Hoffs. reflexivity.
    - unfold size at 1. rewrite length_resize_uninit.
      rewrite (offsets_ok_last _ _ _ Hoffs Hnil). lia. }
  assert (Hrows : (fun '(p, o) => ranks (elements (get values) null_map p o))
                    <$> row_bounds 0 offsets
                  = ranks <$> logical_rows offsets values null_map).
  { rewrite <- (elements_logical_rows offsets values null_map Hok Hlen).
    rewrite <- list_fmap_compose. apply list_fmap_ext. intros _ [p o] _. reflexivity. }
  rewrite Hrows in Hres. split; [exact Hres|].
  rewrite Hres, <- Hrows.
  rewrite <- (offsets_from_bounds offsets 0) at 1.
  replace ((fun '(p, o) => o - p) <$> row_bounds 0 offsets)
    with (size <$> ((fun '(p, o) => ranks (elements (get values) null_map p o))
                      <$> row_bounds 0 offsets)).
  - apply array_rows_concat.
  - rewrite <- list_fmap_compose. apply Forall_fmap_ext.
    eapply Forall_impl; [exact Hbounds|]. intros [p o] Hb. simpl.
    unfold size, ranks, elements.
    rewrite length_ranks_after, length_fmap, length_seqZ. lia.
Qed.

End EnumerateTheorem.

(** ** [emptyArrayToSingle] *)

Lemma array_rows_slices offsets data :
  array_rows offsets data = (fun b => slice data (fst b) (snd b)) <$> row_bounds 0 offsets.
Proof.
  unfold array_rows. rewrite rows_from_bounds.
  apply list_fmap_ext. intros _ [p o] _. reflexivity.
Qed.

Lemma size_nonneg l : 0 <= size l.
Proof. unfold size. lia. Qed.

Lemma size_app l k : size (l ++ k) = size l + size k.
Proof. unfold size. rewrite length_app. lia. Qed.

Lemma size_slice l p o : 0 <= p <= o -> o <= size l -> size (slice l p o) = o - p.
Proof.
  intros Hp Ho. unfold size, slice in *. rewrite length_take, length_drop. lia.
Qed.

(** Growing a buffer by [n] cells and copying [n] cells to its end appends
    them. *)
Lemma memcpy_append `{Memory} dst src dpos spos n :
  size dst = dpos -> 0 <= spos -> 0 <= n -> spos + n <= size src ->
  memcpy (resize_uninit (dpos + n) dst) dpos src spos n = dst ++ slice src spos (spos + n).
Proof.
  intros Hdst Hspos Hn Hsrc. unfold memcpy, slice.
  replace (Z.to_nat (spos + n - spos)) with (Z.to_nat n) by lia.
  set (grown := resize_uninit (dpos + n) dst).
  assert (Hlen : length grown = Z.to_nat (dpos + n)) by apply length_resize_uninit.
  assert (Hhead : take (Z.to_nat dpos) grown = dst).
  { unfold grown, resize_uninit, size in *.
    rewrite (take_ge dst) by lia.
    replace (Z.to_nat dpos) with (length dst) by lia. apply take_app_length. }
  rewrite Hhead, (drop_ge grown) by lia. rewrite app_nil_r. reflexivity.
Qed.

Lemma store_next done slot todo i v :
  size done = i -> store (done ++ slot :: todo) i v = (done ++ [v]) ++ todo.
Proof.
  intros <-. unfold store, size. rewrite Nat2Z.id, insert_app_r_alt by lia.
  rewrite Nat.sub_diag, <- app_assoc. reflexivity.
Qed.

Section SingleRows.
Import FunctionEmptyArrayToSingleImpl.
Context `{Memory} {D : Type}.
Variable copy : Z -> Z -> Z -> D -> D.
Variable push_default : D -> D.
Variable nullable : bool.
Variable src_null_map : list Z.

Lemma rows_foldi offsets : forall st n done_offs todo_offs,
  res_offsets st = done_offs ++ todo_offs ->
  (length offsets <= length todo_offs)%nat ->
  offsets_ok (src_prev_offset st) offsets n ->
  (nullable = true -> n <= size src_null_map /\ size (res_null_map st) = res_prev_offset st) ->
  0 <= src_prev_offset st -> 0 <= res_prev_offset st ->
  res_prev_offset st + (n - src_prev_offset st) + size offsets < 2 ^ 64 ->
  let bounds := row_bounds (src_prev_offset st) offsets in
  foldi (size done_offs) (row copy push_default nullable src_null_map) offsets st
  = mkState
      (data_after copy push_default (res_prev_offset st) bounds (res_data st))
      (null_map_after nullable src_null_map bounds (res_null_map st))
      (done_offs ++ offsets_from (res_prev_offset st) (out_len <$> bounds)
         ++ drop (length offsets) todo_offs)
      (List.last offsets (src_prev_offset st))
      (res_prev_offset st + total (out_len <$> bounds)).
Proof.
  induction offsets as [|off rest IH];
    intros st n done_offs todo_offs Hoffs Htodo Hok Hnull Hsrc Hres Hfit bounds.
  - subst bounds. simpl. unfold null_map_after. simpl.
    rewrite Z.add_0_r, drop_0, <- Hoffs, app_nil_r. destruct st, nullable; reflexivity.
  - destruct todo_offs as [|slot todo_offs]; [simpl in Htodo; lia|]. simpl in Htodo.
    destruct Hok as [Hle Hok].
    pose proof (offsets_ok_bounds _ _ _ Hok) as [Hn _].
    unfold size in Hfit. simpl length in Hfit.
    subst bounds. simpl row_bounds. rewrite fmap_cons. simpl offsets_from. simpl total.
    simpl foldi.
    set (st1 := row copy push_default nullable src_null_map off (size done_offs) st).
    assert (Hst1 :
      st1 = mkState
              (if off =? src_prev_offset st then push_default (res_data st)
               else copy (res_prev_offset st) (src_prev_offset st)
                      (off - src_prev_offset st) (res_data st))
              (if nullable
               then res_null_map st
                    ++ (if off =? src_prev_offset st then [1]
                        else slice src_null_map (src_prev_offset st) off)
               else res_null_map st)
              ((done_offs ++ [res_prev_offset st + out_len (src_prev_offset st, off)])
                 ++ todo_offs)
              off
              (res_prev_offset st + out_len (src_prev_offset st, off))).
    { unfold st1, row, out_len. simpl fst. simpl snd. rewrite Hoffs.
      destruct (Z.eqb_spec off (src_prev_offset st)) as [Heq|Hne]; simpl negb; cbv iota.
      - rewrite size_t_small by lia. simpl.
        rewrite store_next by reflexivity. reflexivity.
      - rewrite (size_t_small (off - src_prev_offset st)) by lia.
        rewrite size_t_small by lia. simpl.
        rewrite store_next by reflexivity. f_equal.
        destruct nullable eqn:Hnullable; [|reflexivity].
        destruct (Hnull eq_refl) as [Hmap Hsize].
        rewrite memcpy_append by lia. do 2 f_equal. lia. }
    assert (Hlen1 : 0 < out_len (src_prev_offset st, off) <= off - src_prev_offset st + 1).
    { unfold out_len. simpl. destruct (Z.eqb_spec off (src_prev_offset st)); lia. }
    rewrite Hst1.
    replace (size done_offs + 1)
      with (size (done_offs ++ [res_prev_offset st + out_len (src_prev_offset st, off)]))
      by (rewrite size_app; reflexivity).
    rewrite (IH _ n _ todo_offs);
      cbn [res_offsets src_prev_offset res_prev_offset res_null_map res_data];
      try lia; auto.
    + rewrite last_cons_default. f_equal.
      * unfold out_len. simpl. destruct (off =? src_prev_offset st); reflexivity.
      * unfold null_map_after. destruct nullable; [|reflexivity].
        rewrite fmap_cons. simpl. rewrite <- app_assoc. reflexivity.
      * rewrite <- app_assoc. reflexivity.
      * lia.
    + intros Hnullable. destruct (Hnull Hnullable) as [Hmap Hsize]. split; [exact Hmap|].
      rewrite Hnullable, size_app, Hsize. f_equal. unfold out_len. simpl.
      destruct (Z.eqb_spec off (src_prev_offset st)); [reflexivity|].
      apply size_slice; lia.
    + unfold size. lia.
Qed.

End SingleRows.

Section SingleProofs.
Import FunctionEmptyArrayToSingleImpl.
Context `{Memory}.

Lemma single_if_empty_slice d data (b : Z * Z) :
  0 <= fst b <= snd b -> snd b <= size data ->
  single_if_empty d (slice data (fst b) (snd b))
  = (if snd b =? fst b then [d] else slice data (fst b) (snd b))
  /\ size (single_if_empty d (slice data (fst b) (snd b))) = out_len b.
Proof.
  intros Hb Hdata. unfold single_if_empty, out_len.
  pose proof (size_slice data (fst b) (snd b) Hb Hdata) as Hsize.
  destruct (Z.eqb_spec (snd b) (fst b)) as [Heq|Hne].
  - rewrite decide_True; [split; reflexivity|].
    apply nil_length_inv. unfold size in Hsize. lia.
  - rewrite decide_False; [split; [reflexivity|exact Hsize]|].
    intros Hnil. rewrite Hnil in Hsize. unfold size in Hsize. simpl in Hsize. lia.
Qed.

Lemma single_rows_bounds d offsets data :
  array_ok offsets (size data) ->
  single_rows d offsets data
  = (fun b => if snd b =? fst b then [d] else slice data (fst b) (snd b))
      <$> row_bounds 0 offsets
  /\ size <$> single_rows d offsets data = out_len <$> row_bounds 0 offsets.
Proof.
  intros [_ Hok]. apply offsets_ok_bounds in Hok as [_ Hall].
  unfold single_rows. rewrite array_rows_slices, <- !list_fmap_compose. split.
  - apply Forall_fmap_ext. eapply Forall_impl; [exact Hall|].
    intros [p o] Hb. simpl. apply (single_if_empty_slice d data (p, o)); simpl; lia.
  - apply Forall_fmap_ext. eapply Forall_impl; [exact Hall|].
    intros [p o] Hb. simpl. apply (single_if_empty_slice d data (p, o)); simpl; lia.
Qed.

Lemma out_len_pos (b : Z * Z) : fst b <= snd b -> 0 < out_len b <= snd b - fst b + 1.
Proof. unfold out_len. destruct (Z.eqb_spec (snd b) (fst b)); lia. Qed.

Lemma total_out_len_nonneg bounds :
  Forall (fun b : Z * Z => fst b <= snd b) bounds -> 0 <= total (out_len <$> bounds).
Proof.
  intros Hall. apply total_nonneg, Forall_fmap.
  eapply Forall_impl; [exact Hall|]. intros b Hb. simpl.
  pose proof (out_len_pos b Hb). lia.
Qed.

(** The data column of [executeNumber] after the rows. *)
Lemma number_data_after src_data bounds : forall rp d,
  Forall (fun b => 0 <= fst b <= snd b /\ snd b <= size src_data) bounds ->
  size d = rp -> rp + total (out_len <$> bounds) < 2 ^ 64 ->
  data_after
    (fun res_prev_offset src_prev_offset size_to_write res_data =>
       memcpy (resize_uninit (size_t (res_prev_offset + size_to_write)) res_data)
         res_prev_offset src_data src_prev_offset size_to_write)
    (fun res_data => push_back res_data 0) rp bounds d
  = d ++ concat ((fun b => if snd b =? fst b then [0]
                           else slice src_data (fst b) (snd b)) <$> bounds).
Proof.
  induction bounds as [|b bounds IH]; intros rp d Hall Hd Hfit; simpl.
  - rewrite app_nil_r. reflexivity.
  - inversion Hall as [|? ? Hb Hrest]; subst.
    assert (0 <= total (out_len <$> bounds)).
    { apply total_out_len_nonneg. eapply Forall_impl; [exact Hrest|]. simpl. lia. }
    pose proof (size_nonneg d).
    rewrite fmap_cons in Hfit. simpl total in Hfit. unfold out_len at 1 in Hfit.
    destruct (Z.eqb_spec (snd b) (fst b)) as [Heq|Hne].
    + rewrite IH by (auto; unfold push_back; rewrite ?size_app; try reflexivity; lia).
      unfold push_back. rewrite <- app_assoc. reflexivity.
    + rewrite size_t_small by lia. rewrite memcpy_append by lia.
      replace (fst b + (snd b - fst b)) with (snd b) by lia.
      rewrite IH; [rewrite <- app_assoc; reflexivity|exact Hrest| |].
      * rewrite size_app, size_slice by lia. reflexivity.
      * lia.
Qed.

(** The calls of [executeGeneric] after the rows. *)
Lemma generic_data_after bounds : forall rp (ops : list CloneOp),
  data_after
    (fun _ src_prev_offset size_to_write res_data =>
       res_data ++ [InsertRangeFrom src_prev_offset size_to_write])
    (fun res_data => res_data ++ [InsertDefault]) rp bounds ops
  = ops ++ ((fun b => if snd b =? fst b then InsertDefault
                      else InsertRangeFrom (fst b) (snd b - fst b)) <$> bounds).
Proof.
  induction bounds as [|b bounds IH]; intros rp ops; simpl.
  - rewrite app_nil_r. reflexivity.
  - destruct (snd b =? fst b); rewrite IH, <- app_assoc; reflexivity.
Qed.

(** The whole loop, from the empty result column. *)
Lemma rows_exact {D} (copy : Z -> Z -> Z -> D -> D) push_default nullable
    src_offsets src_null_map (d : D) n :
  array_ok src_offsets n -> n + size src_offsets < 2 ^ 64 ->
  (nullable = true -> n <= size src_null_map) ->
  let bounds := row_bounds 0 src_offsets in
  rows copy push_default nullable src_offsets d [] src_null_map []
  = mkState (data_after copy push_default 0 bounds d)
      (null_map_after nullable src_null_map bounds [])
      (offsets_from 0 (out_len <$> bounds))
      (List.last src_offsets 0)
      (total (out_len <$> bounds)).
Proof.
  intros [Hn Hok] Hfit Hnull bounds. unfold rows.
  rewrite (for_range_foldi (row copy push_default nullable src_null_map)).
  pose proof (rows_foldi copy push_default nullable src_null_map src_offsets
                (mkState d [] (resize_uninit (size src_offsets) []) 0 0)
                n [] (resize_uninit (size src_offsets) [])) as Hrows.
  change (size []) with 0 in Hrows.
  cbn [res_offsets src_prev_offset res_prev_offset res_null_map res_data] in Hrows.
  rewrite Hrows; clear Hrows; try lia; auto.
  - rewrite drop_ge, app_nil_r by (rewrite length_resize_uninit; unfold size; lia).
    reflexivity.
  - rewrite length_resize_uninit. unfold size. lia.
Qed.

Lemma executeDispatch_number nullable T values offsets src_null_map :
  executeDispatch nullable (ColumnVector T values) offsets (ColumnVector T []) []
    src_null_map []
  = Ok (written (ColumnVector T)
          (rows
             (fun res_prev_offset src_prev_offset size_to_write res_data =>
                memcpy (resize_uninit (size_t (res_prev_offset + size_to_write)) res_data)
                  res_prev_offset values src_prev_offset size_to_write)
             (fun res_data => push_back res_data 0)
             nullable offsets [] [] src_null_map [])).
Proof. destruct T; reflexivity. Qed.

Lemma executeDispatch_generic nullable src_data offsets src_null_map :
  specialised src_data = false ->
  executeDispatch nullable src_data offsets (ColumnCloneEmpty src_data []) []
    src_null_map []
  = Ok (executeGeneric nullable src_data offsets (ColumnCloneEmpty src_data []) []
          src_null_map []).
Proof. intros Hgen. destruct src_data; try discriminate Hgen; reflexivity. Qed.

Lemma null_map_after_rows offsets null_map :
  array_ok offsets (size null_map) ->
  null_map_after true null_map (row_bounds 0 offsets) []
  = concat (single_rows 1 offsets null_map).
Proof.
  intros Hok. unfold null_map_after.
  rewrite (proj1 (single_rows_bounds 1 offsets null_map Hok)). reflexivity.
Qed.

End SingleProofs.

Section SingleTheorem.
Import FunctionEmptyArrayToSingleImpl FunctionEmptyArrayToSingle.
Context `{Memory} `{DataTypeInterface}.

Lemma total_out_len_bound offsets : forall prev n,
  offsets_ok prev offsets n ->
  total (out_len <$> row_bounds prev offsets) <= n - prev + size offsets.
Proof.
  induction offsets as [|off rest IH]; intros prev n Hok.
  - simpl in *. unfold size. simpl. lia.
  - destruct Hok as [Hle Hok]. specialize (IH _ _ Hok).
    pose proof (out_len_pos (prev, off) Hle) as Hlen. simpl in Hlen.
    simpl row_bounds. rewrite fmap_cons. simpl total.
    unfold size in *. simpl length. lia.
Qed.

Lemma generic_rows nullable src_data offsets src_null_map n :
  array_ok offsets n -> n + size offsets < 2 ^ 64 ->
  (nullable = true -> n = size src_null_map) ->
  executeGeneric nullable src_data offsets (ColumnCloneEmpty src_data []) []
    src_null_map []
  = (ColumnCloneEmpty src_data (single_calls offsets),
     offsets_from 0 (out_len <$> row_bounds 0 offsets),
     if nullable then concat (single_rows 1 offsets src_null_map) else []).
Proof.
  intros Hok Hfit Hnull. unfold executeGeneric. simpl calls.
  rewrite rows_exact with (n := n) by (auto; intros Hn; rewrite (Hnull Hn); lia).
  unfold written. cbn [res_offsets res_null_map res_data].
  rewrite generic_data_after. simpl app. unfold single_calls.
  destruct nullable; [|reflexivity].
  rewrite (Hnull eq_refl) in Hok. rewrite null_map_after_rows by exact Hok. reflexivity.
Qed.

Lemma number_rows nullable T values offsets src_null_map :
  array_ok offsets (size values) -> size values + size offsets < 2 ^ 64 ->
  (nullable = true -> size src_null_map = size values) ->
  written (ColumnVector T)
    (rows
       (fun res_prev_offset src_prev_offset size_to_write res_data =>
          memcpy (resize_uninit (size_t (res_prev_offset + size_to_write)) res_data)
            res_prev_offset values src_prev_offset size_to_write)
       (fun res_data => push_back res_data 0)
       nullable offsets [] [] src_null_map [])
  = (ColumnVector T (concat (single_rows 0 offsets values)),
     offsets_from 0 (size <$> single_rows 0 offsets values),
     if nullable then concat (single_rows 1 offsets src_null_map) else []).
Proof.
  intros Hok Hfit Hnull.
  rewrite rows_exact with (n := size values)
    by (auto; intros Hn; rewrite (Hnull Hn); lia).
  unfold written. cbn [res_offsets res_null_map res_data].
  pose proof Hok as [_ Hoffs].
  pose proof (total_out_len_bound _ _ _ Hoffs) as Htotal.
  apply offsets_ok_bounds in Hoffs as [_ Hall].
  rewrite number_data_after; simpl; auto; try lia.
  - destruct (single_rows_bounds 0 offsets values Hok) as [-> ->].
    destruct nullable; [|reflexivity].
    rewrite <- (Hnull eq_refl) in Hok. rewrite null_map_after_rows by exact Hok.
    reflexivity.
  - eapply Forall_impl; [exact Hall|]. intros [p o]. simpl. lia.
Qed.

End SingleTheorem.

(** ** [arrayElement] *)

(** *** Loops that can throw *)

Lemma for_loopM_ext {S} n i (f g : Z -> S -> Result S) s :
  (forall j s', i <= j < i + Z.of_nat n -> f j s' = g j s') ->
  for_loopM n i f s = for_loopM n i g s.
Proof.
  revert i s. induction n as [|n IH]; intros i s Hfg; simpl; [reflexivity|].
  rewrite Hfg by lia. destruct (g i s) as [s'|e]; simpl; [|reflexivity].
  apply IH. intros j s'' Hj. apply Hfg. lia.
Qed.

Lemma for_rangeM_ext {S} a b (f g : Z -> S -> Result S) s :
  (forall j s', f j s' = g j s') -> for_rangeM a b f s = for_rangeM a b g s.
Proof. intros Hfg. unfold for_rangeM. apply for_loopM_ext. intros j s' _. apply Hfg. Qed.

Lemma for_loopM_foldiM {A S} `{Inhabited A} (f : A -> Z -> S -> Result S)
    (pre suf : list A) s :
  for_loopM (length suf) (Z.of_nat (length pre))
    (fun i s => f ((pre ++ suf) !!! Z.to_nat i) i s) s
  = foldiM (Z.of_nat (length pre)) f suf s.
Proof.
  revert pre s. induction suf as [|x suf IH]; intros pre s; simpl; [reflexivity|].
  rewrite Nat2Z.id, list_lookup_total_middle by reflexivity.
  destruct (f x (Z.of_nat (length pre)) s) as [s'|e]; simpl; [|reflexivity].
  specialize (IH (pre ++ [x]) s').
  rewrite <- app_assoc in IH. simpl in IH.
  replace (Z.of_nat (length (pre ++ [x]))) with (Z.of_nat (length pre) + 1) in IH
    by (rewrite length_app; simpl; lia).
  exact IH.
Qed.

Lemma for_rangeM_foldiM {S} (f : Z -> Z -> S -> Result S) (l : list Z) s :
  for_rangeM 0 (size l) (fun i s => f (get l i) i s) s = foldiM 0 f l s.
Proof.
  unfold for_rangeM, size. rewrite Z.sub_0_r, Nat2Z.id.
  apply (for_loopM_foldiM f [] l s).
Qed.

(** *** The null-map builder *)

Lemma tell_marked b read :
  roomy b 1 -> tell b read = Ok (marked b [read]).
Proof.
  intros Hroom. unfold tell, observe, observe_miss, marked.
  destruct (active b) eqn:Hactive; [|destruct read; reflexivity].
  destruct (Hroom Hactive) as (Hidx & Hfit & Hsize). unfold size in Hsize.
  assert (Hstore : forall v, store (sink_null_map b) (index b) v
            = take (Z.to_nat (index b)) (sink_null_map b) ++ [v]
                ++ drop (Z.to_nat (index b) + 1) (sink_null_map b)).
  { intros v. rewrite store_take_drop by (unfold size; lia).
    rewrite Nat.add_1_r. reflexivity. }
  destruct read as [j|]; unfold update_from, update;
    (destruct (Z.geb_spec (index b) (sink_size b)); [lia|]);
    rewrite Hstore; reflexivity.
Qed.

Lemma marked_app b reads1 reads2 :
  roomy b (Z.of_nat (length reads1 + length reads2)) ->
  marked (marked b reads1) reads2 = marked b (reads1 ++ reads2).
Proof.
  intros Hroom. unfold marked. destruct (active b) eqn:Hactive; [|rewrite Hactive; reflexivity].
  destruct (Hroom Hactive) as (Hidx & Hfit & Hsize). unfold size in Hsize.
  unfold active in *. simpl. rewrite Hactive. simpl. f_equal.
  - rewrite fmap_app, length_app.
    set (sink := sink_null_map b) in *. set (i := Z.to_nat (index b)).
    assert (Hi : (i + length reads1 + length reads2 <= length sink)%nat) by lia.
    replace (Z.to_nat (index b + Z.of_nat (length reads1))) with (i + length reads1)%nat
      by lia.
    rewrite take_app_ge by (rewrite length_take; lia).
    rewrite length_take.
    replace (i + length reads1 - i `min` length sink)%nat with (length reads1) by lia.
    rewrite take_app_ge by (rewrite length_fmap; lia).
    rewrite length_fmap, Nat.sub_diag, take_0, app_nil_r.
    rewrite <- !app_assoc. do 2 f_equal.
    rewrite drop_app_ge by (rewrite length_take; lia).
    rewrite length_take.
    rewrite drop_app_ge by (rewrite length_fmap; lia).
    rewrite length_fmap, drop_drop. f_equal. f_equal. lia.
  - rewrite length_app. lia.
Qed.

Lemma roomy_marked b reads n :
  0 <= n -> roomy b (Z.of_nat (length reads) + n) -> roomy (marked b reads) n.
Proof.
  intros Hn Hroom. unfold marked, roomy.
  destruct (active b) eqn:Hactive; [|rewrite Hactive; discriminate].
  intros _. destruct (Hroom Hactive) as (Hidx & Hfit & Hsize). simpl.
  unfold size in *. rewrite !length_app, length_take, length_fmap, length_drop. lia.
Qed.

(** *** Which element an index selects *)

Lemma in_range_bounds T z :
  is_float T = false -> in_range T z -> - 2 ^ 63 <= z < 2 ^ 64.
Proof. unfold in_range. destruct T; simpl; try discriminate; lia. Qed.

Lemma access_from_start TIndex index len :
  is_float TIndex = false -> in_range TIndex index ->
  1 <= index <= len -> access TIndex index len = FromStart.
Proof.
  intros Hint Hrange Hk. pose proof (in_range_bounds _ _ Hint Hrange).
  unfold access. rewrite size_t_small by lia.
  destruct (Z.gtb_spec index 0); [|lia].
  destruct (Z.leb_spec index len); [reflexivity|lia].
Qed.

Lemma size_t_negate TIndex index :
  is_float TIndex = false -> in_range TIndex index -> index < 0 ->
  negatable TIndex index \/ TIndex <> Int32 ->
  size_t (negate TIndex index) = - index.
Proof.
  intros Hint Hrange Hneg Hok. unfold in_range in Hrange.
  destruct TIndex; simpl in *; try discriminate; try lia;
    unfold negate, size_t, swrap, wrap.
  - rewrite Z.mod_small by lia. lia.
  - rewrite Z.mod_small by lia. lia.
  - assert (index <> - 2 ^ 31) by (destruct Hok; congruence).
    rewrite (Z.mod_small (- index + 2 ^ (32 - 1))) by lia.
    rewrite Z.mod_small by lia. lia.
  - destruct (decide (index = - 2 ^ 63)) as [->|Hne].
    + reflexivity.
    + rewrite (Z.mod_small (- index + 2 ^ (64 - 1))) by lia.
      rewrite Z.mod_small by lia. lia.
Qed.

Lemma access_from_end TIndex index len :
  is_float TIndex = false -> in_range TIndex index -> negatable TIndex index ->
  - len <= index <= -1 -> access TIndex index len = FromEnd.
Proof.
  intros Hint Hrange Hok Hk. unfold access.
  rewrite size_t_negate by (auto; lia).
  destruct (Z.gtb_spec index 0); [lia|]. simpl.
  destruct (Z.ltb_spec index 0); [|lia].
  destruct (Z.leb_spec (- index) len); [reflexivity|lia].
Qed.

Lemma access_miss TIndex index len :
  is_float TIndex = false -> in_range TIndex index -> 0 <= len < 2 ^ 63 ->
  ~ 1 <= index <= len -> ~ - len <= index <= -1 ->
  access TIndex index len = Miss.
Proof.
  intros Hint Hrange Hlen Hpos Hneg. pose proof (in_range_bounds _ _ Hint Hrange).
  unfold access.
  destruct (Z.gtb_spec index 0); simpl.
  - rewrite size_t_small by lia.
    destruct (Z.leb_spec index len); [lia|]. simpl.
    destruct (Z.ltb_spec index 0); [lia|reflexivity].
  - destruct (Z.ltb_spec index 0); [|reflexivity]. simpl.
    destruct (decide (TIndex = Int32 /\ index = - 2 ^ 31)) as [[-> ->]|Hother].
    + vm_compute negate. unfold size_t, wrap.
      destruct (Z.leb_spec ((- 2147483648) mod 2 ^ 64) len) as [Hle|]; [|reflexivity].
      change ((- 2147483648) mod 2 ^ 64) with (2 ^ 64 - 2 ^ 31) in Hle. lia.
    + rewrite size_t_negate; auto.
      * destruct (Z.leb_spec (- index) len); [lia|reflexivity].
      * destruct (decide (TIndex = Int32)) as [->|]; [left; simpl|right; assumption].
        intros ->. apply Hother. split; reflexivity.
Qed.

(** *** The loops of [ArrayElementNumImpl] *)

Section NumLoops.
Import ArrayElementNumImpl.
Context `{Memory}.

Lemma length_picks pick offsets : forall i prev,
  length (picks pick i prev offsets) = length offsets.
Proof. induction offsets as [|off rest IH]; intros; simpl; [|rewrite IH]; reflexivity. Qed.

Lemma marked_nil b : roomy b 0 -> marked b [] = b.
Proof.
  intros Hroom. unfold marked. destruct (active b) eqn:Hactive; [|reflexivity].
  destruct (Hroom Hactive) as (Hidx & _ & _).
  simpl. rewrite Nat.add_0_r, take_drop, Z.add_0_r. destruct b; reflexivity.
Qed.

Lemma num_loop pick data offsets : forall done todo b prev,
  (length offsets <= length todo)%nat ->
  roomy b (size offsets) ->
  foldiM (size done) (num_step pick data) offsets (mkLoop (done ++ todo) b prev)
  = Ok (mkLoop
          (done ++ (value data <$> picks pick (size done) prev offsets)
             ++ drop (length offsets) todo)
          (marked b (picks pick (size done) prev offsets))
          (List.last offsets prev)).
Proof.
  induction offsets as [|off rest IH]; intros done todo b prev Htodo Hroom.
  - simpl. rewrite drop_0, marked_nil by exact Hroom. reflexivity.
  - destruct todo as [|slot todo]; [simpl in Htodo; lia|]. simpl in Htodo.
    assert (Hroom1 : roomy b 1).
    { intros Hactive. destruct (Hroom Hactive) as (? & ? & ?).
      unfold size in *. simpl length in *. lia. }
    assert (Hstep : num_step pick data off (size done) (mkLoop (done ++ slot :: todo) b prev)
                    = Ok (mkLoop ((done ++ [value data (pick (size done) prev off)]) ++ todo)
                            (marked b [pick (size done) prev off]) off)).
    { unfold num_step. cbn [builder result current_offset].
      rewrite tell_marked by exact Hroom1. simpl mbind.
      rewrite store_next by reflexivity. reflexivity. }
    simpl foldiM. rewrite Hstep. simpl mbind.
    replace (size done + 1) with (size (done ++ [value data (pick (size done) prev off)]))
      by (rewrite size_app; reflexivity).
    rewrite IH.
    + rewrite size_app. change (size [value data (pick (size done) prev off)]) with 1.
      rewrite last_cons_default. simpl picks. rewrite fmap_cons.
      rewrite (marked_app b [pick (size done) prev off]).
      * rewrite <- app_assoc. reflexivity.
      * simpl length. rewrite length_picks.
        intros Hactive. destruct (Hroom Hactive) as (? & ? & ?).
        unfold size in *. simpl length in *. repeat split; lia.
    + lia.
    + apply roomy_marked; [apply size_nonneg|].
      intros Hactive. destruct (Hroom Hactive) as (? & ? & ?).
      unfold size in *. simpl length in *. repeat split; lia.
Qed.

(** The two loops, as the values and the marks of the rows. *)
Lemma num_rows pick data offsets b :
  roomy b (size offsets) ->
  for_rangeM 0 (size offsets) (fun i st => num_step pick data (get offsets i) i st)
    (mkLoop (resize_uninit (size offsets) []) b 0)
  = Ok (mkLoop (value data <$> picks pick 0 0 offsets)
               (marked b (picks pick 0 0 offsets))
               (List.last offsets 0)).
Proof.
  intros Hroom. rewrite (for_rangeM_foldiM (num_step pick data)).
  pose proof (num_loop pick data offsets [] (resize_uninit (size offsets) []) b 0) as Hloop.
  change (size []) with 0 in Hloop. simpl app in Hloop.
  rewrite Hloop by (rewrite ?length_resize_uninit; unfold size; auto; lia).
  rewrite drop_ge, app_nil_r by (rewrite length_resize_uninit; unfold size; lia).
  reflexivity.
Qed.

Lemma vector_rows TIndex data offsets indices b :
  roomy b (size offsets) ->
  vector TIndex data offsets indices [] b
  = Ok (value data <$> picks (pick_vector TIndex indices) 0 0 offsets,
        marked b (picks (pick_vector TIndex indices) 0 0 offsets)).
Proof.
  intros Hroom. unfold vector.
  rewrite (for_rangeM_ext _ _ _
             (fun i st => num_step (pick_vector TIndex indices) data (get offsets i) i st)).
  - rewrite num_rows by exact Hroom. reflexivity.
  - intros i st. unfold num_step, pick_vector.
    destruct (access TIndex (get indices i) (size_t (get offsets i - current_offset st)));
      reflexivity.
Qed.

Lemma vectorConst_rows negative data offsets index b :
  roomy b (size offsets) ->
  vectorConst negative data offsets index [] b
  = Ok (value data <$> picks (pick_const negative index) 0 0 offsets,
        marked b (picks (pick_const negative index) 0 0 offsets)).
Proof.
  intros Hroom. unfold vectorConst.
  rewrite (for_rangeM_ext _ _ _
             (fun i st => num_step (pick_const negative index) data (get offsets i) i st)).
  - rewrite num_rows by exact Hroom. reflexivity.
  - intros i st. unfold num_step, pick_const.
    destruct (index <? size_t (get offsets i - current_offset st)); reflexivity.
Qed.

End NumLoops.

(** *** [arrayElement] on array columns of numbers *)

Lemma picks_lookup pick offsets : forall i prev k p o,
  row_bounds prev offsets !! k = Some (p, o) ->
  picks pick i prev offsets !! k = Some (pick (i + Z.of_nat k) p o).
Proof.
  induction offsets as [|off rest IH]; intros i prev k p o Hk; [discriminate|].
  destruct k as [|k]; simpl in *.
  - inversion Hk; subst. rewrite Z.add_0_r. reflexivity.
  - rewrite (IH (i + 1) off k p o Hk). do 2 f_equal. lia.
Qed.

Lemma row_bounds_lookup offsets : forall prev n k p o,
  offsets_ok prev offsets n -> row_bounds prev offsets !! k = Some (p, o) ->
  prev <= p <= o /\ o <= n.
Proof.
  intros prev n k p o Hok Hk. apply offsets_ok_bounds in Hok as [_ Hall].
  rewrite Forall_lookup in Hall. apply (Hall k (p, o) Hk).
Qed.

Lemma pick_vector_source TIndex indices i p o :
  is_float TIndex = false -> in_range TIndex (get indices i) ->
  0 <= p <= o -> o < 2 ^ 63 ->
  negatable TIndex (get indices i) \/ position (get indices i) (o - p) = None ->
  pick_vector TIndex indices i p o = source_index (get indices i) p o.
Proof.
  intros Hint Hrange Hp Ho Hok. unfold pick_vector, source_index, position in *.
  rewrite (size_t_small (o - p)) by lia.
  destruct (decide (1 <= get indices i <= o - p)) as [Hpos|Hpos].
  - rewrite access_from_start by auto. simpl. rewrite size_t_small by lia.
    f_equal. lia.
  - destruct (decide (- (o - p) <= get indices i <= -1)) as [Hneg|Hneg].
    + destruct Hok as [Hok|?]; [|discriminate].
      rewrite access_from_end by auto. simpl. rewrite size_t_small by lia.
      f_equal. lia.
    + rewrite access_miss by (auto; lia). reflexivity.
Qed.

Section NumberColumns.
Import FunctionArrayElement.
Context `{Memory} `{FieldInterface} `{DataTypeInterface}.

Lemma perform_plain_number result_type rows T data offsets TIndex indices b :
  is_float TIndex = false ->
  perform_plain result_type rows (ColumnArray (ColumnVector T data) offsets)
    (ColumnVector TIndex indices) b
  = ('(res, b') ← ArrayElementNumImpl.vector TIndex data offsets indices []
                    (if active b then initSink b (size indices) else b);
     Ok (ColumnVector T res, b')).
Proof. intros Hint. destruct TIndex; try discriminate Hint; destruct T; reflexivity. Qed.

(** The result of [arrayElement] on an array column of numbers with an
    index column: the values and, under a null overlay, the null map. *)
Lemma element_executeImpl_number result_type rows T data offsets TIndex indices :
  is_float TIndex = false -> size indices = size offsets ->
  let reads := picks (pick_vector TIndex indices) 0 0 offsets in
  executeImpl result_type rows (ColumnArray (ColumnVector T data) offsets)
    (ColumnVector TIndex indices)
  = Ok (ColumnVector T (value data <$> reads))
  /\ forall null_map,
       executeImpl result_type rows
         (ColumnArray (ColumnNullable (ColumnVector T data) null_map) offsets)
         (ColumnVector TIndex indices)
       = Ok (ColumnNullable (ColumnVector T (value data <$> reads))
               (null_mark null_map <$> reads)).
Proof.
  intros Hint Hlen reads. split; [|intros null_map]; unfold executeImpl; simpl.
  - unfold perform. simpl executeTuple. cbv iota.
    rewrite perform_plain_number by exact Hint. simpl active. cbv iota.
    rewrite vector_rows by (intros Hactive; discriminate Hactive).
    reflexivity.
  - unfold perform. simpl executeTuple. cbv iota.
    rewrite perform_plain_number by exact Hint.
    change (active (initSource_nullable empty null_map)) with true. cbv iota.
    rewrite vector_rows.
    + simpl. unfold getNullMap, marked. simpl. rewrite length_picks.
      rewrite drop_ge, app_nil_r by (rewrite length_alloc; unfold size in *; lia).
      reflexivity.
    + intros _. simpl. unfold size. rewrite length_alloc. unfold size in Hlen. lia.
Qed.

End NumberColumns.

Lemma pick_const_unsigned v i p o :
  in_range UInt64 v -> 0 <= p <= o -> o < 2 ^ 63 ->
  pick_const false (size_t (v - 1)) i p o = source_index v p o.
Proof.
  unfold in_range. simpl. intros Hv Hp Ho.
  unfold pick_const, source_index, position. rewrite (size_t_small (o - p)) by lia.
  destruct (decide (v = 0)) as [->|Hv0].
  - change (size_t (0 - 1)) with (2 ^ 64 - 1).
    destruct (Z.ltb_spec (2 ^ 64 - 1) (o - p)); [lia|].
    rewrite decide_False by lia. rewrite decide_False by lia. reflexivity.
  - rewrite (size_t_small (v - 1)) by lia.
    destruct (Z.ltb_spec (v - 1) (o - p)).
    + rewrite decide_True by lia. simpl. rewrite size_t_small by lia. f_equal; lia.
    + rewrite decide_False by lia. rewrite decide_False by lia. reflexivity.
Qed.

Lemma pick_const_signed v i p o :
  in_range Int64 v -> 0 <= p <= o -> o < 2 ^ 63 ->
  pick_const true (size_t (- v - 1)) i p o
  = if 0 <=? v then None else source_index v p o.
Proof.
  unfold in_range. simpl. intros Hv Hp Ho.
  unfold pick_const, source_index, position. rewrite (size_t_small (o - p)) by lia.
  destruct (Z.leb_spec 0 v) as [Hpos|Hneg].
  - assert (Hwrap : size_t (- v - 1) = 2 ^ 64 - v - 1).
    { unfold size_t, wrap. symmetry. apply (Z.mod_unique_pos _ _ (-1)); lia. }
    rewrite Hwrap. destruct (Z.ltb_spec (2 ^ 64 - v - 1) (o - p)); [lia|reflexivity].
  - rewrite (size_t_small (- v - 1)) by lia.
    rewrite decide_False by lia.
    destruct (Z.ltb_spec (- v - 1) (o - p)).
    + rewrite decide_True by lia. simpl. rewrite size_t_small by lia. f_equal; lia.
    + rewrite decide_False by lia. reflexivity.
Qed.

Lemma length_row_bounds offsets : forall prev,
  length (row_bounds prev offsets) = length offsets.
Proof. induction offsets as [|off rest IH]; intros prev; simpl; [|rewrite IH]; reflexivity. Qed.

Section NumberRows.
Import FunctionArrayElement.
Context `{Memory} `{FieldInterface} `{DataTypeInterface}.

Lemma perform_plain_number_const result_type rows T data offsets type index s b :
  field_equal index (FUInt64 0) = false ->
  perform_plain result_type rows (ColumnArray (ColumnVector T data) offsets)
    (ColumnConst type index s) b
  = ('(res, b') ←
       constant_index index
         (fun i => ArrayElementNumImpl.vectorConst false data offsets i []
                     (if active b then initSink b rows else b))
         (fun i => ArrayElementNumImpl.vectorConst true data offsets i []
                     (if active b then initSink b rows else b));
     Ok (ColumnVector T res, b')).
Proof.
  intros Hnz. unfold perform_plain. simpl isConst. simpl first_field. cbv iota. simpl negb.
  cbv iota. rewrite Hnz. destruct T; reflexivity.
Qed.

(** [arrayElement] on an array column of numbers, with or without a null
    overlay: every row holds the element at the source index the code
    selects, or the default 0 when it selects none; its null mark is the
    mark of that element, or 0 when none is selected. *)
Lemma arrayElement_number_reads result_type T data offsets index_column :
  array_ok offsets (size data) -> size data < 2 ^ 63 ->
  index_argument index_column (size offsets) ->
  exists reads : list (option Z),
    executeImpl result_type (size offsets) (ColumnArray (ColumnVector T data) offsets)
      index_column
    = Ok (ColumnVector T (value data <$> reads))
    /\ (forall null_map,
          executeImpl result_type (size offsets)
            (ColumnArray (ColumnNullable (ColumnVector T data) null_map) offsets)
            index_column
          = Ok (ColumnNullable (ColumnVector T (value data <$> reads))
                  (null_mark null_map <$> reads)))
    /\ (forall i p o,
          row_bounds 0 offsets !! i = Some (p, o) ->
          let k := index_value index_column (Z.of_nat i) in
          (position k (o - p) = None -> reads !! i = Some None)
          /\ (negatable_indices index_column ->
              reads !! i = Some (selected index_column (Z.of_nat i) p o))).
Proof.
  intros [_ Hok] Hsmall Hindex.
  assert (Hrow : forall i p o, row_bounds 0 offsets !! i = Some (p, o) ->
                               0 <= p <= o /\ o < 2 ^ 63).
  { intros i p o Hi. pose proof (row_bounds_lookup _ _ _ _ _ _ Hok Hi). lia. }
  destruct index_column as [TIndex indices| | | | | |type [|v|v| | | |] s| |];
    try contradiction; simpl in Hindex.
  - (* an index per row *)
    destruct Hindex as (Hint & Hrange & Hlen).
    destruct (element_executeImpl_number result_type (size offsets) T data offsets
                TIndex indices Hint Hlen) as [Hplain Hnullable].
    exists (picks (pick_vector TIndex indices) 0 0 offsets).
    split; [exact Hplain|]. split; [exact Hnullable|].
    intros i p o Hi k. destruct (Hrow i p o Hi) as [Hp Ho].
    assert (Hin : in_range TIndex (get indices (Z.of_nat i))).
    { rewrite Forall_lookup in Hrange. unfold get. rewrite Nat2Z.id.
      apply (Hrange i). apply list_lookup_lookup_total_lt.
      apply lookup_lt_Some in Hi. rewrite length_row_bounds in Hi.
      unfold size in Hlen. lia. }
    rewrite (picks_lookup _ _ _ _ _ _ _ Hi), Z.add_0_l. subst k. simpl index_value.
    unfold selected. simpl index_value. split.
    + intros Hnone. rewrite pick_vector_source by auto.
      unfold source_index. rewrite Hnone. reflexivity.
    + intros Hneg. simpl in Hneg. rewrite pick_vector_source; auto.
      left. rewrite Forall_lookup in Hneg. unfold get. rewrite Nat2Z.id.
      apply (Hneg i). apply list_lookup_lookup_total_lt.
      apply lookup_lt_Some in Hi. rewrite length_row_bounds in Hi.
      unfold size in Hlen. lia.
  - (* a constant held as an unsigned field *)
    destruct Hindex as (Hrange & Hnz).
    exists (picks (pick_const false (size_t (v - 1))) 0 0 offsets).
    split; [|split].
    + unfold executeImpl. simpl. unfold perform. simpl executeTuple. cbv iota.
      rewrite perform_plain_number_const by exact Hnz. simpl.
      rewrite vectorConst_rows by (intros Hactive; discriminate Hactive). reflexivity.
    + intros null_map. unfold executeImpl. simpl. unfold perform. simpl executeTuple.
      cbv iota. rewrite perform_plain_number_const by exact Hnz.
      change (active (initSource_nullable empty null_map)) with true. cbv iota.
      simpl constant_index. rewrite vectorConst_rows.
      * simpl. unfold getNullMap, marked. simpl. rewrite length_picks.
        rewrite drop_ge, app_nil_r by (rewrite length_alloc; unfold size; lia).
        reflexivity.
      * intros _. simpl. unfold size. rewrite length_alloc. lia.
    + intros i p o Hi k. destruct (Hrow i p o Hi) as [Hp Ho].
      rewrite (picks_lookup _ _ _ _ _ _ _ Hi), pick_const_unsigned by auto.
      subst k. unfold selected. simpl index_value. split; [|reflexivity].
      intros Hnone. unfold source_index. rewrite Hnone. reflexivity.
  - (* a constant held as a signed field *)
    destruct Hindex as (Hrange & Hnz).
    exists (picks (pick_const true (size_t (- v - 1))) 0 0 offsets).
    split; [|split].
    + unfold executeImpl. simpl. unfold perform. simpl executeTuple. cbv iota.
      rewrite perform_plain_number_const by exact Hnz. simpl.
      rewrite vectorConst_rows by (intros Hactive; discriminate Hactive). reflexivity.
    + intros null_map. unfold executeImpl. simpl. unfold perform. simpl executeTuple.
      cbv iota. rewrite perform_plain_number_const by exact Hnz.
      change (active (initSource_nullable empty null_map)) with true. cbv iota.
      simpl constant_index. rewrite vectorConst_rows.
      * simpl. unfold getNullMap, marked. simpl. rewrite length_picks.
        rewrite drop_ge, app_nil_r by (rewrite length_alloc; unfold size; lia).
        reflexivity.
      * intros _. simpl. unfold size. rewrite length_alloc. lia.
    + intros i p o Hi k. destruct (Hrow i p o Hi) as [Hp Ho].
      rewrite (picks_lookup _ _ _ _ _ _ _ Hi), pick_const_signed by auto.
      subst k. unfold selected. simpl index_value. split; [|reflexivity].
      intros Hnone. unfold source_index. rewrite Hnone.
      destruct (0 <=? v); reflexivity.
Qed.

End NumberRows.

Lemma position_outside k len :
  ~ (1 <= k <= len) -> ~ (- len <= k <= -1) -> position k len = None.
Proof.
  intros Hstart Hend. unfold position.
  rewrite decide_False by exact Hstart. rewrite decide_False by exact Hend. reflexivity.
Qed.

Lemma position_symmetric k len :
  1 <= k <= len -> position k len = position (- (len - k + 1)) len.
Proof.
  intros Hk. unfold position. rewrite decide_True by exact Hk.
  rewrite decide_False by lia. rewrite decide_True by lia. f_equal. lia.
Qed.

Section ElementTheorems.
Import FunctionArrayElement.
Context `{Memory} `{FieldInterface} `{DataTypeInterface}.

(** What the code does on a miss, for an array column of numbers: with an
    index per row or a constant index that is not taken for 0, every row of
    length [len] whose index [k] is outside [-len, -1] and [1, len] holds the
    default value 0; when the array has a null overlay, the result has one
    too, with the same values, and the row is recorded in it with the mark 0
    (not null). *)
Theorem arrayElement_miss_default result_type T data offsets index_column :
  array_ok offsets (size data) -> size data < 2 ^ 63 ->
  index_argument index_column (size offsets) ->
  exists values,
    executeImpl result_type (size offsets) (ColumnArray (ColumnVector T data) offsets)
      index_column
    = Ok (ColumnVector T values)
    /\ (forall i p o,
          row_bounds 0 offsets !! i = Some (p, o) ->
          let k := index_value index_column (Z.of_nat i) in
          ~ (1 <= k <= o - p) -> ~ (- (o - p) <= k <= -1) ->
          values !! i = Some 0)
    /\ (forall null_map, exists marks,
          executeImpl result_type (size offsets)
            (ColumnArray (ColumnNullable (ColumnVector T data) null_map) offsets)
            index_column
          = Ok (ColumnNullable (ColumnVector T values) marks)
          /\ forall i p o,
               row_bounds 0 offsets !! i = Some (p, o) ->
               let k := index_value index_column (Z.of_nat i) in
               ~ (1 <= k <= o - p) -> ~ (- (o - p) <= k <= -1) ->
               marks !! i = Some 0).
Proof.
  intros Hok Hsmall Hindex.
  destruct (arrayElement_number_reads result_type T data offsets index_column
              Hok Hsmall Hindex) as (reads & Hplain & Hnullable & Hreads).
  exists (value data <$> reads). split; [exact Hplain|]. split.
  - intros i p o Hi k Hstart Hend.
    destruct (Hreads i p o Hi) as [Hmiss _].
    rewrite list_lookup_fmap, (Hmiss (position_outside _ _ Hstart Hend)). reflexivity.
  - intros null_map. exists (null_mark null_map <$> reads).
    split; [apply Hnullable|].
    intros i p o Hi k Hstart Hend.
    destruct (Hreads i p o Hi) as [Hmiss _].
    rewrite list_lookup_fmap, (Hmiss (position_outside _ _ Hstart Hend)). reflexivity.
Qed.

(** What the code does for the index 0 in an index column of integers, one
    index per row, on an array column of numbers: no error is raised whatever
    the indices are, and a row whose index is 0 holds the default value 0;
    when the array has a null overlay the row is recorded with the mark 0
    (not null). *)
Theorem arrayElement_zero_index_per_row result_type T data offsets TIndex indices :
  array_ok offsets (size data) -> size data < 2 ^ 63 ->
  is_float TIndex = false -> Forall (in_range TIndex) indices ->
  size indices = size offsets ->
  exists values,
    executeImpl result_type (size offsets) (ColumnArray (ColumnVector T data) offsets)
      (ColumnVector TIndex indices)
    = Ok (ColumnVector T values)
    /\ (forall i, (i < length offsets)%nat -> get indices (Z.of_nat i) = 0 ->
                  values !! i = Some 0)
    /\ (forall null_map, exists marks,
          executeImpl result_type (size offsets)
            (ColumnArray (ColumnNullable (ColumnVector T data) null_map) offsets)
            (ColumnVector TIndex indices)
          = Ok (ColumnNullable (ColumnVector T values) marks)
          /\ forall i, (i < length offsets)%nat -> get indices (Z.of_nat i) = 0 ->
                       marks !! i = Some 0).
Proof.
  intros Hok Hsmall Hint Hrange Hlen.
  destruct (arrayElement_number_reads result_type T data offsets
              (ColumnVector TIndex indices) Hok Hsmall)
    as (reads & Hplain & Hnullable & Hreads).
  { simpl. auto. }
  assert (Hzero : forall i, (i < length offsets)%nat -> get indices (Z.of_nat i) = 0 ->
                            reads !! i = Some None).
  { intros i Hi Hk.
    destruct (lookup_lt_is_Some_2 (row_bounds 0 offsets) i) as [[p o] Hpo].
    { rewrite length_row_bounds. exact Hi. }
    destruct (Hreads i p o Hpo) as [Hmiss _]. apply Hmiss. simpl. rewrite Hk.
    destruct Hok as [_ Hok]. pose proof (row_bounds_lookup _ _ _ _ _ _ Hok Hpo).
    apply position_outside; lia. }
  exists (value data <$> reads). split; [exact Hplain|]. split.
  - intros i Hi Hk. rewrite list_lookup_fmap, (Hzero i Hi Hk). reflexivity.
  - intros null_map. exists (null_mark null_map <$> reads).
    split; [apply Hnullable|].
    intros i Hi Hk. rewrite list_lookup_fmap, (Hzero i Hi Hk). reflexivity.
Qed.

(** With an index column of integers, one index per row, an index [k] from
    the start of a row and the index [-(len - k + 1)] from its end select the
    same element of the row, and the same null mark. *)
Lemma arrayElement_symmetry_per_row result_type T data offsets TIndex indices TIndex' indices' :
  array_ok offsets (size data) -> size data < 2 ^ 63 ->
  index_argument (ColumnVector TIndex indices) (size offsets) ->
  index_argument (ColumnVector TIndex' indices') (size offsets) ->
  Forall (negatable TIndex) indices -> Forall (negatable TIndex') indices' ->
  exists values values',
    executeImpl result_type (size offsets) (ColumnArray (ColumnVector T data) offsets)
      (ColumnVector TIndex indices) = Ok (ColumnVector T values)
    /\ executeImpl result_type (size offsets) (ColumnArray (ColumnVector T data) offsets)
         (ColumnVector TIndex' indices') = Ok (ColumnVector T values')
    /\ forall i p o,
         row_bounds 0 offsets !! i = Some (p, o) ->
         1 <= get indices (Z.of_nat i) <= o - p ->
         get indices' (Z.of_nat i) = - (o - p - get indices (Z.of_nat i) + 1) ->
         values !! i = Some (get data (p + get indices (Z.of_nat i) - 1))
         /\ values' !! i = values !! i.
Proof.
  intros Hok Hsmall Hindex Hindex' Hneg Hneg'.
  destruct (arrayElement_number_reads result_type T data offsets _ Hok Hsmall Hindex)
    as (reads & Hplain & _ & Hreads).
  destruct (arrayElement_number_reads result_type T data offsets _ Hok Hsmall Hindex')
    as (reads' & Hplain' & _ & Hreads').
  exists (value data <$> reads), (value data <$> reads').
  split; [exact Hplain|]. split; [exact Hplain'|].
  intros i p o Hi Hk Hk'.
  destruct (Hreads i p o Hi) as [_ Hsel]. destruct (Hreads' i p o Hi) as [_ Hsel'].
  rewrite !list_lookup_fmap, (Hsel Hneg), (Hsel' Hneg').
  unfold selected. simpl index_value. rewrite Hk'.
  unfold source_index. rewrite <- (position_symmetric _ _ Hk).
  split; [|reflexivity].
  unfold position. rewrite decide_True by exact Hk. simpl. do 2 f_equal. lia.
Qed.

End ElementTheorems.

(** The one row [5] read at the index 2, one index per row. *)
Lemma arrayElement_miss_default_witness :
  let offsets := [1] in
  let index_column := ColumnVector UInt8 [2] in
  (array_ok offsets (size [5]) /\ size [5] < 2 ^ 63
   /\ @index_argument scalar_fields index_column (size offsets))
  /\ exists values,
       @FunctionArrayElement.executeImpl zero_memory scalar_fields scalar_defaults
         (DataTypeNumber UInt8) (size offsets) (ColumnArray (ColumnVector UInt8 [5]) offsets)
         index_column
       = Ok (ColumnVector UInt8 values)
       /\ values !! 0%nat = Some 0.
Proof.
  intros offsets index_column.
  assert (Hok : array_ok offsets (size [5])).
  { unfold array_ok, size. simpl. repeat split; lia. }
  assert (Hsmall : size [5] < 2 ^ 63) by (unfold size; simpl; lia).
  assert (Hindex : @index_argument scalar_fields index_column (size offsets)).
  { simpl. repeat split. repeat constructor; unfold in_range; simpl; lia. }
  split; [auto|].
  destruct (@arrayElement_miss_default zero_memory scalar_fields scalar_defaults
              (DataTypeNumber UInt8) UInt8 [5] offsets index_column Hok Hsmall Hindex)
    as (values & Hrun & Hmiss & _).
  exists values. split; [exact Hrun|].
  apply (Hmiss 0%nat 0 1); [reflexivity| |];
    change (index_value index_column (Z.of_nat 0)) with 2; lia.
Defined.

(** The rows [5] and [6, 7] read at the indices 0 and 1. *)
Lemma arrayElement_zero_index_per_row_witness :
  let offsets := [1; 3] in
  let indices := [0; 1] in
  (array_ok offsets (size [5; 6; 7]) /\ size [5; 6; 7] < 2 ^ 63
   /\ is_float UInt8 = false /\ Forall (in_range UInt8) indices
   /\ size indices = size offsets)
  /\ exists values,
       @FunctionArrayElement.executeImpl zero_memory scalar_fields scalar_defaults
         (DataTypeNumber UInt8) (size offsets)
         (ColumnArray (ColumnVector UInt8 [5; 6; 7]) offsets) (ColumnVector UInt8 indices)
       = Ok (ColumnVector UInt8 values)
       /\ values !! 0%nat = Some 0.
Proof.
  intros offsets indices.
  assert (Hok : array_ok offsets (size [5; 6; 7])).
  { unfold array_ok, size. simpl. repeat split; lia. }
  assert (Hsmall : size [5; 6; 7] < 2 ^ 63) by (unfold size; simpl; lia).
  assert (Hrange : Forall (in_range UInt8) indices).
  { repeat constructor; unfold in_range; simpl; lia. }
  split; [split; [exact Hok|split; [exact Hsmall|split; [reflexivity|split;
    [exact Hrange|reflexivity]]]]|].
  destruct (@arrayElement_zero_index_per_row zero_memory scalar_fields scalar_defaults
              (DataTypeNumber UInt8) UInt8 [5; 6; 7] offsets UInt8 indices
              Hok Hsmall eq_refl Hrange eq_refl)
    as (values & Hrun & Hzero & _).
  exists values. split; [exact Hrun|].
  apply (Hzero 0%nat); [simpl; lia|reflexivity].
Defined.

(** C3 at the inputs on which the code departs from it: the one row [5] of
    numbers and the one row ['a'] of strings, each under a null overlay in
    which no element is null, and the constant array [5, NULL], read at an
    index that is out of the bounds of the row.  The row of the result holds
    the default value (0, the empty string), but it is recorded as not null
    (0) where the claim has it recorded as null (1): with an index per row
    and with a constant index on the array columns, and with an index per
    row on the constant array, the loops call [builder.update()], which
    writes 0.  On the constant array read at a constant index,
    [executeConstConst] calls [builder.update(real_index)] instead, which
    records the same miss as null (1). *)
Theorem arrayElement_miss_null_mark :
  let run := @FunctionArrayElement.executeImpl zero_memory scalar_fields scalar_defaults in
  let numbers := ColumnArray (ColumnNullable (ColumnVector UInt8 [5]) [0]) [1] in
  let strings := ColumnArray (ColumnNullable (ColumnString [97; 0] [2]) [0]) [1] in
  let literal :=
    ColumnConst (DataTypeArray (DataTypeNullable (DataTypeNumber UInt8)))
      (FArray [FUInt64 5; Null]) 1 in
  let number := DataTypeNullable (DataTypeNumber UInt8) in
  run number 1 numbers (ColumnVector UInt8 [2])
  = Ok (ColumnNullable (ColumnVector UInt8 [0]) [0])
  /\ run number 1 numbers (ColumnConst (DataTypeNumber UInt8) (FUInt64 2) 1)
     = Ok (ColumnNullable (ColumnVector UInt8 [0]) [0])
  /\ run (DataTypeNullable DataTypeString) 1 strings (ColumnVector UInt8 [2])
     = Ok (ColumnNullable (ColumnString [0] [1]) [0])
  /\ run (DataTypeNullable DataTypeString) 1 strings
       (ColumnConst (DataTypeNumber UInt8) (FUInt64 2) 1)
     = Ok (ColumnNullable (ColumnString [0] [1]) [0])
  /\ run number 1 literal (ColumnVector UInt8 [3])
     = Ok (ColumnNullable (ColumnFromType (DataTypeNumber UInt8) [InsertDefaultField]) [0])
  /\ run number 1 literal (ColumnConst (DataTypeNumber UInt8) (FUInt64 3) 1)
     = Ok (ColumnNullable (ColumnConst (DataTypeNumber UInt8) (FUInt64 0) 1) [1]).
Proof. repeat split; reflexivity. Qed.

(** C10 at the inputs on which the code departs from it: the rows [5] and
    [6, 7] of numbers, and the rows ['a'] and ['b'] of strings, read with
    the index column [0, 1].  No error is raised and the first row of the
    result holds the default value (0, the empty string), as the claim has
    it; but under a null overlay that row is recorded as not null (0), where
    the claim has it marked null (1).  The same arrays read at the constant
    index 0 raise the error. *)
Theorem arrayElement_per_row_zero_index_null_mark :
  let run := @FunctionArrayElement.executeImpl zero_memory scalar_fields scalar_defaults in
  let indices := ColumnVector UInt8 [0; 1] in
  let zero := ColumnConst (DataTypeNumber UInt8) (FUInt64 0) 2 in
  let numbers := ColumnArray (ColumnNullable (ColumnVector UInt8 [5; 6; 7]) [0; 0; 0]) [1; 3] in
  let strings :=
    ColumnArray (ColumnNullable (ColumnString [97; 0; 98; 0] [2; 4]) [0; 0]) [1; 2] in
  run (DataTypeNumber UInt8) 2 (ColumnArray (ColumnVector UInt8 [5; 6; 7]) [1; 3]) indices
  = Ok (ColumnVector UInt8 [0; 6])
  /\ run (DataTypeNullable (DataTypeNumber UInt8)) 2 numbers indices
     = Ok (ColumnNullable (ColumnVector UInt8 [0; 6]) [0; 0])
  /\ run (DataTypeNullable DataTypeString) 2 strings indices
     = Ok (ColumnNullable (ColumnString [0; 98; 0] [1; 3]) [0; 0])
  /\ run (DataTypeNullable (DataTypeNumber UInt8)) 2 numbers zero
     = Throw ZERO_ARRAY_OR_TUPLE_INDEX
  /\ run (DataTypeNullable DataTypeString) 2 strings zero
     = Throw ZERO_ARRAY_OR_TUPLE_INDEX.
Proof. repeat split; reflexivity. Qed.

(** C4 at the input on which the code departs from it: the one row
    [1, 2, 3] read at the constant index 2 held in a column of a signed type
    (the [Field] of such a constant is an [Int64]).  The constant path takes
    every signed constant for an index from the end, so the row holds the
    default 0, whereas the index -2 from the end, and the index 2 given in a
    column with one index per row, both select the element 2. *)
Theorem arrayElement_signed_constant_from_start :
  let column := ColumnArray (ColumnVector UInt8 [1; 2; 3]) [3] in
  let run :=
    @FunctionArrayElement.executeImpl zero_memory scalar_fields scalar_defaults
      (DataTypeNumber UInt8) 1 column in
  run (ColumnConst (DataTypeNumber Int8) (FInt64 2) 1) = Ok (ColumnVector UInt8 [0])
  /\ run (ColumnConst (DataTypeNumber Int8) (FInt64 (-2)) 1) = Ok (ColumnVector UInt8 [2])
  /\ run (ColumnVector Int8 [2]) = Ok (ColumnVector UInt8 [2])
  /\ run (ColumnVector Int8 [-2]) = Ok (ColumnVector UInt8 [2]).
Proof. repeat split; reflexivity. Qed.

(** C1 at the input on which the code departs from it: the one row
    [NULL, 'b'] of strings under a null overlay (null map [1, 0]), read at
    the index 2.  With one index per row, [ArrayElementStringImpl::vector]
    copies the string at the flat source index 1 but hands the builder the
    index [current_offset + adjusted_index - 1 = 0], so the result 'b' gets
    the null mark of the other element; with the constant index 2,
    [vectorConst] hands the builder the index 1 it read. *)
Theorem arrayElement_string_per_row_null_mark :
  let column :=
    ColumnArray (ColumnNullable (ColumnString [97; 0; 98; 0] [2; 4]) [1; 0]) [2] in
  let run :=
    @FunctionArrayElement.executeImpl zero_memory scalar_fields scalar_defaults
      (DataTypeNullable DataTypeString) 1 column in
  run (ColumnVector UInt8 [2]) = Ok (ColumnNullable (ColumnString [98; 0] [2]) [1])
  /\ run (ColumnConst (DataTypeNumber UInt8) (FUInt64 2) 1)
     = Ok (ColumnNullable (ColumnString [98; 0] [2]) [0]).
Proof. split; reflexivity. Qed.

Section ZeroIndex.
Import FunctionArrayElement.
Context `{Memory} `{FieldInterface} `{DataTypeInterface}.

Lemma perform_plain_zero result_type rows column type index s builder :
  field_equal index (FUInt64 0) = true ->
  perform_plain result_type rows column (ColumnConst type index s) builder
  = Throw ZERO_ARRAY_OR_TUPLE_INDEX.
Proof. intros Hzero. unfold perform_plain. simpl. rewrite Hzero. reflexivity. Qed.

Lemma for_each_throw {A B} (f : A -> Result B) x l e :
  f x = Throw e -> for_each f (x :: l) = Throw e.
Proof. intros Hx. simpl. rewrite Hx. reflexivity. Qed.

Lemma perform_zero rows offsets type index s :
  field_equal index (FUInt64 0) = true ->
  forall section data result_type builder,
    (forall c columns', data = ColumnTuple (c :: columns') ->
       section c = Throw ZERO_ARRAY_OR_TUPLE_INDEX) ->
    (data <> ColumnTuple []) ->
    perform section result_type rows data offsets (ColumnConst type index s) builder
    = Throw ZERO_ARRAY_OR_TUPLE_INDEX.
Proof.
  intros Hzero section data result_type builder Hsection Hsome. unfold perform.
  destruct data as [| | | | |columns| | |];
    try (simpl executeTuple; cbv iota; apply perform_plain_zero; exact Hzero).
  destruct columns as [|c columns']; [contradiction Hsome; reflexivity|].
  unfold executeTuple. rewrite (for_each_throw _ _ _ _ (Hsection c columns' eq_refl)).
  reflexivity.
Qed.

Lemma executeImpl_array_zero offsets type index s :
  field_equal index (FUInt64 0) = true ->
  forall data result_type rows,
    sections_ok data = true ->
    executeImpl_array result_type rows offsets (ColumnConst type index s) data
    = Throw ZERO_ARRAY_OR_TUPLE_INDEX.
Proof.
  intros Hzero. fix IH 1. intros data result_type rows Hdata.
  destruct data as [T d|chars string_offsets|n chars|nested null_map|d o|columns|t v n|t ops|src ops];
    try discriminate Hdata.
  all: simpl executeImpl_array.
  all: try (rewrite perform_zero; [reflexivity|exact Hzero|intros c columns' Heq; discriminate Heq
                                  |discriminate]).
  destruct columns as [|c columns']; [discriminate Hdata|].
  rewrite perform_zero; [reflexivity|exact Hzero| |discriminate].
  intros c0 columns0 Heq. injection Heq as <- <-.
  apply IH. simpl in Hdata. apply andb_prop in Hdata as [Hc _]. exact Hc.
Qed.

(** [arrayElement] with a constant index that compares equal to the
    [UInt64] 0 throws [ZERO_ARRAY_OR_TUPLE_INDEX], whatever the array
    argument is: an array column of any elements, with or without a null
    overlay, or a constant array. No result column is produced. *)
Theorem arrayElement_constant_zero_index result_type rows column type index s :
  field_equal index (FUInt64 0) = true ->
  array_argument column ->
  executeImpl result_type rows column (ColumnConst type index s)
  = Throw ZERO_ARRAY_OR_TUPLE_INDEX.
Proof.
  intros Hzero Hcolumn. unfold executeImpl.
  destruct column as [T d|chars string_offsets|n chars|nested null_map|data offsets|columns
                     |t v n|t ops|src ops];
    cbn [array_argument] in Hcolumn;
    try (destruct Hcolumn as [? Hsome]; simpl in Hsome; discriminate Hsome).
  - destruct data as [T d|chars string_offsets|n chars|nested null_map|d o|columns|t v n
                     |t ops|src ops];
      try (apply executeImpl_array_zero; [exact Hzero|exact Hcolumn]).
    simpl executeImpl_array.
    rewrite perform_zero; [reflexivity|exact Hzero| |].
    + intros c columns' ->. apply executeImpl_array_zero; [exact Hzero|].
      simpl in Hcolumn. apply andb_prop in Hcolumn as [Hc _]. exact Hc.
    + intros ->. discriminate Hcolumn.
  - destruct Hcolumn as [[arr type'] Hsome]. rewrite Hsome.
    destruct (existsb isNull arr); rewrite perform_plain_zero by exact Hzero; reflexivity.
Qed.

End ZeroIndex.

(** The rows [(5, 'a')] of tuples read at the constant index 0. *)
Lemma arrayElement_constant_zero_index_witness :
  let column :=
    ColumnArray (ColumnTuple [ColumnVector UInt8 [5]; ColumnString [97; 0] [2]]) [1] in
  (@field_equal scalar_fields (FUInt64 0) (FUInt64 0) = true /\ array_argument column)
  /\ @FunctionArrayElement.executeImpl zero_memory scalar_fields scalar_defaults
       (DataTypeTuple [DataTypeNumber UInt8; DataTypeString]) 1 column
       (ColumnConst (DataTypeNumber UInt8) (FUInt64 0) 1)
     = Throw ZERO_ARRAY_OR_TUPLE_INDEX.
Proof.
  intros column.
  assert (Hzero : @field_equal scalar_fields (FUInt64 0) (FUInt64 0) = true) by reflexivity.
  assert (Hcolumn : array_argument column) by reflexivity.
  split; [split; [exact Hzero|exact Hcolumn]|].
  apply (@arrayElement_constant_zero_index zero_memory scalar_fields scalar_defaults
           _ 1 column _ _ 1 Hzero Hcolumn).
Defined.

(** C9 at the inputs on which the code departs from it: the row [5, 6] of
    numbers, the row ['a'] of strings under a null overlay and the constant
    array [5, 6], read at the constant index 0.  [perform] tests
    [index == UInt64(0)] on the [Field] of the constant, and
    [Field::operator==] compares the types of the two fields before their
    values: a constant 0 of an unsigned type raises the error, and a
    constant 0 of a signed type, whose [Field] is an [Int64], does not; it is
    read as the index [-0 - 1] from the end, which misses every row, and the
    result is the default value. *)
Theorem arrayElement_signed_constant_zero_index :
  let run := @FunctionArrayElement.executeImpl zero_memory scalar_fields scalar_defaults in
  let unsigned_zero := ColumnConst (DataTypeNumber UInt8) (FUInt64 0) 1 in
  let signed_zero := ColumnConst (DataTypeNumber Int8) (FInt64 0) 1 in
  let numbers := ColumnArray (ColumnVector UInt8 [5; 6]) [2] in
  let strings := ColumnArray (ColumnNullable (ColumnString [97; 0] [2]) [0]) [1] in
  let literal :=
    ColumnConst (DataTypeArray (DataTypeNumber UInt8)) (FArray [FUInt64 5; FUInt64 6]) 1 in
  run (DataTypeNumber UInt8) 1 numbers unsigned_zero = Throw ZERO_ARRAY_OR_TUPLE_INDEX
  /\ run (DataTypeNumber UInt8) 1 literal unsigned_zero = Throw ZERO_ARRAY_OR_TUPLE_INDEX
  /\ run (DataTypeNumber UInt8) 1 numbers signed_zero = Ok (ColumnVector UInt8 [0])
  /\ run (DataTypeNullable DataTypeString) 1 strings signed_zero
     = Ok (ColumnNullable (ColumnString [0] [1]) [0])
  /\ run (DataTypeNumber UInt8) 1 literal signed_zero
     = Ok (ColumnConst (DataTypeNumber UInt8) (FUInt64 0) 1).
Proof. repeat split; reflexivity. Qed.

(** ** [arrayReverse] *)

Section ReverseNumbers.
Import FunctionArrayReverse.

Lemma while_before_copy src_data : forall xs src dst front back,
  xs = take (length xs) (drop (Z.to_nat src) src_data) -> 0 <= src ->
  size front = dst + 1 -> (length xs <= length front)%nat ->
  fst (while_before (length xs) (src + Z.of_nat (length xs))
         (fun src '(res_data, dst) =>
            (src + 1, (store res_data dst (get src_data src), dst - 1)))
         src (front ++ back, dst))
  = take (length front - length xs) front ++ reverse xs ++ back.
Proof.
  induction xs as [|x xs IH]; intros src dst front back Hxs Hsrc Hfront Hfit.
  - simpl. rewrite Nat.sub_0_r, firstn_all. reflexivity.
  - simpl length in *. cbn [while_before].
    destruct (Z.ltb_spec src (src + Z.of_nat (Datatypes.S (length xs)))) as [_|]; [|lia].
    destruct (drop (Z.to_nat src) src_data) as [|y rest] eqn:Hdrop; [discriminate Hxs|].
    rewrite firstn_cons in Hxs. injection Hxs as <- Hxs.
    assert (Hget : get src_data src = x).
    { unfold get. apply list_lookup_total_correct.
      rewrite <- (Nat.add_0_r (Z.to_nat src)), <- lookup_drop, Hdrop. reflexivity. }
    assert (Hrest : rest = drop (Z.to_nat (src + 1)) src_data).
    { replace (Z.to_nat (src + 1)) with (Z.to_nat src + 1)%nat by lia.
      rewrite <- drop_drop, Hdrop. reflexivity. }
    induction front as [|slot front' _] using rev_ind; [simpl in Hfit; lia|].
    unfold size in Hfront. rewrite length_app in Hfront, Hfit. simpl in Hfront, Hfit.
    rewrite Hget, <- app_assoc. simpl app.
    rewrite store_next by (unfold size; lia).
    replace (src + Z.of_nat (Datatypes.S (length xs)))
      with (src + 1 + Z.of_nat (length xs)) by lia.
    rewrite <- app_assoc. simpl app.
    rewrite IH; [|rewrite <- Hrest; exact Hxs|lia|unfold size; lia|lia].
    rewrite length_app. simpl length.
    replace (length front' + 1 - Datatypes.S (length xs))%nat
      with (length front' - length xs)%nat by lia.
    rewrite take_app_le by lia.
    rewrite reverse_cons, <- app_assoc. reflexivity.
Qed.

Lemma reverse_step_row src_data off i prev done cells :
  0 <= prev < off -> off <= size src_data -> off < 2 ^ 64 ->
  size done = prev -> off - prev <= size cells ->
  reverse_step src_data off i (done ++ cells, prev)
  = (done ++ reverse (slice src_data prev off) ++ drop (Z.to_nat (off - prev)) cells, off).
Proof.
  intros Hprev Hoff Hsmall Hdone Hcells. unfold reverse_step.
  destruct (Z.eqb_spec prev off) as [|_]; [lia|].
  set (row := slice src_data prev off).
  assert (Hlen : length row = Z.to_nat (off - prev)).
  { pose proof (size_slice src_data prev off ltac:(lia) Hoff) as Hsize.
    fold row in Hsize. unfold size in Hsize. lia. }
  pose proof (while_before_copy src_data row prev (off - 1)
                (done ++ take (Z.to_nat (off - prev)) cells)
                (drop (Z.to_nat (off - prev)) cells)) as Hcopy.
  unfold size in Hdone, Hcells.
  rewrite <- app_assoc, take_drop, Hlen in Hcopy.
  replace (prev + Z.of_nat (Z.to_nat (off - prev))) with off in Hcopy by lia.
  rewrite (size_t_small (off - 1)) by lia.
  destruct (while_before _ _ _ _ _) as [res dst].
  simpl in Hcopy. rewrite Hcopy.
  - rewrite length_app, length_take.
    replace (length done + Z.to_nat (off - prev) `min` length cells - Z.to_nat (off - prev))%nat
      with (length done) by lia.
    rewrite take_app_length. reflexivity.
  - reflexivity.
  - lia.
  - unfold size. rewrite length_app, length_take. lia.
  - rewrite length_app, length_take. lia.
Qed.

Lemma reverse_steps src_data n : forall offsets i prev done cells,
  offsets_ok prev offsets n -> n <= size src_data -> n < 2 ^ 64 -> 0 <= prev ->
  size done = prev -> size cells = n - prev ->
  fst (foldi i (reverse_step src_data) offsets (done ++ cells, prev))
  = done ++ concat (reverse <$> rows_from prev offsets src_data).
Proof.
  induction offsets as [|off rest IH]; intros i prev done cells Hok Hn Hsmall Hprev Hdone Hcells.
  - simpl in *. subst n. destruct cells; [reflexivity|].
    unfold size in Hcells. simpl in Hcells. lia.
  - destruct Hok as [Hle Hok]. pose proof (offsets_ok_bounds _ _ _ Hok) as [Hoff _].
    cbn [foldi rows_from]. rewrite fmap_cons. cbn [concat].
    destruct (decide (prev = off)) as [->|Hne].
    + replace (reverse_step src_data off i (done ++ cells, off)) with (done ++ cells, off)
        by (unfold reverse_step; rewrite Z.eqb_refl; reflexivity).
      rewrite Z.sub_diag. change (take (Z.to_nat 0) (drop (Z.to_nat off) src_data)) with (@nil Z).
      change (reverse (@nil Z)) with (@nil Z). simpl app.
      apply IH; auto.
    + rewrite reverse_step_row by lia.
      rewrite app_assoc.
      rewrite IH; auto; try lia.
      * rewrite <- app_assoc. reflexivity.
      * unfold size in *. rewrite length_app, length_reverse.
        pose proof (size_slice src_data prev off ltac:(lia) ltac:(unfold size; lia)) as Hrow.
        unfold size in Hrow. lia.
      * unfold size in *. rewrite length_drop. lia.
Qed.

Lemma do_reverse_rows src_data src_offsets res_data :
  array_ok src_offsets (size src_data) -> size res_data = size src_data ->
  do_reverse src_data src_offsets res_data = reversed_rows src_offsets src_data.
Proof.
  intros [Hsmall Hok] Hres. unfold do_reverse, reversed_rows, array_rows.
  change (reverse_row src_data src_offsets)
    with (fun i st => reverse_step src_data (get src_offsets i) i st).
  rewrite (for_range_foldi (reverse_step src_data)).
  apply (reverse_steps src_data (size src_data) src_offsets 0 0 [] res_data);
    auto; try lia; try reflexivity.
Qed.

Lemma concat_rows_from data : forall offsets prev,
  offsets_ok prev offsets (size data) -> 0 <= prev ->
  concat (rows_from prev offsets data) = drop (Z.to_nat prev) data.
Proof.
  induction offsets as [|off rest IH]; intros prev Hok Hprev.
  - simpl in *. rewrite drop_ge; [reflexivity|]. unfold size in Hok. lia.
  - destruct Hok as [Hle Hok]. cbn [rows_from concat].
    rewrite IH by (auto; lia).
    replace (Z.to_nat off) with (Z.to_nat prev + Z.to_nat (off - prev))%nat by lia.
    rewrite <- drop_drop. apply take_drop.
Qed.

Lemma size_array_rows offsets data :
  array_ok offsets (size data) ->
  size <$> array_rows offsets data = (fun '(p, o) => o - p) <$> row_bounds 0 offsets.
Proof.
  intros [_ Hok]. rewrite array_rows_slices, <- list_fmap_compose.
  apply offsets_ok_bounds in Hok as [_ Hall].
  apply Forall_fmap_ext_1. eapply Forall_impl; [exact Hall|].
  intros [p o] Hpo. simpl. apply size_slice; lia.
Qed.

Lemma size_concat_reverse (rows : list (list Z)) :
  size (concat (reverse <$> rows)) = size (concat rows).
Proof.
  unfold size. f_equal. induction rows as [|row rows IH]; [reflexivity|].
  rewrite fmap_cons. cbn [concat]. rewrite !length_app, length_reverse, IH. reflexivity.
Qed.

Lemma size_reversed_rows offsets data :
  array_ok offsets (size data) -> size (reversed_rows offsets data) = size data.
Proof.
  intros Hok. unfold reversed_rows. rewrite size_concat_reverse.
  unfold array_rows. rewrite (concat_rows_from data offsets 0) by (try apply Hok; lia).
  reflexivity.
Qed.

Lemma array_rows_reversed offsets data :
  array_ok offsets (size data) ->
  array_rows offsets (reversed_rows offsets data) = reverse <$> array_rows offsets data.
Proof.
  intros Hok. unfold reversed_rows.
  rewrite <- (offsets_from_bounds offsets 0) at 1.
  rewrite <- (size_array_rows offsets data Hok).
  replace (size <$> array_rows offsets data)
    with (size <$> (reverse <$> array_rows offsets data)).
  - apply array_rows_concat.
  - rewrite <- list_fmap_compose. apply list_fmap_ext. intros _ row _.
    simpl. unfold size. rewrite length_reverse. reflexivity.
Qed.

(** Reversing the rows twice gives back the data. *)
Lemma reversed_rows_involutive offsets data :
  array_ok offsets (size data) ->
  reversed_rows offsets (reversed_rows offsets data) = data.
Proof.
  intros Hok. unfold reversed_rows at 1. rewrite (array_rows_reversed _ _ Hok).
  rewrite <- list_fmap_compose.
  rewrite (list_fmap_ext _ id (array_rows offsets data))
    by (intros _ row _; apply reverse_involutive).
  rewrite list_fmap_id. unfold array_rows.
  rewrite (concat_rows_from data offsets 0) by (try apply Hok; lia). reflexivity.
Qed.

Context `{Memory}.

Lemma first_true_number T src_data src_offsets nullable_col rest :
  first_true
    (((fun T0 => executeNumber T0 (ColumnVector T src_data) src_offsets nullable_col)
        <$> number_types) ++ rest)
  = executeNumber T (ColumnVector T src_data) src_offsets nullable_col.
Proof. destruct T; reflexivity. Qed.

(** [arrayReverse] on an array column of numbers, with or without a null
    overlay, reverses every row of the data and of the null map and keeps
    the offsets. *)
Lemma reverse_executeImpl_number type rows T data offsets :
  array_ok offsets (size data) ->
  executeImpl type rows (ColumnArray (ColumnVector T data) offsets)
  = Ok (ColumnArray (ColumnVector T (reversed_rows offsets data)) offsets)
  /\ forall null_map,
       size null_map = size data ->
       executeImpl type rows (ColumnArray (ColumnNullable (ColumnVector T data) null_map) offsets)
       = Ok (ColumnArray
               (ColumnNullable (ColumnVector T (reversed_rows offsets data))
                  (reversed_rows offsets null_map))
               offsets).
Proof.
  intros Hok. split; [|intros null_map Hnull].
  - unfold executeImpl. cbn [executeConst checkAndGetColumnConst_Array].
    rewrite first_true_number. unfold executeNumber. rewrite decide_True by reflexivity.
    rewrite do_reverse_rows; [reflexivity|exact Hok|].
    unfold size. rewrite length_resize_uninit. unfold size. lia.
  - unfold executeImpl. cbn [executeConst checkAndGetColumnConst_Array].
    rewrite first_true_number. unfold executeNumber. rewrite decide_True by reflexivity.
    rewrite !do_reverse_rows; [reflexivity| | | |]; try exact Hok.
    + rewrite Hnull. exact Hok.
    + unfold size. rewrite length_resize_uninit. unfold size in *. lia.
    + unfold size. rewrite length_resize_uninit. unfold size. lia.
Qed.

(** X4. For an array column of numbers, with or without a null overlay,
    [arrayReverse] of [arrayReverse] of the column is the column: the data,
    the offsets and the null map are restored. *)
Lemma arrayReverse_twice_number type rows T data offsets :
  array_ok offsets (size data) ->
  executeImpl type rows (ColumnArray (ColumnVector T data) offsets) ≫= executeImpl type rows
  = Ok (ColumnArray (ColumnVector T data) offsets)
  /\ forall null_map,
       size null_map = size data ->
       executeImpl type rows (ColumnArray (ColumnNullable (ColumnVector T data) null_map) offsets)
         ≫= executeImpl type rows
       = Ok (ColumnArray (ColumnNullable (ColumnVector T data) null_map) offsets).
Proof.
  intros Hok.
  assert (Hok' : array_ok offsets (size (reversed_rows offsets data))).
  { rewrite size_reversed_rows by exact Hok. exact Hok. }
  destruct (reverse_executeImpl_number type rows T data offsets Hok) as [Hplain Hnullable].
  destruct (reverse_executeImpl_number type rows T _ offsets Hok') as [Hplain' Hnullable'].
  split; [|intros null_map Hnull].
  - rewrite Hplain. simpl. rewrite Hplain', reversed_rows_involutive by exact Hok.
    reflexivity.
  - assert (Hok_null : array_ok offsets (size null_map)) by (rewrite Hnull; exact Hok).
    rewrite (Hnullable null_map Hnull). simpl. rewrite Hnullable'.
    + rewrite !reversed_rows_involutive by assumption. reflexivity.
    + rewrite !size_reversed_rows by assumption. exact Hnull.
Qed.

End ReverseNumbers.

Section ReverseStrings.
Import FunctionArrayReverse.
Context `{Memory}.

(** C5 at the input on which the code departs from it: the rows
    [[], [], [s0, s1]] of strings under a null overlay (three rows, two
    strings).  The loop of [executeString] that reverses the null map runs
    over the number of strings, so it passes the two empty rows and never
    reaches the third: the null map of the result is the two cells [resize]
    has allocated, not written, whatever the null map of the source is.
    Reversing twice gives back the strings and the offsets, but not the null
    map. *)
Theorem arrayReverse_twice_string_null_map :
  let type := DataTypeArray (DataTypeNullable DataTypeString) in
  let column null_map :=
    ColumnArray (ColumnNullable (ColumnString [0; 98; 0] [1; 3]) null_map) [0; 0; 2] in
  (forall null_map,
     executeImpl type 3 (column null_map)
     = Ok (ColumnArray (ColumnNullable (ColumnString [98; 0; 0] [2; 3]) (alloc 2))
             [0; 0; 2])
     /\ executeImpl type 3 (column null_map) ≫= executeImpl type 3
        = Ok (column (alloc 2)))
  /\ ~ (forall null_map,
          length null_map = 2%nat ->
          executeImpl type 3 (column null_map) ≫= executeImpl type 3
          = Ok (column null_map)).
Proof.
  intros type column.
  assert (Hrun : forall null_map,
            executeImpl type 3 (column null_map)
            = Ok (ColumnArray (ColumnNullable (ColumnString [98; 0; 0] [2; 3]) (alloc 2))
                    [0; 0; 2])) by reflexivity.
  assert (Htwice : forall null_map,
            executeImpl type 3 (column null_map) ≫= executeImpl type 3
            = Ok (column (alloc 2))).
  { intros null_map. rewrite Hrun. reflexivity. }
  split; [intros null_map; split; [apply Hrun|apply Htwice]|].
  intros Hsame.
  pose proof (Hsame [1; 0] eq_refl) as Hfirst. rewrite Htwice in Hfirst.
  pose proof (Hsame [0; 1] eq_refl) as Hsecond. rewrite Htwice in Hsecond.
  rewrite Hfirst in Hsecond. discriminate Hsecond.
Qed.

End ReverseStrings.

(** * Further properties of the functions *)

(** ** [arrayElement]: the element an index selects *)

Section ElementHits.
Import FunctionArrayElement.
Context `{Memory} `{FieldInterface} `{DataTypeInterface}.

(** X1. [arrayElement] on an array column of numbers, with an index per row
    or a constant index: a row of length [len] whose index [k] is in
    [1, len] holds the element [k - 1] of the row, and one whose index is in
    [-len, -1] holds the element [len + k]; under a null overlay the null
    mark of the row is 1 when that element is null in the source and 0
    otherwise.  A constant index counts from the start when its [Field] is
    a [UInt64]. *)
Theorem arrayElement_selects_element result_type T data offsets index_column :
  array_ok offsets (size data) -> size data < 2 ^ 63 ->
  index_argument index_column (size offsets) ->
  negatable_indices index_column ->
  exists values,
    executeImpl result_type (size offsets) (ColumnArray (ColumnVector T data) offsets)
      index_column
    = Ok (ColumnVector T values)
    /\ forall null_map, exists marks,
         executeImpl result_type (size offsets)
           (ColumnArray (ColumnNullable (ColumnVector T data) null_map) offsets)
           index_column
         = Ok (ColumnNullable (ColumnVector T values) marks)
         /\ forall i p o,
              row_bounds 0 offsets !! i = Some (p, o) ->
              let k := index_value index_column (Z.of_nat i) in
              (1 <= k <= o - p ->
               (forall type v s, index_column <> ColumnConst type (FInt64 v) s) ->
               values !! i = Some (get data (p + (k - 1)))
               /\ marks !! i = Some (if isNullAt null_map (p + (k - 1)) then 1 else 0))
              /\ (- (o - p) <= k <= -1 ->
                  values !! i = Some (get data (o + k))
                  /\ marks !! i = Some (if isNullAt null_map (o + k) then 1 else 0)).
Proof.
  intros Hok Hsmall Hindex Hneg.
  destruct (arrayElement_number_reads result_type T data offsets index_column
              Hok Hsmall Hindex) as (reads & Hplain & Hnullable & Hreads).
  exists (value data <$> reads). split; [exact Hplain|].
  intros null_map. exists (null_mark null_map <$> reads). split; [apply Hnullable|].
  intros i p o Hi k. destruct (Hreads i p o Hi) as [_ Hsel]. specialize (Hsel Hneg).
  rewrite !list_lookup_fmap, Hsel. split.
  - intros Hk Hunsigned.
    assert (Hselected : selected index_column (Z.of_nat i) p o = Some (p + (k - 1))).
    { unfold selected.
      destruct index_column as [| | | | | |type [|v|v| | | |] s| |];
        try (exfalso; apply (Hunsigned type v s); reflexivity);
        fold k; unfold source_index, position; rewrite decide_True by exact Hk;
        reflexivity. }
    rewrite Hselected. split; reflexivity.
  - intros Hk.
    assert (Hselected : selected index_column (Z.of_nat i) p o = Some (o + k)).
    { assert (Hsource : source_index k p o = Some (o + k)).
      { unfold source_index, position. rewrite decide_False by lia.
        rewrite decide_True by exact Hk. simpl. f_equal. lia. }
      unfold selected.
      destruct index_column as [| | | | | |type [|v|v| | | |] s| |]; try exact Hsource.
      simpl in k. unfold k in Hk. destruct (Z.leb_spec 0 v); [lia|exact Hsource]. }
    rewrite Hselected. split; reflexivity.
Qed.

(** [arrayElement] on an array column of numbers under a null overlay,
    with an index per row: the index [k] in [1, len] from the start of a row
    and the index [-(len - k + 1)] from its end give the same value and the
    same null mark. *)
Theorem arrayElement_per_row_symmetry result_type T data null_map offsets
    TIndex indices TIndex' indices' :
  array_ok offsets (size data) -> size data < 2 ^ 63 ->
  index_argument (ColumnVector TIndex indices) (size offsets) ->
  index_argument (ColumnVector TIndex' indices') (size offsets) ->
  Forall (negatable TIndex) indices -> Forall (negatable TIndex') indices' ->
  exists values marks values' marks',
    executeImpl result_type (size offsets)
      (ColumnArray (ColumnNullable (ColumnVector T data) null_map) offsets)
      (ColumnVector TIndex indices)
    = Ok (ColumnNullable (ColumnVector T values) marks)
    /\ executeImpl result_type (size offsets)
         (ColumnArray (ColumnNullable (ColumnVector T data) null_map) offsets)
         (ColumnVector TIndex' indices')
       = Ok (ColumnNullable (ColumnVector T values') marks')
    /\ forall i p o,
         row_bounds 0 offsets !! i = Some (p, o) ->
         1 <= get indices (Z.of_nat i) <= o - p ->
         get indices' (Z.of_nat i) = - (o - p - get indices (Z.of_nat i) + 1) ->
         values' !! i = values !! i /\ marks' !! i = marks !! i.
Proof.
  intros Hok Hsmall Hindex Hindex' Hneg Hneg'.
  destruct (arrayElement_number_reads result_type T data offsets _ Hok Hsmall Hindex)
    as (reads & _ & Hnullable & Hreads).
  destruct (arrayElement_number_reads result_type T data offsets _ Hok Hsmall Hindex')
    as (reads' & _ & Hnullable' & Hreads').
  exists (value data <$> reads), (null_mark null_map <$> reads),
    (value data <$> reads'), (null_mark null_map <$> reads').
  split; [apply Hnullable|]. split; [apply Hnullable'|].
  intros i p o Hi Hk Hk'.
  destruct (Hreads i p o Hi) as [_ Hsel]. destruct (Hreads' i p o Hi) as [_ Hsel'].
  rewrite !list_lookup_fmap, (Hsel Hneg), (Hsel' Hneg').
  unfold selected. simpl index_value. rewrite Hk'.
  unfold source_index. rewrite <- (position_symmetric _ _ Hk). split; reflexivity.
Qed.

End ElementHits.

(** The rows [5, 6] and [7] read at the indices 2 and -1. *)
Lemma arrayElement_selects_element_witness :
  let offsets := [2; 3] in
  let index_column := ColumnVector Int8 [2; -1] in
  (array_ok offsets (size [5; 6; 7]) /\ size [5; 6; 7] < 2 ^ 63
   /\ @index_argument scalar_fields index_column (size offsets)
   /\ negatable_indices index_column)
  /\ exists values,
       @FunctionArrayElement.executeImpl zero_memory scalar_fields scalar_defaults
         (DataTypeNumber UInt8) (size offsets)
         (ColumnArray (ColumnVector UInt8 [5; 6; 7]) offsets) index_column
       = Ok (ColumnVector UInt8 values).
Proof.
  intros offsets index_column.
  assert (Hok : array_ok offsets (size [5; 6; 7])).
  { unfold array_ok, size. simpl. repeat split; lia. }
  assert (Hsmall : size [5; 6; 7] < 2 ^ 63) by (unfold size; simpl; lia).
  assert (Hindex : @index_argument scalar_fields index_column (size offsets)).
  { simpl. repeat split. repeat constructor; unfold in_range; simpl; lia. }
  assert (Hneg : negatable_indices index_column) by (repeat constructor).
  split; [auto|].
  destruct (@arrayElement_selects_element zero_memory scalar_fields scalar_defaults
              (DataTypeNumber UInt8) UInt8 [5; 6; 7] offsets index_column
              Hok Hsmall Hindex Hneg) as (values & Hrun & _).
  exists values. exact Hrun.
Defined.

(** The row [5, 6, 7] with the null map [0, 1, 0], read at 2 and at -2. *)
Lemma arrayElement_per_row_symmetry_witness :
  let offsets := [3] in
  (array_ok offsets (size [5; 6; 7]) /\ size [5; 6; 7] < 2 ^ 63
   /\ @index_argument scalar_fields (ColumnVector UInt8 [2]) (size offsets)
   /\ @index_argument scalar_fields (ColumnVector Int8 [-2]) (size offsets)
   /\ Forall (negatable UInt8) [2] /\ Forall (negatable Int8) [-2])
  /\ exists values marks,
       @FunctionArrayElement.executeImpl zero_memory scalar_fields scalar_defaults
         (DataTypeNullable (DataTypeNumber UInt8)) (size offsets)
         (ColumnArray (ColumnNullable (ColumnVector UInt8 [5; 6; 7]) [0; 1; 0]) offsets)
         (ColumnVector UInt8 [2])
       = Ok (ColumnNullable (ColumnVector UInt8 values) marks).
Proof.
  intros offsets.
  assert (Hok : array_ok offsets (size [5; 6; 7])).
  { unfold array_ok, size. simpl. repeat split; lia. }
  assert (Hsmall : size [5; 6; 7] < 2 ^ 63) by (unfold size; simpl; lia).
  assert (Hindex : @index_argument scalar_fields (ColumnVector UInt8 [2]) (size offsets)).
  { simpl. repeat split. repeat constructor; unfold in_range; simpl; lia. }
  assert (Hindex' : @index_argument scalar_fields (ColumnVector Int8 [-2]) (size offsets)).
  { simpl. repeat split. repeat constructor; unfold in_range; simpl; lia. }
  assert (Hneg : Forall (negatable UInt8) [2]) by (repeat constructor).
  assert (Hneg' : Forall (negatable Int8) [-2]) by (repeat constructor).
  split; [auto 10|].
  destruct (@arrayElement_per_row_symmetry zero_memory scalar_fields scalar_defaults
              (DataTypeNullable (DataTypeNumber UInt8)) UInt8 [5; 6; 7] [0; 1; 0] offsets
              UInt8 [2] Int8 [-2] Hok Hsmall Hindex Hindex' Hneg Hneg')
    as (values & marks & _ & _ & Hrun & _).
  exists values, marks. exact Hrun.
Defined.

(** ** [arrayReverse] on columns of numbers *)

Section ReverseRows.
Import FunctionArrayReverse.
Context `{Memory}.

(** X3. [arrayReverse] on an array column of numbers keeps the offsets and
    gives every row its elements in the opposite order; under a null overlay
    the null marks of every row are reversed along with its elements. *)
Theorem arrayReverse_number_rows type rows T data offsets :
  array_ok offsets (size data) ->
  (exists res,
     executeImpl type rows (ColumnArray (ColumnVector T data) offsets)
     = Ok (ColumnArray (ColumnVector T res) offsets)
     /\ array_rows offsets res = reverse <$> array_rows offsets data)
  /\ forall null_map,
       size null_map = size data ->
       exists res res_null_map,
         executeImpl type rows
           (ColumnArray (ColumnNullable (ColumnVector T data) null_map) offsets)
         = Ok (ColumnArray (ColumnNullable (ColumnVector T res) res_null_map) offsets)
         /\ array_rows offsets res = reverse <$> array_rows offsets data
         /\ array_rows offsets res_null_map = reverse <$> array_rows offsets null_map.
Proof.
  intros Hok.
  destruct (reverse_executeImpl_number type rows T data offsets Hok) as [Hplain Hnullable].
  split.
  - exists (reversed_rows offsets data). split; [exact Hplain|].
    apply array_rows_reversed. exact Hok.
  - intros null_map Hnull.
    exists (reversed_rows offsets data), (reversed_rows offsets null_map).
    split; [apply Hnullable; exact Hnull|].
    split; apply array_rows_reversed; [exact Hok|rewrite Hnull; exact Hok].
Qed.

End ReverseRows.

(** The rows [1, 2, 3] and [4, 5]. *)
Lemma arrayReverse_number_rows_witness :
  array_ok [3; 5] (size [1; 2; 3; 4; 5])
  /\ exists res,
       @FunctionArrayReverse.executeImpl zero_memory (DataTypeArray (DataTypeNumber UInt8)) 2
         (ColumnArray (ColumnVector UInt8 [1; 2; 3; 4; 5]) [3; 5])
       = Ok (ColumnArray (ColumnVector UInt8 res) [3; 5])
       /\ array_rows [3; 5] res = reverse <$> array_rows [3; 5] [1; 2; 3; 4; 5].
Proof.
  assert (Hok : array_ok [3; 5] (size [1; 2; 3; 4; 5])).
  { unfold array_ok, size. simpl. repeat split; lia. }
  split; [exact Hok|].
  apply (@arrayReverse_number_rows zero_memory (DataTypeArray (DataTypeNumber UInt8)) 2
           UInt8 [1; 2; 3; 4; 5] [3; 5] Hok).
Defined.

(** The rows [1, 2, 3] and [4, 5], reversed twice. *)
Lemma arrayReverse_twice_number_witness :
  let type := DataTypeArray (DataTypeNumber UInt8) in
  let column := ColumnArray (ColumnVector UInt8 [1; 2; 3; 4; 5]) [3; 5] in
  array_ok [3; 5] (size [1; 2; 3; 4; 5])
  /\ @FunctionArrayReverse.executeImpl zero_memory type 2 column
       ≫= @FunctionArrayReverse.executeImpl zero_memory type 2
     = Ok column.
Proof.
  intros type column.
  assert (Hok : array_ok [3; 5] (size [1; 2; 3; 4; 5])).
  { unfold array_ok, size. simpl. repeat split; lia. }
  split; [exact Hok|].
  apply (@arrayReverse_twice_number zero_memory type 2 UInt8 [1; 2; 3; 4; 5] [3; 5] Hok).
Defined.

(** ** [arrayUniq] and [arrayEnumerateUniq] on columns of integers *)

Lemma distinct_count_perm {V} `{EqDecision V} (row row' : list (option V)) :
  row ≡ₚ row' -> distinct_count row = distinct_count row'.
Proof.
  intros Hperm. unfold distinct_count. f_equal.
  - f_equal. apply Permutation_length.
    apply NoDup_Permutation; try apply NoDup_remove_dups.
    intros x. rewrite !elem_of_remove_dups, Hperm. reflexivity.
  - rewrite (bool_decide_ext (None ∈ row) (None ∈ row')); [reflexivity|].
    rewrite Hperm. reflexivity.
Qed.

Lemma distinct_count_nil {V} `{EqDecision V} : distinct_count (@nil (option V)) = 0.
Proof. reflexivity. Qed.

Lemma distinct_count_pos {V} `{EqDecision V} (row : list (option V)) :
  row <> [] -> 1 <= distinct_count row.
Proof.
  intros Hrow. unfold distinct_count.
  destruct (bool_decide (None ∈ row)) eqn:Hnone; [lia|].
  apply bool_decide_eq_false in Hnone.
  destruct row as [|[v|] row]; [contradiction| |exfalso; apply Hnone; left].
  assert (Hin : v ∈ remove_dups (omap id (Some v :: row))).
  { apply elem_of_remove_dups. simpl. left. }
  destruct (remove_dups (omap id (Some v :: row))); [inversion Hin|simpl; lia].
Qed.

Lemma fmap_Forall2_eq {A B} (R : A -> A -> Prop) (f : A -> B) l l' :
  (forall x y, R x y -> f x = f y) -> Forall2 R l l' -> f <$> l = f <$> l'.
Proof.
  intros Hf Hall. induction Hall as [|x y l l' Hxy _ IH]; [reflexivity|].
  rewrite !fmap_cons, (Hf x y Hxy), IH. reflexivity.
Qed.

Section UniqRows.
Import FunctionArrayUniq.
Context `{FieldInterface} `{Memory}.

Lemma uniq_integer_rows column :
  enumerate_argument column ->
  executeImpl column = Ok (ColumnVector UInt32 (distinct_count <$> argument_rows column)).
Proof.
  intros Harg.
  destruct column as [| | | |[T values| | |[T values| | | | | | | |] m| | | | |] offsets
                     | | | |];
    try contradiction; simpl in Harg.
  - destruct Harg as (_ & Hok & Hshort).
    rewrite (uniq_executeImpl_number T values offsets _ None) by (left; split; reflexivity).
    rewrite count_rows_logical;
      [reflexivity|rewrite length_resize_uninit; unfold size; lia|exact Hok|exact I
      |exact Hshort].
  - destruct Harg as (_ & Hok & Hlen & Hshort).
    rewrite (uniq_executeImpl_number T values offsets _ (Some m))
      by (right; exists m; split; reflexivity).
    rewrite count_rows_logical;
      [reflexivity|rewrite length_resize_uninit; unfold size; lia|exact Hok|exact Hlen
      |exact Hshort].
Qed.

(** X5. [arrayUniq] does not depend on the order of the elements within the
    rows: two array columns of integers whose rows are permutations of each
    other, row by row, get the same result. *)
Theorem arrayUniq_permutation column column' :
  enumerate_argument column -> enumerate_argument column' ->
  Forall2 (≡ₚ) (argument_rows column) (argument_rows column') ->
  executeImpl column = executeImpl column'.
Proof.
  intros Harg Harg' Hperm.
  rewrite (uniq_integer_rows column Harg), (uniq_integer_rows column' Harg').
  do 2 f_equal. apply (fmap_Forall2_eq (≡ₚ)); [|exact Hperm].
  intros row row'. apply distinct_count_perm.
Qed.

(** X6. [arrayUniq] on an array column of integers gives one count per row;
    the count of a row without elements is 0, and the count of any other row
    is at least 1 and at most the length of the row. *)
Theorem arrayUniq_bounds column :
  enumerate_argument column ->
  exists counts,
    executeImpl column = Ok (ColumnVector UInt32 counts)
    /\ length counts = length (argument_rows column)
    /\ forall i row,
         argument_rows column !! i = Some row ->
         exists c, counts !! i = Some c
                   /\ (row = [] -> c = 0)
                   /\ (row <> [] -> 1 <= c)
                   /\ c <= Z.of_nat (length row).
Proof.
  intros Harg. exists (distinct_count <$> argument_rows column).
  split; [apply uniq_integer_rows; exact Harg|].
  split; [apply length_fmap|].
  intros i row Hrow. exists (distinct_count row).
  rewrite list_lookup_fmap, Hrow. split; [reflexivity|].
  split; [intros ->; reflexivity|].
  split; [apply distinct_count_pos|apply distinct_count_bound].
Qed.

End UniqRows.

(** The rows [1, 2, 1] and [2, 1, 1]. *)
Lemma arrayUniq_permutation_witness :
  let column := ColumnArray (ColumnVector UInt8 [1; 2; 1]) [3] in
  let column' := ColumnArray (ColumnVector UInt8 [2; 1; 1]) [3] in
  (enumerate_argument column /\ enumerate_argument column'
   /\ Forall2 (≡ₚ) (argument_rows column) (argument_rows column'))
  /\ @FunctionArrayUniq.executeImpl scalar_fields zero_memory column
     = @FunctionArrayUniq.executeImpl scalar_fields zero_memory column'.
Proof.
  intros column column'.
  assert (Harg : enumerate_argument column).
  { simpl. repeat split; try reflexivity; try lia. repeat constructor. }
  assert (Harg' : enumerate_argument column').
  { simpl. repeat split; try reflexivity; try lia. repeat constructor. }
  assert (Hperm : Forall2 (≡ₚ) (argument_rows column) (argument_rows column')).
  { repeat constructor. }
  split; [auto|].
  apply (@arrayUniq_permutation scalar_fields zero_memory column column' Harg Harg' Hperm).
Defined.

(** The rows [1, 2, 1] and []. *)
Lemma arrayUniq_bounds_witness :
  let column := ColumnArray (ColumnVector UInt8 [1; 2; 1]) [3; 3] in
  enumerate_argument column
  /\ exists counts,
       @FunctionArrayUniq.executeImpl scalar_fields zero_memory column
       = Ok (ColumnVector UInt32 counts)
       /\ length counts = 2%nat.
Proof.
  intros column.
  assert (Harg : enumerate_argument column).
  { simpl. repeat split; try reflexivity; try lia. repeat constructor. }
  split; [exact Harg|].
  destruct (@arrayUniq_bounds scalar_fields zero_memory column Harg)
    as (counts & Hrun & Hlen & _).
  exists counts. split; [exact Hrun|exact Hlen].
Defined.

Lemma occurrences_zero {V} `{EqDecision V} (x : V) seen :
  occurrences x seen = 0 <-> x ∉ seen.
Proof.
  unfold occurrences. induction seen as [|y seen IH].
  - split; [intros _ Hin; inversion Hin|reflexivity].
  - rewrite filter_cons, not_elem_of_cons. destruct (decide (x = y)) as [->|Hne].
    + simpl. split; [lia|intros [Hc _]; contradiction].
    + rewrite IH. split; [intros Hnot; split; assumption|intros [_ Hnot]; exact Hnot].
Qed.

(** The ranks equal to 1 mark the first occurrences: there are as many of
    them as values of the row that have not been seen before it. *)
Lemma first_ranks_after (row : list (option Z)) : forall seen,
  length (filter (fun r => r = 1) (ranks_after seen row))
  = base.size (list_to_set row ∖ list_to_set seen : gset (option Z)).
Proof.
  induction row as [|x row IH]; intros seen.
  - simpl.
    replace (∅ ∖ list_to_set seen : gset (option Z)) with (∅ : gset (option Z));
      [reflexivity|].
    apply set_eq. intros y. rewrite elem_of_difference, elem_of_empty. tauto.
  - cbn [ranks_after]. rewrite filter_cons, list_to_set_cons.
    pose proof (occurrences_bound x seen) as Hbound.
    pose proof (occurrences_zero x seen) as Hzero.
    destruct (decide (occurrences x seen + 1 = 1)) as [Hone|Hmore];
      cbn [length]; rewrite IH, list_to_set_app_L.
    + assert (Hnew : x ∉ seen) by (apply Hzero; lia).
      replace (({[x]} ∪ list_to_set row) ∖ list_to_set seen : gset (option Z))
        with ({[x]} ∪ (list_to_set row ∖ (list_to_set seen ∪ list_to_set [x]))
                : gset (option Z)).
      * rewrite (size_union (C := gset (option Z)) {[x]}
                   (list_to_set row ∖ (list_to_set seen ∪ list_to_set [x])))
          by (intros y Hy Hy'; apply elem_of_singleton in Hy; subst y;
              apply elem_of_difference in Hy' as [_ Hy']; apply Hy';
              apply elem_of_union; right; apply elem_of_list_to_set; left).
        rewrite (size_singleton (C := gset (option Z)) x). reflexivity.
      * apply set_eq. intros y. rewrite !elem_of_union, !elem_of_difference,
          !elem_of_union, !elem_of_list_to_set, elem_of_singleton, list_elem_of_singleton.
        destruct (decide (y = x)) as [->|Hyx]; intuition.
    + assert (Hold : x ∈ seen).
      { destruct (decide (x ∈ seen)) as [Hin|Hnot]; [exact Hin|].
        apply Hzero in Hnot. lia. }
      f_equal. apply set_eq. intros y.
      rewrite !elem_of_difference, !elem_of_union, !elem_of_list_to_set,
        elem_of_singleton, list_elem_of_singleton.
      destruct (decide (y = x)) as [->|Hyx]; intuition.
Qed.

Lemma length_remove_dups_option (row : list (option Z)) :
  Z.of_nat (length (remove_dups row)) = distinct_count row.
Proof.
  unfold distinct_count. induction row as [|[v|] row IH].
  - reflexivity.
  - rewrite None_in_cons_Some.
    change (omap id (Some v :: row)) with (v :: omap id row). cbn [remove_dups].
    assert (Hin : Some v ∈ row <-> v ∈ omap id row).
    { rewrite list_elem_of_omap. split.
      - intros Hv. exists (Some v). split; [exact Hv|reflexivity].
      - intros (y & Hy & Heq). simpl in Heq. subst y. exact Hy. }
    match goal with
    | |- context [@decide_rel _ _ ?R ?D (Some v) row] =>
        destruct (@decide_rel _ _ R D (Some v) row) as [Hv|Hv]
    end;
      match goal with
      | |- context [@decide_rel _ _ ?R ?D v (omap id row)] =>
          destruct (@decide_rel _ _ R D v (omap id row)) as [Hv'|Hv']
      end;
      try (exfalso; tauto); simpl length; lia.
  - change (omap id (None :: row)) with (omap id row). cbn [remove_dups].
    rewrite (bool_decide_eq_true_2 (None ∈ None :: row)) by left.
    match goal with
    | |- context [@decide_rel _ _ ?R ?D None row] =>
        destruct (@decide_rel _ _ R D None row) as [Hn|Hn]
    end.
    + rewrite (bool_decide_eq_true_2 _ Hn) in IH. exact IH.
    + rewrite (bool_decide_eq_false_2 _ Hn) in IH. simpl length. lia.
Qed.

Lemma first_ranks (row : list (option Z)) :
  Z.of_nat (length (filter (fun r => r = 1) (ranks row))) = distinct_count row.
Proof.
  unfold ranks. rewrite first_ranks_after. simpl list_to_set.
  rewrite difference_empty_L, size_list_to_set_remove_dups.
  apply length_remove_dups_option.
Qed.

Section EnumerateRows.
Context `{FieldInterface} `{Memory}.

Lemma enumerate_integer_rows result_type column :
  enumerate_argument column ->
  exists data offsets,
    column = ColumnArray data offsets
    /\ FunctionArrayEnumerateUniq.executeImpl result_type column
       = Ok (ColumnArray (ColumnVector UInt32 (concat (ranks <$> argument_rows column)))
               offsets)
    /\ array_rows offsets (concat (ranks <$> argument_rows column))
       = ranks <$> argument_rows column.
Proof.
  intros Harg.
  destruct column as [| | | |[T values| | |[T values| | | | | | | |] m| | | | |] offsets
                     | | | |];
    try contradiction; simpl in Harg.
  - destruct Harg as (_ & Hok & Hshort).
    eexists _, offsets. split; [reflexivity|].
    rewrite (enumerate_executeImpl_number _ T values offsets _ None)
      by (left; split; reflexivity).
    destruct (rank_rows_logical offsets values None Hok I Hshort) as [-> Hrows].
    split; [reflexivity|exact Hrows].
  - destruct Harg as (_ & Hok & Hlen & Hshort).
    eexists _, offsets. split; [reflexivity|].
    rewrite (enumerate_executeImpl_number _ T values offsets _ (Some m))
      by (right; exists m; split; reflexivity).
    destruct (rank_rows_logical offsets values (Some m) Hok Hlen Hshort) as [-> Hrows].
    split; [reflexivity|exact Hrows].
Qed.

(** X7. On an array column of integers, the number of elements of a row
    that [arrayEnumerateUniq] ranks 1 is the count [arrayUniq] gives for
    the row. *)
Theorem arrayEnumerateUniq_first_ranks_count result_type column :
  enumerate_argument column ->
  exists offsets ranked counts,
    FunctionArrayEnumerateUniq.executeImpl result_type column
    = Ok (ColumnArray (ColumnVector UInt32 ranked) offsets)
    /\ FunctionArrayUniq.executeImpl column = Ok (ColumnVector UInt32 counts)
    /\ counts
       = (fun row => Z.of_nat (length (filter (fun r => r = 1) row)))
           <$> array_rows offsets ranked.
Proof.
  intros Harg.
  destruct (enumerate_integer_rows result_type column Harg)
    as (data & offsets & _ & Hrun & Hrows).
  exists offsets, (concat (ranks <$> argument_rows column)),
    (distinct_count <$> argument_rows column).
  split; [exact Hrun|]. split; [apply uniq_integer_rows; exact Harg|].
  rewrite Hrows, <- list_fmap_compose. apply list_fmap_ext.
  intros _ row _. simpl. symmetry. apply first_ranks.
Qed.

End EnumerateRows.

(** The rows [1, 2, 2, NULL] and [1, 3]: two elements are not ranked 1. *)
Lemma arrayEnumerateUniq_first_ranks_count_witness :
  let column :=
    ColumnArray
      (ColumnNullable (ColumnVector UInt8 [1; 2; 2; 0; 1; 3]) [0; 0; 0; 1; 0; 0])
      [4; 6] in
  enumerate_argument column
  /\ exists counts,
       @FunctionArrayUniq.executeImpl scalar_fields zero_memory column
       = Ok (ColumnVector UInt32 counts).
Proof.
  intros column.
  assert (Harg : enumerate_argument column).
  { simpl. repeat split; try reflexivity; try lia. repeat constructor. }
  split; [exact Harg|].
  destruct (@arrayEnumerateUniq_first_ranks_count scalar_fields zero_memory
              (DataTypeArray (DataTypeNumber UInt32)) column Harg)
    as (offsets & ranked & counts & _ & Hrun & _).
  exists counts. exact Hrun.
Defined.

Lemma ranks_after_bounds {V} `{EqDecision V} (row : list V) : forall seen j r,
  ranks_after seen row !! j = Some r ->
  1 <= r <= Z.of_nat (length seen) + Z.of_nat j + 1.
Proof.
  induction row as [|x row IH]; intros seen j r Hr; [discriminate Hr|].
  destruct j as [|j]; simpl in Hr.
  - injection Hr as <-. pose proof (occurrences_bound x seen). lia.
  - apply IH in Hr. rewrite length_app in Hr. simpl in Hr. lia.
Qed.

Section EnumerateBounds.
Context `{FieldInterface} `{Memory}.

(** X8. On an array column of integers, [arrayEnumerateUniq] gives the
    element at the position [j] of a row (counted from 0) a rank between 1
    and [j + 1]; so the first element of every row is ranked 1 and no
    element is ranked 0. *)
Theorem arrayEnumerateUniq_rank_bounds result_type column :
  enumerate_argument column ->
  exists offsets ranked,
    FunctionArrayEnumerateUniq.executeImpl result_type column
    = Ok (ColumnArray (ColumnVector UInt32 ranked) offsets)
    /\ forall i row j r,
         array_rows offsets ranked !! i = Some row -> row !! j = Some r ->
         1 <= r <= Z.of_nat j + 1.
Proof.
  intros Harg.
  destruct (enumerate_integer_rows result_type column Harg)
    as (data & offsets & _ & Hrun & Hrows).
  exists offsets, (concat (ranks <$> argument_rows column)).
  split; [exact Hrun|].
  intros i row j r Hrow Hr. rewrite Hrows, list_lookup_fmap in Hrow.
  destruct (argument_rows column !! i) as [source|]; [|discriminate Hrow].
  injection Hrow as <-. apply ranks_after_bounds in Hr. simpl in Hr. lia.
Qed.

End EnumerateBounds.

(** The rows [1, 2, 2, NULL] and [1, 3]. *)
Lemma arrayEnumerateUniq_rank_bounds_witness :
  let column :=
    ColumnArray
      (ColumnNullable (ColumnVector UInt8 [1; 2; 2; 0; 1; 3]) [0; 0; 0; 1; 0; 0])
      [4; 6] in
  enumerate_argument column
  /\ exists offsets ranked,
       @FunctionArrayEnumerateUniq.executeImpl scalar_fields zero_memory
         (DataTypeArray (DataTypeNumber UInt32)) column
       = Ok (ColumnArray (ColumnVector UInt32 ranked) offsets).
Proof.
  intros column.
  assert (Harg : enumerate_argument column).
  { simpl. repeat split; try reflexivity; try lia. repeat constructor. }
  split; [exact Harg|].
  destruct (@arrayEnumerateUniq_rank_bounds scalar_fields zero_memory
              (DataTypeArray (DataTypeNumber UInt32)) column Harg)
    as (offsets & ranked & Hrun & _).
  exists offsets, ranked. exact Hrun.
Defined.

(** ** [arrayEnumerate] *)

Lemma for_loop_fill_list {A} n : forall i (f : Z -> A) (d : list A),
  0 <= i -> (Z.to_nat i + n <= length d)%nat ->
  for_loop n i (fun j d => <[Z.to_nat j := f j]> d) d
  = take (Z.to_nat i) d ++ (f <$> seqZ i (Z.of_nat n)) ++ drop (Z.to_nat i + n) d.
Proof.
  induction n as [|n IH]; intros i f d Hlo Hhi.
  - simpl. rewrite Nat.add_0_r, take_drop. reflexivity.
  - simpl for_loop. rewrite IH; [|lia|rewrite length_insert; lia].
    rewrite (seqZ_cons i) by lia. rewrite fmap_cons.
    replace (Z.succ i) with (i + 1) by lia.
    replace (Z.pred (Z.of_nat (Datatypes.S n))) with (Z.of_nat n) by lia.
    replace (Z.to_nat (i + 1)) with (Datatypes.S (Z.to_nat i)) by lia.
    rewrite take_insert_lt by lia.
    rewrite drop_insert_lt by lia.
    destruct (lookup_lt_is_Some_2 d (Z.to_nat i)) as [x Hx]; [lia|].
    rewrite (take_S_r _ _ x) by exact Hx.
    rewrite insert_app_r_alt by (rewrite length_take; lia).
    rewrite length_take.
    replace (Z.to_nat i - Z.to_nat i `min` length d)%nat with O by lia.
    replace (Datatypes.S (Z.to_nat i) + n)%nat with (Z.to_nat i + Datatypes.S n)%nat by lia.
    rewrite <- app_assoc. reflexivity.
Qed.

Lemma for_range_fill_all {A} (f : Z -> A) (d : list A) :
  for_range 0 (Z.of_nat (length d)) (fun j d => <[Z.to_nat j := f j]> d) d
  = f <$> seqZ 0 (Z.of_nat (length d)).
Proof.
  unfold for_range. rewrite Z.sub_0_r, Nat2Z.id.
  rewrite for_loop_fill_list by (simpl; lia).
  simpl. rewrite drop_all, app_nil_r. reflexivity.
Qed.

Lemma enumerate_step_row off i prev done cells :
  0 <= prev <= off -> off - prev < 2 ^ 32 ->
  size done = prev -> off - prev <= size cells ->
  enumerate_step off i (done ++ cells, prev)
  = (done ++ seqZ 1 (off - prev) ++ drop (Z.to_nat (off - prev)) cells, off).
Proof.
  intros Hprev Hshort Hdone Hcells. unfold enumerate_step, for_range. f_equal.
  unfold size in Hdone, Hcells.
  rewrite (for_loop_ext _ _ _ (fun j d => store d (0 + j) (j - prev + 1))).
  - rewrite for_loop_fill by (try (unfold size; rewrite length_app); lia).
    rewrite Z.add_0_l, Z2Nat.id by lia.
    replace (Z.to_nat prev) with (length done) by lia.
    rewrite take_app_length, drop_app_add'  by reflexivity.
    do 2 f_equal.
    replace (seqZ 1 (off - prev)) with (seqZ (1 - prev + prev) (off - prev))
      by (f_equal; lia).
    rewrite <- (fmap_add_seqZ (1 - prev) prev).
    apply list_fmap_ext. intros _ j _. lia.
  - intros j d Hj. rewrite Z.add_0_l. f_equal.
    rewrite size_t_small by lia. unfold wrap. apply Z.mod_small. lia.
Qed.

Lemma enumerate_steps n : forall offsets i prev done cells,
  offsets_ok prev offsets n -> 0 <= prev ->
  Forall (fun '(p, o) => o - p < 2 ^ 32) (row_bounds prev offsets) ->
  size done = prev -> size cells = n - prev ->
  fst (foldi i enumerate_step offsets (done ++ cells, prev))
  = done ++ concat ((fun '(p, o) => seqZ 1 (o - p)) <$> row_bounds prev offsets).
Proof.
  induction offsets as [|off rest IH]; intros i prev done cells Hok Hprev Hshort Hdone Hcells.
  - simpl in *. subst n. destruct cells; [reflexivity|].
    unfold size in Hcells. simpl in Hcells. lia.
  - destruct Hok as [Hle Hok]. pose proof (offsets_ok_bounds _ _ _ Hok) as [Hoff _].
    cbn [row_bounds] in Hshort. apply Forall_cons in Hshort as [Hrow Hshort].
    cbn [foldi row_bounds]. rewrite fmap_cons. cbn [concat].
    rewrite enumerate_step_row by lia.
    rewrite app_assoc, IH; auto; try lia.
    + rewrite <- app_assoc. reflexivity.
    + unfold size in *. rewrite length_app, length_seqZ. lia.
    + unfold size in *. rewrite length_drop. lia.
Qed.

Section EnumerateOrdinals.
Import FunctionArrayEnumerate.
Context `{Memory} `{ColumnInterface}.

(** X9. [arrayEnumerate] on an array column keeps the offsets and gives
    every row of length [len] the numbers [1, 2, ..., len], whatever the
    elements of the array are. *)
Theorem arrayEnumerate_rows result_type data offsets :
  array_ok offsets (column_size data) ->
  Forall (fun '(p, o) => o - p < 2 ^ 32) (row_bounds 0 offsets) ->
  exists res,
    executeImpl result_type (ColumnArray data offsets)
    = Ok (ColumnArray (ColumnVector UInt32 res) offsets)
    /\ array_rows offsets res = (fun '(p, o) => seqZ 1 (o - p)) <$> row_bounds 0 offsets.
Proof.
  intros [Hsmall Hok] Hshort.
  pose proof (offsets_ok_bounds _ _ _ Hok) as [Hn Hbounds].
  exists (concat ((fun '(p, o) => seqZ 1 (o - p)) <$> row_bounds 0 offsets)). split.
  - unfold executeImpl.
    change (for_range 0 (size offsets) _ (resize_uninit (column_size data) [], 0))
      with (for_range 0 (size offsets) (fun i st => enumerate_step (get offsets i) i st)
              (resize_uninit (column_size data) [], 0)).
    rewrite (for_range_foldi enumerate_step).
    pose proof (enumerate_steps (column_size data) offsets 0 0 []
                  (resize_uninit (column_size data) []) Hok ltac:(lia) Hshort eq_refl) as Hrows.
    simpl app in Hrows.
    destruct (foldi 0 enumerate_step offsets (resize_uninit (column_size data) [], 0))
      as [res prev].
    simpl in Hrows. rewrite Hrows; [reflexivity|].
    unfold size. rewrite length_resize_uninit. lia.
  - rewrite <- (offsets_from_bounds offsets 0) at 1.
    replace ((fun '(p, o) => o - p) <$> row_bounds 0 offsets)
      with (size <$> ((fun '(p, o) => seqZ 1 (o - p)) <$> row_bounds 0 offsets)).
    + apply array_rows_concat.
    + rewrite <- list_fmap_compose. apply Forall_fmap_ext_1.
      eapply Forall_impl; [exact Hbounds|]. intros [p o] Hpo. simpl.
      unfold size. rewrite length_seqZ. lia.
Qed.

(** X10. [arrayEnumerate] on a constant array of [n] elements gives the
    constant array [1, 2, ..., n], with as many rows as the argument. *)
Theorem arrayEnumerate_constant result_type type values s :
  Z.of_nat (length values) < 2 ^ 64 ->
  executeImpl result_type (ColumnConst (DataTypeArray type) (FArray values) s)
  = Ok (ColumnConst result_type (FArray (FUInt64 <$> seqZ 1 (Z.of_nat (length values)))) s).
Proof.
  intros Hsmall. unfold executeImpl. cbn [checkAndGetColumnConst_Array].
  rewrite <- (length_replicate (length values) Null) at 1.
  rewrite (for_range_fill_all (fun i => FUInt64 (size_t (i + 1)))).
  rewrite length_replicate. do 3 f_equal.
  rewrite <- (fmap_add_seqZ 1 0), <- list_fmap_compose.
  apply Forall_fmap_ext_1. apply Forall_forall. intros i Hi.
  apply elem_of_seqZ in Hi. simpl. rewrite size_t_small by lia. f_equal. lia.
Qed.

End EnumerateOrdinals.

(** The rows [7, 8, 9] and [4]. *)
Lemma arrayEnumerate_rows_witness :
  let data := ColumnVector UInt8 [7; 8; 9; 4] in
  (array_ok [3; 4] (@column_size vector_sizes data)
   /\ Forall (fun '(p, o) => o - p < 2 ^ 32) (row_bounds 0 [3; 4]))
  /\ exists res,
       @FunctionArrayEnumerate.executeImpl zero_memory vector_sizes
         (DataTypeArray (DataTypeNumber UInt32)) (ColumnArray data [3; 4])
       = Ok (ColumnArray (ColumnVector UInt32 res) [3; 4])
       /\ array_rows [3; 4] res = [[1; 2; 3]; [1]].
Proof.
  intros data.
  assert (Hok : array_ok [3; 4] (@column_size vector_sizes data)).
  { unfold array_ok. simpl. unfold size. simpl. repeat split; lia. }
  assert (Hshort : Forall (fun '(p, o) => o - p < 2 ^ 32) (row_bounds 0 [3; 4])).
  { repeat constructor. }
  split; [auto|].
  apply (@arrayEnumerate_rows zero_memory vector_sizes
           (DataTypeArray (DataTypeNumber UInt32)) data [3; 4] Hok Hshort).
Defined.

(** The constant array ['a', NULL]. *)
Lemma arrayEnumerate_constant_witness :
  Z.of_nat (length [FString [97]; Null]) < 2 ^ 64
  /\ @FunctionArrayEnumerate.executeImpl zero_memory vector_sizes
       (DataTypeArray (DataTypeNumber UInt32))
       (ColumnConst (DataTypeArray DataTypeString) (FArray [FString [97]; Null]) 5)
     = Ok (ColumnConst (DataTypeArray (DataTypeNumber UInt32))
             (FArray [FUInt64 1; FUInt64 2]) 5).
Proof.
  assert (Hsmall : Z.of_nat (length [FString [97]; Null]) < 2 ^ 64) by (simpl; lia).
  split; [exact Hsmall|].
  apply (@arrayEnumerate_constant zero_memory vector_sizes
           (DataTypeArray (DataTypeNumber UInt32)) DataTypeString
           [FString [97]; Null] 5 Hsmall).
Defined.

(** ** [arrayReverse] on constants and on columns it does not handle *)

Lemma reverse_by_index (arr : Array) :
  Z.of_nat (length arr) < 2 ^ 64 ->
  (fun i => arr !!! Z.to_nat (size_t (Z.of_nat (length arr) - i - 1)))
    <$> seqZ 0 (Z.of_nat (length arr))
  = reverse arr.
Proof.
  intros Hsmall. apply list_eq. intros k.
  rewrite list_lookup_fmap.
  destruct (decide (k < length arr)%nat) as [Hk|Hk].
  - rewrite lookup_seqZ_lt by lia. simpl.
    rewrite size_t_small by lia. rewrite reverse_lookup by exact Hk.
    symmetry. replace (Z.to_nat (Z.of_nat (length arr) - (0 + Z.of_nat k) - 1))
      with (length arr - Datatypes.S k)%nat by lia.
    apply list_lookup_lookup_total_lt. lia.
  - rewrite lookup_seqZ_ge by lia. simpl. symmetry.
    apply lookup_ge_None. rewrite length_reverse. lia.
Qed.

Section ReverseConstants.
Import FunctionArrayReverse.
Context `{Memory}.

Lemma reverse_executeImpl_constant result_type type arr s rows :
  Z.of_nat (length arr) < 2 ^ 64 ->
  executeImpl result_type rows (ColumnConst (DataTypeArray type) (FArray arr) s)
  = Ok (ColumnConst result_type (FArray (reverse arr)) rows).
Proof.
  intros Hsmall. unfold executeImpl, executeConst. cbn [checkAndGetColumnConst_Array].
  rewrite <- (length_replicate (length arr) Null) at 1.
  rewrite (for_range_fill_all
             (fun i => arr !!! Z.to_nat (size_t (Z.of_nat (length arr) - i - 1)))).
  rewrite length_replicate, reverse_by_index by exact Hsmall. reflexivity.
Qed.

(** X11. [arrayReverse] on a constant array gives the constant array with
    the elements in the opposite order, over the rows of the block; applied
    to its own result it gives back the elements of the argument. *)
Theorem arrayReverse_constant type arr s rows :
  Z.of_nat (length arr) < 2 ^ 64 ->
  let argument_type := DataTypeArray type in
  executeImpl argument_type rows (ColumnConst argument_type (FArray arr) s)
  = Ok (ColumnConst argument_type (FArray (reverse arr)) rows)
  /\ executeImpl argument_type rows (ColumnConst argument_type (FArray arr) s)
       ≫= executeImpl argument_type rows
     = Ok (ColumnConst argument_type (FArray arr) rows).
Proof.
  intros Hsmall argument_type. unfold argument_type.
  rewrite (reverse_executeImpl_constant (DataTypeArray type) type arr s rows Hsmall).
  split; [reflexivity|].
  change (Ok (ColumnConst (DataTypeArray type) (FArray (reverse arr)) rows)
            ≫= executeImpl (DataTypeArray type) rows)
    with (executeImpl (DataTypeArray type) rows
            (ColumnConst (DataTypeArray type) (FArray (reverse arr)) rows)).
  rewrite reverse_executeImpl_constant by (rewrite length_reverse; exact Hsmall).
  rewrite reverse_involutive. reflexivity.
Qed.

End ReverseConstants.

(** The constant array [1, NULL, 3]. *)
Lemma arrayReverse_constant_witness :
  let argument_type := DataTypeArray (DataTypeNullable (DataTypeNumber UInt8)) in
  Z.of_nat (length [FUInt64 1; Null; FUInt64 3]) < 2 ^ 64
  /\ @FunctionArrayReverse.executeImpl zero_memory argument_type 2
       (ColumnConst argument_type (FArray [FUInt64 1; Null; FUInt64 3]) 2)
     = Ok (ColumnConst argument_type (FArray [FUInt64 3; Null; FUInt64 1]) 2).
Proof.
  intros argument_type.
  assert (Hsmall : Z.of_nat (length [FUInt64 1; Null; FUInt64 3]) < 2 ^ 64) by (simpl; lia).
  split; [exact Hsmall|].
  apply (@arrayReverse_constant zero_memory (DataTypeNullable (DataTypeNumber UInt8))
           [FUInt64 1; Null; FUInt64 3] 2 2 Hsmall).
Defined.

Section ReverseIllegal.
Import FunctionArrayReverse.
Context `{Memory}.

(** X12. [arrayReverse] has no implementation for elements other than
    numbers, strings and fixed strings: on an array column of anything else
    (arrays, tuples, ...), with or without a null overlay, and on a column
    that is neither an array column nor a constant array, it throws
    [ILLEGAL_COLUMN]. *)
Theorem arrayReverse_illegal_column type rows column :
  match column with
  | ColumnArray data _ => specialised (nested_elements data) = false
  | _ => checkAndGetColumnConst_Array column = None
  end ->
  executeImpl type rows column = Throw ILLEGAL_COLUMN.
Proof.
  intros Hcolumn. unfold executeImpl, executeConst.
  destruct column as [T d|chars string_offsets|n chars|nested null_map|data offsets|columns
                     |t v n|t ops|src ops];
    try (rewrite Hcolumn; reflexivity); try reflexivity.
  cbn [checkAndGetColumnConst_Array].
  destruct data as [T d|chars string_offsets|n chars|nested null_map|d o|columns|t v n
                   |t ops|src ops];
    try discriminate Hcolumn; try reflexivity.
  simpl in Hcolumn.
  destruct nested as [T d|chars string_offsets|n chars|nested null_map'|d o|columns|t v n
                     |t ops|src ops];
    try discriminate Hcolumn; reflexivity.
Qed.

End ReverseIllegal.

(** An array column of arrays: the rows [[1], [2, 3]] and [[4]]. *)
Lemma arrayReverse_illegal_column_witness :
  let column :=
    ColumnArray (ColumnArray (ColumnVector UInt8 [1; 2; 3; 4]) [1; 3; 4]) [2; 3] in
  @FunctionArrayReverse.executeImpl zero_memory
    (DataTypeArray (DataTypeArray (DataTypeNumber UInt8))) 2 column
  = Throw ILLEGAL_COLUMN.
Proof.
  intros column.
  apply (@arrayReverse_illegal_column zero_memory
           (DataTypeArray (DataTypeArray (DataTypeNumber UInt8))) 2 column eq_refl).
Defined.

(** ** [arrayElement]: index columns it does not accept *)

Section ElementThrows.
Import FunctionArrayElement.
Context `{Memory} `{FieldInterface} `{DataTypeInterface}.
Variable index_column : IColumn.
Variable e : ErrorCode.
Hypothesis plain_throws : forall result_type rows column builder,
  perform_plain result_type rows column index_column builder = Throw e.

Lemma perform_throws section rows offsets data result_type builder :
  (forall c columns', data = ColumnTuple (c :: columns') -> section c = Throw e) ->
  data <> ColumnTuple [] ->
  perform section result_type rows data offsets index_column builder = Throw e.
Proof.
  intros Hsection Hsome. unfold perform.
  destruct data as [| | | | |columns| | |];
    try (simpl executeTuple; cbv iota; apply plain_throws).
  destruct columns as [|c columns']; [contradiction Hsome; reflexivity|].
  unfold executeTuple. rewrite (for_each_throw _ _ _ _ (Hsection c columns' eq_refl)).
  reflexivity.
Qed.

Lemma executeImpl_array_throws offsets : forall data result_type rows,
  sections_ok data = true ->
  executeImpl_array result_type rows offsets index_column data = Throw e.
Proof.
  fix IH 1. intros data result_type rows Hdata.
  destruct data as [T d|chars string_offsets|n chars|nested null_map|d o|columns|t v n|t ops|src ops];
    try discriminate Hdata.
  all: simpl executeImpl_array.
  all: try (rewrite perform_throws; [reflexivity|intros c columns' Heq; discriminate Heq
                                    |discriminate]).
  destruct columns as [|c columns']; [discriminate Hdata|].
  rewrite perform_throws; [reflexivity| |discriminate].
  intros c0 columns0 Heq. injection Heq as <- <-.
  apply IH. simpl in Hdata. apply andb_prop in Hdata as [Hc _]. exact Hc.
Qed.

Lemma executeImpl_throws result_type rows column :
  array_argument column ->
  executeImpl result_type rows column index_column = Throw e.
Proof.
  intros Hcolumn. unfold executeImpl.
  destruct column as [T d|chars string_offsets|n chars|nested null_map|data offsets|columns
                     |t v n|t ops|src ops];
    cbn [array_argument] in Hcolumn;
    try (destruct Hcolumn as [? Hsome]; simpl in Hsome; discriminate Hsome).
  - destruct data as [T d|chars string_offsets|n chars|nested null_map|d o|columns|t v n
                     |t ops|src ops];
      try (apply executeImpl_array_throws; exact Hcolumn).
    simpl executeImpl_array.
    rewrite perform_throws; [reflexivity| |].
    + intros c columns' ->. apply executeImpl_array_throws.
      simpl in Hcolumn. apply andb_prop in Hcolumn as [Hc _]. exact Hc.
    + intros ->. discriminate Hcolumn.
  - destruct Hcolumn as [[arr type'] Hsome]. rewrite Hsome.
    destruct (existsb isNull arr); rewrite plain_throws; reflexivity.
Qed.

End ElementThrows.

Section ElementIndexTypes.
Import FunctionArrayElement.
Context `{Memory} `{FieldInterface} `{DataTypeInterface}.

(** X13. [arrayElement] with an index column that has one index per row
    and is not a column of one of the eight integer types (a column of
    floats, say) throws [ILLEGAL_COLUMN], whatever the array argument is: an
    array column of any elements, with or without a null overlay, or a
    constant array. *)
Theorem arrayElement_index_not_integral result_type rows column index_column :
  not_integral_index index_column ->
  array_argument column ->
  executeImpl result_type rows column index_column = Throw ILLEGAL_COLUMN.
Proof.
  intros Hindex Hcolumn. apply executeImpl_throws; [|exact Hcolumn].
  intros result_type' rows' column' builder. unfold perform_plain.
  destruct index_column as [T d| | | | | | | |]; try contradiction; try reflexivity.
  simpl in Hindex. destruct T; try discriminate Hindex; reflexivity.
Qed.

End ElementIndexTypes.

(** The row [1, 2, 3] read at an index column of [Float64]. *)
Lemma arrayElement_index_not_integral_witness :
  let column := ColumnArray (ColumnVector UInt8 [1; 2; 3]) [3] in
  let index_column := ColumnVector Float64 [1] in
  (not_integral_index index_column /\ array_argument column)
  /\ @FunctionArrayElement.executeImpl zero_memory scalar_fields scalar_defaults
       (DataTypeNumber UInt8) 1 column index_column
     = Throw ILLEGAL_COLUMN.
Proof.
  intros column index_column.
  assert (Hindex : not_integral_index index_column) by reflexivity.
  assert (Hcolumn : array_argument column) by reflexivity.
  split; [split; [exact Hindex|exact Hcolumn]|].
  apply (@arrayElement_index_not_integral zero_memory scalar_fields scalar_defaults
           (DataTypeNumber UInt8) 1 column index_column Hindex Hcolumn).
Defined.

(** ** [arrayElement] on a constant array with a constant index *)

Section ElementConstants.
Import FunctionArrayElement.
Context `{Memory} `{FieldInterface} `{DataTypeInterface}.

Lemma executeImpl_constants result_type rows type arr s index_type index index_size :
  existsb isNull arr = false ->
  field_equal index (FUInt64 0) = false ->
  executeImpl result_type rows (ColumnConst (DataTypeArray type) (FArray arr) s)
    (ColumnConst index_type index index_size)
  = match executeConstConst (Some result_type) rows
            (ColumnConst (DataTypeArray type) (FArray arr) s) index empty with
    | Some res => '(col, _) ← res; Ok col
    | None => Throw ILLEGAL_COLUMN
    end.
Proof.
  intros Hnonull Hnz. unfold executeImpl. cbn [checkAndGetColumnConst_Array].
  rewrite Hnonull. unfold perform_plain. simpl isConst. simpl first_field. cbv iota.
  simpl negb. cbv iota. rewrite Hnz. reflexivity.
Qed.

Lemma not_null_element (arr : Array) k :
  existsb isNull arr = false -> (k < length arr)%nat -> isNull (arr !!! k) = false.
Proof.
  intros Hnonull Hk.
  destruct (isNull (arr !!! k)) eqn:Hnull; [|reflexivity].
  rewrite <- Hnonull. symmetry. apply existsb_exists.
  exists (arr !!! k). split; [|exact Hnull].
  apply list_elem_of_In, list_elem_of_lookup_total_2. exact Hk.
Qed.

(** X14. [arrayElement] on a constant array without NULL elements, of [n]
    elements, with a constant index [k]: the result is a constant over the
    rows of the block; it holds the element [k - 1] of the array for an
    unsigned [k] in [1, n], the element [n + k] for a signed [k] in
    [-n, -1], and the default value of the result type for an unsigned [k]
    above [n] or a signed [k] below [-n]. *)
Theorem arrayElement_constant_array result_type rows type arr s index_type index_size :
  existsb isNull arr = false ->
  Z.of_nat (length arr) < 2 ^ 63 ->
  let n := Z.of_nat (length arr) in
  let run index :=
    executeImpl result_type rows (ColumnConst (DataTypeArray type) (FArray arr) s)
      (ColumnConst index_type index index_size) in
  (forall k, in_range UInt64 k -> field_equal (FUInt64 k) (FUInt64 0) = false ->
     (1 <= k <= n ->
      run (FUInt64 k) = Ok (ColumnConst result_type (arr !!! Z.to_nat (k - 1)) rows))
     /\ (n < k ->
         run (FUInt64 k) = Ok (ColumnConst result_type (getDefault result_type) rows)))
  /\ (forall k, in_range Int64 k -> field_equal (FInt64 k) (FUInt64 0) = false ->
        (- n <= k <= -1 ->
         run (FInt64 k) = Ok (ColumnConst result_type (arr !!! Z.to_nat (n + k)) rows))
        /\ (k < - n ->
            run (FInt64 k) = Ok (ColumnConst result_type (getDefault result_type) rows))).
Proof.
  intros Hnonull Hsmall n run. unfold in_range. simpl.
  split; intros k Hrange Hnz; unfold run;
    rewrite (executeImpl_constants _ _ _ _ _ _ _ _ Hnonull Hnz);
    unfold executeConstConst; cbn [checkAndGetColumnConst_Array];
    fold n; split; intros Hk.
  - simpl. rewrite size_t_small by lia.
    destruct (Z.ltb_spec (k - 1) n); [|lia].
    rewrite not_null_element by (try exact Hnonull; lia). reflexivity.
  - simpl. rewrite size_t_small by lia.
    destruct (Z.ltb_spec (k - 1) n); [lia|]. reflexivity.
  - simpl. rewrite size_t_small by lia.
    destruct (Z.ltb_spec (n + k) n); [|lia].
    rewrite not_null_element by (try exact Hnonull; lia). reflexivity.
  - simpl.
    assert (Hwrap : size_t (n + k) = 2 ^ 64 + (n + k)).
    { unfold size_t, wrap. symmetry. apply (Z.mod_unique_pos _ _ (-1)); lia. }
    rewrite Hwrap. destruct (Z.ltb_spec (2 ^ 64 + (n + k)) n); [lia|]. reflexivity.
Qed.

End ElementConstants.

(** The constant array [5, 6, 7] read at the constant indices 2 and -1. *)
Lemma arrayElement_constant_array_witness :
  let arr := [FUInt64 5; FUInt64 6; FUInt64 7] in
  let run index :=
    @FunctionArrayElement.executeImpl zero_memory scalar_fields scalar_defaults
      (DataTypeNumber UInt8) 4
      (ColumnConst (DataTypeArray (DataTypeNumber UInt8)) (FArray arr) 4)
      (ColumnConst (DataTypeNumber Int8) index 4) in
  (existsb isNull arr = false /\ Z.of_nat (length arr) < 2 ^ 63)
  /\ run (FUInt64 2) = Ok (ColumnConst (DataTypeNumber UInt8) (FUInt64 6) 4)
  /\ run (FInt64 (-1)) = Ok (ColumnConst (DataTypeNumber UInt8) (FUInt64 7) 4).
Proof.
  intros arr run.
  assert (Hnonull : existsb isNull arr = false) by reflexivity.
  assert (Hsmall : Z.of_nat (length arr) < 2 ^ 63) by (simpl; lia).
  split; [split; [exact Hnonull|exact Hsmall]|].
  destruct (@arrayElement_constant_array zero_memory scalar_fields scalar_defaults
              (DataTypeNumber UInt8) 4 (DataTypeNumber UInt8) arr 4
              (DataTypeNumber Int8) 4 Hnonull Hsmall) as [Hunsigned Hsigned].
  split.
  - apply (Hunsigned 2); [unfold in_range; simpl; lia|reflexivity|simpl; lia].
  - apply (Hsigned (-1)); [unfold in_range; simpl; lia|reflexivity|simpl; lia].
Defined.

(** ** [emptyArrayToSingle] applied twice *)

Lemma size_concat_lengths (rows : list (list Z)) :
  size (concat rows) = total (size <$> rows).
Proof.
  induction rows as [|row rows IH]; [reflexivity|].
  rewrite fmap_cons. cbn [concat]. simpl total. rewrite size_app, IH. reflexivity.
Qed.

Lemma offsets_from_ok (ns : list Z) : forall prev,
  Forall (fun n => 0 <= n) ns ->
  offsets_ok prev (offsets_from prev ns) (prev + total ns).
Proof.
  induction ns as [|n ns IH]; intros prev Hns.
  - simpl. lia.
  - apply Forall_cons in Hns as [Hn Hns]. simpl offsets_from. simpl total.
    split; [lia|]. replace (prev + (n + total ns)) with (prev + n + total ns) by lia.
    apply IH. exact Hns.
Qed.

Lemma row_bounds_offsets_from (ns : list Z) : forall prev,
  Forall (fun n => 0 < n) ns ->
  Forall (fun '(p, o) => p < o) (row_bounds prev (offsets_from prev ns)).
Proof.
  induction ns as [|n ns IH]; intros prev Hns; [constructor|].
  apply Forall_cons in Hns as [Hn Hns]. simpl. constructor; [lia|apply IH; exact Hns].
Qed.

(** On an array column without empty rows nothing is replaced. *)
Lemma single_rows_no_empty d offsets data :
  array_ok offsets (size data) ->
  Forall (fun '(p, o) => p < o) (row_bounds 0 offsets) ->
  concat (single_rows d offsets data) = data
  /\ offsets_from 0 (size <$> single_rows d offsets data) = offsets.
Proof.
  intros Hok Hrows.
  assert (Hsame : single_rows d offsets data = array_rows offsets data).
  { rewrite (proj1 (single_rows_bounds d offsets data Hok)), array_rows_slices.
    apply Forall_fmap_ext_1. eapply Forall_impl; [exact Hrows|].
    intros [p o] Hpo. simpl. destruct (Z.eqb_spec o p); [lia|reflexivity]. }
  rewrite Hsame. split.
  - unfold array_rows. rewrite (concat_rows_from data offsets 0) by (try apply Hok; lia).
    reflexivity.
  - rewrite (size_array_rows offsets data Hok). apply offsets_from_bounds.
Qed.

Section SingleTwice.
Import FunctionEmptyArrayToSingleImpl FunctionEmptyArrayToSingle.
Context `{Memory} `{DataTypeInterface}.

Lemma single_executeImpl_number argument_type result_type rows T values offsets :
  array_ok offsets (size values) -> size values + size offsets < 2 ^ 64 ->
  executeImpl argument_type result_type rows (ColumnArray (ColumnVector T values) offsets)
  = Ok (ColumnArray (ColumnVector T (concat (single_rows 0 offsets values)))
          (offsets_from 0 (size <$> single_rows 0 offsets values)))
  /\ forall null_map,
       size null_map = size values ->
       executeImpl argument_type result_type rows
         (ColumnArray (ColumnNullable (ColumnVector T values) null_map) offsets)
       = Ok (ColumnArray
               (ColumnNullable (ColumnVector T (concat (single_rows 0 offsets values)))
                  (concat (single_rows 1 offsets null_map)))
               (offsets_from 0 (size <$> single_rows 0 offsets values))).
Proof.
  intros Hok Hfit. split; [|intros null_map Hlen];
    unfold executeImpl; simpl executeConst; cbv iota; simpl cloneEmpty;
    rewrite executeDispatch_number, number_rows by (auto; discriminate); reflexivity.
Qed.

(** The result of [emptyArrayToSingle] is a well-formed array column
    without empty rows. *)
Lemma single_result_ok d offsets data :
  array_ok offsets (size data) -> size data + size offsets < 2 ^ 64 ->
  let rows := single_rows d offsets data in
  let res_offsets := offsets_from 0 (size <$> rows) in
  array_ok res_offsets (size (concat rows))
  /\ Forall (fun '(p, o) => p < o) (row_bounds 0 res_offsets)
  /\ size res_offsets = size offsets
  /\ size (concat rows) <= size data + size offsets.
Proof.
  intros Hok Hfit rows res_offsets.
  pose proof (proj2 (single_rows_bounds d offsets data Hok)) as Hsizes.
  fold rows in Hsizes.
  assert (Hbounds : Forall (fun b : Z * Z => fst b <= snd b) (row_bounds 0 offsets)).
  { destruct Hok as [_ Hok]. apply offsets_ok_bounds in Hok as [_ Hall].
    eapply Forall_impl; [exact Hall|]. intros [p o]. simpl. lia. }
  assert (Htotal : size (concat rows) <= size data + size offsets).
  { rewrite size_concat_lengths, Hsizes.
    pose proof (total_out_len_bound offsets 0 (size data) (proj2 Hok)). lia. }
  assert (Hpos : Forall (fun n => 0 < n) (size <$> rows)).
  { rewrite Hsizes. apply Forall_fmap. eapply Forall_impl; [exact Hbounds|].
    intros b Hb. simpl. apply out_len_pos. exact Hb. }
  split; [|split; [|split]].
  - split; [lia|]. rewrite size_concat_lengths.
    apply (offsets_from_ok (size <$> rows) 0).
    eapply Forall_impl; [exact Hpos|]. intros n. simpl. lia.
  - apply row_bounds_offsets_from. exact Hpos.
  - unfold res_offsets, size. f_equal.
    rewrite length_offsets_from, length_fmap. unfold rows, single_rows, array_rows.
    rewrite length_fmap, rows_from_bounds, length_fmap, length_row_bounds. reflexivity.
  - exact Htotal.
Qed.

(** X15. [emptyArrayToSingle] on an array column of numbers, with or
    without a null overlay, leaves no empty row behind, so that applying it
    to its own result changes nothing. *)
Theorem emptyArrayToSingle_idempotent argument_type result_type rows T values offsets :
  array_ok offsets (size values) -> size values + 2 * size offsets < 2 ^ 64 ->
  let twice column :=
    executeImpl argument_type result_type rows column
      ≫= executeImpl argument_type result_type rows in
  twice (ColumnArray (ColumnVector T values) offsets)
  = executeImpl argument_type result_type rows (ColumnArray (ColumnVector T values) offsets)
  /\ forall null_map,
       size null_map = size values ->
       twice (ColumnArray (ColumnNullable (ColumnVector T values) null_map) offsets)
       = executeImpl argument_type result_type rows
           (ColumnArray (ColumnNullable (ColumnVector T values) null_map) offsets).
Proof.
  intros Hok Hfit twice. pose proof (size_nonneg offsets) as Hrows.
  destruct (single_executeImpl_number argument_type result_type rows T values offsets Hok
              ltac:(lia)) as [Hplain Hnullable].
  destruct (single_result_ok 0 offsets values Hok ltac:(lia))
    as (Hok' & Hfull & Hsize & Htotal).
  destruct (single_executeImpl_number argument_type result_type rows T
              (concat (single_rows 0 offsets values))
              (offsets_from 0 (size <$> single_rows 0 offsets values)) Hok' ltac:(lia))
    as [Hplain' Hnullable'].
  destruct (single_rows_no_empty 0 _ _ Hok' Hfull) as [Hdata Hoffsets].
  split; [|intros null_map Hlen]; unfold twice.
  - rewrite Hplain. simpl mbind. simpl Result_bind.
    rewrite Hplain', Hdata, Hoffsets. reflexivity.
  - rewrite (Hnullable null_map Hlen). simpl mbind. simpl Result_bind.
    assert (Hok_null : array_ok offsets (size null_map)) by (rewrite Hlen; exact Hok).
    assert (Hsizes : size <$> single_rows 1 offsets null_map
                     = size <$> single_rows 0 offsets values).
    { rewrite (proj2 (single_rows_bounds 1 offsets null_map Hok_null)).
      rewrite (proj2 (single_rows_bounds 0 offsets values Hok)). reflexivity. }
    assert (Hlen' : size (concat (single_rows 1 offsets null_map))
                    = size (concat (single_rows 0 offsets values))).
    { rewrite !size_concat_lengths, Hsizes. reflexivity. }
    rewrite (Hnullable' _ Hlen'), Hdata, Hoffsets.
    destruct (single_result_ok 1 offsets null_map Hok_null ltac:(lia))
      as (Hok_null' & Hfull_null & _ & _).
    rewrite Hsizes in Hok_null', Hfull_null.
    destruct (single_rows_no_empty 1 _ _ Hok_null' Hfull_null) as [Hnull_data _].
    rewrite Hnull_data. reflexivity.
Qed.

End SingleTwice.

(** The rows [], [7, NULL] and []. *)
Lemma emptyArrayToSingle_idempotent_witness :
  let type := DataTypeArray (DataTypeNullable (DataTypeNumber UInt8)) in
  let column := ColumnArray (ColumnNullable (ColumnVector UInt8 [7; 8]) [0; 1]) [0; 2; 2] in
  let run := @FunctionEmptyArrayToSingle.executeImpl zero_memory scalar_defaults type type 3 in
  (array_ok [0; 2; 2] (size [7; 8]) /\ size [7; 8] + 2 * size [0; 2; 2] < 2 ^ 64)
  /\ run column ≫= run = run column.
Proof.
  intros type column run.
  assert (Hok : array_ok [0; 2; 2] (size [7; 8])).
  { unfold array_ok, size. simpl. repeat split; lia. }
  assert (Hfit : size [7; 8] + 2 * size [0; 2; 2] < 2 ^ 64) by (unfold size; simpl; lia).
  split; [split; [exact Hok|exact Hfit]|].
  apply (proj2 (@emptyArrayToSingle_idempotent zero_memory scalar_defaults type type 3
                  UInt8 [7; 8] [0; 2; 2] Hok Hfit) [0; 1] eq_refl).
Defined.

(** ** [arrayElement]: the null map never grows past the rows of the index column *)

Lemma foldiM_app {A S} (f : A -> Z -> S -> Result S) (l1 : list A) : forall i l2 s,
  foldiM i f (l1 ++ l2) s
  = (s' ← foldiM i f l1 s; foldiM (i + Z.of_nat (length l1)) f l2 s').
Proof.
  induction l1 as [|x l1 IH]; intros i l2 s.
  - simpl. rewrite Z.add_0_r. reflexivity.
  - simpl foldiM. destruct (f x i s) as [s'|e]; [|reflexivity].
    simpl. rewrite IH. replace (i + 1 + Z.of_nat (length l1))
      with (i + Z.of_nat (Datatypes.S (length l1))) by lia.
    reflexivity.
Qed.

Lemma tell_full b read :
  active b = true -> sink_size b <= index b -> tell b read = Throw LOGICAL_ERROR.
Proof.
  intros Hactive Hfull. unfold tell, observe, observe_miss, update_from, update.
  rewrite Hactive. destruct (Z.geb_spec (index b) (sink_size b)); [|lia].
  destruct read; reflexivity.
Qed.

Section NumOverflow.
Import ArrayElementNumImpl.
Context `{Memory}.

Lemma num_overflow pick data offsets b :
  active b = true -> index b = 0 -> sink_size b = size (sink_null_map b) ->
  sink_size b < size offsets ->
  for_rangeM 0 (size offsets) (fun i st => num_step pick data (get offsets i) i st)
    (mkLoop (resize_uninit (size offsets) []) b 0)
  = Throw LOGICAL_ERROR.
Proof.
  intros Hactive Hindex Hsink Hshort.
  rewrite (for_rangeM_foldiM (num_step pick data)).
  pose proof (size_nonneg (sink_null_map b)) as Hnonneg.
  set (n := Z.to_nat (sink_size b)).
  rewrite <- (take_drop n offsets) at 1.
  assert (Hn : length (take n offsets) = n).
  { rewrite length_take. unfold size in Hshort. lia. }
  rewrite foldiM_app.
  pose proof (num_loop pick data (take n offsets) [] (resize_uninit (size offsets) []) b 0)
    as Hloop.
  change (size []) with 0 in Hloop. simpl app in Hloop.
  rewrite Hloop; clear Hloop.
  - simpl mbind. simpl Result_bind.
    destruct (drop n offsets) as [|off rest] eqn:Hdrop.
    { apply (f_equal length) in Hdrop. rewrite length_drop in Hdrop.
      unfold size in Hshort. simpl in Hdrop. lia. }
    assert (Hstep : forall i res prev,
              num_step pick data off i
                (mkLoop res (marked b (picks pick 0 0 (take n offsets))) prev)
              = Throw LOGICAL_ERROR).
    { intros i res prev. unfold num_step. cbn [builder current_offset result].
      rewrite tell_full; [reflexivity| |].
      - unfold marked. rewrite Hactive. exact Hactive.
      - unfold marked. rewrite Hactive. cbn [sink_size index].
        rewrite length_picks, Hn. lia. }
    simpl foldiM. rewrite Hstep. reflexivity.
  - rewrite length_resize_uninit, Hn. unfold size in *. lia.
  - intros _. unfold size in *. rewrite Hn. repeat split; lia.
Qed.

Lemma vector_overflow TIndex data offsets indices b :
  active b = true -> index b = 0 -> sink_size b = size (sink_null_map b) ->
  sink_size b < size offsets ->
  vector TIndex data offsets indices [] b = Throw LOGICAL_ERROR.
Proof.
  intros Hactive Hindex Hsink Hshort. unfold vector.
  rewrite (for_rangeM_ext _ _ _
             (fun i st => num_step (pick_vector TIndex indices) data (get offsets i) i st)).
  - rewrite num_overflow by assumption. reflexivity.
  - intros i st. unfold num_step, pick_vector.
    destruct (access TIndex (get indices i) (size_t (get offsets i - current_offset st)));
      reflexivity.
Qed.

End NumOverflow.

Section ElementOverflow.
Import FunctionArrayElement.
Context `{Memory} `{FieldInterface} `{DataTypeInterface}.


End ElementOverflow.


(** ** [arrayElement] on elements taken through the column interface *)

Lemma index_reads_selected offsets n index_column `{FieldInterface} :
  offsets_ok 0 offsets n -> n < 2 ^ 63 ->
  index_argument index_column (size offsets) ->
  forall i p o,
    row_bounds 0 offsets !! i = Some (p, o) ->
    let k := index_value index_column (Z.of_nat i) in
    (position k (o - p) = None -> index_reads index_column offsets !! i = Some None)
    /\ (negatable_indices index_column ->
        index_reads index_column offsets !! i
        = Some (selected index_column (Z.of_nat i) p o)).
Proof.
  intros Hok Hsmall Hindex.
  assert (Hrow : forall i p o, row_bounds 0 offsets !! i = Some (p, o) ->
                               0 <= p <= o /\ o < 2 ^ 63).
  { intros i p o Hi. pose proof (row_bounds_lookup _ _ _ _ _ _ Hok Hi). lia. }
  destruct index_column as [TIndex indices| | | | | |type [|v|v| | | |] s| |];
    try contradiction; simpl in Hindex; unfold index_reads.
  - destruct Hindex as (Hint & Hrange & Hlen).
    intros i p o Hi. destruct (Hrow i p o Hi) as [Hp Ho].
    assert (Hlt : (i < length indices)%nat).
    { apply lookup_lt_Some in Hi. rewrite length_row_bounds in Hi.
      unfold size in Hlen. lia. }
    assert (Hin : in_range TIndex (get indices (Z.of_nat i))).
    { rewrite Forall_lookup in Hrange. unfold get. rewrite Nat2Z.id.
      apply (Hrange i). apply list_lookup_lookup_total_lt. exact Hlt. }
    rewrite (picks_lookup _ _ _ _ _ _ _ Hi), Z.add_0_l. simpl index_value.
    unfold selected. simpl index_value. split.
    + intros Hnone. rewrite pick_vector_source by auto.
      unfold source_index. rewrite Hnone. reflexivity.
    + intros Hneg. simpl in Hneg. rewrite pick_vector_source; auto.
      left. rewrite Forall_lookup in Hneg. unfold get. rewrite Nat2Z.id.
      apply (Hneg i). apply list_lookup_lookup_total_lt. exact Hlt.
  - destruct Hindex as (Hrange & Hnz).
    intros i p o Hi. destruct (Hrow i p o Hi) as [Hp Ho].
    rewrite (picks_lookup _ _ _ _ _ _ _ Hi), pick_const_unsigned by auto.
    unfold selected. simpl index_value. split; [|reflexivity].
    intros Hnone. unfold source_index. rewrite Hnone. reflexivity.
  - destruct Hindex as (Hrange & Hnz).
    intros i p o Hi. destruct (Hrow i p o Hi) as [Hp Ho].
    rewrite (picks_lookup _ _ _ _ _ _ _ Hi), pick_const_signed by auto.
    unfold selected. simpl index_value. split; [|reflexivity].
    intros Hnone. unfold source_index. rewrite Hnone.
    destruct (0 <=? v); reflexivity.
Qed.

Section GenericLoops.
Import ArrayElementGenericImpl.
Context `{Memory}.

Lemma generic_loop pick offsets : forall i ops b prev,
  roomy b (size offsets) ->
  foldiM i (generic_step pick) offsets (mkLoop ops b prev)
  = Ok (mkLoop (ops ++ (call_of <$> picks pick i prev offsets))
               (marked b (picks pick i prev offsets))
               (List.last offsets prev)).
Proof.
  induction offsets as [|off rest IH]; intros i ops b prev Hroom.
  - simpl. rewrite app_nil_r, marked_nil by exact Hroom. reflexivity.
  - assert (Hroom1 : roomy b 1).
    { intros Hactive. destruct (Hroom Hactive) as (? & ? & ?).
      unfold size in *. simpl length in *. lia. }
    assert (Hstep : generic_step pick off i (mkLoop ops b prev)
                    = Ok (mkLoop (ops ++ [call_of (pick i prev off)])
                            (marked b [pick i prev off]) off)).
    { unfold generic_step. cbn [builder result current_offset].
      rewrite tell_marked by exact Hroom1. reflexivity. }
    simpl foldiM. rewrite Hstep. simpl mbind. simpl Result_bind.
    rewrite IH.
    + rewrite last_cons_default. simpl picks. rewrite fmap_cons.
      rewrite (marked_app b [pick i prev off]).
      * rewrite <- app_assoc. reflexivity.
      * simpl length. rewrite length_picks.
        intros Hactive. destruct (Hroom Hactive) as (? & ? & ?).
        unfold size in *. simpl length in *. repeat split; lia.
    + apply roomy_marked; [apply size_nonneg|].
      intros Hactive. destruct (Hroom Hactive) as (? & ? & ?).
      unfold size in *. simpl length in *. repeat split; lia.
Qed.

Lemma generic_vector_rows TIndex offsets indices b :
  roomy b (size offsets) ->
  vector TIndex offsets indices [] b
  = Ok (call_of <$> picks (pick_vector TIndex indices) 0 0 offsets,
        marked b (picks (pick_vector TIndex indices) 0 0 offsets)).
Proof.
  intros Hroom. unfold vector.
  rewrite (for_rangeM_ext _ _ _
             (fun i st => generic_step (pick_vector TIndex indices) (get offsets i) i st)).
  - rewrite (for_rangeM_foldiM (generic_step (pick_vector TIndex indices))).
    rewrite generic_loop by exact Hroom. reflexivity.
  - intros i st. unfold generic_step, pick_vector, tell.
    destruct (access TIndex (get indices i) (size_t (get offsets i - current_offset st)));
      reflexivity.
Qed.

Lemma generic_vectorConst_rows negative offsets index' b :
  roomy b (size offsets) ->
  vectorConst negative offsets index' [] b
  = Ok (call_of <$> picks (pick_const negative index') 0 0 offsets,
        marked b (picks (pick_const negative index') 0 0 offsets)).
Proof.
  intros Hroom. unfold vectorConst.
  rewrite (for_rangeM_ext _ _ _
             (fun i st => generic_step (pick_const negative index') (get offsets i) i st)).
  - rewrite (for_rangeM_foldiM (generic_step (pick_const negative index'))).
    rewrite generic_loop by exact Hroom. reflexivity.
  - intros i st. unfold generic_step, pick_const, tell.
    destruct (index' <? size_t (get offsets i - current_offset st)); reflexivity.
Qed.

End GenericLoops.

Section GenericColumns.
Import FunctionArrayElement.
Context `{Memory} `{FieldInterface} `{DataTypeInterface}.

Lemma perform_plain_generic result_type rows data offsets TIndex indices b :
  generic_elements data = true -> is_float TIndex = false ->
  perform_plain result_type rows (ColumnArray data offsets) (ColumnVector TIndex indices) b
  = ('(ops, b') ← ArrayElementGenericImpl.vector TIndex offsets indices []
                    (if active b then initSink b (size indices) else b);
     Ok (ColumnCloneEmpty data ops, b')).
Proof.
  intros Hdata Hint.
  destruct data; try discriminate Hdata; destruct TIndex; try discriminate Hint;
    reflexivity.
Qed.

Lemma perform_plain_generic_const result_type rows data offsets type index s b :
  generic_elements data = true ->
  field_equal index (FUInt64 0) = false ->
  perform_plain result_type rows (ColumnArray data offsets) (ColumnConst type index s) b
  = ('(ops, b') ←
       constant_index index
         (fun i => ArrayElementGenericImpl.vectorConst false offsets i []
                     (if active b then initSink b rows else b))
         (fun i => ArrayElementGenericImpl.vectorConst true offsets i []
                     (if active b then initSink b rows else b));
     Ok (ColumnCloneEmpty data ops, b')).
Proof.
  intros Hdata Hnz. unfold perform_plain. simpl isConst. simpl first_field. cbv iota.
  simpl negb. cbv iota. rewrite Hnz. destruct data; try discriminate Hdata; reflexivity.
Qed.

Lemma generic_executeImpl result_type data offsets index_column :
  generic_elements data = true ->
  index_argument index_column (size offsets) ->
  let reads := index_reads index_column offsets in
  executeImpl result_type (size offsets) (ColumnArray data offsets) index_column
  = Ok (ColumnCloneEmpty data (call_of <$> reads))
  /\ forall null_map,
       executeImpl result_type (size offsets)
         (ColumnArray (ColumnNullable data null_map) offsets) index_column
       = Ok (ColumnNullable (ColumnCloneEmpty data (call_of <$> reads))
               (null_mark null_map <$> reads)).
Proof.
  intros Hdata Hindex reads.
  assert (Hplain : forall b, active b = false -> roomy b (size offsets)).
  { intros b Hb Hactive. rewrite Hb in Hactive. discriminate Hactive. }
  assert (Hroom : forall null_map,
            roomy (initSink (initSource_nullable empty null_map) (size offsets))
              (size offsets)).
  { intros null_map _. simpl. unfold size. rewrite length_alloc. lia. }
  assert (Htuple : forall section, executeTuple section data = None).
  { intros section. destruct data; try discriminate Hdata; reflexivity. }
  assert (Harray : forall rt,
            executeImpl_array rt (size offsets) offsets index_column data
            = ('(col, _) ← perform (executeImpl_array None (size offsets) offsets index_column)
                             rt (size offsets) data offsets index_column empty;
               Ok col)).
  { intros rt. destruct data; try discriminate Hdata; reflexivity. }
  destruct index_column as [TIndex indices| | | | | |type [|v|v| | | |] s| |];
    try contradiction; simpl in Hindex; subst reads; unfold index_reads.
  - destruct Hindex as (Hint & _ & Hlen). split; [|intros null_map].
    + unfold executeImpl. rewrite Harray. unfold perform. rewrite Htuple.
      rewrite perform_plain_generic by assumption. simpl active. cbv iota.
      rewrite generic_vector_rows by (apply Hplain; reflexivity). reflexivity.
    + unfold executeImpl. simpl executeImpl_array. unfold perform. rewrite Htuple.
      rewrite perform_plain_generic by assumption.
      change (active (initSource_nullable empty null_map)) with true. cbv iota.
      rewrite Hlen, generic_vector_rows by apply Hroom.
      simpl mbind. simpl Result_bind. rewrite length_picks.
      rewrite drop_ge, app_nil_r by (rewrite length_alloc; unfold size; lia).
      reflexivity.
  - destruct Hindex as (_ & Hnz). split; [|intros null_map].
    + unfold executeImpl. rewrite Harray. unfold perform. rewrite Htuple.
      rewrite perform_plain_generic_const by assumption. simpl active. cbv iota.
      simpl constant_index.
      rewrite generic_vectorConst_rows by (apply Hplain; reflexivity). reflexivity.
    + unfold executeImpl. simpl executeImpl_array. unfold perform. rewrite Htuple.
      rewrite perform_plain_generic_const by assumption.
      change (active (initSource_nullable empty null_map)) with true. cbv iota.
      simpl constant_index. rewrite generic_vectorConst_rows by apply Hroom.
      simpl mbind. simpl Result_bind. rewrite length_picks.
      rewrite drop_ge, app_nil_r by (rewrite length_alloc; unfold size; lia).
      reflexivity.
  - destruct Hindex as (_ & Hnz). split; [|intros null_map].
    + unfold executeImpl. rewrite Harray. unfold perform. rewrite Htuple.
      rewrite perform_plain_generic_const by assumption. simpl active. cbv iota.
      simpl constant_index.
      rewrite generic_vectorConst_rows by (apply Hplain; reflexivity). reflexivity.
    + unfold executeImpl. simpl executeImpl_array. unfold perform. rewrite Htuple.
      rewrite perform_plain_generic_const by assumption.
      change (active (initSource_nullable empty null_map)) with true. cbv iota.
      simpl constant_index. rewrite generic_vectorConst_rows by apply Hroom.
      simpl mbind. simpl Result_bind. rewrite length_picks.
      rewrite drop_ge, app_nil_r by (rewrite length_alloc; unfold size; lia).
      reflexivity.
Qed.

(** X17. [arrayElement] on an array column whose elements are taken through
    the column interface (fixed strings, arrays, ...), with an index per row
    or a constant index: for every row the function makes one call on the
    result column, [insertFrom(data, j)] with [j] the flat index of the
    element the index selects, at [k - 1] in the row for [k] in [1, len]
    and at [len + k] for [k] in [-len, -1], or [insertDefault()] for any
    other [k]; under a null overlay the null mark of the row is that of the
    element [j], and 0 after [insertDefault()]. *)
Theorem arrayElement_generic_calls result_type data offsets index_column n :
  generic_elements data = true ->
  array_ok offsets n -> n < 2 ^ 63 ->
  index_argument index_column (size offsets) ->
  negatable_indices index_column ->
  exists calls,
    executeImpl result_type (size offsets) (ColumnArray data offsets) index_column
    = Ok (ColumnCloneEmpty data calls)
    /\ forall null_map, exists marks,
         executeImpl result_type (size offsets)
           (ColumnArray (ColumnNullable data null_map) offsets) index_column
         = Ok (ColumnNullable (ColumnCloneEmpty data calls) marks)
         /\ forall i p o,
              row_bounds 0 offsets !! i = Some (p, o) ->
              let k := index_value index_column (Z.of_nat i) in
              (1 <= k <= o - p ->
               (forall type v s, index_column <> ColumnConst type (FInt64 v) s) ->
               calls !! i = Some (InsertFrom (p + (k - 1)))
               /\ marks !! i = Some (if isNullAt null_map (p + (k - 1)) then 1 else 0))
              /\ (- (o - p) <= k <= -1 ->
                  calls !! i = Some (InsertFrom (o + k))
                  /\ marks !! i = Some (if isNullAt null_map (o + k) then 1 else 0))
              /\ (~ (1 <= k <= o - p) -> ~ (- (o - p) <= k <= -1) ->
                  calls !! i = Some InsertDefault /\ marks !! i = Some 0).
Proof.
  intros Hdata [_ Hok] Hsmall Hindex Hneg.
  destruct (generic_executeImpl result_type data offsets index_column Hdata Hindex)
    as [Hplain Hnullable].
  pose proof (index_reads_selected offsets n index_column Hok Hsmall Hindex) as Hreads.
  exists (call_of <$> index_reads index_column offsets). split; [exact Hplain|].
  intros null_map. exists (null_mark null_map <$> index_reads index_column offsets).
  split; [apply Hnullable|].
  intros i p o Hi k. destruct (Hreads i p o Hi) as [Hmiss Hsel]. specialize (Hsel Hneg).
  rewrite !list_lookup_fmap. split; [|split].
  - intros Hk Hunsigned. rewrite Hsel.
    assert (Hselected : selected index_column (Z.of_nat i) p o = Some (p + (k - 1))).
    { unfold selected.
      destruct index_column as [| | | | | |type [|v|v| | | |] s| |];
        try (exfalso; apply (Hunsigned type v s); reflexivity);
        fold k; unfold source_index, position; rewrite decide_True by exact Hk;
        reflexivity. }
    rewrite Hselected. split; reflexivity.
  - intros Hk. rewrite Hsel.
    assert (Hselected : selected index_column (Z.of_nat i) p o = Some (o + k)).
    { assert (Hsource : source_index k p o = Some (o + k)).
      { unfold source_index, position. rewrite decide_False by lia.
        rewrite decide_True by exact Hk. simpl. f_equal. lia. }
      unfold selected.
      destruct index_column as [| | | | | |type [|v|v| | | |] s| |]; try exact Hsource.
      simpl in k. unfold k in Hk. destruct (Z.leb_spec 0 v); [lia|exact Hsource]. }
    rewrite Hselected. split; reflexivity.
  - intros Hstart Hend. rewrite (Hmiss (position_outside _ _ Hstart Hend)).
    split; reflexivity.
Qed.

End GenericColumns.

(** An array column of fixed strings of two bytes, with the rows
    ['ab', 'cd'] and ['ef'], read at the indices 2 and 5. *)
Lemma arrayElement_generic_calls_witness :
  let data := ColumnFixedString 2 [97; 98; 99; 100; 101; 102] in
  let offsets := [2; 3] in
  let index_column := ColumnVector UInt8 [2; 5] in
  (generic_elements data = true /\ array_ok offsets 3 /\ 3 < 2 ^ 63
   /\ @index_argument scalar_fields index_column (size offsets)
   /\ negatable_indices index_column)
  /\ exists calls,
       @FunctionArrayElement.executeImpl zero_memory scalar_fields scalar_defaults
         (DataTypeFixedString 2) (size offsets) (ColumnArray data offsets) index_column
       = Ok (ColumnCloneEmpty data calls).
Proof.
  intros data offsets index_column.
  assert (Hok : array_ok offsets 3) by (unfold array_ok; simpl; repeat split; lia).
  assert (Hsmall : 3 < 2 ^ 63) by lia.
  assert (Hindex : @index_argument scalar_fields index_column (size offsets)).
  { simpl. repeat split. repeat constructor; unfold in_range; simpl; lia. }
  assert (Hneg : negatable_indices index_column) by (repeat constructor).
  split; [auto 10|].
  destruct (@arrayElement_generic_calls zero_memory scalar_fields scalar_defaults
              (DataTypeFixedString 2) data offsets index_column 3
              eq_refl Hok Hsmall Hindex Hneg) as (calls & Hrun & _).
  exists calls. exact Hrun.
Defined.

(** ** [arrayUniq] and [arrayEnumerateUniq] on columns of strings *)

Section StringKeys.
Context `{FieldInterface} `{Memory}.

(** X18. [arrayUniq] on an array column of strings, with or without a null
    overlay, gives for every row the number of distinct strings among its
    elements that are not null, plus one if the row holds a null. *)
Theorem arrayUniq_strings chars string_offsets offsets :
  array_ok offsets (size string_offsets) ->
  Forall (fun '(p, o) => o - p < 2 ^ 32) (row_bounds 0 offsets) ->
  FunctionArrayUniq.executeImpl (ColumnArray (ColumnString chars string_offsets) offsets)
  = Ok (ColumnVector UInt32
          (distinct_count <$> string_rows chars string_offsets None offsets))
  /\ forall null_map,
       FunctionArrayUniq.executeImpl
         (ColumnArray (ColumnNullable (ColumnString chars string_offsets) null_map) offsets)
       = Ok (ColumnVector UInt32
               (distinct_count <$> string_rows chars string_offsets (Some null_map) offsets)).
Proof.
  intros [_ Hok] Hshort.
  pose proof (offsets_ok_bounds _ _ _ Hok) as [_ Hbounds].
  assert (Hcount : forall null_map,
            FunctionArrayUniq.count_rows (getDataAt chars string_offsets) offsets null_map
              (resize_uninit (size offsets) [])
            = distinct_count <$> string_rows chars string_offsets null_map offsets).
  { intros null_map.
    rewrite count_rows_exact by (rewrite length_resize_uninit; unfold size; lia).
    unfold string_rows. rewrite <- list_fmap_compose. apply Forall_fmap_ext_1.
    eapply Forall_impl; [apply Forall_and; split; [exact Hshort|exact Hbounds]|].
    intros [p o] [Hs Hb]. simpl.
    pose proof (distinct_count_bound (elements (getDataAt chars string_offsets) null_map p o)).
    pose proof (length_elements (getDataAt chars string_offsets) null_map p o ltac:(lia)).
    unfold wrap. apply Z.mod_small. lia. }
  split; [|intros null_map]; unfold FunctionArrayUniq.executeImpl;
    cbn [FunctionArrayUniq.executeConst checkAndGetColumnConst_Array];
    cbn [FunctionArrayUniq.executeNumber FunctionArrayUniq.executeString];
    rewrite Hcount; reflexivity.
Qed.

(** X19. [arrayEnumerateUniq] on an array column of strings, with or without
    a null overlay, keeps the offsets and gives every element the number of
    occurrences of its string in its row up to and including the element;
    the nulls of a row are counted together, apart from the strings. *)
Theorem arrayEnumerateUniq_strings result_type chars string_offsets offsets :
  array_ok offsets (size string_offsets) ->
  Forall (fun '(p, o) => o - p < 2 ^ 32) (row_bounds 0 offsets) ->
  (exists res,
     FunctionArrayEnumerateUniq.executeImpl result_type
       (ColumnArray (ColumnString chars string_offsets) offsets)
     = Ok (ColumnArray (ColumnVector UInt32 res) offsets)
     /\ array_rows offsets res = ranks <$> string_rows chars string_offsets None offsets)
  /\ forall null_map, exists res,
       FunctionArrayEnumerateUniq.executeImpl result_type
         (ColumnArray (ColumnNullable (ColumnString chars string_offsets) null_map) offsets)
       = Ok (ColumnArray (ColumnVector UInt32 res) offsets)
       /\ array_rows offsets res
          = ranks <$> string_rows chars string_offsets (Some null_map) offsets.
Proof.
  intros [_ Hok] Hshort.
  pose proof (offsets_ok_bounds _ _ _ Hok) as [_ Hbounds].
  assert (Hrank : forall null_map,
            FunctionArrayEnumerateUniq.rank_rows (getDataAt chars string_offsets) offsets
              null_map
              (if decide (offsets = []) then []
               else resize_uninit (get offsets (size offsets - 1)) [])
            = concat (ranks <$> string_rows chars string_offsets null_map offsets)).
  { intros null_map. unfold FunctionArrayEnumerateUniq.rank_rows.
    rewrite (for_range_foldi
               (fun off (_ : Z) st =>
                  (FunctionArrayEnumerateUniq.rank_row (getDataAt chars string_offsets)
                     null_map (snd st) off (fst st), off))).
    pose proof (rank_rows_foldi (getDataAt chars string_offsets) null_map offsets [])
      as Hrows.
    change (size []) with 0 in Hrows. simpl app in Hrows.
    erewrite Hrows; [|exact Hok| |exact Hshort].
    - simpl. unfold string_rows. rewrite <- list_fmap_compose.
      f_equal. apply list_fmap_ext. intros _ [p o] _. reflexivity.
    - case_decide as Hnil.
      + subst offsets. simpl in Hok. rewrite <- Hok. reflexivity.
      + unfold size at 1. rewrite length_resize_uninit.
        rewrite (offsets_ok_last _ _ _ Hok Hnil).
        pose proof (size_nonneg string_offsets). lia. }
  assert (Hrows : forall null_map,
            array_rows offsets
              (concat (ranks <$> string_rows chars string_offsets null_map offsets))
            = ranks <$> string_rows chars string_offsets null_map offsets).
  { intros null_map. rewrite <- (offsets_from_bounds offsets 0) at 1.
    replace ((fun '(p, o) => o - p) <$> row_bounds 0 offsets)
      with (size <$> (ranks <$> string_rows chars string_offsets null_map offsets)).
    - apply array_rows_concat.
    - unfold string_rows. rewrite <- !list_fmap_compose. apply Forall_fmap_ext_1.
      eapply Forall_impl; [exact Hbounds|]. intros [p o] Hb. simpl.
      unfold size, ranks. rewrite length_ranks_after. apply length_elements. lia. }
  split; [|intros null_map]; eexists; (split; [|apply Hrows]);
    unfold FunctionArrayEnumerateUniq.executeImpl;
    cbn [FunctionArrayEnumerateUniq.executeConst checkAndGetColumnConst_Array];
    cbn [FunctionArrayEnumerateUniq.executeNumber FunctionArrayEnumerateUniq.executeString];
    rewrite Hrank; reflexivity.
Qed.

End StringKeys.

(** The rows ['a', 'b', 'a'] and ['b']. *)
Lemma arrayUniq_strings_witness :
  let chars := [97; 0; 98; 0; 97; 0; 98; 0] in
  let string_offsets := [2; 4; 6; 8] in
  (array_ok [3; 4] (size string_offsets)
   /\ Forall (fun '(p, o) => o - p < 2 ^ 32) (row_bounds 0 [3; 4]))
  /\ @FunctionArrayUniq.executeImpl scalar_fields zero_memory
       (ColumnArray (ColumnString chars string_offsets) [3; 4])
     = Ok (ColumnVector UInt32 [2; 1]).
Proof.
  intros chars string_offsets.
  assert (Hok : array_ok [3; 4] (size string_offsets)).
  { unfold array_ok, size. simpl. repeat split; lia. }
  assert (Hshort : Forall (fun '(p, o) => o - p < 2 ^ 32) (row_bounds 0 [3; 4])).
  { repeat constructor. }
  split; [auto|].
  rewrite (proj1 (@arrayUniq_strings scalar_fields zero_memory chars string_offsets [3; 4]
                    Hok Hshort)).
  reflexivity.
Defined.

(** The rows ['a', 'b', 'a'] and ['b']. *)
Lemma arrayEnumerateUniq_strings_witness :
  let chars := [97; 0; 98; 0; 97; 0; 98; 0] in
  let string_offsets := [2; 4; 6; 8] in
  (array_ok [3; 4] (size string_offsets)
   /\ Forall (fun '(p, o) => o - p < 2 ^ 32) (row_bounds 0 [3; 4]))
  /\ exists res,
       @FunctionArrayEnumerateUniq.executeImpl scalar_fields zero_memory
         (DataTypeArray (DataTypeNumber UInt32))
         (ColumnArray (ColumnString chars string_offsets) [3; 4])
       = Ok (ColumnArray (ColumnVector UInt32 res) [3; 4])
       /\ array_rows [3; 4] res = [[1; 1; 2]; [1]].
Proof.
  intros chars string_offsets.
  assert (Hok : array_ok [3; 4] (size string_offsets)).
  { unfold array_ok, size. simpl. repeat split; lia. }
  assert (Hshort : Forall (fun '(p, o) => o - p < 2 ^ 32) (row_bounds 0 [3; 4])).
  { repeat constructor. }
  split; [auto|].
  apply (proj1 (@arrayEnumerateUniq_strings scalar_fields zero_memory
                  (DataTypeArray (DataTypeNumber UInt32)) chars string_offsets [3; 4]
                  Hok Hshort)).
Defined.

(** ** [arrayElement] on arrays of tuples *)

Lemma for_each_fmap {A B C} (f : B -> Result C) (g : A -> B) (h : A -> C) l :
  (forall x, x ∈ l -> f (g x) = Ok (h x)) ->
  FunctionArrayElement.for_each f (g <$> l) = Ok (h <$> l).
Proof.
  induction l as [|x l IH]; intros Hfg; [reflexivity|].
  rewrite !fmap_cons. cbn [FunctionArrayElement.for_each].
  rewrite (Hfg x) by left. simpl.
  change ((fix go (l0 : list B) : Result (list C) :=
             match l0 with
             | [] => Ok []
             | x0 :: l' => y ← f x0; ys ← go l'; Ok (y :: ys)
             end) (g <$> l))
    with (FunctionArrayElement.for_each f (g <$> l)).
  rewrite IH; [reflexivity|]. intros y Hy. apply Hfg. right. exact Hy.
Qed.

Section ElementTuples.
Import FunctionArrayElement.
Context `{Memory} `{FieldInterface} `{DataTypeInterface}.

(** A section of numbers without a null overlay: the rows of the block and
    the type of the result slot are not read. *)
Lemma section_number_reads result_type rows T data offsets index_column :
  index_argument index_column (size offsets) ->
  executeImpl_array result_type rows offsets index_column (ColumnVector T data)
  = Ok (ColumnVector T (value data <$> index_reads index_column offsets)).
Proof.
  intros Hindex.
  destruct index_column as [TIndex indices| | | | | |type [|v|v| | | |] s| |];
    try contradiction; simpl in Hindex;
    simpl executeImpl_array; unfold perform; simpl executeTuple; cbv iota.
  - destruct Hindex as (Hint & _ & _).
    rewrite perform_plain_number by exact Hint. simpl active. cbv iota.
    rewrite vector_rows by (intros Hactive; discriminate Hactive). reflexivity.
  - destruct Hindex as (_ & Hnz).
    rewrite perform_plain_number_const by exact Hnz. simpl.
    rewrite vectorConst_rows by (intros Hactive; discriminate Hactive). reflexivity.
  - destruct Hindex as (_ & Hnz).
    rewrite perform_plain_number_const by exact Hnz. simpl.
    rewrite vectorConst_rows by (intros Hactive; discriminate Hactive). reflexivity.
Qed.

(** X20. [arrayElement] on an array column of tuples of numbers selects the
    same element of a row in every section of the tuple: the result is the
    tuple of the columns that hold, for every row, the number of the section
    at the source index the index selects in that row (the default 0 when it
    selects none). A constant index that is held as a signed [Field] counts
    from the end only. *)
Theorem arrayElement_tuple_of_numbers result_type rows (sections : list (NumType * list Z))
    offsets n index_column :
  array_ok offsets n -> n < 2 ^ 63 ->
  Forall (fun section => size (snd section) = n) sections ->
  index_argument index_column (size offsets) -> negatable_indices index_column ->
  exists reads,
    executeImpl result_type rows
      (ColumnArray
         (ColumnTuple ((fun section => ColumnVector (fst section) (snd section)) <$> sections))
         offsets)
      index_column
    = Ok (ColumnTuple
            ((fun section => ColumnVector (fst section) (value (snd section) <$> reads))
               <$> sections))
    /\ length reads = length offsets
    /\ forall i p o,
         row_bounds 0 offsets !! i = Some (p, o) ->
         reads !! i = Some (selected index_column (Z.of_nat i) p o).
Proof.
  intros [_ Hok] Hsmall Hsections Hindex Hneg.
  exists (index_reads index_column offsets). split; [|split].
  - unfold executeImpl. simpl executeImpl_array. unfold perform.
    simpl executeTuple. cbv iota.
    rewrite (for_each_fmap _ _
               (fun section : NumType * list Z =>
                  ColumnVector (fst section)
                    (value (snd section) <$> index_reads index_column offsets))).
    + reflexivity.
    + intros section _. apply section_number_reads. exact Hindex.
  - destruct index_column as [TIndex indices| | | | | |type [|v|v| | | |] s| |];
      try contradiction; simpl; apply length_picks.
  - intros i p o Hi.
    exact (proj2 (index_reads_selected offsets n index_column Hok Hsmall Hindex i p o Hi)
             Hneg).
Qed.

End ElementTuples.

(** The rows [(1, 10), (2, 20)] and [(3, 30)] read at the indices 2 and -1. *)
Lemma arrayElement_tuple_of_numbers_witness :
  let sections := [(UInt8, [1; 2; 3]); (UInt16, [10; 20; 30])] in
  let offsets := [2; 3] in
  let index_column := ColumnVector Int8 [2; -1] in
  (array_ok offsets 3 /\ 3 < 2 ^ 63
   /\ Forall (fun section : NumType * list Z => size (snd section) = 3) sections
   /\ @index_argument scalar_fields index_column (size offsets)
   /\ negatable_indices index_column)
  /\ @FunctionArrayElement.executeImpl zero_memory scalar_fields scalar_defaults
       (DataTypeTuple [DataTypeNumber UInt8; DataTypeNumber UInt16]) 2
       (ColumnArray (ColumnTuple [ColumnVector UInt8 [1; 2; 3]; ColumnVector UInt16 [10; 20; 30]])
          offsets)
       index_column
     = Ok (ColumnTuple [ColumnVector UInt8 [2; 3]; ColumnVector UInt16 [20; 30]])
  /\ exists reads,
       @FunctionArrayElement.executeImpl zero_memory scalar_fields scalar_defaults
         (DataTypeTuple [DataTypeNumber UInt8; DataTypeNumber UInt16]) 2
         (ColumnArray
            (ColumnTuple
               ((fun section : NumType * list Z => ColumnVector (fst section) (snd section))
                  <$> sections))
            offsets)
         index_column
       = Ok (ColumnTuple
               ((fun section : NumType * list Z =>
                   ColumnVector (fst section) (value (snd section) <$> reads))
                  <$> sections))
       /\ reads !! 1%nat = Some (Some 2).
Proof.
  intros sections offsets index_column.
  assert (Hok : array_ok offsets 3) by (unfold array_ok; simpl; repeat split; lia).
  assert (Hsmall : 3 < 2 ^ 63) by lia.
  assert (Hsections : Forall (fun section : NumType * list Z => size (snd section) = 3)
                        sections) by (repeat constructor).
  assert (Hindex : @index_argument scalar_fields index_column (size offsets)).
  { simpl. repeat split. repeat constructor; unfold in_range; simpl; lia. }
  assert (Hneg : negatable_indices index_column) by (repeat constructor).
  split; [auto 10|]. split; [reflexivity|].
  destruct (@arrayElement_tuple_of_numbers zero_memory scalar_fields scalar_defaults
              (DataTypeTuple [DataTypeNumber UInt8; DataTypeNumber UInt16]) 2
              sections offsets 3 index_column Hok Hsmall Hsections Hindex Hneg)
    as (reads & Hrun & _ & Hreads).
  exists reads. split; [exact Hrun|].
  exact (Hreads 1%nat 2 3 eq_refl).
Defined.

(** ** [arrayEnumerateUniq] on a constant array *)

Section EnumerateConstants.
Import FunctionArrayEnumerateUniq.
Context `{FieldInterface}.

Lemma map_increment_count (all : list Field) k : forall entries,
  totally_ordered all -> k ∈ all ->
  Forall (fun e => fst e ∈ all) entries ->
  0 <= count_in entries k -> count_in entries k + 1 < 2 ^ 32 ->
  fst (map_increment k entries) = count_in entries k + 1
  /\ Forall (fun e => fst e ∈ all) (snd (map_increment k entries))
  /\ forall x, count_in (snd (map_increment k entries)) x
               = count_in entries x + (if decide (x = k) then 1 else 0).
Proof.
  induction entries as [|[k' c] rest IH]; intros Hord Hk Hkeys Hlo Hhi.
  - simpl. split; [reflexivity|]. split; [repeat constructor; exact Hk|].
    intros x. destruct (decide (k = x)), (decide (x = k)); congruence || lia.
  - apply Forall_cons in Hkeys as [Hk' Hkeys]. simpl in Hk'. simpl in Hlo, Hhi.
    cbn [map_increment].
    destruct (negb (field_less k k') && negb (field_less k' k)) eqn:Hequiv.
    + apply Hord in Hequiv; [|exact Hk|exact Hk']. subst k'.
      rewrite decide_True in Hlo, Hhi by reflexivity.
      assert (Hwrap : wrap 32 (c + 1) = c + 1) by (unfold wrap; apply Z.mod_small; lia).
      cbn [fst snd count_in]. rewrite Hwrap, decide_True by reflexivity.
      split; [reflexivity|]. split; [constructor; [exact Hk|exact Hkeys]|].
      intros x. destruct (decide (k = x)), (decide (x = k)); congruence || lia.
    + assert (Hne : k' <> k).
      { intros ->. apply not_true_iff_false in Hequiv. apply Hequiv.
        apply Hord; auto. }
      rewrite decide_False in Hlo, Hhi by exact Hne.
      destruct (IH Hord Hk Hkeys Hlo Hhi) as (Hn & Hkeys' & Hcount).
      destruct (map_increment k rest) as [n rest'] eqn:Hrest.
      cbn [fst snd count_in] in *. rewrite decide_False by exact Hne.
      split; [exact Hn|]. split; [constructor; [exact Hk'|exact Hkeys']|].
      intros x. destruct (decide (k' = x)) as [->|Hx].
      * rewrite decide_False by exact Hne. lia.
      * apply Hcount.
Qed.

Lemma map_increments (all : list Field) : forall values i seen out entries,
  totally_ordered all ->
  (forall y, y ∈ values -> y ∈ all) ->
  Forall (fun e => fst e ∈ all) entries ->
  (forall x, count_in entries x = occurrences x seen) ->
  Z.of_nat (length seen + length values) < 2 ^ 32 ->
  fst (foldi i
         (fun x (_ : Z) (st : list Field * list (Field * Z)) =>
            let (n, entries) := map_increment x (snd st) in
            (fst st ++ [FUInt64 n], entries))
         values (out, entries))
  = out ++ (FUInt64 <$> ranks_after seen values).
Proof.
  induction values as [|x values IH]; intros i seen out entries Hord Hvals Hkeys Hcount Hlen.
  - simpl. rewrite app_nil_r. reflexivity.
  - assert (Hx : x ∈ all) by (apply Hvals; left).
    pose proof (occurrences_bound x seen) as Hbound. simpl length in Hlen.
    destruct (map_increment_count all x entries Hord Hx Hkeys)
      as (Hn & Hkeys' & Hcount'); rewrite ?Hcount; try lia.
    cbn [foldi fst snd]. destruct (map_increment x entries) as [n entries'] eqn:Hstep.
    cbn [fst snd] in *.
    rewrite (IH (i + 1) (seen ++ [x]) (out ++ [FUInt64 n]) entries' Hord); auto.
    + cbn [ranks_after]. rewrite fmap_cons, <- app_assoc, Hn, Hcount. reflexivity.
    + intros y Hy. apply Hvals. right. exact Hy.
    + intros y. rewrite Hcount', Hcount, occurrences_snoc.
      destruct (decide (y = x)); reflexivity.
    + rewrite length_app. simpl. lia.
Qed.

(** X21. [arrayEnumerateUniq] on a constant array gives the constant array
    of the ranks: every element gets the number of occurrences of its value
    among the elements up to and including itself (a NULL is a value like
    any other here), with as many rows as the argument. *)
Theorem arrayEnumerateUniq_constant `{Memory} result_type type values s :
  totally_ordered values -> Z.of_nat (length values) < 2 ^ 32 ->
  executeImpl result_type (ColumnConst (DataTypeArray type) (FArray values) s)
  = Ok (ColumnConst result_type (FArray (FUInt64 <$> ranks values)) s).
Proof.
  intros Hord Hlen. unfold executeImpl, executeConst. cbn [checkAndGetColumnConst_Array].
  rewrite (for_range_foldi_total
             (fun x (_ : Z) (st : list Field * list (Field * Z)) =>
                let (n, indices) := map_increment x (snd st) in
                (fst st ++ [FUInt64 n], indices))).
  rewrite (map_increments values values 0 [] [] [] Hord); auto.
Qed.

End EnumerateConstants.

(** The constant array [7, NULL, 7, NULL]. *)
Lemma arrayEnumerateUniq_constant_witness :
  let values := [FUInt64 7; Null; FUInt64 7; Null] in
  (@totally_ordered scalar_fields values /\ Z.of_nat (length values) < 2 ^ 32)
  /\ @FunctionArrayEnumerateUniq.executeImpl scalar_fields zero_memory
       (DataTypeArray (DataTypeNumber UInt32))
       (ColumnConst (DataTypeArray (DataTypeNullable (DataTypeNumber UInt8)))
          (FArray values) 3)
     = Ok (ColumnConst (DataTypeArray (DataTypeNumber UInt32))
             (FArray [FUInt64 1; FUInt64 1; FUInt64 2; FUInt64 2]) 3).
Proof.
  intros values.
  assert (Hord : @totally_ordered scalar_fields values).
  { intros x y Hx Hy.
    repeat (apply elem_of_cons in Hx as [->|Hx]); try (apply elem_of_nil in Hx; contradiction);
      repeat (apply elem_of_cons in Hy as [->|Hy]);
      try (apply elem_of_nil in Hy; contradiction);
      simpl; split; intros Heq; try reflexivity; try discriminate Heq. }
  assert (Hlen : Z.of_nat (length values) < 2 ^ 32) by (simpl; lia).
  split; [split; [exact Hord|exact Hlen]|].
  apply (@arrayEnumerateUniq_constant scalar_fields zero_memory
           (DataTypeArray (DataTypeNumber UInt32))
           (DataTypeNullable (DataTypeNumber UInt8)) values 3 Hord Hlen).
Defined.

(** ** [arrayEnumerateUniq] on every argument it takes *)

Lemma occurrences_fmap_inj {A B} `{EqDecision A} `{EqDecision B} (f : A -> B) x l :
  (forall a b, f a = f b -> a = b) ->
  occurrences (f x) (f <$> l) = occurrences x l.
Proof.
  intros Hinj. unfold occurrences. f_equal.
  induction l as [|y l IH]; [reflexivity|].
  rewrite fmap_cons, !filter_cons.
  destruct (decide (f x = f y)) as [Heq|Hne]; destruct (decide (x = y)) as [Heq'|Hne'];
    simpl; try rewrite IH; try reflexivity.
  - exfalso. apply Hne'. apply Hinj. exact Heq.
  - exfalso. apply Hne. rewrite Heq'. reflexivity.
Qed.

Lemma ranks_after_fmap_inj {A B} `{EqDecision A} `{EqDecision B} (f : A -> B) row :
  (forall a b, f a = f b -> a = b) ->
  forall seen, ranks_after (f <$> seen) (f <$> row) = ranks_after seen row.
Proof.
  intros Hinj. induction row as [|x row IH]; intros seen; [reflexivity|].
  rewrite fmap_cons. cbn [ranks_after].
  rewrite occurrences_fmap_inj by exact Hinj. f_equal.
  rewrite <- (IH (seen ++ [x])), fmap_app. reflexivity.
Qed.

(** In a constant array the NULLs are values like the others: ranking them
    with the values or apart gives the same ranks. *)
Lemma ranks_field_row (values : Array) : ranks (field_row values) = ranks values.
Proof.
  unfold ranks, field_row.
  apply (ranks_after_fmap_inj (fun x => if isNull x then None else Some x) values
           ltac:(intros [] []; simpl; congruence) []).
Qed.

Section EnumerateEvery.
Import FunctionArrayEnumerateUniq.
Context `{FieldInterface} `{Memory}.

Lemma enumerate_executeImpl_string result_type chars string_offsets offsets data null_map :
  (data = ColumnString chars string_offsets /\ null_map = None) \/
  (exists m, data = ColumnNullable (ColumnString chars string_offsets) m
             /\ null_map = Some m) ->
  executeImpl result_type (ColumnArray data offsets)
  = Ok (ColumnArray
          (ColumnVector UInt32
             (rank_rows (getDataAt chars string_offsets) offsets null_map
                (if decide (offsets = []) then []
                 else resize_uninit (get offsets (size offsets - 1)) [])))
          offsets).
Proof. intros [[-> ->]|(m & -> & ->)]; reflexivity. Qed.

Lemma rank_rows_strings chars string_offsets offsets n null_map :
  0 <= n -> offsets_ok 0 offsets n ->
  Forall (fun '(p, o) => o - p < 2 ^ 32) (row_bounds 0 offsets) ->
  let rows := ranks <$> string_rows chars string_offsets null_map offsets in
  rank_rows (getDataAt chars string_offsets) offsets null_map
    (if decide (offsets = []) then []
     else resize_uninit (get offsets (size offsets - 1)) [])
  = concat rows
  /\ array_rows offsets (concat rows) = rows.
Proof.
  intros Hn Hok Hshort rows.
  pose proof (offsets_ok_bounds _ _ _ Hok) as [_ Hbounds].
  split.
  - unfold rank_rows.
    rewrite (for_range_foldi
               (fun off (_ : Z) st =>
                  (rank_row (getDataAt chars string_offsets) null_map (snd st) off (fst st),
                   off))).
    pose proof (rank_rows_foldi (getDataAt chars string_offsets) null_map offsets [])
      as Hrows.
    change (size []) with 0 in Hrows. simpl app in Hrows.
    erewrite Hrows; [|exact Hok| |exact Hshort].
    + simpl. unfold rows, string_rows. rewrite <- list_fmap_compose.
      f_equal. apply list_fmap_ext. intros _ [p o] _. reflexivity.
    + case_decide as Hnil.
      * subst offsets. simpl in Hok. rewrite <- Hok. reflexivity.
      * unfold size at 1. rewrite length_resize_uninit.
        rewrite (offsets_ok_last _ _ _ Hok Hnil). lia.
  - rewrite <- (offsets_from_bounds offsets 0) at 1.
    replace ((fun '(p, o) => o - p) <$> row_bounds 0 offsets) with (size <$> rows).
    + apply array_rows_concat.
    + unfold rows, string_rows. rewrite <- !list_fmap_compose. apply Forall_fmap_ext_1.
      eapply Forall_impl; [exact Hbounds|]. intros [p o] Hb. simpl.
      unfold size, ranks. rewrite length_ranks_after. apply length_elements. lia.
Qed.

Lemma enumerate_executeConst result_type type values s :
  totally_ordered values -> Z.of_nat (length values) < 2 ^ 32 ->
  executeImpl result_type (ColumnConst (DataTypeArray type) (FArray values) s)
  = Ok (ColumnConst result_type (FArray (FUInt64 <$> ranks values)) s).
Proof.
  intros Hord Hlen. unfold executeImpl, executeConst. cbn [checkAndGetColumnConst_Array].
  rewrite (for_range_foldi_total
             (fun x (_ : Z) (st : list Field * list (Field * Z)) =>
                let (n, indices) := map_increment x (snd st) in
                (fst st ++ [FUInt64 n], indices))).
  rewrite (map_increments values values 0 [] [] [] Hord); auto.
Qed.


End EnumerateEvery.


(** ** Columns the functions do not handle *)

Section IllegalColumns.
Context `{FieldInterface} `{Memory}.

(** X22. Called with one argument, [arrayUniq] and [arrayEnumerateUniq]
    have no implementation for elements other than numbers and strings: on
    an array column of anything else (fixed strings, arrays, tuples, ...),
    with or without a null overlay, and on a column that is neither an array
    column nor a constant array, both throw [ILLEGAL_COLUMN]. *)
Theorem arrayUniq_illegal_column result_type column :
  match column with
  | ColumnArray data _ => hashable_elements (nested_elements data) = false
  | _ => checkAndGetColumnConst_Array column = None
  end ->
  FunctionArrayUniq.executeImpl column = Throw ILLEGAL_COLUMN
  /\ FunctionArrayEnumerateUniq.executeImpl result_type column = Throw ILLEGAL_COLUMN.
Proof.
  intros Hcolumn.
  unfold FunctionArrayUniq.executeImpl, FunctionArrayUniq.executeConst,
    FunctionArrayEnumerateUniq.executeImpl, FunctionArrayEnumerateUniq.executeConst.
  destruct column as [T d|chars string_offsets|n chars|nested null_map|data offsets|columns
                     |t v n|t ops|src ops];
    try (rewrite Hcolumn; split; reflexivity); try (split; reflexivity).
  cbn [checkAndGetColumnConst_Array].
  destruct data as [T d|chars string_offsets|n chars|nested null_map|d o|columns|t v n
                   |t ops|src ops];
    try discriminate Hcolumn; try (split; reflexivity).
  simpl in Hcolumn.
  destruct nested as [T d|chars string_offsets|n chars|nested null_map'|d o|columns|t v n
                     |t ops|src ops];
    try discriminate Hcolumn; split; reflexivity.
Qed.

(** [range] has an implementation for a column or a constant of an
    unsigned integer type only: on any other argument (a column of signed
    integers or of floats, a string column, ...) it throws
    [ILLEGAL_COLUMN]. *)
Theorem range_illegal_column col :
  range_column col = false -> FunctionRange.executeImpl col = Throw ILLEGAL_COLUMN.
Proof.
  intros Hcol. unfold FunctionRange.executeImpl.
  destruct col as [T d| | | | | |[T| | | | | |] v s| |];
    try reflexivity; simpl in Hcol; destruct T; try discriminate Hcol; reflexivity.
Qed.

End IllegalColumns.

(** An array column of fixed strings. *)
Lemma arrayUniq_illegal_column_witness :
  let column := ColumnArray (ColumnFixedString 1 [97; 98]) [2] in
  @FunctionArrayUniq.executeImpl scalar_fields zero_memory column = Throw ILLEGAL_COLUMN.
Proof.
  intros column.
  apply (proj1 (@arrayUniq_illegal_column scalar_fields zero_memory
                  (DataTypeArray (DataTypeNumber UInt32)) column eq_refl)).
Defined.

(** A column of signed integers. *)
Lemma range_illegal_column_witness :
  range_column (ColumnVector Int8 [3]) = false
  /\ @FunctionRange.executeImpl zero_memory (ColumnVector Int8 [3]) = Throw ILLEGAL_COLUMN.
Proof.
  split; [reflexivity|].
  apply (@range_illegal_column zero_memory (ColumnVector Int8 [3]) eq_refl).
Defined.

(** ** [emptyArrayToSingle] on fixed strings *)

Section SingleFixedStrings.
Import FunctionEmptyArrayToSingleImpl FunctionEmptyArrayToSingle.
Context `{Memory} `{DataTypeInterface}.

(** The bytes of [executeFixedString] after the rows. *)
Lemma fixed_data_after n src_data bounds : forall rp d,
  0 < n -> size src_data < 2 ^ 64 ->
  Forall (fun b => 0 <= fst b <= snd b /\ snd b * n <= size src_data) bounds ->
  size d + n * total (out_len <$> bounds) < 2 ^ 64 ->
  data_after
    (fun _ src_prev_offset size_to_write res_data =>
       let prev_res_data_size := size res_data in
       memcpy
         (resize_uninit (size_t (prev_res_data_size + size_t (size_to_write * n))) res_data)
         prev_res_data_size src_data (size_t (src_prev_offset * n))
         (size_t (size_to_write * n)))
    (fun res_data => res_data ++ replicate (Z.to_nat n) 0) rp bounds d
  = d ++ concat ((fun b => if snd b =? fst b then replicate (Z.to_nat n) 0
                           else slice src_data (fst b * n) (snd b * n)) <$> bounds).
Proof.
  induction bounds as [|b bounds IH]; intros rp d Hn Hsrc_size Hall Hfit; simpl.
  - rewrite app_nil_r. reflexivity.
  - inversion Hall as [|? ? Hb Hrest]; subst.
    assert (0 <= total (out_len <$> bounds)).
    { apply total_out_len_nonneg. eapply Forall_impl; [exact Hrest|]. simpl. lia. }
    pose proof (size_nonneg d). pose proof (size_nonneg src_data).
    rewrite fmap_cons in Hfit. simpl total in Hfit. unfold out_len at 1 in Hfit.
    destruct (Z.eqb_spec (snd b) (fst b)) as [Heq|Hne].
    + rewrite IH; [rewrite <- app_assoc; reflexivity|exact Hn|exact Hsrc_size|exact Hrest|].
      rewrite size_app. unfold size at 2. rewrite length_replicate. lia.
    + simpl in Hb. destruct Hb as [Hb Hsize].
      assert (Hwrite : 0 < (snd b - fst b) * n) by nia.
      assert (Hsrc : 0 <= fst b * n) by nia.
      assert (Hend : fst b * n + (snd b - fst b) * n = snd b * n) by ring.
      rewrite (size_t_small ((snd b - fst b) * n)) by nia.
      rewrite (size_t_small (fst b * n)) by nia.
      rewrite size_t_small by nia.
      rewrite memcpy_append by lia. rewrite Hend.
      rewrite IH; [rewrite <- app_assoc; reflexivity|exact Hn|exact Hsrc_size|exact Hrest|].
      rewrite size_app, size_slice by lia. nia.
Qed.

Lemma fixed_rows nullable n chars offsets src_null_map m :
  0 < n -> array_ok offsets m -> size chars = m * n ->
  size chars + n * size offsets < 2 ^ 64 ->
  (nullable = true -> size src_null_map = m) ->
  executeDispatch nullable (ColumnFixedString n chars) offsets (ColumnFixedString n []) []
    src_null_map []
  = Ok (ColumnFixedString n (concat (single_fixed_rows n offsets chars)),
        offsets_from 0 (out_len <$> row_bounds 0 offsets),
        if nullable then concat (single_rows 1 offsets src_null_map) else []).
Proof.
  intros Hn Hok Hchars Hfit Hnull.
  pose proof (size_nonneg offsets) as Hrows.
  pose proof Hok as [Hm Hoffs].
  change (executeDispatch nullable (ColumnFixedString n chars) offsets
            (ColumnFixedString n []) [] src_null_map [])
    with (Ok (written (ColumnFixedString n)
                (rows
                   (fun _ src_prev_offset size_to_write res_data =>
                      let prev_res_data_size := size res_data in
                      memcpy
                        (resize_uninit
                           (size_t (prev_res_data_size + size_t (size_to_write * n)))
                           res_data)
                        prev_res_data_size chars (size_t (src_prev_offset * n))
                        (size_t (size_to_write * n)))
                   (fun res_data => res_data ++ replicate (Z.to_nat n) 0)
                   nullable offsets [] [] src_null_map []))).
  rewrite rows_exact with (n := m)
    by (auto; try nia; intros Hnullable; rewrite (Hnull Hnullable); lia).
  unfold written. cbn [res_offsets res_null_map res_data].
  pose proof (total_out_len_bound _ _ _ Hoffs) as Htotal.
  pose proof (offsets_ok_bounds _ _ _ Hoffs) as [_ Hall].
  rewrite fixed_data_after.
  - simpl app. unfold single_fixed_rows.
    destruct nullable; [|reflexivity].
    rewrite <- (Hnull eq_refl) in Hok. rewrite null_map_after_rows by exact Hok.
    reflexivity.
  - exact Hn.
  - lia.
  - eapply Forall_impl; [exact Hall|]. intros [p o]. simpl. nia.
  - change (size []) with 0. nia.
Qed.

(** X24. [emptyArrayToSingle] on an array column of fixed strings of [n]
    bytes replaces every row without elements by a row of one string of [n]
    zero bytes and passes the other rows on with their bytes; the offsets
    count one element for a replaced row; under a null overlay the string
    of a replaced row is marked null (1) and the other strings keep their
    marks. *)
Theorem emptyArrayToSingle_fixed_strings argument_type result_type rows n chars offsets m :
  0 < n -> array_ok offsets m -> size chars = m * n ->
  size chars + n * size offsets < 2 ^ 64 ->
  executeImpl argument_type result_type rows (ColumnArray (ColumnFixedString n chars) offsets)
  = Ok (ColumnArray (ColumnFixedString n (concat (single_fixed_rows n offsets chars)))
          (offsets_from 0 (out_len <$> row_bounds 0 offsets)))
  /\ forall null_map,
       size null_map = m ->
       executeImpl argument_type result_type rows
         (ColumnArray (ColumnNullable (ColumnFixedString n chars) null_map) offsets)
       = Ok (ColumnArray
               (ColumnNullable
                  (ColumnFixedString n (concat (single_fixed_rows n offsets chars)))
                  (concat (single_rows 1 offsets null_map)))
               (offsets_from 0 (out_len <$> row_bounds 0 offsets))).
Proof.
  intros Hn Hok Hchars Hfit. unfold executeImpl. simpl executeConst. cbv iota.
  simpl cloneEmpty. split.
  - rewrite (fixed_rows false n chars offsets [] m) by (auto; discriminate). reflexivity.
  - intros null_map Hnull.
    rewrite (fixed_rows true n chars offsets null_map m) by auto. reflexivity.
Qed.

End SingleFixedStrings.

(** The rows [[], ['ab']] of strings of two bytes become [['\0\0'], ['ab']]. *)
Lemma emptyArrayToSingle_fixed_strings_witness :
  @FunctionEmptyArrayToSingle.executeImpl zero_memory scalar_defaults
    (DataTypeArray (DataTypeFixedString 2)) (DataTypeArray (DataTypeFixedString 2)) 2
    (ColumnArray (ColumnFixedString 2 [97; 98]) [0; 1])
  = Ok (ColumnArray (ColumnFixedString 2 [0; 0; 97; 98]) [1; 2]).
Proof.
  apply (proj1 (@emptyArrayToSingle_fixed_strings zero_memory scalar_defaults
                  (DataTypeArray (DataTypeFixedString 2))
                  (DataTypeArray (DataTypeFixedString 2)) 2 2 [97; 98] [0; 1] 1
                  ltac:(lia) ltac:(unfold array_ok; simpl; lia) eq_refl
                  ltac:(unfold size; simpl; lia))).
Defined.

(** ** [emptyArrayToSingle] on strings *)

Lemma total_app ns ms : total (ns ++ ms) = total ns + total ms.
Proof.
  induction ns as [|n ns IH]; [reflexivity|].
  change (n + total (ns ++ ms) = n + total ns + total ms). lia.
Qed.

Lemma offsets_from_app ns ms : forall start,
  offsets_from start (ns ++ ms)
  = offsets_from start ns ++ offsets_from (start + total ns) ms.
Proof.
  induction ns as [|n ns IH]; intros start.
  - simpl. rewrite Z.add_0_r. reflexivity.
  - cbn [app offsets_from]. rewrite IH.
    change (total (n :: ns)) with (n + total ns).
    replace (start + n + total ns) with (start + (n + total ns)) by lia. reflexivity.
Qed.

Lemma row_bounds_get offsets : forall prev j,
  (j < length offsets)%nat ->
  row_bounds prev offsets !! j
  = Some (match j with O => prev | Datatypes.S j' => offsets !!! j' end, offsets !!! j).
Proof.
  induction offsets as [|off rest IH]; intros prev j Hj; simpl in Hj; [lia|].
  destruct j as [|j]; simpl; [reflexivity|].
  rewrite IH by lia. destruct j; reflexivity.
Qed.

(** The offsets of a string column do not decrease. *)
Lemma offsetAt_bounds so n j :
  offsets_ok 0 so n -> 0 <= j < size so ->
  0 <= offsetAt so j <= get so j /\ get so j <= n.
Proof.
  intros Hok Hj. unfold size in Hj.
  pose proof (row_bounds_get so 0 (Z.to_nat j) ltac:(lia)) as Hrow.
  apply (row_bounds_lookup so 0 n _ _ _ Hok) in Hrow.
  unfold offsetAt, get. destruct (Z.eqb_spec j 0) as [->|Hne].
  - exact Hrow.
  - assert (Hj' : Z.to_nat j = Datatypes.S (Z.to_nat (j - 1))) by lia.
    rewrite Hj' in Hrow |- *. exact Hrow.
Qed.

Lemma offsetAt_succ so j : 0 <= j -> offsetAt so (j + 1) = get so j.
Proof.
  intros Hj. unfold offsetAt. destruct (Z.eqb_spec (j + 1) 0); [lia|].
  f_equal. lia.
Qed.

Lemma offsetAt_le so n j :
  offsets_ok 0 so n -> 0 <= j <= size so -> 0 <= offsetAt so j <= n.
Proof.
  intros Hok Hj. destruct (decide (j = 0)) as [->|Hne].
  - apply offsets_ok_bounds in Hok as [Hn _]. unfold offsetAt. simpl. lia.
  - replace j with (j - 1 + 1) by lia. rewrite offsetAt_succ by lia.
    pose proof (offsetAt_bounds so n (j - 1) Hok ltac:(lia)). lia.
Qed.

(** The sizes of the strings [a .. a + k - 1] add up to the bytes between
    the start of the first and the end of the last. *)
Lemma string_sizes_nonneg so n a k :
  offsets_ok 0 so n -> 0 <= a -> a + Z.of_nat k <= size so ->
  Forall (fun s => 0 <= s) ((fun i => get so i - offsetAt so i) <$> seqZ a (Z.of_nat k)).
Proof.
  intros Hok Ha Hk. apply Forall_fmap, Forall_forall. intros i Hi.
  apply elem_of_seqZ in Hi. simpl.
  pose proof (offsetAt_bounds so n i Hok ltac:(lia)). lia.
Qed.

Lemma total_string_sizes so : forall k a,
  0 <= a ->
  total ((fun i => get so i - offsetAt so i) <$> seqZ a (Z.of_nat k))
  = offsetAt so (a + Z.of_nat k) - offsetAt so a.
Proof.
  induction k as [|k IH]; intros a Ha.
  - simpl. rewrite Z.add_0_r. lia.
  - rewrite seqZ_cons by lia. rewrite fmap_cons.
    change (total (?x :: ?l)) with (x + total l).
    replace (Z.pred (Z.of_nat (Datatypes.S k))) with (Z.of_nat k) by lia.
    rewrite IH by lia.
    replace (Z.succ a) with (a + 1) by lia. rewrite offsetAt_succ by lia.
    replace (a + 1 + Z.of_nat k) with (a + Z.of_nat (Datatypes.S k)) by lia. lia.
Qed.

Section SingleStrings.
Import FunctionEmptyArrayToSingleImpl FunctionEmptyArrayToSingle.
Context `{Memory} `{DataTypeInterface}.

(** The loop over the strings of a row. *)
Lemma string_sizes_loop so n p k : forall j res_string_prev_offset res_string_offsets
    bytes_to_copy,
  offsets_ok 0 so n -> n < 2 ^ 64 -> size so < 2 ^ 64 ->
  0 <= p -> 0 <= j -> p + j + Z.of_nat k <= size so ->
  let sizes := (fun i => get so i - offsetAt so i) <$> seqZ (p + j) (Z.of_nat k) in
  0 <= res_string_prev_offset -> res_string_prev_offset + total sizes < 2 ^ 64 ->
  0 <= bytes_to_copy -> bytes_to_copy + total sizes < 2 ^ 64 ->
  for_loop k j
    (fun j '(res_string_prev_offset, res_string_offsets,
             from_string_prev_offset_local, bytes_to_copy) =>
       let string_size :=
         size_t (get so (size_t (p + j)) - from_string_prev_offset_local) in
       let res_string_prev_offset := size_t (res_string_prev_offset + string_size) in
       (res_string_prev_offset,
        push_back res_string_offsets res_string_prev_offset,
        size_t (from_string_prev_offset_local + string_size),
        size_t (bytes_to_copy + string_size)))
    (res_string_prev_offset, res_string_offsets, offsetAt so (p + j), bytes_to_copy)
  = (res_string_prev_offset + total sizes,
     res_string_offsets ++ offsets_from res_string_prev_offset sizes,
     offsetAt so (p + j + Z.of_nat k),
     bytes_to_copy + total sizes).
Proof.
  induction k as [|k IH];
    intros j rspo rso btc Hok Hn Hso Hp Hj Hk sizes Hrspo Hrfit Hbtc Hbfit.
  - subst sizes. simpl. rewrite !Z.add_0_r, app_nil_r. reflexivity.
  - pose proof (string_sizes_nonneg so n (p + j + 1) k Hok ltac:(lia) ltac:(lia)) as Hnn.
    apply total_nonneg in Hnn.
    pose proof (offsetAt_bounds so n (p + j) Hok ltac:(lia)) as Hcur.
    subst sizes. revert Hrfit Hbfit.
    rewrite seqZ_cons by lia. rewrite fmap_cons.
    change (total (?x :: ?l)) with (x + total l).
    replace (Z.pred (Z.of_nat (Datatypes.S k))) with (Z.of_nat k) by lia.
    replace (Z.succ (p + j)) with (p + j + 1) by lia.
    intros Hrfit Hbfit.
    cbn [for_loop offsets_from].
    rewrite (size_t_small (p + j)) by lia.
    rewrite (size_t_small (get so (p + j) - offsetAt so (p + j))) by lia.
    rewrite !size_t_small by lia.
    replace (offsetAt so (p + j) + (get so (p + j) - offsetAt so (p + j)))
      with (offsetAt so (p + (j + 1))) by (rewrite Z.add_assoc, offsetAt_succ by lia; lia).
    rewrite IH; auto; try lia;
      replace (p + (j + 1)) with (p + j + 1) by lia; try lia.
    unfold push_back. rewrite <- app_assoc. simpl app.
    f_equal; [f_equal; [f_equal|]|]; try lia. f_equal. lia.
Qed.

(** The loop over the rows: [pre] are the offsets of the rows that are
    done. *)
Lemma string_rows_loop nullable chars so src_null_map offsets :
  forall pre st done_offs todo_offs,
  offsets_ok 0 so (size chars) -> size chars < 2 ^ 64 -> size so < 2 ^ 64 ->
  res_array_offsets st = done_offs ++ todo_offs -> length done_offs = length pre ->
  (length offsets <= length todo_offs)%nat ->
  offsets_ok (src_array_prev_offset st) offsets (size so) ->
  0 <= src_array_prev_offset st ->
  src_string_prev_offset st = offsetAt so (src_array_prev_offset st) ->
  size (res_chars st) = res_string_prev_offset st ->
  (nullable = true ->
   size so <= size src_null_map /\ size (strings_null_map st) = res_array_prev_offset st) ->
  0 <= res_array_prev_offset st ->
  res_array_prev_offset st + (size so - src_array_prev_offset st) + size offsets < 2 ^ 64 ->
  res_string_prev_offset st + (size chars - src_string_prev_offset st) + size offsets
  < 2 ^ 64 ->
  let bounds := row_bounds (src_array_prev_offset st) offsets in
  for_loop (length offsets) (size pre)
    (string_row nullable chars so (pre ++ offsets) src_null_map) st
  = mkStrings
      (res_chars st ++ concat (single_string_bytes chars so <$> bounds))
      (res_string_offsets st
         ++ offsets_from (res_string_prev_offset st)
              (concat (single_string_sizes so <$> bounds)))
      (null_map_after nullable src_null_map bounds (strings_null_map st))
      (done_offs ++ offsets_from (res_array_prev_offset st) (out_len <$> bounds)
         ++ drop (length offsets) todo_offs)
      (List.last offsets (src_array_prev_offset st))
      (res_array_prev_offset st + total (out_len <$> bounds))
      (offsetAt so (List.last offsets (src_array_prev_offset st)))
      (res_string_prev_offset st + total (concat (single_string_sizes so <$> bounds))).
Proof.
  induction offsets as [|off rest IH];
    intros pre st done_offs todo_offs Hso Hchars Hsize Hoffs Hdone Htodo Hok Hsrc Hstr
      Hbytes Hnull Hres Hfit Hsfit bounds.
  - subst bounds. simpl. unfold null_map_after. simpl.
    rewrite !Z.add_0_r, !app_nil_r, drop_0, <- Hoffs, <- Hstr.
    destruct st, nullable; reflexivity.
  - destruct todo_offs as [|slot todo_offs]; [simpl in Htodo; lia|]. simpl in Htodo.
    destruct Hok as [Hle Hok].
    pose proof (offsets_ok_bounds _ _ _ Hok) as [Hn _].
    assert (Hcons : size (off :: rest) = 1 + size rest)
      by (unfold size; simpl length; lia).
    rewrite Hcons in Hfit, Hsfit. pose proof (size_nonneg rest) as Hrest.
    subst bounds. simpl row_bounds. rewrite !fmap_cons. cbn [concat].
    cbn [for_loop length].
    set (p := src_array_prev_offset st) in *.
    set (sizes := (fun j => get so j - offsetAt so j) <$> seqZ p (off - p)).
    assert (Htotal : total sizes = offsetAt so off - offsetAt so p).
    { unfold sizes. replace (off - p) with (Z.of_nat (Z.to_nat (off - p))) by lia.
      rewrite total_string_sizes by lia. do 2 f_equal. lia. }
    assert (Hnonneg : Forall (fun s => 0 <= s) sizes).
    { unfold sizes. replace (off - p) with (Z.of_nat (Z.to_nat (off - p))) by lia.
      apply (string_sizes_nonneg so (size chars)); auto; lia. }
    pose proof (offsetAt_le so (size chars) off Hso ltac:(lia)) as Hend.
    pose proof (offsetAt_le so (size chars) p Hso ltac:(lia)) as Hstart.
    apply total_nonneg in Hnonneg.
    pose proof (size_nonneg (res_chars st)) as Hrspo.
    rewrite Hbytes in Hrspo. rewrite Hstr in Hsfit.
    set (st1 := string_row nullable chars so (pre ++ off :: rest) src_null_map (size pre) st).
    assert (Hst1 :
      st1 = mkStrings
              (res_chars st ++ single_string_bytes chars so (p, off))
              (res_string_offsets st
                 ++ offsets_from (res_string_prev_offset st)
                      (single_string_sizes so (p, off)))
              (if nullable
               then strings_null_map st
                    ++ (if off =? p then [1] else slice src_null_map p off)
               else strings_null_map st)
              ((done_offs ++ [res_array_prev_offset st + out_len (p, off)]) ++ todo_offs)
              off
              (res_array_prev_offset st + out_len (p, off))
              (offsetAt so off)
              (res_string_prev_offset st + total (single_string_sizes so (p, off)))).
    { assert (Hget : get (pre ++ off :: rest) (size pre) = off).
      { unfold get, size. rewrite Nat2Z.id. apply list_lookup_total_middle. reflexivity. }
      unfold st1, string_row, out_len, single_string_bytes, single_string_sizes.
      assert (Hsz : size done_offs = size pre) by (unfold size; lia).
      cbn [fst snd]. rewrite Hget, Hoffs. fold p. fold sizes.
      assert (Hnext : (if negb (off =? 0) then get so (off - 1) else offsetAt so p)
                      = offsetAt so off).
      { unfold offsetAt. destruct (Z.eqb_spec off 0) as [Hz|Hz]; simpl; [|reflexivity].
        destruct (Z.eqb_spec p 0); [reflexivity|lia]. }
      destruct (Z.eqb_spec off p) as [Heq|Hne]; simpl negb; cbv iota.
      - cbn [res_chars res_string_offsets strings_null_map res_array_offsets
               src_array_prev_offset res_array_prev_offset src_string_prev_offset
               res_string_prev_offset].
        rewrite Hstr, Hnext. rewrite !size_t_small by lia.
        rewrite store_next by exact Hsz. unfold push_back.
        change (total [1]) with 1. simpl offsets_from. reflexivity.
      - rewrite (size_t_small (off - p)) by lia.
        unfold for_range. rewrite Z.sub_0_r, Hstr.
        match goal with
        | |- context [for_loop ?k 0 ?body ?init] =>
            assert (Hloop : for_loop k 0 body init
                            = (res_string_prev_offset st + total sizes,
                               res_string_offsets st
                                 ++ offsets_from (res_string_prev_offset st) sizes,
                               offsetAt so off, 0 + total sizes))
        end.
        { pose proof (string_sizes_loop so (size chars) p (Z.to_nat (off - p)) 0
                        (res_string_prev_offset st) (res_string_offsets st) 0
                        Hso Hchars Hsize Hsrc ltac:(lia) ltac:(lia)) as Hl.
          rewrite !Z.add_0_r, Z2Nat.id in Hl by lia. fold sizes in Hl.
          replace (p + (off - p)) with off in Hl by lia.
          apply Hl; lia. }
        rewrite Hloop.
        cbn [res_chars res_string_offsets strings_null_map res_array_offsets
               src_array_prev_offset res_array_prev_offset src_string_prev_offset
               res_string_prev_offset].
        rewrite Hnext, Z.add_0_l. rewrite !size_t_small by lia.
        rewrite store_next by exact Hsz.
        rewrite memcpy_append by lia.
        replace (offsetAt so p + total sizes) with (offsetAt so off) by lia.
        f_equal.
        destruct nullable eqn:Hnullable; [|reflexivity].
        destruct (Hnull eq_refl) as [Hmap Hnsize].
        rewrite memcpy_append by lia. do 2 f_equal. lia. }
    rewrite Hst1.
    replace (pre ++ off :: rest) with ((pre ++ [off]) ++ rest)
      by (rewrite <- app_assoc; reflexivity).
    replace (size pre + 1) with (size (pre ++ [off])) by (rewrite size_app; reflexivity).
    assert (Hlen1 : 0 < out_len (p, off) <= off - p + 1).
    { unfold out_len. simpl. destruct (Z.eqb_spec off p); lia. }
    assert (Hsz1 : total (single_string_sizes so (p, off))
                   = if off =? p then 1 else offsetAt so off - offsetAt so p).
    { unfold single_string_sizes. simpl. destruct (off =? p); [reflexivity|exact Htotal]. }
    assert (Hb1 : size (single_string_bytes chars so (p, off))
                  = total (single_string_sizes so (p, off))).
    { rewrite Hsz1. unfold single_string_bytes. simpl.
      destruct (Z.eqb_spec off p); [reflexivity|]. apply size_slice; lia. }
    rewrite (IH (pre ++ [off]) _
               (done_offs ++ [res_array_prev_offset st + out_len (p, off)]) todo_offs);
      cbn [res_chars res_string_offsets strings_null_map res_array_offsets
             src_array_prev_offset res_array_prev_offset src_string_prev_offset
             res_string_prev_offset]; auto; try lia.
    + rewrite last_cons_default, offsets_from_app, total_app. f_equal.
      * rewrite <- app_assoc. reflexivity.
      * rewrite <- app_assoc. reflexivity.
      * unfold null_map_after. destruct nullable; [|reflexivity].
        rewrite fmap_cons. simpl. rewrite <- app_assoc. reflexivity.
      * rewrite <- app_assoc. reflexivity.
      * change (total (?x :: ?l)) with (x + total l). lia.
      * lia.
    + rewrite !length_app. simpl. lia.
    + rewrite size_app, Hb1, Hbytes. reflexivity.
    + intros Hnullable. destruct (Hnull Hnullable) as [Hmap Hnsize].
      split; [exact Hmap|]. rewrite Hnullable, size_app, Hnsize. f_equal.
      unfold out_len. simpl. destruct (Z.eqb_spec off p); [reflexivity|].
      apply size_slice; lia.
    + rewrite Hsz1. destruct (Z.eqb_spec off p); [subst off|]; lia.
Qed.

Lemma string_rows_exact nullable chars so offsets src_null_map :
  array_ok offsets (size so) -> array_ok so (size chars) ->
  size so + size offsets < 2 ^ 64 -> size chars + size offsets < 2 ^ 64 ->
  (nullable = true -> size src_null_map = size so) ->
  executeDispatch nullable (ColumnString chars so) offsets (ColumnString [] []) []
    src_null_map []
  = Ok (single_strings chars so offsets,
        offsets_from 0 (out_len <$> row_bounds 0 offsets),
        if nullable then concat (single_rows 1 offsets src_null_map) else []).
Proof.
  intros [Hn Hok] [Hchars Hso] Hfit Hsfit Hnull.
  pose proof (size_nonneg offsets) as Hrows.
  change (executeDispatch nullable (ColumnString chars so) offsets (ColumnString [] []) []
            src_null_map [])
    with (let st :=
            for_range 0 (size offsets) (string_row nullable chars so offsets src_null_map)
              (mkStrings [] [] [] (resize_uninit (size offsets) []) 0 0 0 0) in
          Ok (ColumnString (res_chars st) (res_string_offsets st),
              res_array_offsets st, strings_null_map st)).
  unfold for_range. rewrite Z.sub_0_r.
  replace (Z.to_nat (size offsets)) with (length offsets) by (unfold size; lia).
  pose proof (string_rows_loop nullable chars so src_null_map offsets []
                (mkStrings [] [] [] (resize_uninit (size offsets) []) 0 0 0 0)
                [] (resize_uninit (size offsets) []) Hso Hchars Hn) as Hloop.
  cbn [res_chars res_string_offsets strings_null_map res_array_offsets
         src_array_prev_offset res_array_prev_offset src_string_prev_offset
         res_string_prev_offset] in Hloop.
  change (size []) with 0 in Hloop. simpl app in Hloop.
  rewrite Hloop; clear Hloop; try reflexivity; try lia; auto.
  - cbv zeta.
    cbn [res_chars res_string_offsets strings_null_map res_array_offsets].
    rewrite drop_ge, app_nil_r by (rewrite length_resize_uninit; unfold size; lia).
    unfold single_strings. destruct nullable; [|reflexivity].
    rewrite <- (Hnull eq_refl) in Hok.
    rewrite null_map_after_rows by (split; [rewrite Hnull by reflexivity; lia|exact Hok]).
    reflexivity.
  - rewrite length_resize_uninit. unfold size. lia.
  - intros Hnullable. rewrite (Hnull Hnullable). split; [lia|reflexivity].
Qed.

(** X25. [emptyArrayToSingle] on an array column of strings replaces every
    row without elements by a row of one empty string, which is one zero
    byte in the bytes of the strings and a size of 1 in their offsets, and
    passes the other rows on with the bytes and the sizes of their strings;
    the offsets of the rows count one element for a replaced row; under a
    null overlay the string of a replaced row is marked null (1) and the
    other strings keep their marks. *)
Theorem emptyArrayToSingle_strings argument_type result_type rows chars string_offsets
    offsets :
  array_ok offsets (size string_offsets) -> array_ok string_offsets (size chars) ->
  size string_offsets + size offsets < 2 ^ 64 -> size chars + size offsets < 2 ^ 64 ->
  executeImpl argument_type result_type rows
    (ColumnArray (ColumnString chars string_offsets) offsets)
  = Ok (ColumnArray (single_strings chars string_offsets offsets)
          (offsets_from 0 (out_len <$> row_bounds 0 offsets)))
  /\ forall null_map,
       size null_map = size string_offsets ->
       executeImpl argument_type result_type rows
         (ColumnArray (ColumnNullable (ColumnString chars string_offsets) null_map) offsets)
       = Ok (ColumnArray
               (ColumnNullable (single_strings chars string_offsets offsets)
                  (concat (single_rows 1 offsets null_map)))
               (offsets_from 0 (out_len <$> row_bounds 0 offsets))).
Proof.
  intros Hok Hso Hfit Hsfit. unfold executeImpl. simpl executeConst. cbv iota.
  simpl cloneEmpty. split.
  - rewrite (string_rows_exact false) by (auto; discriminate). reflexivity.
  - intros null_map Hnull. rewrite (string_rows_exact true) by auto. reflexivity.
Qed.

End SingleStrings.

(** The rows [[], ['a', '']] become [[''], ['a', '']]. *)
Lemma emptyArrayToSingle_strings_witness :
  @FunctionEmptyArrayToSingle.executeImpl zero_memory scalar_defaults
    (DataTypeArray DataTypeString) (DataTypeArray DataTypeString) 2
    (ColumnArray (ColumnString [97; 0; 0] [2; 3]) [0; 2])
  = Ok (ColumnArray (ColumnString [0; 97; 0; 0] [1; 3; 4]) [1; 3]).
Proof.
  apply (proj1 (@emptyArrayToSingle_strings zero_memory scalar_defaults
                  (DataTypeArray DataTypeString) (DataTypeArray DataTypeString) 2
                  [97; 0; 0] [2; 3] [0; 2]
                  ltac:(unfold array_ok, size; simpl; lia)
                  ltac:(unfold array_ok, size; simpl; lia)
                  ltac:(unfold size; simpl; lia) ltac:(unfold size; simpl; lia))).
Defined.

(** ** [emptyArrayToSingle] on every array *)

Section SingleEvery.
Import FunctionEmptyArrayToSingleImpl FunctionEmptyArrayToSingle.
Context `{Memory} `{DataTypeInterface}.

(** C2, as the code has it. [emptyArrayToSingle] replaces every row without
    elements by a row of one default element and passes the other rows on
    with their elements and null marks; under a null overlay the default
    element of a replaced row is marked null (1), not not-null. This holds
    for array columns of numbers, of fixed strings, of strings and of
    elements that are copied through the column interface; a constant array
    without elements becomes the constant array of one default value. *)
Theorem emptyArrayToSingle_rows argument_type result_type rows column :
  single_argument argument_type column ->
  executeImpl argument_type result_type rows column
  = Ok (single_spec result_type rows column).
Proof.
  intros Harg.
  destruct column as [| | | |src_data offsets| |type value s| |]; try contradiction.
  - unfold executeImpl. simpl executeConst. cbv iota.
    assert (Hgeneric : specialised src_data = false -> isNullable src_data = false ->
              (exists n, array_ok offsets n /\ n + size offsets < 2 ^ 64) ->
              ('(res_data, res_offsets, _) ←
                 executeDispatch false src_data offsets (cloneEmpty src_data) [] [] [];
               Ok (ColumnArray res_data res_offsets))
              = Ok (ColumnArray (ColumnCloneEmpty src_data (single_calls offsets))
                      (offsets_from 0 (out_len <$> row_bounds 0 offsets)))).
    { intros Hgen Hnn (n & Hok & Hfit).
      replace (cloneEmpty src_data) with (ColumnCloneEmpty src_data [])
        by (destruct src_data; try discriminate Hgen; reflexivity).
      rewrite executeDispatch_generic by exact Hgen.
      rewrite (generic_rows false src_data offsets [] n) by (auto; discriminate).
      reflexivity. }
    destruct src_data as [T values|chars string_offsets|n chars|inner_col null_map| | | | |];
      try (destruct Harg as [Hgen Hrest]; try discriminate Hgen;
           rewrite Hgeneric by (auto; reflexivity); reflexivity).
    + (* numbers *)
      destruct Harg as (Hok & Hfit). simpl cloneEmpty.
      rewrite executeDispatch_number, number_rows by (auto; discriminate).
      reflexivity.
    + (* strings *)
      destruct Harg as (Hok & Hso & Hfit & Hsfit). simpl cloneEmpty.
      rewrite (string_rows_exact false) by (auto; discriminate). reflexivity.
    + (* fixed strings *)
      destruct Harg as (Hn & (m & Hok & Hchars) & Hfit). simpl cloneEmpty.
      rewrite (fixed_rows false n chars offsets [] m) by (auto; discriminate).
      reflexivity.
    + (* under a null overlay *)
      destruct inner_col as [T values|chars string_offsets|n chars| | | | | |];
        try (destruct Harg as (Hgen & Hok & Hfit); try discriminate Hgen;
             simpl cloneEmpty; rewrite executeDispatch_generic by exact Hgen;
             rewrite (generic_rows true _ offsets null_map (size null_map)) by auto;
             simpl; rewrite (proj2 (single_rows_bounds 1 offsets null_map Hok));
             reflexivity).
      * destruct Harg as (Hok & Hlen & Hfit). simpl cloneEmpty.
        rewrite executeDispatch_number, number_rows by auto.
        reflexivity.
      * destruct Harg as (Hok & Hso & Hlen & Hfit & Hsfit). simpl cloneEmpty.
        rewrite (string_rows_exact true) by auto. reflexivity.
      * destruct Harg as (Hn & Hok & Hchars & Hfit). simpl cloneEmpty.
        rewrite (fixed_rows true n chars offsets null_map (size null_map)) by auto.
        reflexivity.
  - destruct value as [| | | | |values|]; try contradiction.
    destruct Harg as [[nested_type ->] ->].
    unfold executeImpl, executeConst. cbn [checkAndGetColumnConst_Array].
    destruct values as [|x values]; reflexivity.
Qed.

End SingleEvery.

(** The rows [[], [7, NULL]] become [[NULL], [7, NULL]]: the element that
    stands for the empty row is 0 in the data and 1 in the null map. *)
Lemma emptyArrayToSingle_rows_witness :
  let type := DataTypeArray (DataTypeNullable (DataTypeNumber UInt8)) in
  let column := ColumnArray (ColumnNullable (ColumnVector UInt8 [7; 8]) [0; 1]) [0; 2] in
  single_argument type column /\
  @FunctionEmptyArrayToSingle.executeImpl zero_memory scalar_defaults type type 2 column
  = Ok (ColumnArray (ColumnNullable (ColumnVector UInt8 [0; 7; 8]) [1; 0; 1]) [1; 3]).
Proof.
  intros type column.
  assert (Harg : single_argument type column).
  { simpl. unfold array_ok, size. simpl. repeat split; lia. }
  split; [exact Harg|].
  rewrite (@emptyArrayToSingle_rows zero_memory scalar_defaults type type 2 column Harg).
  reflexivity.
Defined.

(** C2 as it is written fails on the array column with the one row []: the
    element put in its place is marked null, whereas the claim has it marked
    not-null (0). *)
Lemma emptyArrayToSingle_not_null_counterexample :
  let column := ColumnArray (ColumnNullable (ColumnVector UInt8 []) []) [0] in
  let result :=
    @FunctionEmptyArrayToSingle.executeImpl zero_memory scalar_defaults
      (DataTypeArray (DataTypeNullable (DataTypeNumber UInt8)))
      (DataTypeArray (DataTypeNullable (DataTypeNumber UInt8))) 1 column in
  result = Ok (ColumnArray (ColumnNullable (ColumnVector UInt8 [0]) [1]) [1]) /\
  result <> Ok (ColumnArray (ColumnNullable (ColumnVector UInt8 [0]) [0]) [1]).
Proof.
  intros column result.
  assert (Hrun : result = Ok (ColumnArray (ColumnNullable (ColumnVector UInt8 [0]) [1]) [1]))
    by reflexivity.
  split; [exact Hrun|]. rewrite Hrun. discriminate.
Qed.

(** ** [arrayReverse] on fixed strings *)

Section ReverseFixedStrings.
Import FunctionArrayReverse.
Context `{Memory}.

Lemma size_fixed_string n chars j :
  0 < n -> 0 <= j -> j * n + n <= size chars -> size (fixed_string n chars j) = n.
Proof.
  intros Hn Hj Hfit. unfold fixed_string. rewrite size_slice by nia. lia.
Qed.

(** The loop over the strings of a row writes them from the end of the row
    of the result down to its start. *)
Lemma while_before_copy_fixed n chars : forall k fuel j dst front back,
  0 < n -> 0 <= j -> (k <= fuel)%nat ->
  size front = dst + n -> Z.of_nat k * n <= size front ->
  fst (while_before fuel ((j + Z.of_nat k) * n)
         (fun src '(res_data, dst) =>
            (src + n, (memcpy res_data dst chars src n, dst - n)))
         (j * n) (front ++ back, dst))
  = take (length front - Z.to_nat (Z.of_nat k * n)) front
      ++ concat (reverse (fixed_string n chars <$> seqZ j (Z.of_nat k))) ++ back.
Proof.
  induction k as [|k IH]; intros fuel j dst front back Hn Hj Hfuel Hfront Hfit.
  - simpl Z.of_nat. rewrite Z.add_0_r. simpl.
    rewrite Nat.sub_0_r, firstn_all.
    destruct fuel as [|fuel]; simpl; [reflexivity|].
    rewrite Z.ltb_irrefl. reflexivity.
  - destruct fuel as [|fuel]; [lia|]. cbn [while_before].
    destruct (Z.ltb_spec (j * n) ((j + Z.of_nat (Datatypes.S k)) * n)) as [_|]; [|nia].
    assert (Hdst : 0 <= dst) by nia.
    assert (Hcopy : memcpy (front ++ back) dst chars (j * n) n
                    = take (Z.to_nat dst) front ++ fixed_string n chars j ++ back).
    { unfold memcpy, fixed_string, slice, size in *.
      rewrite take_app_le by lia.
      replace (Z.to_nat dst + Z.to_nat n)%nat with (length front + 0)%nat by lia.
      rewrite drop_app_add, drop_0.
      replace (j * n + n - j * n) with n by lia. reflexivity. }
    rewrite Hcopy.
    replace ((j + Z.of_nat (Datatypes.S k)) * n) with ((j + 1 + Z.of_nat k) * n) by lia.
    replace (j * n + n) with ((j + 1) * n) by lia.
    rewrite IH; try lia.
    + rewrite (seqZ_cons j) by lia. rewrite fmap_cons, reverse_cons, concat_app.
      replace (Z.pred (Z.of_nat (Datatypes.S k))) with (Z.of_nat k) by lia.
      replace (Z.succ j) with (j + 1) by lia.
      simpl concat. rewrite app_nil_r, <- !app_assoc.
      f_equal. unfold size in *. rewrite length_take, take_take. f_equal. nia.
    + unfold size in *. rewrite length_take. lia.
    + unfold size in *. rewrite length_take. nia.
Qed.

Lemma size_reversed_fixed_row n chars : forall k p,
  0 < n -> 0 <= p -> (p + Z.of_nat k) * n <= size chars ->
  size (concat (reverse (fixed_string n chars <$> seqZ p (Z.of_nat k)))) = Z.of_nat k * n.
Proof.
  induction k as [|k IH]; intros p Hn Hp Hfit; [reflexivity|].
  rewrite seqZ_cons by lia. rewrite fmap_cons, reverse_cons, concat_app, size_app.
  replace (Z.pred (Z.of_nat (Datatypes.S k))) with (Z.of_nat k) by lia.
  replace (Z.succ p) with (p + 1) by lia.
  rewrite IH by nia. simpl concat. rewrite app_nil_r, size_fixed_string by nia. lia.
Qed.

(** The loop over the rows: [pre] are the offsets of the rows that are
    done, [done] the bytes written for them. *)
Lemma fixed_reverse_loop n chars m offsets : forall pre prev done cells,
  0 < n -> size chars = m * n -> size chars < 2 ^ 64 ->
  offsets_ok prev offsets m -> 0 <= prev ->
  size done = prev * n -> size cells = (m - prev) * n ->
  for_loop (length offsets) (size pre)
    (fun i '(res_data, src_prev_offset) =>
       let src := size_t (src_prev_offset * n) in
       let src_end := size_t (get (pre ++ offsets) i * n) in
       if src =? src_end then (res_data, src_prev_offset)
       else
         let dst := size_t (get (pre ++ offsets) i * n - n) in
         let '(res_data, _) :=
           while_before (Z.to_nat (src_end - src)) src_end
             (fun src '(res_data, dst) =>
                (src + n, (memcpy res_data dst chars src n, dst - n)))
             src (res_data, dst) in
         (res_data, get (pre ++ offsets) i))
    (done ++ cells, prev)
  = (done
       ++ concat ((fun b => concat (reverse (fixed_string n chars
                                               <$> seqZ (fst b) (snd b - fst b))))
                    <$> row_bounds prev offsets),
     List.last offsets prev).
Proof.
  induction offsets as [|off rest IH];
    intros pre prev done cells Hn Hchars Hsmall Hok Hprev Hdone Hcells.
  - simpl in *. subst m. destruct cells; [reflexivity|].
    unfold size in Hcells. simpl in Hcells. lia.
  - destruct Hok as [Hle Hok]. pose proof (offsets_ok_bounds _ _ _ Hok) as [Hoff _].
    assert (Hget : get (pre ++ off :: rest) (size pre) = off).
    { unfold get, size. rewrite Nat2Z.id. apply list_lookup_total_middle. reflexivity. }
    cbn [for_loop length row_bounds]. rewrite fmap_cons. cbn [concat fst snd].
    rewrite Hget, last_cons_default.
    rewrite (size_t_small (prev * n)), (size_t_small (off * n)) by nia.
    replace (pre ++ off :: rest) with ((pre ++ [off]) ++ rest)
      by (rewrite <- app_assoc; reflexivity).
    replace (size pre + 1) with (size (pre ++ [off])) by (rewrite size_app; reflexivity).
    destruct (Z.eqb_spec (prev * n) (off * n)) as [Heq|Hne].
    + assert (prev = off) as -> by nia.
      rewrite Z.sub_diag. simpl app. apply IH; auto.
    + assert (Hlt : prev < off) by (destruct (decide (prev = off)); [subst; lia|lia]).
      assert (Hrow : off * n = prev * n + (off - prev) * n) by ring.
      assert (Hlen : n <= (off - prev) * n) by nia.
      assert (Hstart : 0 <= prev * n) by nia.
      assert (Hend : off * n <= m * n) by nia.
      rewrite (size_t_small (off * n - n)) by lia.
      pose proof (while_before_copy_fixed n chars (Z.to_nat (off - prev))
                    (Z.to_nat (off * n - prev * n)) prev (off * n - n)
                    (done ++ take (Z.to_nat ((off - prev) * n)) cells)
                    (drop (Z.to_nat ((off - prev) * n)) cells)) as Hcopy.
      rewrite <- app_assoc, take_drop, Z2Nat.id in Hcopy by lia.
      replace ((prev + (off - prev)) * n) with (off * n) in Hcopy by lia.
      destruct (while_before _ _ _ _ _) as [res dst].
      simpl in Hcopy. rewrite Hcopy.
      * rewrite length_app, length_take.
        replace (length done + Z.to_nat ((off - prev) * n) `min` length cells
                 - Z.to_nat ((off - prev) * n))%nat
          with (length done) by (unfold size in *; nia).
        rewrite take_app_length, app_assoc.
        rewrite IH; auto; try lia.
        -- rewrite <- app_assoc. reflexivity.
        -- rewrite size_app, Hdone.
           replace (off - prev) with (Z.of_nat (Z.to_nat (off - prev))) at 1 by lia.
           rewrite size_reversed_fixed_row by nia. nia.
        -- unfold size in *. rewrite length_drop. nia.
      * exact Hn.
      * exact Hprev.
      * nia.
      * rewrite size_app, Hdone. unfold size in *. rewrite length_take. nia.
      * rewrite size_app, Hdone. unfold size in *. rewrite length_take. nia.
Qed.

Lemma reverse_executeFixedString n chars offsets m nullable_col :
  0 < n -> array_ok offsets m -> size chars = m * n -> size chars < 2 ^ 64 ->
  match nullable_col with Some null_map => size null_map = m | None => True end ->
  executeFixedString (ColumnFixedString n chars) offsets nullable_col
  = Some (ColumnFixedString n (reversed_fixed_rows n offsets chars),
          reversed_rows offsets <$> nullable_col).
Proof.
  intros Hn [Hm Hok] Hchars Hsmall Hnull. unfold executeFixedString.
  pose proof (fixed_reverse_loop n chars m offsets [] 0 [] (resize_uninit (size chars) [])
                Hn Hchars Hsmall Hok ltac:(lia) eq_refl) as Hloop.
  simpl app in Hloop. change (size []) with 0 in Hloop. cbv zeta in Hloop.
  assert (Hmap : match nullable_col with
                 | Some src_null_map =>
                     Some (do_reverse src_null_map offsets
                             (resize_uninit (size src_null_map) []))
                 | None => None
                 end = reversed_rows offsets <$> nullable_col).
  { destruct nullable_col as [null_map|]; [|reflexivity].
    simpl. f_equal. apply do_reverse_rows.
    - rewrite Hnull. split; [exact Hm|exact Hok].
    - unfold size. rewrite length_resize_uninit. unfold size. lia. }
  unfold do_reverse in Hmap. rewrite Hmap.
  unfold for_range. rewrite Z.sub_0_r.
  replace (Z.to_nat (size offsets)) with (length offsets) by (unfold size; lia).
  rewrite Hloop by (unfold size; rewrite length_resize_uninit; unfold size in *; lia).
  reflexivity.
Qed.

(** X26. [arrayReverse] on an array column of fixed strings of [n] bytes
    keeps the offsets and gives every row its strings in the opposite
    order, every string with its bytes as they are; under a null overlay
    the null marks of every row are reversed along with its strings. *)
Theorem arrayReverse_fixed_strings type rows n chars offsets m :
  0 < n -> array_ok offsets m -> size chars = m * n -> size chars < 2 ^ 64 ->
  executeImpl type rows (ColumnArray (ColumnFixedString n chars) offsets)
  = Ok (ColumnArray (ColumnFixedString n (reversed_fixed_rows n offsets chars)) offsets)
  /\ forall null_map,
       size null_map = m ->
       executeImpl type rows
         (ColumnArray (ColumnNullable (ColumnFixedString n chars) null_map) offsets)
       = Ok (ColumnArray
               (ColumnNullable (ColumnFixedString n (reversed_fixed_rows n offsets chars))
                  (reversed_rows offsets null_map))
               offsets).
Proof.
  intros Hn Hok Hchars Hsmall. split; [|intros null_map Hnull].
  - unfold executeImpl. cbn [executeConst checkAndGetColumnConst_Array].
    cbn [first_true fmap list_fmap number_types app executeNumber executeString].
    rewrite (reverse_executeFixedString n chars offsets m None) by auto. reflexivity.
  - unfold executeImpl. cbn [executeConst checkAndGetColumnConst_Array].
    cbn [first_true fmap list_fmap number_types app executeNumber executeString].
    rewrite (reverse_executeFixedString n chars offsets m (Some null_map)) by auto.
    reflexivity.
Qed.

End ReverseFixedStrings.

(** The row ['ab', 'cd'] of strings of two bytes becomes ['cd', 'ab']. *)
Lemma arrayReverse_fixed_strings_witness :
  @FunctionArrayReverse.executeImpl zero_memory (DataTypeArray (DataTypeFixedString 2)) 1
    (ColumnArray (ColumnFixedString 2 [97; 98; 99; 100]) [2])
  = Ok (ColumnArray (ColumnFixedString 2 [99; 100; 97; 98]) [2]).
Proof.
  apply (proj1 (@arrayReverse_fixed_strings zero_memory (DataTypeArray (DataTypeFixedString 2))
                  1 2 [97; 98; 99; 100] [2] 2
                  ltac:(lia) ltac:(unfold array_ok; simpl; lia) eq_refl
                  ltac:(unfold size; simpl; lia))).
Defined.

(** ** [arrayReverse] on strings *)

Lemma seqZ_snoc p k : seqZ p (Z.of_nat (Datatypes.S k)) = seqZ p (Z.of_nat k) ++ [p + Z.of_nat k].
Proof.
  replace (Z.of_nat (Datatypes.S k)) with (Z.of_nat k + 1) by lia.
  rewrite seqZ_app by lia. reflexivity.
Qed.

Lemma offsetAt_size so n : offsets_ok 0 so n -> offsetAt so (size so) = n.
Proof.
  intros Hok. destruct so as [|off rest].
  - simpl in Hok. subst n. reflexivity.
  - unfold offsetAt. destruct (Z.eqb_spec (size (off :: rest)) 0) as [Hz|_].
    + unfold size in Hz. simpl in Hz. lia.
    + apply (offsets_ok_last _ 0 n Hok). discriminate.
Qed.

Section ReverseStringRows.
Import FunctionArrayReverse.
Context `{Memory}.

(** The loop over the strings of a row that starts at string [p] and has
    [array_size] strings: [k] strings are still to be written. *)
Lemma reverse_strings_loop chars so p array_size : forall k j done cells done_offs todo_offs
    res_string_prev_offset,
  offsets_ok 0 so (size chars) -> size chars < 2 ^ 64 -> size so < 2 ^ 64 ->
  0 <= p -> 0 <= j -> j + Z.of_nat k = array_size -> p + array_size <= size so ->
  size done = res_string_prev_offset -> size done_offs = p + j ->
  offsetAt so (p + Z.of_nat k) - offsetAt so p <= size cells ->
  (k <= length todo_offs)%nat ->
  res_string_prev_offset + (offsetAt so (p + Z.of_nat k) - offsetAt so p) < 2 ^ 64 ->
  for_loop k j
    (fun j '(res_data, res_string_offsets, res_string_prev_offset) =>
       let j_reversed := size_t (array_size - j - 1) in
       let src_pos :=
         if size_t (p + j_reversed) =? 0 then 0
         else get so (size_t (p + j_reversed - 1)) in
       let string_size := size_t (get so (size_t (p + j_reversed)) - src_pos) in
       let res_data := memcpy res_data res_string_prev_offset chars src_pos string_size in
       let res_string_prev_offset := size_t (res_string_prev_offset + string_size) in
       (res_data,
        store res_string_offsets (size_t (p + j)) res_string_prev_offset,
        res_string_prev_offset))
    (done ++ cells, done_offs ++ todo_offs, res_string_prev_offset)
  = (done ++ concat (reverse (stored_string chars so <$> seqZ p (Z.of_nat k)))
       ++ drop (Z.to_nat (offsetAt so (p + Z.of_nat k) - offsetAt so p)) cells,
     done_offs
       ++ offsets_from res_string_prev_offset
            (reverse ((fun j => get so j - offsetAt so j) <$> seqZ p (Z.of_nat k)))
       ++ drop k todo_offs,
     res_string_prev_offset + (offsetAt so (p + Z.of_nat k) - offsetAt so p)).
Proof.
  induction k as [|k IH];
    intros j done cells done_offs todo_offs rspo Hso Hchars Hsize Hp Hj Hk Hrow Hdone
      Hdone_offs Hcells Htodo Hfit.
  - simpl. rewrite Z.add_0_r, Z.sub_diag, Z.add_0_r. reflexivity.
  - destruct todo_offs as [|slot todo_offs]; [simpl in Htodo; lia|]. simpl in Htodo.
    set (s := p + Z.of_nat k).
    pose proof (offsetAt_bounds so (size chars) s Hso ltac:(lia)) as Hs.
    assert (Hnext : offsetAt so (p + Z.of_nat (Datatypes.S k)) = get so s).
    { replace (p + Z.of_nat (Datatypes.S k)) with (s + 1) by lia. apply offsetAt_succ. lia. }
    assert (Hmono : offsetAt so p <= offsetAt so s).
    { pose proof (total_string_sizes so k p Hp) as Ht.
      pose proof (string_sizes_nonneg so (size chars) p k Hso Hp ltac:(lia)) as Hnn.
      apply total_nonneg in Hnn. fold s in Ht. lia. }
    pose proof (offsetAt_le so (size chars) p Hso ltac:(lia)) as Hstart.
    rewrite Hnext in *.
    assert (Hpos : (if s =? 0 then 0 else get so (size_t (s - 1))) = offsetAt so s).
    { unfold offsetAt. destruct (Z.eqb_spec s 0); [reflexivity|].
      rewrite size_t_small by lia. reflexivity. }
    set (sz := get so s - offsetAt so s).
    assert (Hcopy : memcpy (done ++ cells) rspo chars (offsetAt so s) sz
                    = (done ++ stored_string chars so s) ++ drop (Z.to_nat sz) cells).
    { unfold memcpy, stored_string, slice. fold sz. unfold size in Hdone.
      replace (Z.to_nat rspo) with (length done) by lia.
      rewrite take_app_length, drop_app_add, <- app_assoc. reflexivity. }
    pose proof (size_nonneg done) as Hrspo. rewrite Hdone in Hrspo.
    cbn [for_loop].
    replace (array_size - j - 1) with (Z.of_nat k) by lia.
    rewrite (size_t_small (Z.of_nat k)) by lia.
    fold s. rewrite (size_t_small s) by lia. rewrite Hpos. fold sz.
    rewrite (size_t_small sz) by (unfold sz; lia).
    rewrite (size_t_small (p + j)), size_t_small by (unfold sz; lia).
    rewrite Hcopy, store_next by exact Hdone_offs.
    assert (Hstored : size (stored_string chars so s) = sz).
    { unfold stored_string. rewrite size_slice by lia. reflexivity. }
    rewrite IH; auto; try lia.
    + rewrite seqZ_snoc, !fmap_app, !reverse_app. fold s.
      cbn [fmap list_fmap reverse rev_append app concat offsets_from].
      change (rev_append ?l []) with (reverse l).
      rewrite drop_drop, <- !app_assoc. simpl app. fold sz.
      f_equal; [f_equal|].
      * do 4 f_equal. unfold sz. lia.
      * unfold sz. fold s. lia.
    + rewrite size_app, Hstored, Hdone. reflexivity.
    + rewrite size_app, Hdone_offs. unfold size. simpl. lia.
    + unfold size in *. rewrite length_drop. fold s. unfold sz. lia.
    + fold s. unfold sz. lia.
Qed.

Lemma total_reverse ns : total (reverse ns) = total ns.
Proof.
  induction ns as [|n ns IH]; [reflexivity|].
  rewrite reverse_cons, total_app, IH.
  change (total [n]) with (n + 0). change (total (n :: ns)) with (n + total ns). lia.
Qed.

Lemma size_reversed_string_row chars so : forall k p,
  offsets_ok 0 so (size chars) -> 0 <= p -> p + Z.of_nat k <= size so ->
  size (concat (reverse (stored_string chars so <$> seqZ p (Z.of_nat k))))
  = offsetAt so (p + Z.of_nat k) - offsetAt so p.
Proof.
  induction k as [|k IH]; intros p Hso Hp Hk.
  - simpl. rewrite Z.add_0_r. change (size []) with 0. lia.
  - rewrite seqZ_snoc, fmap_app, reverse_app.
    cbn [fmap list_fmap reverse rev_append app concat].
    rewrite size_app, IH by (auto; lia).
    pose proof (offsetAt_bounds so (size chars) (p + Z.of_nat k) Hso ltac:(lia)) as Hs.
    unfold stored_string. rewrite size_slice by lia.
    replace (p + Z.of_nat (Datatypes.S k)) with (p + Z.of_nat k + 1) by lia.
    rewrite offsetAt_succ by lia. lia.
Qed.

(** The loop over the rows: [pre] are the offsets of the rows that are
    done, [done] and [done_offs] the bytes and the string offsets written
    for them. *)
Lemma reverse_string_rows chars so offsets : forall pre prev done cells done_offs todo_offs,
  offsets_ok 0 so (size chars) -> size chars < 2 ^ 64 -> size so < 2 ^ 64 ->
  offsets_ok prev offsets (size so) -> 0 <= prev ->
  size done = offsetAt so prev -> size cells = size chars - offsetAt so prev ->
  size done_offs = prev -> size todo_offs = size so - prev ->
  for_loop (length offsets) (size pre)
    (fun i '(res_data, res_string_offsets, src_array_prev_offset,
             res_string_prev_offset) =>
       let '(res_data, res_string_offsets, res_string_prev_offset) :=
         if negb (get (pre ++ offsets) i =? src_array_prev_offset) then
           let array_size := size_t (get (pre ++ offsets) i - src_array_prev_offset) in
           for_range 0 array_size
             (fun j '(res_data, res_string_offsets, res_string_prev_offset) =>
                let j_reversed := size_t (array_size - j - 1) in
                let src_pos :=
                  if size_t (src_array_prev_offset + j_reversed) =? 0 then 0
                  else get so (size_t (src_array_prev_offset + j_reversed - 1)) in
                let string_size :=
                  size_t (get so (size_t (src_array_prev_offset + j_reversed)) - src_pos) in
                let res_data :=
                  memcpy res_data res_string_prev_offset chars src_pos string_size in
                let res_string_prev_offset :=
                  size_t (res_string_prev_offset + string_size) in
                (res_data,
                 store res_string_offsets (size_t (src_array_prev_offset + j))
                   res_string_prev_offset,
                 res_string_prev_offset))
             (res_data, res_string_offsets, res_string_prev_offset)
         else (res_data, res_string_offsets, res_string_prev_offset) in
       (res_data, res_string_offsets, get (pre ++ offsets) i, res_string_prev_offset))
    (done ++ cells, done_offs ++ todo_offs, prev, offsetAt so prev)
  = (done
       ++ concat ((fun b => concat (reverse (stored_string chars so
                                               <$> seqZ (fst b) (snd b - fst b))))
                    <$> row_bounds prev offsets),
     done_offs
       ++ offsets_from (offsetAt so prev)
            (concat ((fun b => reverse ((fun j => get so j - offsetAt so j)
                                          <$> seqZ (fst b) (snd b - fst b)))
                       <$> row_bounds prev offsets)),
     List.last offsets prev,
     offsetAt so (List.last offsets prev)).
Proof.
  induction offsets as [|off rest IH];
    intros pre prev done cells done_offs todo_offs Hso Hchars Hsize Hok Hprev Hdone Hcells
      Hdone_offs Htodo.
  - simpl in Hok. subst prev. rewrite (offsetAt_size so (size chars) Hso) in *.
    simpl. rewrite !app_nil_r.
    destruct cells; [|unfold size in Hcells; simpl in Hcells; lia].
    destruct todo_offs; [|unfold size in Htodo; simpl in Htodo; lia].
    rewrite !app_nil_r, (offsetAt_size so (size chars) Hso). reflexivity.
  - destruct Hok as [Hle Hok]. pose proof (offsets_ok_bounds _ _ _ Hok) as [Hoff _].
    assert (Hget : get (pre ++ off :: rest) (size pre) = off).
    { unfold get, size. rewrite Nat2Z.id. apply list_lookup_total_middle. reflexivity. }
    cbn [for_loop length row_bounds]. rewrite !fmap_cons. cbn [concat fst snd].
    rewrite Hget, last_cons_default.
    replace (pre ++ off :: rest) with ((pre ++ [off]) ++ rest)
      by (rewrite <- app_assoc; reflexivity).
    replace (size pre + 1) with (size (pre ++ [off])) by (rewrite size_app; reflexivity).
    destruct (Z.eqb_spec off prev) as [->|Hne]; simpl negb; cbv iota.
    + rewrite Z.sub_diag. simpl app. apply IH; auto.
    + rewrite (size_t_small (off - prev)) by lia.
      set (bytes := offsetAt so off - offsetAt so prev).
      assert (Hbytes : 0 <= bytes).
      { pose proof (total_string_sizes so (Z.to_nat (off - prev)) prev Hprev) as Ht.
        pose proof (string_sizes_nonneg so (size chars) prev (Z.to_nat (off - prev)) Hso
                      Hprev ltac:(lia)) as Hnn.
        apply total_nonneg in Hnn.
        replace (prev + Z.of_nat (Z.to_nat (off - prev))) with off in Ht by lia.
        unfold bytes. lia. }
      pose proof (offsetAt_le so (size chars) off Hso ltac:(lia)) as Hend.
      pose proof (offsetAt_le so (size chars) prev Hso ltac:(lia)) as Hstart.
      pose proof (reverse_strings_loop chars so prev (off - prev) (Z.to_nat (off - prev)) 0
                    done cells done_offs todo_offs (offsetAt so prev)
                    Hso Hchars Hsize Hprev ltac:(lia) ltac:(lia) ltac:(lia) Hdone
                    ltac:(lia)) as Hloop.
      rewrite Z2Nat.id in Hloop by lia.
      replace (prev + (off - prev)) with off in Hloop by lia. fold bytes in Hloop.
      cbv zeta in Hloop. unfold for_range. rewrite Z.sub_0_r.
      rewrite Hloop by (unfold size in *; lia). clear Hloop.
      replace (offsetAt so prev + bytes) with (offsetAt so off) by (unfold bytes; lia).
      rewrite !(app_assoc done), !(app_assoc done_offs).
      rewrite IH; auto; try lia.
      * assert (Htotal : total ((fun j => get so j - offsetAt so j)
                                  <$> seqZ prev (off - prev)) = bytes).
        { replace (off - prev) with (Z.of_nat (Z.to_nat (off - prev))) by lia.
          rewrite total_string_sizes by lia. unfold bytes. do 2 f_equal. lia. }
        rewrite offsets_from_app, total_reverse, Htotal.
        replace (offsetAt so prev + bytes) with (offsetAt so off) by (unfold bytes; lia).
        rewrite <- (app_assoc done_offs). reflexivity.
      * rewrite size_app, Hdone.
        replace (off - prev) with (Z.of_nat (Z.to_nat (off - prev))) by lia.
        rewrite size_reversed_string_row by (auto; lia).
        replace (prev + Z.of_nat (Z.to_nat (off - prev))) with off by lia. lia.
      * unfold size in *. rewrite length_drop. unfold bytes. lia.
      * rewrite size_app, Hdone_offs. unfold size.
        rewrite length_offsets_from, length_reverse, length_fmap, length_seqZ. lia.
      * unfold size in *. rewrite length_drop. lia.
Qed.

Lemma reverse_executeString chars so offsets nullable_col :
  array_ok offsets (size so) -> array_ok so (size chars) ->
  exists res_null_map,
    executeString (ColumnString chars so) offsets nullable_col
    = Some (reversed_strings chars so offsets, res_null_map)
    /\ (nullable_col = None -> res_null_map = None)
    /\ (nullable_col <> None -> res_null_map <> None).
Proof.
  intros [Hsize Hok] [Hchars Hso].
  pose proof (reverse_string_rows chars so offsets [] 0 []
                (resize_uninit (size chars) []) [] (resize_uninit (size so) [])
                Hso Hchars Hsize Hok ltac:(lia) eq_refl) as Hloop.
  change (offsetAt so 0) with 0 in Hloop. simpl app in Hloop.
  change (size []) with 0 in Hloop. cbv zeta in Hloop. unfold for_range in Hloop.
  unfold executeString, for_range. rewrite Z.sub_0_r.
  replace (Z.to_nat (size offsets)) with (length offsets) by (unfold size; lia).
  rewrite Hloop
    by (try reflexivity; unfold size; rewrite length_resize_uninit; unfold size; lia).
  eexists. split; [reflexivity|].
  destruct nullable_col; split; congruence.
Qed.

(** X27. [arrayReverse] on an array column of strings keeps the offsets of
    the rows and gives every row its strings in the opposite order, every
    string with its bytes and its zero byte as they are, the offsets of the
    strings following their sizes; the strings are the same under a null
    overlay. *)
Theorem arrayReverse_strings type rows chars string_offsets offsets :
  array_ok offsets (size string_offsets) -> array_ok string_offsets (size chars) ->
  executeImpl type rows (ColumnArray (ColumnString chars string_offsets) offsets)
  = Ok (ColumnArray (reversed_strings chars string_offsets offsets) offsets)
  /\ forall null_map,
       size null_map = size string_offsets -> size string_offsets <= size offsets ->
       exists res_null_map,
         executeImpl type rows
           (ColumnArray (ColumnNullable (ColumnString chars string_offsets) null_map) offsets)
         = Ok (ColumnArray
                 (ColumnNullable (reversed_strings chars string_offsets offsets)
                    res_null_map)
                 offsets).
Proof.
  intros Hok Hso. split; [|intros null_map Hnull Hrows].
  - destruct (reverse_executeString chars string_offsets offsets None Hok Hso)
      as (res_null_map & Hrun & Hnone & _).
    rewrite (Hnone eq_refl) in Hrun.
    unfold executeImpl. cbn [executeConst checkAndGetColumnConst_Array].
    cbn [first_true fmap list_fmap number_types app executeNumber].
    rewrite Hrun. reflexivity.
  - destruct (reverse_executeString chars string_offsets offsets (Some null_map) Hok Hso)
      as (res_null_map & Hrun & _ & Hsome).
    destruct res_null_map as [res_null_map|]; [|exfalso; exact (Hsome ltac:(discriminate) eq_refl)].
    exists res_null_map.
    unfold executeImpl. cbn [executeConst checkAndGetColumnConst_Array].
    cbn [first_true fmap list_fmap number_types app executeNumber].
    rewrite Hrun. reflexivity.
Qed.

End ReverseStringRows.

(** The row ['a', 'bc'] becomes ['bc', 'a']. *)
Lemma arrayReverse_strings_witness :
  @FunctionArrayReverse.executeImpl zero_memory (DataTypeArray DataTypeString) 1
    (ColumnArray (ColumnString [97; 0; 98; 99; 0] [2; 5]) [2])
  = Ok (ColumnArray (ColumnString [98; 99; 0; 97; 0] [3; 5]) [2]).
Proof.
  apply (proj1 (@arrayReverse_strings zero_memory (DataTypeArray DataTypeString) 1
                  [97; 0; 98; 99; 0] [2; 5] [2]
                  ltac:(unfold array_ok, size; simpl; lia)
                  ltac:(unfold array_ok, size; simpl; lia))).
Defined.

(** ** [arrayElement] on strings *)

Lemma offsetAt_mono so n x y :
  offsets_ok 0 so n -> 0 <= x <= y -> y <= size so -> offsetAt so x <= offsetAt so y.
Proof.
  intros Hok Hx Hy.
  pose proof (total_string_sizes so (Z.to_nat (y - x)) x ltac:(lia)) as Ht.
  pose proof (string_sizes_nonneg so n x (Z.to_nat (y - x)) Hok ltac:(lia) ltac:(lia)) as Hnn.
  apply total_nonneg in Hnn.
  replace (x + Z.of_nat (Z.to_nat (y - x))) with y in Ht by lia. lia.
Qed.

Lemma store_resize_push `{Memory} l n v :
  size l = n -> store (resize_uninit (n + 1) l) n v = l ++ [v].
Proof.
  intros Hl. unfold resize_uninit, size in *.
  rewrite take_ge by lia.
  replace (Z.to_nat (n + 1) - length l)%nat with 1%nat by lia. simpl seq. simpl fmap.
  rewrite (store_next l _ []) by (unfold size; lia). apply app_nil_r.
Qed.

Section ElementStringRows.
Import ArrayElementStringImpl.
Context `{Memory}.

(** The branch that inserts an empty string, on a state that holds the
    strings and the offsets of the rows before [i]. *)
Lemma empty_string_row i off done done_offs slot todo b c cro :
  size done = cro -> size done_offs = i -> cro + 1 < 2 ^ 64 -> roomy b 1 ->
  empty_string i off (mkLoop done (done_offs ++ slot :: todo) b c cro)
  = Ok (mkLoop (done ++ [0]) ((done_offs ++ [cro + 1]) ++ todo) (marked b [None])
          off (cro + 1)).
Proof.
  intros Hdone Hoffs Hfit Hroom. unfold empty_string.
  cbn [result_data result_offsets builder current_offset current_result_offset].
  pose proof (size_nonneg done).
  rewrite size_t_small by lia.
  change (observe_miss b) with (tell b None). rewrite tell_marked by exact Hroom.
  simpl. rewrite store_resize_push by exact Hdone.
  rewrite store_next by exact Hoffs. reflexivity.
Qed.

(** The branch that copies the string [current_offset + adjusted_index]. *)
Lemma take_string_row chars so i a j off done done_offs slot todo b c cro :
  offsets_ok 0 so (size chars) -> size chars < 2 ^ 64 -> size so < 2 ^ 64 ->
  0 <= c -> 0 <= a -> c + a < size so ->
  size done = cro -> size done_offs = i ->
  cro + (get so (c + a) - offsetAt so (c + a)) < 2 ^ 64 -> roomy b 1 ->
  take_string chars so i a j off (mkLoop done (done_offs ++ slot :: todo) b c cro)
  = Ok (mkLoop (done ++ stored_string chars so (c + a))
          ((done_offs ++ [cro + (get so (c + a) - offsetAt so (c + a))]) ++ todo)
          (marked b [Some j]) off
          (cro + (get so (c + a) - offsetAt so (c + a)))).
Proof.
  intros Hso Hchars Hsize Hc Ha Hlt Hdone Hoffs Hfit Hroom. unfold take_string.
  cbn [result_data result_offsets builder current_offset current_result_offset].
  pose proof (size_nonneg done).
  pose proof (offsetAt_bounds so (size chars) (c + a) Hso ltac:(lia)) as Hs.
  assert (Hpos : (if (c =? 0) && (a =? 0) then 0 else get so (size_t (c + a - 1)))
                 = offsetAt so (c + a)).
  { unfold offsetAt.
    destruct (Z.eqb_spec c 0), (Z.eqb_spec a 0), (Z.eqb_spec (c + a) 0);
      simpl; try lia; try reflexivity; rewrite size_t_small by lia; reflexivity. }
  rewrite Hpos, (size_t_small (c + a)) by lia.
  rewrite (size_t_small (get so (c + a) - offsetAt so (c + a))) by lia.
  rewrite size_t_small by lia.
  change (observe b j) with (tell b (Some j)). rewrite tell_marked by exact Hroom.
  simpl. rewrite <- Hdone at 1 2. rewrite memcpy_append by (unfold size in *; lia).
  rewrite store_next by exact Hoffs. unfold stored_string.
  replace (offsetAt so (c + a) + (get so (c + a) - offsetAt so (c + a)))
    with (get so (c + a)) by lia.
  reflexivity.
Qed.

(** A loop over the rows whose body takes one of the two branches, as
    [pick] says, and hands the builder the source index [say j] for the
    string [j]. *)
Section Loop.
Variables (chars so all : list Z) (body : Z -> Loop -> Result Loop).
Variables (pick : Z -> Z -> Z -> option Z) (say : Z -> Z).

Hypothesis body_branches : forall i off st,
  0 <= i -> all !! Z.to_nat i = Some off ->
  0 <= current_offset st <= off -> off <= size so ->
  match pick i (current_offset st) off with
  | Some j =>
      current_offset st <= j < off
      /\ body i st = take_string chars so i (j - current_offset st) (say j) off st
  | None => body i st = empty_string i off st
  end.

Lemma string_loop suf : forall pre st done_offs todo_offs,
  pre ++ suf = all ->
  offsets_ok 0 so (size chars) -> size chars < 2 ^ 64 -> size so < 2 ^ 64 ->
  offsets_ok (current_offset st) suf (size so) -> 0 <= current_offset st ->
  result_offsets st = done_offs ++ todo_offs -> size done_offs = size pre ->
  (length suf <= length todo_offs)%nat ->
  size (result_data st) = current_result_offset st ->
  current_result_offset st + (size chars - offsetAt so (current_offset st)) + size suf
  < 2 ^ 64 ->
  roomy (builder st) (size suf) ->
  let reads := picks pick (size pre) (current_offset st) suf in
  for_loopM (length suf) (size pre) body st
  = Ok (mkLoop
          (result_data st ++ concat (string_of chars so <$> reads))
          (done_offs
             ++ offsets_from (current_result_offset st)
                  (size <$> (string_of chars so <$> reads))
             ++ drop (length suf) todo_offs)
          (marked (builder st) ((fun read : option Z => say <$> read) <$> reads))
          (List.last suf (current_offset st))
          (current_result_offset st + total (size <$> (string_of chars so <$> reads)))).
Proof.
  induction suf as [|off rest IH];
    intros pre st done_offs todo_offs Hall Hso Hchars Hsize Hok Hc Hoffs Hdone Htodo Hbytes
      Hfit Hroom reads.
  - subst reads. simpl. rewrite !app_nil_r, Z.add_0_r, drop_0, <- Hoffs.
    rewrite marked_nil by exact Hroom. destruct st; reflexivity.
  - destruct todo_offs as [|slot todo_offs]; [simpl in Htodo; lia|]. simpl in Htodo.
    destruct st as [done offs b c cro].
    cbn [result_data result_offsets builder current_offset current_result_offset] in *.
    subst offs. destruct Hok as [Hle Hok].
    pose proof (offsets_ok_bounds _ _ _ Hok) as [Hoff _].
    assert (Hcons : size (off :: rest) = 1 + size rest)
      by (unfold size; simpl length; lia).
    rewrite Hcons in Hfit, Hroom.
    pose proof (size_nonneg rest) as Hrest. pose proof (size_nonneg pre) as Hpre.
    pose proof (size_nonneg done) as Hcro. rewrite Hbytes in Hcro.
    assert (Hlook : all !! Z.to_nat (size pre) = Some off).
    { subst all. unfold size. rewrite Nat2Z.id. apply list_lookup_middle. reflexivity. }
    pose proof (body_branches (size pre) off (mkLoop done (done_offs ++ slot :: todo_offs)
                                               b c cro)
                  Hpre Hlook ltac:(simpl; lia) Hoff) as Hbranch.
    cbn [current_offset] in Hbranch.
    assert (Hroom1 : roomy b 1).
    { intros Hactive. destruct (Hroom Hactive) as (? & ? & ?). lia. }
    pose proof (offsetAt_mono so (size chars) c off Hso ltac:(lia) Hoff) as Hmono.
    pose proof (offsetAt_le so (size chars) off Hso ltac:(lia)) as Hend.
    pose proof (offsetAt_le so (size chars) c Hso ltac:(lia)) as Hstart.
    subst reads. cbn [for_loopM length picks]. rewrite !fmap_cons.
    cbn [concat offsets_from].
    set (read := pick (size pre) c off) in *.
    assert (Hstep :
      body (size pre) (mkLoop done (done_offs ++ slot :: todo_offs) b c cro)
      = Ok (mkLoop (done ++ string_of chars so read)
              ((done_offs ++ [cro + size (string_of chars so read)]) ++ todo_offs)
              (marked b [say <$> read]) off
              (cro + size (string_of chars so read)))
      /\ 0 <= size (string_of chars so read) <= offsetAt so off - offsetAt so c + 1).
    { destruct read as [j|].
      - destruct Hbranch as [Hj ->].
        pose proof (offsetAt_bounds so (size chars) j Hso ltac:(lia)) as Hs.
        pose proof (offsetAt_mono so (size chars) c j Hso ltac:(lia) ltac:(lia)) as Hlo.
        pose proof (offsetAt_mono so (size chars) (j + 1) off Hso ltac:(lia) Hoff) as Hhi.
        rewrite offsetAt_succ in Hhi by lia.
        assert (Hstored : size (stored_string chars so j) = get so j - offsetAt so j).
        { unfold stored_string. rewrite size_slice by lia. reflexivity. }
        simpl string_of. rewrite Hstored. split; [|lia].
        rewrite take_string_row; auto; try lia;
          replace (c + (j - c)) with j by lia; try lia. reflexivity.
      - rewrite Hbranch. simpl string_of. change (size [0]) with 1. split; [|lia].
        apply empty_string_row; auto. lia. }
    destruct Hstep as [Hstep Hlen]. rewrite Hstep. simpl mbind. simpl Result_bind.
    replace (size pre + 1) with (size (pre ++ [off])) by (rewrite size_app; reflexivity).
    rewrite (IH (pre ++ [off]) _
               (done_offs ++ [cro + size (string_of chars so read)]) todo_offs);
      cbn [result_data result_offsets builder current_offset current_result_offset];
      auto; try lia.
    + rewrite last_cons_default.
      rewrite (marked_app b [say <$> read]).
      * simpl app. change (total (?x :: ?l)) with (x + total l).
        rewrite <- !app_assoc. simpl app. do 2 f_equal. lia.
      * simpl length. rewrite length_fmap, length_picks.
        intros Hactive. destruct (Hroom Hactive) as (? & ? & ?).
        unfold size in *. repeat split; lia.
    + rewrite <- app_assoc. exact Hall.
    + rewrite !size_app, Hdone. reflexivity.
    + rewrite size_app, Hbytes. reflexivity.
    + apply roomy_marked; [exact Hrest|].
      intros Hactive. destruct (Hroom Hactive) as (? & ? & ?).
      simpl length. repeat split; lia.
Qed.

End Loop.

Lemma string_rows_from_start chars so offsets body pick say b :
  (forall i off st,
     0 <= i -> offsets !! Z.to_nat i = Some off ->
     0 <= current_offset st <= off -> off <= size so ->
     match pick i (current_offset st) off with
     | Some j =>
         current_offset st <= j < off
         /\ body i st = take_string chars so i (j - current_offset st) (say j) off st
     | None => body i st = empty_string i off st
     end) ->
  array_ok offsets (size so) -> array_ok so (size chars) ->
  size chars + size offsets < 2 ^ 64 -> roomy b (size offsets) ->
  let reads := picks pick 0 0 offsets in
  (st ← for_rangeM 0 (size offsets) body
          (mkLoop [] (resize_uninit (size offsets) []) b 0 0);
   Ok (result_data st, result_offsets st, builder st))
  = Ok (concat (string_of chars so <$> reads),
        offsets_from 0 (size <$> (string_of chars so <$> reads)),
        marked b ((fun read : option Z => say <$> read) <$> reads)).
Proof.
  intros Hbody [Hsize Hok] [Hchars Hso] Hfit Hroom reads.
  pose proof (size_nonneg offsets) as Hrows.
  unfold for_rangeM. rewrite Z.sub_0_r.
  replace (Z.to_nat (size offsets)) with (length offsets) by (unfold size; lia).
  pose proof (string_loop chars so offsets body pick say Hbody offsets []
                (mkLoop [] (resize_uninit (size offsets) []) b 0 0)
                [] (resize_uninit (size offsets) []) eq_refl Hso Hchars Hsize) as Hloop.
  cbn [result_data result_offsets builder current_offset current_result_offset] in Hloop.
  change (size []) with 0 in Hloop. change (offsetAt so 0) with 0 in Hloop.
  rewrite Hloop; clear Hloop; auto; try lia.
  - simpl mbind. simpl Result_bind.
    cbn [result_data result_offsets builder]. fold reads.
    rewrite drop_ge, app_nil_r by (rewrite length_resize_uninit; unfold size; lia).
    reflexivity.
  - rewrite length_resize_uninit. unfold size. lia.
Qed.

Lemma get_lookup (l : list Z) i x : 0 <= i -> l !! Z.to_nat i = Some x -> get l i = x.
Proof. intros _ Hi. unfold get. apply list_lookup_total_correct. exact Hi. Qed.

Lemma string_vector_rows TIndex chars offsets so indices b :
  array_ok offsets (size so) -> array_ok so (size chars) ->
  size chars + size offsets < 2 ^ 64 ->
  is_float TIndex = false -> Forall (in_range TIndex) indices ->
  size indices = size offsets -> Forall (negatable TIndex) indices ->
  roomy b (size offsets) ->
  let reads := picks (pick_vector TIndex indices) 0 0 offsets in
  vector TIndex chars offsets so indices [] [] b
  = Ok (concat (string_of chars so <$> reads),
        offsets_from 0 (size <$> (string_of chars so <$> reads)),
        marked b ((fun read : option Z => before <$> read) <$> reads)).
Proof.
  intros Hok Hso Hfit Hint Hrange Hlen Hneg Hroom reads. unfold vector.
  apply (string_rows_from_start chars so offsets _ (pick_vector TIndex indices) before b);
    auto.
  intros i off st Hi Hlook Hc Hoff.
  rewrite (get_lookup offsets i off Hi Hlook).
  assert (Hlt : (Z.to_nat i < length indices)%nat).
  { apply lookup_lt_Some in Hlook. unfold size in Hlen. lia. }
  assert (Hin : in_range TIndex (get indices i)).
  { rewrite Forall_lookup in Hrange. apply (Hrange (Z.to_nat i)).
    apply list_lookup_lookup_total_lt. exact Hlt. }
  assert (Hnegatable : negatable TIndex (get indices i)).
  { rewrite Forall_lookup in Hneg. apply (Hneg (Z.to_nat i)).
    apply list_lookup_lookup_total_lt. exact Hlt. }
  pose proof (in_range_bounds _ _ Hint Hin) as Hbounds.
  destruct Hok as [Hsize _].
  set (index := get indices i) in *. set (c := current_offset st) in *.
  unfold pick_vector. fold index. rewrite (size_t_small (off - c)) by lia.
  unfold access.
  destruct (Z.gtb_spec index 0) as [Hpos|Hnpos]; simpl andb.
  - rewrite (size_t_small index) by lia.
    destruct (Z.leb_spec index (off - c)) as [Hle|Hgt].
    + rewrite (size_t_small (index - 1)), (size_t_small (c + index - 1)) by lia.
      destruct (Z.ltb_spec (index - 1) (off - c)); [|lia].
      split; [lia|]. f_equal; [lia|]. unfold before.
      destruct (Z.eqb_spec c 0), (Z.eqb_spec (index - 1) 0),
        (Z.eqb_spec (c + index - 1) 0); simpl; try lia; try reflexivity;
        rewrite size_t_small by lia; lia.
    + destruct (Z.ltb_spec index 0); [lia|]. simpl andb. cbv iota.
      rewrite Z.ltb_irrefl. reflexivity.
  - destruct (Z.ltb_spec index 0) as [Hlt0|Hge0]; simpl andb.
    + rewrite size_t_negate by (auto; lia).
      destruct (Z.leb_spec (- index) (off - c)) as [Hle|Hgt].
      * rewrite (size_t_small (off - c + index)), (size_t_small (off + index)) by lia.
        destruct (Z.ltb_spec (off - c + index) (off - c)); [|lia].
        split; [lia|]. f_equal; [lia|]. unfold before.
        destruct (Z.eqb_spec c 0), (Z.eqb_spec (off - c + index) 0),
          (Z.eqb_spec (off + index) 0); simpl; try lia; try reflexivity;
          rewrite size_t_small by lia; lia.
      * rewrite Z.ltb_irrefl. reflexivity.
    + rewrite Z.ltb_irrefl. reflexivity.
Qed.

Lemma string_vectorConst_rows negative chars offsets so index' b :
  array_ok offsets (size so) -> array_ok so (size chars) ->
  size chars + size offsets < 2 ^ 64 -> 0 <= index' ->
  roomy b (size offsets) ->
  let reads := picks (pick_const negative index') 0 0 offsets in
  vectorConst negative chars offsets so index' [] [] b
  = Ok (concat (string_of chars so <$> reads),
        offsets_from 0 (size <$> (string_of chars so <$> reads)),
        marked b reads).
Proof.
  intros Hok Hso Hfit Hindex Hroom reads. unfold vectorConst.
  replace (marked b reads) with (marked b ((fun read : option Z => id <$> read) <$> reads)).
  - apply (string_rows_from_start chars so offsets _ (pick_const negative index') id b);
      auto.
    intros i off st Hi Hlook Hc Hoff.
    rewrite (get_lookup offsets i off Hi Hlook).
    destruct Hok as [Hsize _]. set (c := current_offset st) in *.
    unfold pick_const. rewrite (size_t_small (off - c)) by lia.
    destruct (Z.ltb_spec index' (off - c)) as [Hlt|Hge]; [|reflexivity].
    destruct negative; simpl negb; cbv iota.
    + rewrite (size_t_small (off - c - index' - 1)), (size_t_small (off - index' - 1))
        by lia.
      split; [lia|]. f_equal; [lia|]. unfold id.
      destruct (Z.eqb_spec c 0), (Z.eqb_spec (off - c - index' - 1) 0);
        simpl; try lia; rewrite size_t_small by lia; lia.
    + rewrite (size_t_small (c + index')) by lia.
      split; [lia|]. f_equal; [lia|]. unfold id.
      destruct (Z.eqb_spec c 0), (Z.eqb_spec index' 0); simpl; lia.
  - f_equal. rewrite <- (list_fmap_id reads) at 2. apply list_fmap_ext.
    intros _ [j|] _; reflexivity.
Qed.

End ElementStringRows.

Section StringColumns.
Import FunctionArrayElement.
Context `{Memory} `{FieldInterface} `{DataTypeInterface}.

Lemma perform_plain_string result_type rows chars so offsets TIndex indices b :
  is_float TIndex = false ->
  perform_plain result_type rows (ColumnArray (ColumnString chars so) offsets)
    (ColumnVector TIndex indices) b
  = ('(res_chars, res_offsets, b') ←
       ArrayElementStringImpl.vector TIndex chars offsets so indices [] []
         (if active b then initSink b (size indices) else b);
     Ok (ColumnString res_chars res_offsets, b')).
Proof. intros Hint. destruct TIndex; try discriminate Hint; reflexivity. Qed.

Lemma perform_plain_string_const result_type rows chars so offsets type index s b :
  field_equal index (FUInt64 0) = false ->
  perform_plain result_type rows (ColumnArray (ColumnString chars so) offsets)
    (ColumnConst type index s) b
  = ('(res_chars, res_offsets, b') ←
       constant_index index
         (fun i => ArrayElementStringImpl.vectorConst false chars offsets so i [] []
                     (if active b then initSink b rows else b))
         (fun i => ArrayElementStringImpl.vectorConst true chars offsets so i [] []
                     (if active b then initSink b rows else b));
     Ok (ColumnString res_chars res_offsets, b')).
Proof.
  intros Hnz. unfold perform_plain. simpl isConst. simpl first_field. cbv iota.
  simpl negb. cbv iota. rewrite Hnz. reflexivity.
Qed.

Lemma size_t_nonneg z : 0 <= size_t z.
Proof. unfold size_t, wrap. apply Z.mod_pos_bound. lia. Qed.

Lemma string_executeImpl result_type chars so offsets index_column :
  array_ok offsets (size so) -> array_ok so (size chars) ->
  size chars + size offsets < 2 ^ 64 ->
  index_argument index_column (size offsets) -> negatable_indices index_column ->
  let reads := index_reads index_column offsets in
  executeImpl result_type (size offsets) (ColumnArray (ColumnString chars so) offsets)
    index_column
  = Ok (element_strings chars so reads)
  /\ forall null_map,
       executeImpl result_type (size offsets)
         (ColumnArray (ColumnNullable (ColumnString chars so) null_map) offsets)
         index_column
       = Ok (ColumnNullable (element_strings chars so reads)
               (null_mark null_map <$> (told index_column <$> reads))).
Proof.
  intros Hok Hso Hfit Hindex Hneg reads.
  assert (Hplain : forall b, active b = false -> roomy b (size offsets)).
  { intros b Hb Hactive. rewrite Hb in Hactive. discriminate Hactive. }
  assert (Hroom : forall null_map,
            roomy (initSink (initSource_nullable empty null_map) (size offsets))
              (size offsets)).
  { intros null_map _. simpl. unfold size. rewrite length_alloc. lia. }
  assert (Hid : forall l : list (option Z), (fun read : option Z => read) <$> l = l).
  { intros l. apply list_fmap_id. }
  destruct index_column as [TIndex indices| | | | | |type [|v|v| | | |] s| |];
    try contradiction; simpl in Hindex, Hneg; subst reads; unfold index_reads, told.
  - destruct Hindex as (Hint & Hrange & Hlen). split; [|intros null_map].
    + unfold executeImpl. simpl executeImpl_array. unfold perform. simpl executeTuple.
      cbv iota. rewrite perform_plain_string by assumption. simpl active. cbv iota.
      rewrite string_vector_rows by (auto; apply Hplain; reflexivity). reflexivity.
    + unfold executeImpl. simpl executeImpl_array. unfold perform. simpl executeTuple.
      cbv iota. rewrite perform_plain_string by assumption.
      change (active (initSource_nullable empty null_map)) with true. cbv iota.
      rewrite Hlen, string_vector_rows by (auto; apply Hroom).
      simpl mbind. simpl Result_bind. rewrite length_fmap, length_picks.
      rewrite drop_ge, app_nil_r by (rewrite length_alloc; unfold size; lia).
      reflexivity.
  - destruct Hindex as (_ & Hnz). split; [|intros null_map].
    + unfold executeImpl. simpl executeImpl_array. unfold perform. simpl executeTuple.
      cbv iota. rewrite perform_plain_string_const by assumption. simpl active. cbv iota.
      simpl constant_index.
      rewrite string_vectorConst_rows
        by (auto; try apply size_t_nonneg; apply Hplain; reflexivity).
      reflexivity.
    + unfold executeImpl. simpl executeImpl_array. unfold perform. simpl executeTuple.
      cbv iota. rewrite perform_plain_string_const by assumption.
      change (active (initSource_nullable empty null_map)) with true. cbv iota.
      simpl constant_index.
      rewrite string_vectorConst_rows by (auto; try apply size_t_nonneg; apply Hroom).
      simpl mbind. simpl Result_bind. rewrite length_picks, Hid.
      rewrite drop_ge, app_nil_r by (rewrite length_alloc; unfold size; lia).
      reflexivity.
  - destruct Hindex as (_ & Hnz). split; [|intros null_map].
    + unfold executeImpl. simpl executeImpl_array. unfold perform. simpl executeTuple.
      cbv iota. rewrite perform_plain_string_const by assumption. simpl active. cbv iota.
      simpl constant_index.
      rewrite string_vectorConst_rows
        by (auto; try apply size_t_nonneg; apply Hplain; reflexivity).
      reflexivity.
    + unfold executeImpl. simpl executeImpl_array. unfold perform. simpl executeTuple.
      cbv iota. rewrite perform_plain_string_const by assumption.
      change (active (initSource_nullable empty null_map)) with true. cbv iota.
      simpl constant_index.
      rewrite string_vectorConst_rows by (auto; try apply size_t_nonneg; apply Hroom).
      simpl mbind. simpl Result_bind. rewrite length_picks, Hid.
      rewrite drop_ge, app_nil_r by (rewrite length_alloc; unfold size; lia).
      reflexivity.
Qed.

(** X28. [arrayElement] on an array column of strings, with an index per
    row or a constant index: the result holds, one after the other, for
    every row the string the index selects, with its zero byte, or the empty
    string when the index selects none, and its offsets follow the sizes of
    these strings.  Under a null overlay the strings are the same; with a
    constant index the null mark of a row is that of the string it reads
    (0 when it reads none), with an index per row it is the mark of the
    string before the one it reads (of the string 0 for the string 0). *)
Theorem arrayElement_strings result_type chars string_offsets offsets index_column :
  array_ok offsets (size string_offsets) -> array_ok string_offsets (size chars) ->
  size string_offsets < 2 ^ 63 -> size chars + size offsets < 2 ^ 64 ->
  index_argument index_column (size offsets) -> negatable_indices index_column ->
  exists reads,
    length reads = length offsets
    /\ (forall i p o,
          row_bounds 0 offsets !! i = Some (p, o) ->
          reads !! i = Some (selected index_column (Z.of_nat i) p o))
    /\ executeImpl result_type (size offsets)
         (ColumnArray (ColumnString chars string_offsets) offsets) index_column
       = Ok (element_strings chars string_offsets reads)
    /\ forall null_map,
         executeImpl result_type (size offsets)
           (ColumnArray (ColumnNullable (ColumnString chars string_offsets) null_map)
              offsets)
           index_column
         = Ok (ColumnNullable (element_strings chars string_offsets reads)
                 (null_mark null_map <$> (told index_column <$> reads))).
Proof.
  intros Hok Hso Hsmall Hfit Hindex Hneg.
  destruct (string_executeImpl result_type chars string_offsets offsets index_column
              Hok Hso Hfit Hindex Hneg) as [Hplain Hnullable].
  exists (index_reads index_column offsets). split; [|split; [|split]].
  - unfold index_reads.
    destruct index_column as [TIndex indices| | | | | |type [|v|v| | | |] s| |];
      try contradiction; apply length_picks.
  - intros i p o Hi.
    apply (index_reads_selected offsets (size string_offsets) index_column
             (proj2 Hok) Hsmall Hindex i p o Hi).
    exact Hneg.
  - exact Hplain.
  - exact Hnullable.
Qed.

End StringColumns.

(** The row ['a', 'b'] read at the index 2 gives 'b'. *)
Lemma arrayElement_strings_witness :
  @FunctionArrayElement.executeImpl zero_memory scalar_fields scalar_defaults
    DataTypeString 1 (ColumnArray (ColumnString [97; 0; 98; 0] [2; 4]) [2])
    (ColumnVector UInt8 [2])
  = Ok (ColumnString [98; 0] [2]).
Proof.
  destruct (@arrayElement_strings zero_memory scalar_fields scalar_defaults
              DataTypeString [97; 0; 98; 0] [2; 4] [2] (ColumnVector UInt8 [2])
              ltac:(unfold array_ok, size; simpl; lia)
              ltac:(unfold array_ok, size; simpl; lia)
              ltac:(unfold size; simpl; lia) ltac:(unfold size; simpl; lia)
              ltac:(simpl; repeat split; [repeat constructor; unfold in_range; simpl; lia])
              ltac:(simpl; repeat constructor))
    as (reads & Hlen & Hsel & Hrun & _).
  specialize (Hsel O 0 2 eq_refl).
  destruct reads as [|read [|? ?]]; try discriminate Hlen.
  simpl in Hsel. injection Hsel as ->. exact Hrun.
Defined.

(** ** [arrayElement] on a constant array with an index per row *)

Section ConstantArrayRows.
Import FunctionArrayElement.
Context `{Memory} `{FieldInterface} `{DataTypeInterface}.

Lemma position_range k len j : position k len = Some j -> 0 <= j < len.
Proof.
  unfold position. intros Hpos.
  destruct (decide (1 <= k <= len)); [injection Hpos as <-; lia|].
  destruct (decide (- len <= k <= -1)); [injection Hpos as <-; lia|discriminate].
Qed.

(** One iteration of the loop of [executeConst]. *)
Lemma const_step TIndex (arr : Array) index ops b :
  is_float TIndex = false -> in_range TIndex index -> negatable TIndex index ->
  Z.of_nat (length arr) < 2 ^ 63 -> roomy b 1 ->
  match access TIndex index (Z.of_nat (length arr)) with
  | FromStart =>
      let j := size_t (index - 1) in
      b' ← observe b j; Ok (mkConstLoop (ops ++ [Insert (arr !!! Z.to_nat j)]) b')
  | FromEnd =>
      let j := size_t (Z.of_nat (length arr) + index) in
      b' ← observe b j; Ok (mkConstLoop (ops ++ [Insert (arr !!! Z.to_nat j)]) b')
  | Miss => b' ← observe_miss b; Ok (mkConstLoop (ops ++ [InsertDefaultField]) b')
  end
  = Ok (mkConstLoop (ops ++ [const_op arr index])
          (marked b [position index (Z.of_nat (length arr))])).
Proof.
  intros Hint Hrange Hneg Hsmall Hroom. set (n := Z.of_nat (length arr)) in *.
  unfold const_op, position. fold n.
  destruct (decide (1 <= index <= n)) as [Hstart|Hnstart].
  - rewrite access_from_start by auto. cbv zeta.
    rewrite size_t_small by lia.
    change (observe b (index - 1)) with (tell b (Some (index - 1))).
    rewrite tell_marked by exact Hroom. reflexivity.
  - destruct (decide (- n <= index <= -1)) as [Hend|Hnend].
    + rewrite access_from_end by auto. cbv zeta.
      rewrite size_t_small by lia.
      change (observe b (n + index)) with (tell b (Some (n + index))).
      rewrite tell_marked by exact Hroom. reflexivity.
    + rewrite access_miss by (auto; lia).
      change (observe_miss b) with (tell b None).
      rewrite tell_marked by exact Hroom. reflexivity.
Qed.

Lemma const_loop TIndex (arr : Array) : forall indices i ops b,
  is_float TIndex = false -> Forall (in_range TIndex) indices ->
  Forall (negatable TIndex) indices ->
  Z.of_nat (length arr) < 2 ^ 63 -> roomy b (size indices) ->
  foldiM i
    (fun index (_ : Z) st =>
       match access TIndex index (Z.of_nat (length arr)) with
       | FromStart =>
           let j := size_t (index - 1) in
           b' ← observe (const_builder st) j;
           Ok (mkConstLoop (column_ops st ++ [Insert (arr !!! Z.to_nat j)]) b')
       | FromEnd =>
           let j := size_t (Z.of_nat (length arr) + index) in
           b' ← observe (const_builder st) j;
           Ok (mkConstLoop (column_ops st ++ [Insert (arr !!! Z.to_nat j)]) b')
       | Miss =>
           b' ← observe_miss (const_builder st);
           Ok (mkConstLoop (column_ops st ++ [InsertDefaultField]) b')
       end)
    indices (mkConstLoop ops b)
  = Ok (mkConstLoop (ops ++ (const_op arr <$> indices))
          (marked b ((fun k => position k (Z.of_nat (length arr))) <$> indices))).
Proof.
  induction indices as [|index rest IH]; intros i ops b Hint Hrange Hneg Hsmall Hroom.
  - simpl. rewrite app_nil_r, marked_nil by exact Hroom. reflexivity.
  - inversion Hrange as [|? ? Hin Hrange']; subst.
    inversion Hneg as [|? ? Hnegatable Hneg']; subst.
    assert (Hcons : size (index :: rest) = 1 + size rest)
      by (unfold size; simpl length; lia).
    rewrite Hcons in Hroom. pose proof (size_nonneg rest) as Hrest.
    assert (Hroom1 : roomy b 1).
    { intros Hactive. destruct (Hroom Hactive) as (? & ? & ?). lia. }
    cbn [foldiM]. cbn [column_ops const_builder].
    rewrite const_step by auto. simpl mbind. simpl Result_bind.
    rewrite IH; auto.
    + rewrite !fmap_cons, <- app_assoc. simpl app.
      rewrite (marked_app b [position index (Z.of_nat (length arr))]); [reflexivity|].
      simpl length. rewrite length_fmap.
      intros Hactive. destruct (Hroom Hactive) as (? & ? & ?).
      unfold size in *. repeat split; lia.
    + apply roomy_marked; [exact Hrest|].
      intros Hactive. destruct (Hroom Hactive) as (? & ? & ?).
      simpl length. repeat split; lia.
Qed.

Lemma executeConst_rows TIndex rt type (arr : Array) indices b :
  is_float TIndex = false -> Forall (in_range TIndex) indices ->
  Forall (negatable TIndex) indices ->
  Z.of_nat (length arr) < 2 ^ 63 -> roomy b (size indices) ->
  executeConst TIndex rt (ColumnConst (DataTypeArray type) (FArray arr) (size indices))
    indices b
  = Some (Ok (ColumnFromType (type_of rt) (const_op arr <$> indices),
              marked b ((fun k => position k (Z.of_nat (length arr))) <$> indices))).
Proof.
  intros Hint Hrange Hneg Hsmall Hroom. unfold executeConst.
  cbn [checkAndGetColumnConst_Array]. f_equal. cbv zeta.
  rewrite (for_rangeM_foldiM
             (fun index (_ : Z) st =>
                match access TIndex index (Z.of_nat (length arr)) with
                | FromStart =>
                    b' ← observe (const_builder st) (size_t (index - 1));
                    Ok (mkConstLoop
                          (column_ops st ++ [Insert (arr !!! Z.to_nat (size_t (index - 1)))])
                          b')
                | FromEnd =>
                    b' ← observe (const_builder st)
                           (size_t (Z.of_nat (length arr) + index));
                    Ok (mkConstLoop
                          (column_ops st
                             ++ [Insert (arr !!! Z.to_nat
                                                   (size_t (Z.of_nat (length arr) + index)))])
                          b')
                | Miss =>
                    b' ← observe_miss (const_builder st);
                    Ok (mkConstLoop (column_ops st ++ [InsertDefaultField]) b')
                end) indices).
  pose proof (const_loop TIndex arr indices 0 [] b Hint Hrange Hneg Hsmall Hroom) as Hloop.
  cbv zeta in Hloop. rewrite Hloop. reflexivity.
Qed.

Lemma perform_plain_const_array rt rows type arr s TIndex indices b :
  is_float TIndex = false ->
  perform_plain rt rows (ColumnConst (DataTypeArray type) (FArray arr) s)
    (ColumnVector TIndex indices) b
  = match executeConst TIndex rt (ColumnConst (DataTypeArray type) (FArray arr) s) indices
            (if active b then initSink b (size indices) else b) with
    | Some r => r
    | None => Throw ILLEGAL_COLUMN
    end.
Proof. intros Hint. destruct TIndex; try discriminate Hint; reflexivity. Qed.

(** X29. [arrayElement] on a constant array of [n] elements with an index
    per row: the result column is created from the result type and gets one
    call per row, [insert(arr[k - 1])] for an index [k] in [1, n],
    [insert(arr[n + k])] for [k] in [-n, -1] and [insertDefault()] for any
    other [k].  When the array holds a NULL, the result has a null overlay
    over the column created from the nested type: the mark of a row is 1
    when the element its index selects is NULL, and 0 otherwise, also for
    an index that selects none. *)
Theorem arrayElement_constant_array_rows result_type rows type arr TIndex indices :
  is_float TIndex = false -> Forall (in_range TIndex) indices ->
  Forall (negatable TIndex) indices -> Z.of_nat (length arr) < 2 ^ 63 ->
  let column := ColumnConst (DataTypeArray type) (FArray arr) (size indices) in
  (existsb isNull arr = false ->
   executeImpl result_type rows column (ColumnVector TIndex indices)
   = Ok (ColumnFromType result_type (const_op arr <$> indices)))
  /\ (existsb isNull arr = true ->
      executeImpl (DataTypeNullable result_type) rows column (ColumnVector TIndex indices)
      = Ok (ColumnNullable (ColumnFromType result_type (const_op arr <$> indices))
              (const_mark arr <$> indices))).
Proof.
  intros Hint Hrange Hneg Hsmall column. subst column. split; intros Hnull.
  - unfold executeImpl. cbn [checkAndGetColumnConst_Array]. rewrite Hnull.
    rewrite perform_plain_const_array by exact Hint. simpl active. cbv iota.
    rewrite executeConst_rows by (auto; intros Hactive; discriminate Hactive).
    reflexivity.
  - unfold executeImpl. cbn [checkAndGetColumnConst_Array]. rewrite Hnull.
    rewrite perform_plain_const_array by exact Hint.
    change (active (initSource_array empty arr)) with true. cbv iota.
    rewrite executeConst_rows; auto.
    + simpl mbind. simpl Result_bind. unfold getNullMap, marked. simpl.
      rewrite length_fmap.
      rewrite drop_ge, app_nil_r by (rewrite length_alloc; unfold size; lia).
      do 2 f_equal. rewrite <- list_fmap_compose. apply list_fmap_ext.
      intros _ k _. simpl. unfold const_mark, mark, is_null_at. simpl.
      destruct (position k (Z.of_nat (length arr))) as [j|] eqn:Hpos; [|reflexivity].
      apply position_range in Hpos.
      destruct (Z.ltb_spec j (Z.of_nat (length arr))); [reflexivity|lia].
    + intros _. simpl. unfold size. rewrite length_alloc. lia.
Qed.

End ConstantArrayRows.

(** The constant array [10, NULL] read at the indices 1, -1 and 3. *)
Lemma arrayElement_constant_array_rows_witness :
  @FunctionArrayElement.executeImpl zero_memory scalar_fields scalar_defaults
    (DataTypeNullable (DataTypeNumber UInt8)) 3
    (ColumnConst (DataTypeArray (DataTypeNullable (DataTypeNumber UInt8)))
       (FArray [FUInt64 10; Null]) 3)
    (ColumnVector Int8 [1; -1; 3])
  = Ok (ColumnNullable
          (ColumnFromType (DataTypeNumber UInt8)
             [Insert (FUInt64 10); Insert Null; InsertDefaultField])
          [0; 1; 0]).
Proof.
  apply (proj2 (@arrayElement_constant_array_rows zero_memory scalar_fields scalar_defaults
                  (DataTypeNumber UInt8) 3 (DataTypeNullable (DataTypeNumber UInt8))
                  [FUInt64 10; Null] Int8 [1; -1; 3] eq_refl
                  ltac:(repeat constructor; unfold in_range; simpl; lia)
                  ltac:(repeat constructor)
                  ltac:(simpl; lia))
          eq_refl).
Defined.

(** ** [arrayReverse] twice on strings *)

Lemma fmap_concat {A B} (f : A -> B) (ls : list (list A)) :
  f <$> concat ls = concat ((fun l : list A => f <$> l) <$> ls).
Proof.
  induction ls as [|l ls IH]; [reflexivity|].
  rewrite fmap_cons. cbn [concat]. rewrite fmap_app, IH. reflexivity.
Qed.

Lemma concat_concat {A} (ls : list (list (list A))) :
  concat (concat ls) = concat ((fun l : list (list A) => concat l) <$> ls).
Proof.
  induction ls as [|l ls IH]; [reflexivity|].
  rewrite fmap_cons. cbn [concat]. rewrite concat_app, IH. reflexivity.
Qed.

(** The rows of an array column, read cell by cell. *)
Lemma array_rows_get offsets l :
  array_ok offsets (size l) ->
  array_rows offsets l
  = (fun b => get l <$> seqZ (fst b) (snd b - fst b)) <$> row_bounds 0 offsets.
Proof.
  intros [_ Hok]. rewrite array_rows_slices.
  apply offsets_ok_bounds in Hok as [_ Hall].
  apply Forall_fmap_ext_1. eapply Forall_impl; [exact Hall|].
  intros [p o] Hb. simpl. unfold slice. symmetry. apply get_seqZ; lia.
Qed.

Lemma size_seqZ a n : 0 <= n -> size (seqZ a n) = n.
Proof. intros Hn. unfold size. rewrite length_seqZ. lia. Qed.

Lemma get_iota m j : 0 <= j < m -> get (seqZ 0 m) j = j.
Proof. intros Hj. unfold get. rewrite lookup_total_seqZ_lt by lia. lia. Qed.

(** The indices of the cells of an array column of [m] cells, every row in
    the opposite order. *)
Lemma reversed_iota offsets m :
  array_ok offsets m ->
  reversed_rows offsets (seqZ 0 m)
  = concat ((fun b => reverse (seqZ (fst b) (snd b - fst b))) <$> row_bounds 0 offsets).
Proof.
  intros Hok. pose proof Hok as [_ Hoffs].
  apply offsets_ok_bounds in Hoffs as [Hm Hall].
  unfold reversed_rows. rewrite array_rows_get by (rewrite size_seqZ by lia; exact Hok).
  rewrite <- list_fmap_compose. f_equal.
  apply Forall_fmap_ext_1. eapply Forall_impl; [exact Hall|].
  intros [p o] Hb. simpl. f_equal.
  rewrite <- (list_fmap_id (seqZ p (o - p))) at 2.
  apply Forall_fmap_ext_1, Forall_forall. intros j Hj.
  apply elem_of_seqZ in Hj. unfold id. apply get_iota. lia.
Qed.

Lemma reversed_iota_range offsets m :
  array_ok offsets m -> Forall (fun j => 0 <= j < m) (reversed_rows offsets (seqZ 0 m)).
Proof.
  intros Hok. rewrite reversed_iota by exact Hok.
  destruct Hok as [_ Hoffs]. apply offsets_ok_bounds in Hoffs as [Hm Hall].
  apply Forall_concat, Forall_fmap.
  eapply Forall_impl; [exact Hall|]. intros [p o] Hb. simpl.
  apply Forall_reverse, Forall_forall. intros j Hj. apply elem_of_seqZ in Hj. lia.
Qed.

(** Reversing the rows of a column is reading it at the reversed indices. *)
Lemma reversed_rows_get offsets l :
  array_ok offsets (size l) ->
  reversed_rows offsets l = get l <$> reversed_rows offsets (seqZ 0 (size l)).
Proof.
  intros Hok. rewrite reversed_iota by exact Hok.
  unfold reversed_rows. rewrite array_rows_get by exact Hok.
  rewrite fmap_concat, <- !list_fmap_compose. f_equal.
  apply list_fmap_ext. intros _ [p o] _. simpl. symmetry. apply fmap_reverse.
Qed.

Lemma reversed_iota_involutive offsets m :
  array_ok offsets m ->
  get (reversed_rows offsets (seqZ 0 m)) <$> reversed_rows offsets (seqZ 0 m) = seqZ 0 m.
Proof.
  intros Hok. pose proof Hok as [_ Hoffs].
  apply offsets_ok_bounds in Hoffs as [Hm _].
  assert (Hiota : array_ok offsets (size (seqZ 0 m))) by (rewrite size_seqZ by lia; exact Hok).
  assert (Hsize : size (reversed_rows offsets (seqZ 0 m)) = m).
  { rewrite size_reversed_rows by exact Hiota. apply size_seqZ. lia. }
  rewrite <- Hsize at 2. rewrite <- reversed_rows_get by (rewrite Hsize; exact Hok).
  apply reversed_rows_involutive. exact Hiota.
Qed.

(** The strings of a string column are the rows its offsets cut out of its
    bytes. *)
Lemma stored_strings_rows chars so :
  stored_string chars so <$> seqZ 0 (size so) = array_rows so chars.
Proof.
  rewrite array_rows_slices. apply list_eq. intros i. rewrite !list_lookup_fmap.
  destruct (decide (i < length so)%nat) as [Hi|Hi].
  - rewrite lookup_seqZ_lt by (unfold size; lia).
    rewrite row_bounds_get by exact Hi. simpl. f_equal.
    unfold stored_string, offsetAt, get. rewrite Z.add_0_l, Nat2Z.id.
    destruct i as [|i]; [reflexivity|].
    destruct (Z.eqb_spec (Z.of_nat (Datatypes.S i)) 0); [lia|].
    replace (Z.to_nat (Z.of_nat (Datatypes.S i) - 1)) with i by lia. reflexivity.
  - rewrite lookup_seqZ_ge by (unfold size; lia).
    rewrite lookup_ge_None_2 by (rewrite length_row_bounds; lia). reflexivity.
Qed.

(** Row [j] of the column that holds the strings [strs] one after the
    other is [strs[j]]. *)
Lemma stored_string_concat (strs : list (list Z)) j :
  0 <= j < Z.of_nat (length strs) ->
  stored_string (concat strs) (offsets_from 0 (size <$> strs)) j = strs !!! Z.to_nat j.
Proof.
  intros Hj.
  pose proof (stored_strings_rows (concat strs) (offsets_from 0 (size <$> strs))) as Hrows.
  rewrite array_rows_concat in Hrows.
  apply (f_equal (fun l => l !! Z.to_nat j)) in Hrows.
  rewrite list_lookup_fmap, lookup_seqZ_lt in Hrows
    by (unfold size; rewrite length_offsets_from, length_fmap; lia).
  simpl in Hrows. rewrite Z.add_0_l, Z2Nat.id in Hrows by lia.
  symmetry. apply list_lookup_total_correct. symmetry. exact Hrows.
Qed.

Lemma stored_string_size chars so j :
  offsets_ok 0 so (size chars) -> 0 <= j < size so ->
  size (stored_string chars so j) = get so j - offsetAt so j.
Proof.
  intros Hso Hj. pose proof (offsetAt_bounds so (size chars) j Hso Hj).
  unfold stored_string. apply size_slice; lia.
Qed.

(** The result of [arrayReverse] holds the strings of the source at the
    reversed indices. *)
Lemma reversed_strings_perm chars so offsets :
  array_ok offsets (size so) -> offsets_ok 0 so (size chars) ->
  reversed_strings chars so offsets
  = ColumnString
      (concat (stored_string chars so <$> reversed_rows offsets (seqZ 0 (size so))))
      (offsets_from 0
         (size <$> (stored_string chars so <$> reversed_rows offsets (seqZ 0 (size so))))).
Proof.
  intros Hok Hso. pose proof Hok as [_ Hoffs].
  apply offsets_ok_bounds in Hoffs as [_ Hall].
  rewrite reversed_iota by exact Hok. unfold reversed_strings.
  rewrite !fmap_concat, concat_concat, <- !list_fmap_compose. f_equal.
  - f_equal. apply list_fmap_ext. intros _ [p o] _. simpl.
    rewrite fmap_reverse. reflexivity.
  - do 2 f_equal. apply Forall_fmap_ext_1. eapply Forall_impl; [exact Hall|].
    intros [p o] Hb. simpl. rewrite !fmap_reverse. f_equal.
    rewrite <- list_fmap_compose. apply Forall_fmap_ext_1, Forall_forall.
    intros j Hj. apply elem_of_seqZ in Hj. simpl.
    symmetry. apply stored_string_size; [exact Hso|lia].
Qed.

Lemma size_reversed_strings chars so offsets : forall prev,
  offsets_ok 0 so (size chars) -> offsets_ok prev offsets (size so) -> 0 <= prev ->
  size (concat ((fun b => concat (reverse (stored_string chars so
                                             <$> seqZ (fst b) (snd b - fst b))))
                  <$> row_bounds prev offsets))
  = size chars - offsetAt so prev.
Proof.
  induction offsets as [|off rest IH]; intros prev Hso Hok Hprev.
  - simpl in Hok. subst prev. rewrite (offsetAt_size so (size chars) Hso).
    simpl. change (size []) with 0. lia.
  - destruct Hok as [Hle Hok]. pose proof (offsets_ok_bounds _ _ _ Hok) as [Hoff _].
    cbn [row_bounds]. rewrite fmap_cons. cbn [concat fst snd].
    rewrite size_app, IH by (auto; lia).
    replace (off - prev) with (Z.of_nat (Z.to_nat (off - prev))) by lia.
    rewrite size_reversed_string_row by (auto; lia).
    replace (prev + Z.of_nat (Z.to_nat (off - prev))) with off by lia. lia.
Qed.

(** Reversing the rows of strings twice gives back the column. *)
Lemma reversed_strings_involutive chars so offsets :
  array_ok offsets (size so) -> array_ok so (size chars) ->
  exists chars' so',
    reversed_strings chars so offsets = ColumnString chars' so'
    /\ array_ok offsets (size so') /\ array_ok so' (size chars')
    /\ reversed_strings chars' so' offsets = ColumnString chars so.
Proof.
  intros Hok [Hchars Hso].
  set (m := size so) in *. set (perm := reversed_rows offsets (seqZ 0 m)).
  set (strs := stored_string chars so <$> perm).
  pose proof Hok as [Hm Hoffs]. pose proof (offsets_ok_bounds _ _ _ Hoffs) as [Hm0 _].
  assert (Hiota : array_ok offsets (size (seqZ 0 m)))
    by (rewrite size_seqZ by lia; exact Hok).
  assert (Hperm_size : size perm = m).
  { unfold perm. rewrite size_reversed_rows by exact Hiota. apply size_seqZ. lia. }
  assert (Hstrs_len : Z.of_nat (length strs) = m).
  { unfold strs. rewrite length_fmap. exact Hperm_size. }
  assert (Hsize_so' : size (offsets_from 0 (size <$> strs)) = m).
  { unfold size. rewrite length_offsets_from, length_fmap. exact Hstrs_len. }
  pose proof (reversed_strings_perm chars so offsets Hok Hso) as Hfirst.
  fold m perm strs in Hfirst.
  assert (Hbytes : size (concat strs) = size chars).
  { pose proof (size_reversed_strings chars so offsets 0 Hso Hoffs ltac:(lia)) as Hsz.
    change (offsetAt so 0) with 0 in Hsz. rewrite Z.sub_0_r in Hsz.
    unfold reversed_strings in Hfirst. injection Hfirst as Hc _. rewrite <- Hc. exact Hsz. }
  assert (Hso' : offsets_ok 0 (offsets_from 0 (size <$> strs)) (size (concat strs))).
  { rewrite size_concat_lengths.
    apply (offsets_from_ok (size <$> strs) 0), Forall_fmap, Forall_forall.
    intros str _. apply size_nonneg. }
  exists (concat strs), (offsets_from 0 (size <$> strs)).
  split; [exact Hfirst|]. split; [rewrite Hsize_so'; exact Hok|].
  split; [split; [rewrite Hbytes; exact Hchars|exact Hso']|].
  rewrite reversed_strings_perm by (try rewrite Hsize_so'; auto).
  rewrite Hsize_so'. fold perm.
  assert (Hback : stored_string (concat strs) (offsets_from 0 (size <$> strs)) <$> perm
                  = array_rows so chars).
  { rewrite <- stored_strings_rows. fold m.
    rewrite <- (reversed_iota_involutive offsets m Hok). fold perm.
    rewrite <- list_fmap_compose.
    apply Forall_fmap_ext_1.
    eapply Forall_impl; [apply (reversed_iota_range offsets m Hok)|].
    intros j Hj. simpl in Hj |- *. rewrite stored_string_concat by lia.
    unfold strs.
    rewrite (list_lookup_total_fmap (stored_string chars so) perm)
      by (unfold size in Hperm_size; lia).
    reflexivity. }
  rewrite Hback. f_equal.
  - unfold array_rows. rewrite (concat_rows_from chars so 0) by (auto; lia). reflexivity.
  - rewrite size_array_rows by (split; assumption). apply offsets_from_bounds.
Qed.

Section ReverseStringsTwice.
Import FunctionArrayReverse.
Context `{Memory}.

Lemma reverse_executeImpl_strings type rows chars so offsets :
  array_ok offsets (size so) -> array_ok so (size chars) ->
  executeImpl type rows (ColumnArray (ColumnString chars so) offsets)
  = Ok (ColumnArray (reversed_strings chars so offsets) offsets).
Proof.
  intros Hok Hso.
  destruct (reverse_executeString chars so offsets None Hok Hso)
    as (res_null_map & Hrun & Hnone & _).
  rewrite (Hnone eq_refl) in Hrun.
  unfold executeImpl. cbn [executeConst checkAndGetColumnConst_Array].
  cbn [first_true fmap list_fmap number_types app executeNumber].
  rewrite Hrun. reflexivity.
Qed.

(** X30. For an array column of strings without a null overlay,
    [arrayReverse] of [arrayReverse] of the column is the column: the bytes
    of the strings, their offsets and the offsets of the rows are
    restored. *)
Theorem arrayReverse_twice_strings type rows chars string_offsets offsets :
  array_ok offsets (size string_offsets) -> array_ok string_offsets (size chars) ->
  executeImpl type rows (ColumnArray (ColumnString chars string_offsets) offsets)
    ≫= executeImpl type rows
  = Ok (ColumnArray (ColumnString chars string_offsets) offsets).
Proof.
  intros Hok Hso.
  destruct (reversed_strings_involutive chars string_offsets offsets Hok Hso)
    as (chars' & so' & Hfirst & Hok' & Hso' & Hsecond).
  rewrite reverse_executeImpl_strings by assumption. rewrite Hfirst. simpl mbind.
  simpl Result_bind.
  rewrite reverse_executeImpl_strings by assumption. rewrite Hsecond. reflexivity.
Qed.

End ReverseStringsTwice.

(** The rows ['a', 'bc'] and ['d']. *)
Lemma arrayReverse_twice_strings_witness :
  let column := ColumnArray (ColumnString [97; 0; 98; 99; 0; 100; 0] [2; 5; 7]) [2; 3] in
  @FunctionArrayReverse.executeImpl zero_memory (DataTypeArray DataTypeString) 2 column
  = Ok (ColumnArray (ColumnString [98; 99; 0; 97; 0; 100; 0] [3; 5; 7]) [2; 3])
  /\ @FunctionArrayReverse.executeImpl zero_memory (DataTypeArray DataTypeString) 2 column
       ≫= @FunctionArrayReverse.executeImpl zero_memory (DataTypeArray DataTypeString) 2
     = Ok column.
Proof.
  intros column. split; [reflexivity|].
  apply (@arrayReverse_twice_strings zero_memory (DataTypeArray DataTypeString) 2
           [97; 0; 98; 99; 0; 100; 0] [2; 5; 7] [2; 3]
           ltac:(unfold array_ok, size; simpl; lia)
           ltac:(unfold array_ok, size; simpl; lia)).
Defined.

(** ** [arrayReverse] twice on fixed strings *)

(** A column of [m] fixed strings of [n] bytes is a string column whose
    offsets are the multiples of [n]. *)
Lemma lookup_offsets_from_replicate n : forall k prev j,
  (j < k)%nat ->
  offsets_from prev (replicate k n) !! j = Some (prev + (Z.of_nat j + 1) * n).
Proof.
  induction k as [|k IH]; intros prev j Hj; [lia|].
  destruct j as [|j]; simpl.
  - f_equal. lia.
  - rewrite IH by lia. f_equal. lia.
Qed.

Lemma get_offsets_from_replicate n k j :
  0 <= j < Z.of_nat k -> get (offsets_from 0 (replicate k n)) j = (j + 1) * n.
Proof.
  intros Hj. unfold get. apply list_lookup_total_correct.
  rewrite (lookup_offsets_from_replicate n k 0 (Z.to_nat j)) by lia.
  rewrite Z2Nat.id by lia. reflexivity.
Qed.

Lemma offsetAt_offsets_from_replicate n k j :
  0 <= j < Z.of_nat k -> offsetAt (offsets_from 0 (replicate k n)) j = j * n.
Proof.
  intros Hj. unfold offsetAt. destruct (Z.eqb_spec j 0) as [->|Hne]; [lia|].
  rewrite get_offsets_from_replicate by lia. lia.
Qed.

Lemma fixed_string_stored n chars m j :
  0 <= j < m ->
  stored_string chars (offsets_from 0 (replicate (Z.to_nat m) n)) j = fixed_string n chars j.
Proof.
  intros Hj. unfold stored_string, fixed_string.
  rewrite get_offsets_from_replicate, offsetAt_offsets_from_replicate by lia.
  f_equal. lia.
Qed.

Lemma concat_replicate_rows (n : Z) offsets : forall prev m,
  offsets_ok prev offsets m -> 0 <= prev ->
  concat ((fun b : Z * Z => replicate (Z.to_nat (snd b - fst b)) n) <$> row_bounds prev offsets)
  = replicate (Z.to_nat (m - prev)) n.
Proof.
  induction offsets as [|off rest IH]; intros prev m Hok Hprev.
  - simpl in Hok. subst m. rewrite Z.sub_diag. reflexivity.
  - destruct Hok as [Hle Hok]. pose proof (offsets_ok_bounds _ _ _ Hok) as [Hoff _].
    cbn [row_bounds]. rewrite fmap_cons. cbn [concat fst snd].
    rewrite (IH off m) by (auto; lia). rewrite <- replicate_add. f_equal. lia.
Qed.

(** [arrayReverse] on fixed strings, seen as [arrayReverse] on that string
    column. *)
Lemma reversed_fixed_as_strings n chars offsets m :
  0 < n -> array_ok offsets m -> size chars = m * n ->
  reversed_strings chars (offsets_from 0 (replicate (Z.to_nat m) n)) offsets
  = ColumnString (reversed_fixed_rows n offsets chars)
      (offsets_from 0 (replicate (Z.to_nat m) n)).
Proof.
  intros Hn [Hm Hok] Hchars. pose proof (offsets_ok_bounds _ _ _ Hok) as [Hm0 Hall].
  unfold reversed_strings, reversed_fixed_rows. f_equal.
  - f_equal. apply Forall_fmap_ext_1. eapply Forall_impl; [exact Hall|].
    intros [p o] Hb. simpl. do 2 f_equal.
    apply Forall_fmap_ext_1, Forall_forall. intros j Hj. apply elem_of_seqZ in Hj.
    apply (fixed_string_stored n chars m). lia.
  - f_equal. pose proof (concat_replicate_rows n offsets 0 m Hok ltac:(lia)) as Hrep.
    rewrite Z.sub_0_r in Hrep. etransitivity; [|exact Hrep]. f_equal.
    apply Forall_fmap_ext_1. eapply Forall_impl; [exact Hall|].
    intros [p o] Hb. simpl.
    rewrite <- (reverse_replicate (Z.to_nat (o - p)) n). f_equal.
    apply list_eq. intros i. rewrite list_lookup_fmap.
    destruct (decide (i < Z.to_nat (o - p))%nat) as [Hi|Hi].
    + rewrite lookup_seqZ_lt by lia. rewrite lookup_replicate_2 by lia. simpl. f_equal.
      rewrite get_offsets_from_replicate, offsetAt_offsets_from_replicate by lia. lia.
    + rewrite lookup_seqZ_ge by lia.
      rewrite lookup_ge_None_2 by (rewrite length_replicate; lia). reflexivity.
Qed.

Lemma reversed_fixed_rows_involutive n chars offsets m :
  0 < n -> array_ok offsets m -> size chars = m * n -> size chars < 2 ^ 64 ->
  size (reversed_fixed_rows n offsets chars) = m * n
  /\ reversed_fixed_rows n offsets (reversed_fixed_rows n offsets chars) = chars.
Proof.
  intros Hn Hok Hchars Hsmall.
  pose proof Hok as [Hm Hoffs]. pose proof (offsets_ok_bounds _ _ _ Hoffs) as [Hm0 _].
  set (so := offsets_from 0 (replicate (Z.to_nat m) n)).
  assert (Hsize : size so = m).
  { unfold so, size. rewrite length_offsets_from, length_replicate. lia. }
  assert (Hso : offsets_ok 0 so (size chars)).
  { pose proof (offsets_from_ok (replicate (Z.to_nat m) n) 0) as Hfrom.
    rewrite total_replicate, Z2Nat.id, Z.add_0_l, <- Hchars in Hfrom by lia.
    apply Hfrom, Forall_replicate. lia. }
  destruct (reversed_strings_involutive chars so offsets
              ltac:(rewrite Hsize; exact Hok) (conj Hsmall Hso))
    as (chars' & so' & Hfirst & _ & [_ Hso'] & Hsecond).
  unfold so in Hfirst. rewrite (reversed_fixed_as_strings n chars offsets m) in Hfirst
    by assumption.
  injection Hfirst as <- <-. fold so in Hso', Hsecond.
  assert (Hsize' : size (reversed_fixed_rows n offsets chars) = m * n).
  { rewrite <- (offsetAt_size so _ Hso'), (offsetAt_size so _ Hso). exact Hchars. }
  split; [exact Hsize'|].
  unfold so in Hsecond.
  rewrite (reversed_fixed_as_strings n _ offsets m) in Hsecond by assumption.
  injection Hsecond as Hback. exact Hback.
Qed.

Section ReverseFixedStringsTwice.
Import FunctionArrayReverse.
Context `{Memory}.

(** X23. For an array column of fixed strings, with or without a null
    overlay, [arrayReverse] of [arrayReverse] of the column is the column:
    the bytes of the strings, the offsets and the null map are restored. *)
Theorem arrayReverse_twice_fixed_strings type rows n chars offsets m :
  0 < n -> array_ok offsets m -> size chars = m * n -> size chars < 2 ^ 64 ->
  executeImpl type rows (ColumnArray (ColumnFixedString n chars) offsets)
    ≫= executeImpl type rows
  = Ok (ColumnArray (ColumnFixedString n chars) offsets)
  /\ forall null_map,
       size null_map = m ->
       executeImpl type rows
         (ColumnArray (ColumnNullable (ColumnFixedString n chars) null_map) offsets)
         ≫= executeImpl type rows
       = Ok (ColumnArray (ColumnNullable (ColumnFixedString n chars) null_map) offsets).
Proof.
  intros Hn Hok Hchars Hsmall.
  destruct (reversed_fixed_rows_involutive n chars offsets m Hn Hok Hchars Hsmall)
    as [Hsize Hback].
  assert (Hrun : forall chars0 nullable_col,
            size chars0 = m * n ->
            match nullable_col with Some null_map => size null_map = m | None => True end ->
            executeImpl type rows
              (ColumnArray
                 (match nullable_col with
                  | Some null_map => ColumnNullable (ColumnFixedString n chars0) null_map
                  | None => ColumnFixedString n chars0
                  end) offsets)
            = Ok (ColumnArray
                    (match nullable_col with
                     | Some null_map =>
                         ColumnNullable
                           (ColumnFixedString n (reversed_fixed_rows n offsets chars0))
                           (reversed_rows offsets null_map)
                     | None => ColumnFixedString n (reversed_fixed_rows n offsets chars0)
                     end) offsets)).
  { intros chars0 nullable_col Hchars0 Hnull.
    pose proof (reverse_executeFixedString n chars0 offsets m nullable_col Hn Hok Hchars0
                  ltac:(rewrite Hchars0, <- Hchars; exact Hsmall) Hnull) as Hfixed.
    destruct nullable_col as [null_map|];
      unfold executeImpl; cbn [executeConst checkAndGetColumnConst_Array];
      cbn [first_true fmap list_fmap number_types app executeNumber executeString];
      rewrite Hfixed; reflexivity. }
  split; [|intros null_map Hnull].
  - rewrite (Hrun chars None Hchars I). simpl mbind. simpl Result_bind.
    rewrite (Hrun _ None Hsize I), Hback. reflexivity.
  - assert (Hok_null : array_ok offsets (size null_map)) by (rewrite Hnull; exact Hok).
    rewrite (Hrun chars (Some null_map) Hchars Hnull). simpl mbind. simpl Result_bind.
    rewrite (Hrun _ (Some (reversed_rows offsets null_map)) Hsize).
    + rewrite Hback, reversed_rows_involutive by exact Hok_null. reflexivity.
    + rewrite size_reversed_rows by exact Hok_null. exact Hnull.
Qed.

End ReverseFixedStringsTwice.

(** The rows ['ab', 'cd'] and ['ef'] of strings of two bytes, the second
    string null. *)
Lemma arrayReverse_twice_fixed_strings_witness :
  let column :=
    ColumnArray (ColumnNullable (ColumnFixedString 2 [97; 98; 99; 100; 101; 102]) [0; 1; 0])
      [2; 3] in
  @FunctionArrayReverse.executeImpl zero_memory
    (DataTypeArray (DataTypeNullable (DataTypeFixedString 2))) 2 column
  = Ok (ColumnArray
          (ColumnNullable (ColumnFixedString 2 [99; 100; 97; 98; 101; 102]) [1; 0; 0])
          [2; 3])
  /\ @FunctionArrayReverse.executeImpl zero_memory
       (DataTypeArray (DataTypeNullable (DataTypeFixedString 2))) 2 column
       ≫= @FunctionArrayReverse.executeImpl zero_memory
            (DataTypeArray (DataTypeNullable (DataTypeFixedString 2))) 2
     = Ok column.
Proof.
  intros column. split; [reflexivity|].
  apply (proj2 (@arrayReverse_twice_fixed_strings zero_memory
                  (DataTypeArray (DataTypeNullable (DataTypeFixedString 2))) 2 2
                  [97; 98; 99; 100; 101; 102] [2; 3] 3
                  ltac:(lia) ltac:(unfold array_ok; simpl; lia) eq_refl
                  ltac:(unfold size; simpl; lia))
          [0; 1; 0] eq_refl).
Defined.

(** ** The element type of an array built from values *)

Section ElementType.
Context `{IDataType.Methods} `{DataTypeTraits.Functions}.

Lemma identical_from_named name args :
  name <> [] -> identical_from name args = true ->
  Forall (fun a => IDataType.isNull a = false -> observed_name a = name) args.
Proof.
  intros Hname. induction args as [|arg rest IH]; intros Hrun; [constructor|].
  simpl in Hrun. destruct (IDataType.isNull arg) eqn:Hnull; simpl in Hrun.
  - constructor; [intros; congruence|]. exact (IH Hrun).
  - destruct (decide (name = [])) as [|_]; [contradiction|].
    destruct (decide (IDataType.getName (DataTypeTraits.removeNullable arg) <> name))
      as [|Hsame]; [discriminate|].
    constructor; [|exact (IH Hrun)].
    intros _. unfold observed_name.
    destruct (decide (IDataType.getName (DataTypeTraits.removeNullable arg) = name));
      [assumption|contradiction].
Qed.

Lemma identical_from_start args :
  (forall type, IDataType.getName type <> []) ->
  identical_from [] args = true ->
  forall a b, a ∈ args -> b ∈ args ->
    IDataType.isNull a = false -> IDataType.isNull b = false ->
    observed_name a = observed_name b.
Proof.
  intros Hnames. induction args as [|arg rest IH]; intros Hrun a b Ha Hb Hna Hnb.
  - inversion Ha.
  - simpl in Hrun. destruct (IDataType.isNull arg) eqn:Hnull; simpl in Hrun.
    + apply elem_of_cons in Ha as [->|Ha]; [congruence|].
      apply elem_of_cons in Hb as [->|Hb]; [congruence|].
      exact (IH Hrun a b Ha Hb Hna Hnb).
    + destruct (decide (@nil Z = [])) as [_|]; [|contradiction].
      pose proof (identical_from_named _ rest (Hnames _) Hrun) as Hall.
      rewrite Forall_forall in Hall.
      assert (Hone : forall c, c ∈ arg :: rest -> IDataType.isNull c = false ->
                observed_name c = observed_name arg).
      { intros c Hc Hnc. apply elem_of_cons in Hc as [->|Hc]; [reflexivity|].
        exact (Hall c Hc Hnc). }
      rewrite (Hone a Ha Hna), (Hone b Hb Hnb). reflexivity.
Qed.

Lemma scan_from_result args found_null ret :
  match scan_from found_null ret args with
  | Broke type =>
      type ∈ args /\ IDataType.isNull type = false /\ IDataType.isNullable type = true
  | Finished found ret' =>
      found = found_null || existsb IDataType.isNull args
      /\ Forall (fun a => IDataType.isNull a = false -> IDataType.isNullable a = false) args
      /\ ((ret' = ret /\ Forall (fun a => IDataType.isNull a = true) args)
          \/ exists a, ret' = Some a /\ a ∈ args /\ IDataType.isNull a = false)
  end.
Proof.
  revert found_null ret.
  induction args as [|type rest IH]; intros found_null ret; simpl.
  - rewrite orb_false_r. repeat split; [constructor|]. left. split; [reflexivity|constructor].
  - destruct (IDataType.isNull type) eqn:Hnull.
    + specialize (IH true ret). destruct (scan_from true ret rest) as [t|found ret'].
      * destruct IH as (Hin & Hn & Hnullable). repeat split; [|assumption..].
        apply elem_of_cons. right. exact Hin.
      * destruct IH as (Hfound & Hplain & Hret). simpl in Hfound.
        rewrite orb_true_r. repeat split; [exact Hfound| |].
        { constructor; [congruence|exact Hplain]. }
        destruct Hret as [[-> Hall]|(a & -> & Hin & Hn)].
        { left. split; [reflexivity|]. constructor; assumption. }
        { right. exists a. repeat split; [|assumption].
          apply elem_of_cons. right. exact Hin. }
    + destruct (IDataType.isNullable type) eqn:Hnullable.
      * repeat split; [|assumption..]. apply elem_of_cons. left. reflexivity.
      * specialize (IH found_null (Some type)).
        destruct (scan_from found_null (Some type) rest) as [t|found ret'].
        { destruct IH as (Hin & Hn & Hnb). repeat split; [|assumption..].
          apply elem_of_cons. right. exact Hin. }
        { destruct IH as (Hfound & Hplain & Hret). simpl.
          repeat split; [exact Hfound| |].
          { constructor; [intros _; exact Hnullable|exact Hplain]. }
          right. destruct Hret as [[-> Hall]|(a & -> & Hin & Hn)].
          { exists type. repeat split; [|assumption]. apply elem_of_cons. left. reflexivity. }
          { exists a. repeat split; [|assumption]. apply elem_of_cons. right. exact Hin. } }
Qed.

(** [foundNumericType] answers for the first argument that is not [Null],
    and says no when every argument is. *)
Lemma foundNumericType_first nulls arg rest :
  Forall (fun a => IDataType.isNull a = true) nulls ->
  Forall (fun a => IDataType.behavesAsNumber a = false) nulls ->
  IDataType.isNull arg = false ->
  foundNumericType (nulls ++ arg :: rest) = IDataType.behavesAsNumber arg.
Proof.
  intros Hnulls Hplain Harg. induction Hnulls as [|a nulls Ha Hnulls IH]; simpl.
  - rewrite Harg. simpl. destruct (IDataType.behavesAsNumber arg); reflexivity.
  - inversion Hplain as [|? ? Hpa Hprest]; subst.
    rewrite Hpa, Ha. simpl. exact (IH Hprest).
Qed.


End ElementType.

